(** * anlffr.spectral: multitaper spectral estimators and their cPCA variants

    A shallow embedding of [anlffr/spectral.py].

    Numbers.  The frequency grid is computed over the rationals [Q]; spectral
    values are computed over the reals [R] and the complex numbers built on
    them, which is the exact-arithmetic reading of NumPy's float64 and
    complex128: rounding and overflow are not modelled.  A float that is not
    finite is modelled as [None].

    Collaborators.  [dpss_windows] lives in a sibling module and is taken as a
    parameter; NumPy's random source is made explicit as the draws it
    returns; [np.fft.rfft], [np.fft.irfft], [np.fft.fftfreq] and [np.cov] are
    written out from their definitions; [scipy.linalg.eigh] is modelled by
    its contract, its [check_finite] default included.  The library names
    the module uses ([np.complex], [sci.pi], [sci.exp]) are read as in the
    library versions it was written for. *)

From Stdlib Require Import String Ascii.
From Stdlib Require Import List Bool Arith ZArith QArith Qabs Lia Sorted.
From Stdlib Require Import Reals Lra Epsilon.
Import ListNotations.

Set Implicit Arguments.

(** ** Exceptions and the error monad *)

Inductive exn : Type :=
| ShapeError          (* rank dispatch fell through: the error is logged and
                         the unbound [timedim] aborts the call *)
| OverflowError       (* ceil(log2(0)) *)
| ZeroDivisionError   (* 1/Fs with Fs = 0, or fftfreq(0, d) *)
| ValueError          (* linalg.eigh on a matrix holding NaN (check_finite) *)
| IndexError          (* vals[-1] on an empty eigenvalue list *)
| KeyError.           (* params[...] on an absent key *)

Inductive outcome (A : Type) : Type :=
| Ok (a : A)
| Raise (e : exn).
Arguments Ok {A} a.
Arguments Raise {A} e.

Definition bind {A B} (m : outcome A) (k : A -> outcome B) : outcome B :=
  match m with
  | Ok a => k a
  | Raise e => Raise e
  end.

Notation "x <- m ;; k" := (bind m (fun x => k))
  (at level 61, m at next level, right associativity).
Notation "' p <- m ;; k" := (bind m (fun x => match x with p => k end))
  (at level 61, p pattern, m at next level, right associativity).

(** ** NumPy arrays: a shape and a row-major buffer *)

Record ndarray (A : Type) : Type := mkarr {
  shape : list nat;
  data : list A
}.
Arguments mkarr {A} shape data.

(** [a.squeeze()]: every axis of length one is removed; the buffer is shared. *)
Definition squeeze {A} (a : ndarray A) : ndarray A :=
  mkarr (filter (fun d => negb (d =? 1)) (shape a)) (data a).

(** Boolean-mask indexing [l[m]]. *)
Fixpoint mask {A} (m : list bool) (l : list A) : list A :=
  match m, l with
  | b :: m', a :: l' => if b then a :: mask m' l' else mask m' l'
  | _, _ => []
  end.

(** ** The parameter dictionary

    Keys every estimator reads are fields; keys looked up under a guard
    ([in params], [try ... except KeyError]) are options. *)

Record params : Type := mkparams {
  Fs : Q;
  tapers : Q * nat;                       (* [TW, ntaps] *)
  fpass : Q * Q;
  itc : bool;
  Npairs : nat;
  nfft : option Z;
  bootstrapMode : option bool;
  returnEigenvectors : option bool;
  pcaComponentNumber : option (list Z)
}.

(** ** FrequencyGrid: [_get_freq_vector] *)

Module FrequencyGrid.

Local Open Scope Q_scope.

(** [np.fft.fftfreq(n, d)]: [results[:N] = arange(0, N)],
    [results[N:] = arange(-(n//2), 0)], all scaled by [1.0/(n*d)]. *)
Definition fftfreq (n : nat) (d : Q) : list Q :=
  let val := 1 / (inject_Z (Z.of_nat n) * d) in
  let N := ((n - 1) / 2 + 1)%nat in
  map (fun k => inject_Z k * val)
      (map Z.of_nat (seq 0 N) ++
       map (fun j => (Z.of_nat j - Z.of_nat (n / 2))%Z) (seq 0 (n / 2))).

(** [int(2.0 ** ceil(np.log2(L)))]. *)
Definition default_nfft (L : nat) : outcome nat :=
  match L with
  | O => Raise OverflowError
  | _ => Ok (2 ^ Nat.log2_up L)%nat
  end.

Definition choose_nfft (L : nat) (p : params) : outcome nat :=
  let badNfft :=
    match nfft p with
    | Some n => (n <? Z.of_nat L)%Z
    | None => false
    end in
  match nfft p with
  | Some n => if badNfft then default_nfft L else Ok (Z.to_nat n)
  | None => default_nfft L
  end.

Definition maxIdx (n : nat) : nat :=
  if Nat.odd n then ((n + 1) / 2)%nat else (n / 2 + 1)%nat.

(** [f = np.abs(f[0:maxIdx])], the axis before masking. *)
Definition full_axis (n : nat) (fs : Q) : list Q :=
  map Qabs (firstn (maxIdx n) (fftfreq n (1 / fs))).

(** The scale [1.0/(n*d)] of [fftfreq], at [d = 1/Fs]. *)
Definition bin_width (n : nat) (fs : Q) : Q :=
  1 / (inject_Z (Z.of_nat n) * (1 / fs)).

Definition in_passband (p : params) (v : Q) : bool :=
  Qle_bool (fst (fpass p)) v && Qle_bool v (snd (fpass p)).

(** [x.shape[timeDim]] is read before anything else, whether [nfft] is given
    or not; it raises for an axis the array does not have. *)
Definition _get_freq_vector {A} (x : ndarray A) (p : params) (timeDim : nat)
  : outcome (nat * list Q * list bool) :=
  match nth_error (shape x) timeDim with
  | None => Raise IndexError
  | Some L =>
      n <- choose_nfft L p ;;
      if Qeq_bool (Fs p) 0 then Raise ZeroDivisionError
      else if (n =? 0)%nat then Raise ZeroDivisionError
      else
        let f := full_axis n (Fs p) in
        let fInd := map (in_passband p) f in
        Ok (n, mask fInd f, fInd)
  end.

End FrequencyGrid.

(** A subsequence: some entries dropped, order kept. *)
Inductive subseq {A} : list A -> list A -> Prop :=
| subseq_nil : subseq [] []
| subseq_skip a l1 l2 : subseq l1 l2 -> subseq l1 (a :: l2)
| subseq_keep a l1 l2 : subseq l1 l2 -> subseq (a :: l1) (a :: l2).

(** ** Complex numbers over [R] *)

Open Scope R_scope.

Definition complex : Type := (R * R)%type.

Definition C0 : complex := (0, 0).
Definition C1 : complex := (1, 0).
Definition Cre (z : complex) : R := fst z.
Definition Cim (z : complex) : R := snd z.
Definition Cadd (a b : complex) : complex := (fst a + fst b, snd a + snd b).
Definition Cmul (a b : complex) : complex :=
  (fst a * fst b - snd a * snd b, fst a * snd b + snd a * fst b).
Definition Cconj (z : complex) : complex := (fst z, - snd z).
Definition Cscal (r : R) (z : complex) : complex := (r * fst z, r * snd z).
Definition RtoC (r : R) : complex := (r, 0).

(** [abs(z)] and [abs(z)**2]. *)
Definition Cabs (z : complex) : R := sqrt (fst z * fst z + snd z * snd z).
Definition Cabs2 (z : complex) : R := Cabs z ^ 2.

(** [exp(1j*t)]. *)
Definition cis (t : R) : complex := (cos t, sin t).

(** [np.angle(z)], the argument in (-pi, pi], with [angle(0) = 0]. *)
Definition angle (z : complex) : R :=
  let (a, b) := z in
  if Rlt_dec 0 a then atan (b / a)
  else if Rlt_dec a 0 then
    (if Rle_dec 0 b then atan (b / a) + PI else atan (b / a) - PI)
  else if Rlt_dec 0 b then PI / 2
  else if Rlt_dec b 0 then - (PI / 2)
  else 0.

Definition Csum (l : list complex) : complex := fold_right Cadd C0 l.
Definition Rsum (l : list R) : R := fold_right Rplus 0 l.

(** ** Values that may be NaN

    [None] is a float that is not finite.  From a finite recording the
    estimators reach such a value only through a division whose divisor is
    zero.  In the frequency-domain estimators the dividend of every such
    division is zero as well, and the value is NaN; the time-domain PCA of
    [mtcpca_timeDomain] may divide a non-zero projection by a zero sum, and
    the infinity it gets is not told apart from NaN here. *)

Definition nanR : Type := option R.
Definition nanC : Type := option complex.

Definition lift1 {A B} (f : A -> B) (a : option A) : option B :=
  match a with Some x => Some (f x) | None => None end.

Definition lift2 {A B D} (f : A -> B -> D) (a : option A) (b : option B)
  : option D :=
  match a, b with Some x, Some y => Some (f x y) | _, _ => None end.

(** A NaN anywhere in the list poisons the whole reduction. *)
Fixpoint all_finite {A} (l : list (option A)) : option (list A) :=
  match l with
  | [] => Some []
  | a :: l' => lift2 cons a (all_finite l')
  end.

(** Real division [a / b] as NumPy evaluates it. *)
Definition Rdiv_nan (a b : R) : nanR :=
  if Req_EM_T b 0 then None else Some (a / b).

(** Complex-by-real division [z / b]. *)
Definition Cdiv_nan (z : complex) (b : R) : nanC :=
  if Req_EM_T b 0 then None else Some (Cscal (/ b) z).

(** Complex division [z / s]. *)
Definition Cdiv_c (z s : complex) : nanC :=
  if Req_EM_T (Cabs2 s) 0 then None
  else Some (Cscal (/ Cabs2 s) (Cmul z (Cconj s))).

Definition odiv (a b : nanR) : nanR :=
  match a, b with Some x, Some y => Rdiv_nan x y | _, _ => None end.

Definition ocdiv (z : nanC) (b : nanR) : nanC :=
  match z, b with Some x, Some y => Cdiv_nan x y | _, _ => None end.

(** [z / abs(z)]: unit-magnitude normalisation. *)
Definition Cunit (z : complex) : nanC := Cdiv_nan z (Cabs z).

(** [l.mean()]: the sum over the count; NaN for an empty axis. *)
Definition Rmean (l : list R) : nanR := Rdiv_nan (Rsum l) (INR (length l)).
Definition Cmean (l : list complex) : nanC := Cdiv_nan (Csum l) (INR (length l)).

Definition Rmean_nan (l : list nanR) : nanR :=
  match all_finite l with Some v => Rmean v | None => None end.
Definition Cmean_nan (l : list nanC) : nanC :=
  match all_finite l with Some v => Cmean v | None => None end.

(** ** Tensors with an explicit frequency axis

    The estimators work on (channel, trial, bin) and (channel, bin) arrays.
    The channel and trial axes are only ever indexed or reduced, so a tensor
    is its extents and its indexing function; a two-dimensional recording is
    viewed with a channel axis of extent one, which is how its results are
    stored into the (taper, channel, bin) accumulators. *)

Record tensor3 (A : Type) : Type := mkt3 {
  nch : nat;
  ntr : nat;
  nbin : nat;
  at3 : nat -> nat -> nat -> A
}.

Record tensor2 (A : Type) : Type := mkt2 {
  rows : nat;
  cols : nat;
  at2 : nat -> nat -> A
}.

Definition t3map {A B} (f : A -> B) (t : tensor3 A) : tensor3 B :=
  mkt3 (nch t) (ntr t) (nbin t) (fun c r k => f (at3 t c r k)).

Definition t2map {A B} (f : A -> B) (t : tensor2 A) : tensor2 B :=
  mkt2 (rows t) (cols t) (fun c k => f (at2 t c k)).

Definition t2zip {A B D} (f : A -> B -> D) (s : tensor2 A) (t : tensor2 B)
  : tensor2 D :=
  mkt2 (rows s) (cols s) (fun c k => f (at2 s c k) (at2 t c k)).

Definition t3zip {A B D} (f : A -> B -> D) (s : tensor3 A) (t : tensor3 B)
  : tensor3 D :=
  mkt3 (nch s) (ntr s) (nbin s) (fun c r k => f (at3 s c r k) (at3 t c r k)).

(** The trials of one (channel, bin) cell. *)
Definition trials_of {A} (t : tensor3 A) (c k : nat) : list A :=
  map (fun r => at3 t c r k) (seq 0 (ntr t)).

(** [t.mean(axis=trialdim)]. *)
Definition mean_trials (t : tensor3 complex) : tensor2 nanC :=
  mkt2 (nch t) (nbin t) (fun c k => Cmean (trials_of t c k)).
Definition mean_trials_nan (t : tensor3 nanC) : tensor2 nanC :=
  mkt2 (nch t) (nbin t) (fun c k => Cmean_nan (trials_of t c k)).
Definition mean_trials_R (t : tensor3 R) : tensor2 nanR :=
  mkt2 (nch t) (nbin t) (fun c k => Rmean (trials_of t c k)).

(** The bins a mask keeps, in order. *)
Definition kept (fInd : list bool) : list nat :=
  mask fInd (seq 0 (length fInd)).

(** [t[:, :, fInd]] and [t[:, fInd]]. *)
Definition mask3 {A} (fInd : list bool) (t : tensor3 A) : tensor3 A :=
  mkt3 (nch t) (ntr t) (length (kept fInd))
       (fun c r j => at3 t c r (nth j (kept fInd) O)).
Definition mask2 {A} (fInd : list bool) (t : tensor2 A) : tensor2 A :=
  mkt2 (rows t) (length (kept fInd))
       (fun c j => at2 t c (nth j (kept fInd) O)).

(** [acc.mean(axis=0)] for an accumulator [acc] of shape
    (taper, channel, bin), one slice per taper. *)
Definition mean_tapers (nchans nbins : nat) (acc : list (tensor2 nanR))
  : tensor2 nanR :=
  mkt2 nchans nbins (fun c k => Rmean_nan (map (fun s => at2 s c k) acc)).

(** Row-major storage of a (channel, bin) tensor. *)
Definition to_ndarray {A} (t : tensor2 A) : ndarray A :=
  mkarr [rows t; cols t]
        (flat_map (fun c => map (fun k => at2 t c k) (seq 0 (cols t)))
                  (seq 0 (rows t))).

Definition of_list {A} (l : list A) : ndarray A := mkarr [length l] l.

(** ** Rank dispatch and the windowed transform *)

Record layout : Type := mklayout {
  timedim : nat;
  trialdim : nat;
  nchans : nat;
  ntrials : nat;
  ntime : nat
}.

(** The [if len(x.shape) == 3: ... elif len(x.shape) == 2: ... else:] chain
    of the per-channel estimators. *)
Definition dispatch {A} (x : ndarray A) : outcome layout :=
  match shape x with
  | [c; t; l] => Ok (mklayout 2 1 c t l)
  | [t; l] => Ok (mklayout 1 0 1 t l)
  | _ => Raise ShapeError
  end.

(** The [if len(x.shape) == 3: ... else:] chain of the cPCA estimators. *)
Definition dispatch3 {A} (x : ndarray A) : outcome layout :=
  match shape x with
  | [c; t; l] => Ok (mklayout 2 1 c t l)
  | _ => Raise ShapeError
  end.

(** [x[c, t, l]] (with [c = 0] for a two-dimensional recording). *)
Definition sample (x : ndarray R) (lay : layout) (c t l : nat) : R :=
  nth ((c * ntrials lay + t) * ntime lay + l) (data x) 0.

(** One output bin of [np.fft.rfft(sig, n)] for a signal of [L] samples:
    the signal is cropped or zero-padded to [n] samples. *)
Definition rfft_bin (sig : nat -> R) (L n k : nat) : complex :=
  Csum (map (fun l => Cscal (sig l)
                        (cis (- (2 * PI * INR k * INR l / INR n))))
            (seq 0 (Nat.min L n))).

(** [np.fft.rfft(tap * x, n=nfft, axis=timedim)]: [n//2 + 1] bins. *)
Definition rfft (tap : list R) (x : ndarray R) (lay : layout) (n : nat)
  : tensor3 complex :=
  mkt3 (nchans lay) (ntrials lay) (n / 2 + 1)
       (fun c t k =>
          rfft_bin (fun l => nth l tap 0 * sample x lay c t l)
                   (ntime lay) n k).

(** ** Python sequences and return values *)

(** [l[i]] with Python's negative indices. *)
Definition py_index {A} (l : list A) (i : Z) : outcome A :=
  let n := Z.of_nat (length l) in
  let j := if (i <? 0)%Z then (n + i)%Z else i in
  if ((0 <=? j) && (j <? n))%Z then
    match nth_error l (Z.to_nat j) with
    | Some a => Ok a
    | None => Raise IndexError
    end
  else Raise IndexError.

Fixpoint mapM {A B} (f : A -> outcome B) (l : list A) : outcome (list B) :=
  match l with
  | [] => Ok []
  | a :: l' => b <- f a ;; bs <- mapM f l' ;; Ok (b :: bs)
  end.

(** [enumerate(l)]. *)
Definition enumerate {A} (l : list A) : list (nat * A) :=
  combine (seq 0 (length l)) l.

#[local] Unset Elimination Schemes.
Inductive pyval : Type :=
| Arr (a : ndarray nanR)
| CArr (a : ndarray nanC)
| Freq (f : list Q)
| Tuple (l : list pyval)
| Dict (d : list (string * pyval)).
#[local] Set Elimination Schemes.

(** [d[key]] on a dictionary held in insertion order. *)
Fixpoint lookup (key : string) (d : list (string * pyval)) : option pyval :=
  match d with
  | [] => None
  | (k, v) :: d' => if String.eqb key k then Some v else lookup key d'
  end.

(** ** Cross-spectral matrices and the eigen-solver *)

Definition cmat : Type := list (list complex).

(** [np.outer(a, b)]. *)
Definition outer (a b : list complex) : cmat :=
  map (fun x => map (fun y => Cmul x y) b) a.
Definition outer_nan (a b : list nanC) : list (list nanC) :=
  map (fun x => map (fun y => lift2 Cmul x y) b) a.

Definition cdot (a b : list complex) : complex :=
  Csum (map (fun xy => Cmul (fst xy) (snd xy)) (combine a b)).

Definition mat_vec (M : cmat) (u : list complex) : list complex :=
  map (fun row => cdot row u) M.

Definition column (j : nat) (V : cmat) : list complex :=
  map (fun row => nth j row C0) V.

(** [np.vdot(a, b)]. *)
Definition inner (a b : list complex) : complex := cdot (map Cconj a) b.

Definition norm2 (v : list complex) : R := Rsum (map Cabs2 v).

Definition is_eigenpair (M : cmat) (lam : complex) (u : list complex) : Prop :=
  length u = length M /\
  (exists z, In z u /\ z <> C0) /\
  mat_vec M u = map (Cmul lam) u.

Definition is_eigenvalue (M : cmat) (lam : complex) : Prop :=
  exists u, is_eigenpair M lam u.

(** What [eigh(M, eigvals_only=True)] promises for a Hermitian [M]: as many
    values as rows, ascending, and exactly the eigenvalues of [M]. *)
Definition eigvals_contract (M : cmat) (vals : list R) : Prop :=
  length vals = length M /\
  StronglySorted Rle vals /\
  forall lam : R, In lam vals <-> is_eigenvalue M (RtoC lam).

(** What [eigh(M)] promises: the values as above, and a square matrix whose
    column [j] is a unit eigenvector for value [j], the columns pairwise
    orthogonal. *)
Definition eigh_contract (M : cmat) (r : list R * cmat) : Prop :=
  eigvals_contract M (fst r) /\
  length (snd r) = length M /\
  Forall (fun row => length row = length M) (snd r) /\
  (forall j, (j < length M)%nat ->
     is_eigenpair M (RtoC (nth j (fst r) 0)) (column j (snd r))) /\
  (forall i j, (i < length M)%nat -> (j < length M)%nat ->
     inner (column i (snd r)) (column j (snd r)) =
     if (i =? j)%nat then C1 else C0).

(** LAPACK's choice among the results its contract allows is not ours to
    make: the solver returns some result meeting the contract. *)
Definition eigvalsh (M : cmat) : list R :=
  epsilon (inhabits []) (eigvals_contract M).

Definition eigh (M : cmat) : list R * cmat :=
  epsilon (inhabits ([], [])) (eigh_contract M).

Definition finite_matrix (M : list (list nanC)) : option cmat :=
  all_finite (map (@all_finite complex) M).

(** [linalg.eigh(M, eigvals_only=True)]: [check_finite] rejects NaN. *)
Definition linalg_eigvalsh (M : list (list nanC)) : outcome (list R) :=
  match finite_matrix M with
  | Some M' => Ok (eigvalsh M')
  | None => Raise ValueError
  end.

(** [linalg.eigh(M)]. *)
Definition linalg_eigh (M : list (list nanC)) : outcome (list R * cmat) :=
  match finite_matrix M with
  | Some M' => Ok (eigh M')
  | None => Raise ValueError
  end.

(** [t[:, k]]. *)
Definition col_of {A} (t : tensor2 A) (k : nat) : list A :=
  map (fun c => at2 t c k) (seq 0 (rows t)).

(** The body of the per-bin loop of [mtcpca] and [mtcspec]:
    [Csd = np.outer(C[:, fi], C[:, fi].conj())],
    [vals = linalg.eigh(Csd, eigvals_only=True)], [vals[-1] / nchans]. *)
Definition cpca_bin (nchans : nat) (v : list nanC) : outcome R :=
  let Csd := outer_nan v (map (lift1 Cconj) v) in
  vals <- linalg_eigvalsh Csd ;;
  top <- py_index vals (-1) ;;
  Ok (top / INR nchans).

(** [C.shape[1]] after [C = (...).squeeze()] for a (channel, bin) array:
    the squeeze drops an axis of extent one, and the array is then left
    without a second axis. *)
Definition squeezed_bins {A} (C : tensor2 A) : outcome nat :=
  if ((rows C =? 1) || (cols C =? 1))%nat then Raise IndexError
  else Ok (cols C).

(** [acc.mean(axis=0)] for a (taper, bin) accumulator. *)
Definition mean_rows (nbins : nat) (acc : list (list R)) : list nanR :=
  map (fun k => Rmean (map (fun row => nth k row 0) acc)) (seq 0 nbins).

(** ** The estimators *)

Section Estimators.

(** [dpss_windows(N, TW, ntaps)] returns [ntaps] windows of [N] samples. *)
Variable dpss_windows : nat -> Q -> nat -> list (list R).

Import FrequencyGrid.

(** [try: params['bootstrapMode'] except KeyError: False]. *)
Definition bootstrap (p : params) : bool :=
  match bootstrapMode p with
  | Some b => b
  | None => false
  end.

(** [w, conc = dpss_windows(x.shape[timedim], TW, ntaps)]. *)
Definition windows (x : ndarray R) (lay : layout) (p : params)
  : list (list R) :=
  dpss_windows (nth (timedim lay) (shape x) O) (fst (tapers p))
               (snd (tapers p)).

(** *** mtplv *)

(** The loop body: the per-taper statistic over the full bin set. *)
Definition mtplv_taper (p : params) (xw : tensor3 complex) : tensor2 nanR :=
  if negb (itc p)
  then t2map (lift1 Cabs2) (mean_trials_nan (t3map Cunit xw))
  else t2zip odiv (t2map (lift1 Cabs2) (mean_trials xw))
                  (mean_trials_R (t3map Cabs2 xw)).

Definition mtplv (x : ndarray R) (p : params) : outcome pyval :=
  let x := squeeze x in
  lay <- dispatch x ;;
  '(nfft, f, fInd) <- _get_freq_vector x p (timedim lay) ;;
  let w := windows x lay p in
  let plvtap := map (fun tap => mtplv_taper p (rfft tap x lay nfft)) w in
  let plvtap := mean_tapers (nchans lay) (length fInd) plvtap in
  let plvtap := squeeze (to_ndarray (mask2 fInd plvtap)) in
  if bootstrap p
  then Ok (Dict [("mtplv"%string, Arr plvtap); ("f"%string, Freq f)])
  else Ok (Tuple [Arr plvtap; Freq f]).

(** *** mtspec *)

(** [np.random.random_sample(xw.shape)] at its [k]-th call: one draw in
    [0, 1) per (channel, trial, bin). *)
Definition sample_source : Type := nat -> nat -> nat -> nat -> R.

Definition mtspec_S (xw : tensor3 complex) : tensor2 nanR :=
  t2map (lift1 Cabs) (mean_trials xw).

Definition mtspec_N (u : nat -> nat -> nat -> R) (xw : tensor3 complex)
  : tensor2 nanR :=
  let randph := fun c t k => u c t k * 2 * PI in
  t2map (lift1 Cabs)
        (mean_trials (mkt3 (nch xw) (ntr xw) (nbin xw)
                           (fun c t k =>
                              Cmul (at3 xw c t k) (cis (randph c t k))))).

Definition mtspec (random_sample : sample_source) (x : ndarray R)
  (p : params) : outcome pyval :=
  let x := squeeze x in
  lay <- dispatch x ;;
  '(nfft, f, fInd) <- _get_freq_vector x p (timedim lay) ;;
  let w := windows x lay p in
  let S := map (fun tap => mtspec_S (rfft tap x lay nfft)) w in
  let N := map (fun kt => mtspec_N (random_sample (fst kt))
                                   (rfft (snd kt) x lay nfft))
               (enumerate w) in
  let S := mean_tapers (nchans lay) (length fInd) S in
  let N := mean_tapers (nchans lay) (length fInd) N in
  let S := squeeze (to_ndarray (mask2 fInd S)) in
  let N := squeeze (to_ndarray (mask2 fInd N)) in
  if bootstrap p
  then Ok (Dict [("mtspec"%string, Arr S); ("mtspec_noise"%string, Arr N);
                 ("f"%string, Freq f)])
  else Ok (Tuple [Arr S; Arr N; Freq f]).

(** *** mtphase *)

Definition mtphase_taper (xw : tensor3 complex) : tensor2 nanR :=
  t2map (lift1 angle) (mean_trials xw).

Definition mtphase (x : ndarray R) (p : params) : outcome pyval :=
  let x := squeeze x in
  lay <- dispatch x ;;
  '(nfft, f, fInd) <- _get_freq_vector x p (timedim lay) ;;
  let w := windows x lay p in
  let Ph := map (fun tap => mtphase_taper (rfft tap x lay nfft)) w in
  (* Ph[:, :, fInd].mean(axis=0).squeeze() *)
  let Ph := mean_tapers (nchans lay) (length (kept fInd))
                        (map (mask2 fInd) Ph) in
  let Ph := squeeze (to_ndarray Ph) in
  if bootstrap p
  then Ok (Dict [("mtphase"%string, Arr Ph); ("f"%string, Freq f)])
  else Ok (Tuple [Arr Ph; Freq f]).

(** *** mtcpca *)

Definition mtcpca_C (p : params) (xw : tensor3 complex) : tensor2 nanC :=
  if itc p
  then t2zip ocdiv (mean_trials xw) (mean_trials_R (t3map Cabs xw))
  else mean_trials_nan (t3map Cunit xw).

(** One taper: the cPCA value of every bin of the full bin set. *)
Definition cpca_taper (nchans : nat) (Cm : tensor2 nanC) : outcome (list R) :=
  nb <- squeezed_bins Cm ;;
  mapM (fun fi => cpca_bin nchans (col_of Cm fi)) (seq 0 nb).

Definition mtcpca (x : ndarray R) (p : params) : outcome pyval :=
  let x := squeeze x in
  lay <- dispatch3 x ;;
  '(nfft, f, fInd) <- _get_freq_vector x p (timedim lay) ;;
  let w := windows x lay p in
  plv <- mapM (fun tap =>
                 cpca_taper (nchans lay) (mtcpca_C p (rfft tap x lay nfft)))
              w ;;
  let plv := mean_rows (length fInd) plv in
  let plv := of_list (mask fInd plv) in
  if bootstrap p
  then Ok (Dict [("mtcplv"%string, Arr plv); ("f"%string, Freq f)])
  else Ok (Tuple [Arr plv; Freq f]).

Definition mtcplv := mtcpca.

(** *** mtcspec *)

Definition mtcspec (x : ndarray R) (p : params) : outcome pyval :=
  let x := squeeze x in
  lay <- dispatch3 x ;;
  '(nfft, f, fInd) <- _get_freq_vector x p (timedim lay) ;;
  let w := windows x lay p in
  cspec <- mapM (fun tap =>
                   cpca_taper (nchans lay)
                              (mean_trials (rfft tap x lay nfft)))
                w ;;
  let cspec := mean_rows (length fInd) cspec in
  let cspec := of_list (mask fInd cspec) in
  if bootstrap p
  then Ok (Dict [("mtcspec"%string, Arr cspec); ("f"%string, Freq f)])
  else Ok (Tuple [Arr cspec; Freq f]).

(** *** mtcpca_timeDomain *)

(** [l.max()] of a non-empty array. *)
Definition list_max (l : list R) : R := fold_right Rmax (hd 0 l) l.

Definition max_nan (l : list nanR) : nanR := lift1 list_max (all_finite l).

(** [v ** 0.5]. *)
Definition sqrt_nan (v : R) : nanR :=
  if Rlt_dec v 0 then None else Some (sqrt v).

(** [V[:, i]] with Python's negative indices. *)
Definition column_at (V : cmat) (i : Z) : outcome (list complex) :=
  j <- py_index (seq 0 (length V)) i ;;
  Ok (column j V).

(** [np.fft.irfft(X)]: [n = 2*(len(X) - 1)] real samples. *)
Definition irfft (X : list complex) : list R :=
  let m := length X in
  let n := (2 * (m - 1))%nat in
  map (fun t =>
         (Cre (nth 0 X C0)
          + Rsum (map (fun k =>
                         2 * Cre (Cmul (nth k X C0)
                                       (cis (2 * PI * INR k * INR t / INR n))))
                      (seq 1 (m - 2)))
          + Cre (nth (m - 1) X C0) * cos (PI * INR t)) / INR n)
      (seq 0 n).

Definition irfft_nan (X : list nanC) : list nanR :=
  match all_finite X with
  | Some X' => map Some (irfft X')
  | None => repeat None (2 * (length X - 1))
  end.

Definition eigh_real (M : list (list R)) : list R * list (list R) :=
  epsilon (inhabits ([], []))
          (fun r => eigh_contract (map (map RtoC) M)
                                  (fst r, map (map RtoC) (snd r))).

(** [linalg.eigh(M)] on a real symmetric matrix. *)
Definition linalg_eigh_real (M : list (list nanR))
  : outcome (list R * list (list R)) :=
  match all_finite (map (@all_finite R) M) with
  | Some M' => Ok (eigh_real M')
  | None => Raise ValueError
  end.

(** [np.cov(a)] for [a] of shape (variable, observation). *)
Definition cov (a : tensor2 nanR) : list (list nanR) :=
  let centred := fun i =>
    let mu := Rmean_nan (col_of (mkt2 (cols a) (rows a)
                                      (fun l c => at2 a c l)) i) in
    map (fun l => lift2 Rminus (at2 a i l) mu) (seq 0 (cols a)) in
  map (fun i =>
         map (fun j =>
                match all_finite
                        (map (fun ab => lift2 Rmult (fst ab) (snd ab))
                             (combine (centred i) (centred j))) with
                | Some prods => Rdiv_nan (Rsum prods) (INR (cols a) - 1)
                | None => None
                end)
             (seq 0 (rows a)))
      (seq 0 (rows a)).

(** The weights of the reconstruction path:
    [cwts = vecs[:, -1] / (np.abs(vecs[:, -1]).sum())]. *)
Definition timeDomain_cwts (v : list complex) : list nanC :=
  map (fun z => Cdiv_nan z (Rsum (map Cabs v))) v.

(** The body of the per-bin loop: the dominant eigenvalue and the
    reconstructed coefficient [(cwts.conjugate() * C[:, fi]).sum()]. *)
Definition timeDomain_bin (Cnorm_fi C_fi : list nanC) : outcome (R * nanC) :=
  let Csd := outer_nan Cnorm_fi (map (lift1 Cconj) Cnorm_fi) in
  '(vals, vecs) <- linalg_eigh Csd ;;
  top <- py_index vals (-1) ;;
  v <- column_at vecs (-1) ;;
  let cwts := timeDomain_cwts v in
  Ok (top,
      lift1 Csum
            (all_finite (map (fun ab => lift2 Cmul (lift1 Cconj (fst ab))
                                              (snd ab))
                             (combine cwts C_fi)))).

Definition mtcpca_timeDomain (x : ndarray R) (p : params) : outcome pyval :=
  let x := squeeze x in
  lay <- dispatch3 x ;;
  '(nfft, f, fInd) <- _get_freq_vector x p (timedim lay) ;;
  let w := hd [] (dpss_windows (nth (timedim lay) (shape x) O) 1%Q 1%nat) in
  (* w = w.squeeze() / w.max(): a zero peak leaves no finite window, and
     with it no finite cross-spectral matrix for eigh to accept *)
  if Req_EM_T (list_max w) 0 then Raise ValueError else
  let w := map (fun v => v / list_max w) w in
  let xw := rfft w x lay nfft in
  let Cm := mean_trials xw in
  let Cnorm := t2zip ocdiv Cm (mean_trials_R (t3map Cabs xw)) in
  nb <- squeezed_bins Cnorm ;;
  bins <- mapM (fun fi => timeDomain_bin (col_of Cnorm fi) (col_of Cm fi))
               (seq 0 nb) ;;
  let cspec := map fst bins in
  let cpc_freq := map snd bins in
  let cscale := map sqrt_nan cspec in
  let cscale := map (fun v => odiv v (max_nan cscale)) cscale in
  let y_cpc :=
    firstn (nth (timedim lay) (shape x) O)
           (irfft_nan (map (fun ab => lift2 (fun z r => Cscal r z)
                                            (fst ab) (snd ab))
                           (combine cpc_freq cscale))) in
  (* time-domain PCA *)
  let x_ave := mkt2 (nchans lay) (ntime lay)
                    (fun c l => Rmean (map (fun t => sample x lay c t l)
                                           (seq 0 (ntrials lay)))) in
  let C_td := cov x_ave in
  '(vals, vecs) <- linalg_eigh_real C_td ;;
  j <- py_index (seq 0 (length vecs)) (-1) ;;
  let v := map (fun row => nth j row 0) vecs in
  let y_pc :=
    map (fun l =>
           match all_finite (map (fun c => lift1 (Rmult (nth c v 0))
                                                 (at2 x_ave c l))
                                 (seq 0 (nchans lay))) with
           | Some terms => Rdiv_nan (Rsum terms) (Rsum v)
           | None => None
           end)
        (seq 0 (ntime lay)) in
  if bootstrap p
  then Ok (Dict [("y_cpc"%string, Arr (of_list y_cpc));
                 ("y_pc"%string, Arr (of_list y_pc))])
  else Ok (Tuple [Arr (of_list y_cpc); Arr (of_list y_pc)]).

(** *** mtppc *)

(** [np.random.randint(0, ntrials, (npairs, 2))] at its [k]-th call: row
    [i] of the draw, both entries below [ntrials]. *)
Definition pair_source : Type := nat -> nat -> nat * nat.

Definition draw_pairs (randint : pair_source) (k npairs ntrials : nat)
  : outcome (list (nat * nat)) :=
  if (ntrials =? 0)%nat then Raise ValueError    (* randint(0, 0): low >= high *)
  else Ok (map (randint k) (seq 0 npairs)).

(** [xw[:, idx, :]]. *)
Definition pick {A} (xw : tensor3 A) (idx : list nat) : tensor3 A :=
  mkt3 (nch xw) (length idx) (nbin xw)
       (fun c j k => at3 xw c (nth j idx O) k).

Definition mtppc_taper (p : params) (trial_pairs : list (nat * nat))
  (xw : tensor3 complex) : tensor2 nanR :=
  if negb (itc p) then
    let xw_1 := t3map Cunit (pick xw (map fst trial_pairs)) in
    let xw_2 := t3map Cunit (pick xw (map snd trial_pairs)) in
    t2map (lift1 Cre)
          (mean_trials_nan
             (t3zip (lift2 (fun a b => Cmul a (Cconj b))) xw_1 xw_2))
  else
    let xw_1 := pick xw (map fst trial_pairs) in
    let xw_2 := pick xw (map snd trial_pairs) in
    let ppc_unnorm :=
      t2map (lift1 Cre)
            (mean_trials (t3zip (fun a b => Cmul a (Cconj b)) xw_1 xw_2)) in
    t2zip odiv ppc_unnorm
          (t2zip (lift2 Rmult) (mean_trials_R (t3map Cabs xw_1))
                               (mean_trials_R (t3map Cabs xw_2))).

Definition mtppc (randint : pair_source) (x : ndarray R) (p : params)
  : outcome pyval :=
  let x := squeeze x in
  lay <- dispatch x ;;
  let w := windows x lay p in
  '(nfft, f, fInd) <- _get_freq_vector x p (timedim lay) ;;
  ppc <- mapM (fun kt =>
                 trial_pairs <- draw_pairs randint (fst kt) (Npairs p)
                                           (ntrials lay) ;;
                 Ok (mtppc_taper p trial_pairs (rfft (snd kt) x lay nfft)))
              (enumerate w) ;;
  let ppc := mean_tapers (nchans lay) (length fInd) ppc in
  let ppc := squeeze (to_ndarray (mask2 fInd ppc)) in
  if bootstrap p
  then Ok (Dict [("mtppc"%string, Arr ppc); ("f"%string, Freq f)])
  else Ok (Tuple [Arr ppc; Freq f]).

(** *** mtspecraw *)

Definition mtspecraw_taper (xw : tensor3 complex) : tensor2 nanR :=
  mean_trials_R (t3map Cabs2 xw).

Definition mtspecraw (x : ndarray R) (p : params) : outcome pyval :=
  let x := squeeze x in
  lay <- dispatch x ;;
  '(nfft, f, fInd) <- _get_freq_vector x p (timedim lay) ;;
  let w := windows x lay p in
  let Sraw := map (fun tap => mtspecraw_taper (rfft tap x lay nfft)) w in
  let Sraw := mean_tapers (nchans lay) (length fInd) Sraw in
  let Sraw := squeeze (to_ndarray (mask2 fInd Sraw)) in
  if bootstrap p
  then Ok (Dict [("mtspecraw"%string, Arr Sraw); ("f"%string, Freq f)])
  else Ok (Tuple [Arr Sraw; Freq f]).

(** *** mtpspec *)

(** [pspec[k, ch, :]] for the pairs drawn for channel [ch] and taper [k],
    the pairs of a trial with itself discarded. *)
Definition mtpspec_row (trial_pairs : list (nat * nat))
  (xw : tensor3 complex) (ch : nat) (k : nat) : nanR :=
  let trial_pairs :=
    filter (fun ij => negb (fst ij =? snd ij)%nat) trial_pairs in
  lift1 Cre
        (Cmean (map (fun ij => Cmul (at3 xw ch (fst ij) k)
                                    (Cconj (at3 xw ch (snd ij) k)))
                    trial_pairs)).

(** The slice [pspec[k, :, :]]: the draw for channel [ch] and taper [k] is
    call number [ch * len(w) + k] of the random source. *)
Definition mtpspec_taper (randint : pair_source) (p : params) (lay : layout)
  (fInd : list bool) (ntaps : nat) (k : nat) (xw : tensor3 complex)
  : tensor2 nanR :=
  mkt2 (nchans lay) (nbin xw)
       (fun ch fi =>
          mtpspec_row (map (randint (ch * ntaps + k)%nat) (seq 0 (Npairs p)))
                      xw ch fi).

Definition mtpspec (randint : pair_source) (x : ndarray R) (p : params)
  : outcome pyval :=
  let x := squeeze x in
  lay <- dispatch x ;;
  '(nfft, f, fInd) <- _get_freq_vector x p (timedim lay) ;;
  let w := windows x lay p in
  if ((ntrials lay =? 0) && negb (nchans lay =? 0)
      && negb (length w =? 0))%nat
  then Raise ValueError else           (* randint(0, 0): low >= high *)
  let pspec :=
    map (fun kt => mtpspec_taper randint p lay fInd (length w) (fst kt)
                                 (rfft (snd kt) x lay nfft))
        (enumerate w) in
  let pspec := mean_tapers (nchans lay) (length fInd) pspec in
  let pspec := squeeze (to_ndarray (mask2 fInd pspec)) in
  if bootstrap p
  then Ok (Dict [("pspec"%string, Arr pspec); ("f"%string, Freq f)])
  else Ok (Tuple [Arr pspec; Freq f]).

(** *** mtcpca_all *)

(** [pc]: the requested ranks, negated into indices from the top.  The
    entry is read as a Python list, as a caller's own dictionary holds it.
    Its truth test is the one of a list; an array, as [generate_parameters]
    stores it, has the same test for no entry and for one non-zero entry
    (the default [1] among them), and only there does this model speak for
    it. *)
Definition component_index (p : params) : list Z :=
  match pcaComponentNumber p with
  | Some (a :: l) => map (fun j => (-1 * j)%Z) (a :: l)
  | _ => [(-1)%Z]
  end.

Definition wants_eigenvectors (p : params) : bool :=
  match returnEigenvectors p with
  | Some b => b
  | None => false
  end.

(** [xw = xw[:, :, fInd]]: the transform is cut to the passband before
    anything is computed from it. *)
Definition mtcpca_all_xw (fInd : list bool) (tap : list R) (x : ndarray R)
  (lay : layout) (n : nat) : tensor3 complex :=
  mask3 fInd (rfft tap x lay n).

(** One cross-spectral matrix: [vals, vecs = linalg.eigh(Csd)] and the
    eigenvalues [vals[pc] / nchans]. *)
Definition eig_select (nchans : nat) (pc : list Z) (v : list nanC)
  : outcome (list R * cmat) :=
  let Csd := outer_nan v (map (lift1 Cconj) v) in
  '(vals, vecs) <- linalg_eigh Csd ;;
  sel <- mapM (py_index vals) pc ;;
  Ok (map (fun e => e / INR nchans) sel, vecs).

(** [vecs[:, pc].T]: the selected columns, stored as the solver returns
    them. *)
Definition eigenvector_rows (vecs : cmat) (pc : list Z)
  : outcome (list (list complex)) :=
  mapM (column_at vecs) pc.

Record bin_out : Type := mkbin {
  bin_cspec : list R;
  bin_plv : list R;
  bin_itc : list R;
  bin_cspecV : list (list complex);
  bin_plvV : list (list complex);
  bin_itcV : list (list complex)
}.

Definition mtcpca_all_bin (p : params) (nchans : nat) (pc : list Z)
  (Cm plvC itcC : tensor2 nanC) (fi : nat) : outcome bin_out :=
  '(cspec, powEigenvec) <- eig_select nchans pc (col_of Cm fi) ;;
  '(plv, plvEigenvec) <- eig_select nchans pc (col_of plvC fi) ;;
  '(itc_, itcEigenvec) <- eig_select nchans pc (col_of itcC fi) ;;
  match returnEigenvectors p with
  | None => Raise KeyError           (* if params['returnEigenvectors']: *)
  | Some true =>
      cspecV <- eigenvector_rows powEigenvec pc ;;
      plvV <- eigenvector_rows plvEigenvec pc ;;
      itcV <- eigenvector_rows itcEigenvec pc ;;
      Ok (mkbin cspec plv itc_ cspecV plvV itcV)
  | Some false => Ok (mkbin cspec plv itc_ [] [] [])
  end.

Definition mtcpca_all_taper (p : params) (nchans : nat) (pc : list Z)
  (xw : tensor3 complex) : outcome (list bin_out) :=
  let Cm := mean_trials xw in
  let itcC := t2zip ocdiv (mean_trials xw) (mean_trials_R (t3map Cabs xw)) in
  let plvC := mean_trials_nan (t3map Cunit xw) in
  (* .squeeze() drops a frequency axis of extent one, and C[:, fi] then has
     one index too many *)
  if (nbin xw =? 1)%nat then Raise IndexError else
  mapM (mtcpca_all_bin p nchans pc Cm plvC itcC) (seq 0 (nbin xw)).

(** [acc.mean(axis=0).squeeze()] for a (taper, component, bin) accumulator. *)
Definition mean_components (nPC nf : nat) (sel : bin_out -> list R)
  (acc : list (list bin_out)) : ndarray nanR :=
  squeeze (to_ndarray
    (mkt2 nPC nf
          (fun i fi =>
             Rmean (map (fun tapres =>
                           match nth_error tapres fi with
                           | Some b => nth i (sel b) 0
                           | None => 0
                           end) acc)))).

(** [accV.squeeze()] for a (taper, component, channel, bin) accumulator. *)
Definition stack_vectors (nPC nchans nf : nat)
  (sel : bin_out -> list (list complex)) (acc : list (list bin_out))
  : ndarray nanC :=
  squeeze (mkarr [length acc; nPC; nchans; nf]
    (flat_map (fun tapres =>
       flat_map (fun i =>
         flat_map (fun ch =>
           map (fun fi =>
                  match nth_error tapres fi with
                  | Some b => Some (nth ch (nth i (sel b) []) C0)
                  | None => Some C0
                  end) (seq 0 nf))
           (seq 0 nchans))
         (seq 0 nPC))
       acc)).

Definition mtcpca_all (x : ndarray R) (p : params) : outcome pyval :=
  let x := squeeze x in
  lay <- dispatch3 x ;;
  '(nfft, f, fInd) <- _get_freq_vector x p (timedim lay) ;;
  let w := windows x lay p in
  let pc := component_index p in
  let nPC := length pc in
  acc <- mapM (fun tap =>
                 mtcpca_all_taper p (nchans lay) pc
                                  (mtcpca_all_xw fInd tap x lay nfft))
              w ;;
  let out :=
    [("spectrum"%string, Arr (mean_components nPC (length f) bin_cspec acc));
     ("plv"%string, Arr (mean_components nPC (length f) bin_plv acc));
     ("itc"%string, Arr (mean_components nPC (length f) bin_itc acc))]
    ++ (if wants_eigenvectors p
        then [("spectrumV"%string,
               CArr (stack_vectors nPC (nchans lay) (length f) bin_cspecV acc));
              ("plvV"%string,
               CArr (stack_vectors nPC (nchans lay) (length f) bin_plvV acc));
              ("itcV"%string,
               CArr (stack_vectors nPC (nchans lay) (length f) bin_itcV acc))]
        else []) in
  if bootstrap p
  then Ok (Dict (out ++ [("f"%string, Freq f)]))
  else Ok (Tuple [Dict out; Freq f]).

End Estimators.

(** ** The public operations, and what can be observed of their pipelines *)

Inductive operation : Type :=
| Mtplv | Mtspec | Mtphase | Mtcpca | Mtcspec | Mtcpca_timeDomain
| Mtppc | Mtspecraw | Mtpspec | Mtcpca_all.

(** The estimators documented for (trials x time) input as well. *)
Definition per_channel (op : operation) : bool :=
  match op with
  | Mtplv | Mtspec | Mtphase | Mtppc | Mtspecraw | Mtpspec => true
  | Mtcpca | Mtcspec | Mtcpca_timeDomain | Mtcpca_all => false
  end.

(** The estimators that return a frequency-domain statistic. *)
Definition spectral (op : operation) : bool :=
  match op with
  | Mtcpca_timeDomain => false
  | _ => true
  end.

Section Operations.

Variable dpss_windows : nat -> Q -> nat -> list (list R).
Variable random_sample : sample_source.
Variable randint : pair_source.

Definition run (op : operation) (x : ndarray R) (p : params)
  : outcome pyval :=
  match op with
  | Mtplv => mtplv dpss_windows x p
  | Mtspec => mtspec dpss_windows random_sample x p
  | Mtphase => mtphase dpss_windows x p
  | Mtcpca => mtcpca dpss_windows x p
  | Mtcspec => mtcspec dpss_windows x p
  | Mtcpca_timeDomain => mtcpca_timeDomain dpss_windows x p
  | Mtppc => mtppc dpss_windows randint x p
  | Mtspecraw => mtspecraw dpss_windows x p
  | Mtpspec => mtpspec dpss_windows randint x p
  | Mtcpca_all => mtcpca_all dpss_windows x p
  end.

End Operations.

(** The frequency axis as part of a return value: an element of the tuple
    in normal mode, the field ['f'] of the dictionary in bootstrap mode. *)
Definition returns_axis (r : pyval) (f : list Q) : Prop :=
  match r with
  | Tuple l => In (Freq f) l
  | Dict d => lookup "f" d = Some (Freq f)
  | _ => False
  end.

(** The shape of a return value: a tuple in normal mode, a dictionary in
    bootstrap mode. *)
Definition mode_shape (bootstrap : bool) (r : pyval) : Prop :=
  if bootstrap then exists d, r = Dict d else exists l, r = Tuple l.

(** The first statistic of a return value, in either mode. *)
Definition statistic_of (r : pyval) : option (ndarray nanR) :=
  match r with
  | Tuple (Arr a :: _) => Some a
  | Dict ((_, Arr a) :: _) => Some a
  | _ => None
  end.

(** A value that is NaN or lies in the unit interval. *)
Definition unit_or_nan (v : nanR) : Prop :=
  match v with
  | Some r => 0 <= r <= 1
  | None => True
  end.

(** ** The specification's reading of [mtspec]

    Spectrum and noise floor as the mean over trials of the magnitudes. *)

Definition spec_S (xw : tensor3 complex) : tensor2 nanR :=
  mean_trials_R (t3map Cabs xw).

Definition spec_N (u : nat -> nat -> nat -> R) (xw : tensor3 complex)
  : tensor2 nanR :=
  mean_trials_R
    (mkt3 (nch xw) (ntr xw) (nbin xw)
          (fun c t k => Cabs (Cmul (at3 xw c t k) (cis (u c t k * 2 * PI))))).

(** [mtspec] as the specification words it: the code's pipeline with the
    two statistics above in place of [mtspec_S] and [mtspec_N]. *)
Definition mtspec_as_specified (dpss_windows : nat -> Q -> nat -> list (list R))
  (random_sample : sample_source) (x : ndarray R) (p : params)
  : outcome pyval :=
  let x := squeeze x in
  lay <- dispatch x ;;
  '(nfft, f, fInd) <- FrequencyGrid._get_freq_vector x p (timedim lay) ;;
  let w := windows dpss_windows x lay p in
  let S := map (fun tap => spec_S (rfft tap x lay nfft)) w in
  let N := map (fun kt => spec_N (random_sample (fst kt))
                                 (rfft (snd kt) x lay nfft))
               (enumerate w) in
  let S := mean_tapers (nchans lay) (length fInd) S in
  let N := mean_tapers (nchans lay) (length fInd) N in
  let S := squeeze (to_ndarray (mask2 fInd S)) in
  let N := squeeze (to_ndarray (mask2 fInd N)) in
  if bootstrap p
  then Ok (Dict [("mtspec"%string, Arr S); ("mtspec_noise"%string, Arr N);
                 ("f"%string, Freq f)])
  else Ok (Tuple [Arr S; Arr N; Freq f]).

(** An eigenvector divided by the sum of its entries. *)
Definition normalized_by_sum (v : list complex) : list nanC :=
  map (fun z => Cdiv_c z (Csum v)) v.

(** What division by the sum of the entries leaves: entries that sum to
    one. *)
Definition sums_to_one (u : list complex) : Prop := Csum u = C1.

(** ** A decomposition for two channels

    For [outer([a, b], conj([a, b]))] with [r = 1/|v|]: the kernel direction
    first, then the direction of [v]. *)
Definition rank1_vecs (r : R) (a b : complex) : cmat :=
  [[Cscal r (Cconj b); Cscal r a];
   [Cscal (- r) (Cconj a); Cscal r b]].

(** ** Recordings and parameters used as test points *)

(** Rectangular windows. *)
Definition flat_windows : nat -> Q -> nat -> list (list R) :=
  fun N _ ntaps => repeat (repeat 1 N) ntaps.

Definition no_samples : sample_source := fun _ _ _ _ => 0.
Definition no_pairs : pair_source := fun _ _ => (O, O).

Definition grid_params : params :=
  mkparams 8%Q (2%Q, 3%nat) (1%Q, 3%Q) false O None None None None.

Definition grid_recording : ndarray R := mkarr [2%nat; 4%nat] [].


(** One taper, sample rate 2, the whole band. *)
Definition unit_params : params :=
  mkparams 2%Q (1%Q, 1%nat) (0%Q, 1%Q) false O None None (Some true) None.

(** Two channels, two trials, two samples; every trial is the impulse
    [1, 0]. *)
Definition impulses : ndarray R :=
  mkarr [2%nat; 2%nat; 2%nat] [1; 0; 1; 0; 1; 0; 1; 0].

(** [x.mean(axis=trialdim)] of [impulses]. *)
Definition impulses_ave : tensor2 nanR :=
  mkt2 2 2
       (fun c l =>
          Rmean (map (fun t => sample impulses (mklayout 2 1 2 2 2) c t l)
                     (seq 0 2))).

(** Two channels, two trials, two samples of silence. *)
Definition silence : ndarray R :=
  mkarr [2%nat; 2%nat; 2%nat] [0; 0; 0; 0; 0; 0; 0; 0].

(** One channel, two trials, two samples. *)
Definition one_channel : ndarray R :=
  mkarr [1%nat; 2%nat; 2%nat] [1; 0; 1; 0].

(** One channel, one trial, four samples. *)
Definition one_trial : ndarray R :=
  mkarr [1%nat; 1%nat; 4%nat] [1; 0; 0; 0].

(** Two trials of opposite polarity. *)
Definition opposite_trials : ndarray R :=
  mkarr [2%nat; 2%nat] [1; 0; -1; 0].

(** Two channels, two trials, four samples. *)
Definition long_recording : ndarray R :=
  mkarr [2%nat; 2%nat; 4%nat]
        [1; 0; 0; 0; 1; 0; 0; 0; 1; 0; 0; 0; 1; 0; 0; 0].



(** ** Parameter dictionaries: [generate_parameters], [_validate_parameters]

    The dictionary is a Python [dict] that both functions mutate in place;
    here it is passed along.  Keyword values are numbers, Booleans and flat
    sequences of them; keyword names are ASCII.  Of the logger's output only
    the error level is kept: it is what validation has to say. *)

Module Parameters.

Inductive scalar : Type :=
| SInt (z : Z)
| SFloat (q : Q)
| SBool (b : bool).

Inductive value : Type :=
| Num (s : scalar)
| Seq (l : list scalar).

(** A [dict] with string keys, in insertion order. *)
Definition pdict : Type := list (string * value).

(** The exceptions of the estimators, and [TypeError]. *)
Inductive failure : Type :=
| Std (e : exn)
| TypeError.

Inductive result (A : Type) : Type :=
| Return (a : A)
| Throw (e : failure).
Arguments Return {A} a.
Arguments Throw {A} e.

Definition rbind {A B} (m : result A) (k : A -> result B) : result B :=
  match m with
  | Return a => k a
  | Throw e => Throw e
  end.

Notation "x <~ m ;; k" := (rbind m (fun x => k))
  (at level 61, m at next level, right associativity).

(** The calls of [logger.error], by the condition they report. *)
Inductive complaint : Type :=
| NoSampleRate        (* sample rate (params["Fs"]) must be specified *)
| TapersForm          (* params["tapers"] must be a list/tuple of form [TW,taps] *)
| TWNotPositive       (* params["tapers"][0] (TW) must be positive *)
| NtapsNotPositive    (* params["tapers"][1] (ntaps) must be a positive integer *)
| FpassForm           (* fpass must have two values *)
| FpassLowNegative    (* fpass[0] should be >= 0 *)
| FpassHighNegative   (* fpass[1] should be >= 0 *)
| FpassLowAboveHalf   (* fpass[0] should be <= Fs/2 *)
| FpassHighAboveHalf  (* fpass[1] should be <= Fs/2 *)
| FpassOrder.         (* fpass[0] should be < fpass[1] *)

(** A computation that logs and may raise; what was logged before an
    exception stays logged. *)
Definition logged (A : Type) : Type := (list complaint * result A)%type.

Definition lbind {A B} (m : logged A) (k : A -> logged B) : logged B :=
  match m with
  | (l, Return a) => let (l', r) := k a in (l ++ l', r)
  | (l, Throw e) => (l, Throw e)
  end.

Notation "x <~~ m ;; k" := (lbind m (fun x => k))
  (at level 61, m at next level, right associativity).

Definition quiet {A} (r : result A) : logged A := ([], r).

(** [if cond: logger.error(...)]. *)
Definition error_if (cond : bool) (c : complaint) : logged unit :=
  (if cond then [c] else [], Return tt).

(** *** Dictionary access *)

(** [d[k] = v]. *)
Fixpoint setitem (k : string) (v : value) (d : pdict) : pdict :=
  match d with
  | [] => [(k, v)]
  | (k', v') :: d' =>
      if String.eqb k k' then (k, v) :: d' else (k', v') :: setitem k v d'
  end.

(** [d[k]]. *)
Fixpoint getitem (k : string) (d : pdict) : result value :=
  match d with
  | [] => Throw (Std KeyError)
  | (k', v) :: d' => if String.eqb k k' then Return v else getitem k d'
  end.

(** [k in d]. *)
Definition contains (k : string) (d : pdict) : bool :=
  existsb (fun kv => String.eqb k (fst kv)) d.

(** *** Conversions and operators on values *)

Definition to_Q (s : scalar) : Q :=
  match s with
  | SInt z => inject_Z z
  | SFloat q => q
  | SBool b => if b then 1%Q else 0%Q
  end.

(** [int(s)]: towards zero. *)
Definition int_of (s : scalar) : Z :=
  match s with
  | SInt z => z
  | SFloat q => Z.quot (Qnum q) (Zpos (Qden q))
  | SBool b => if b then 1%Z else 0%Z
  end.

(** [int(v)]. *)
Definition py_int (v : value) : result Z :=
  match v with
  | Num s => Return (int_of s)
  | Seq _ => Throw TypeError
  end.

(** [bool(v)]. *)
Definition py_bool (v : value) : bool :=
  match v with
  | Num (SInt z) => negb (z =? 0)%Z
  | Num (SFloat q) => negb (Qeq_bool q 0)
  | Num (SBool b) => b
  | Seq l => negb (Nat.eqb (length l) 0)
  end.

(** [list(v)]. *)
Definition py_list (v : value) : result (list scalar) :=
  match v with
  | Num _ => Throw TypeError
  | Seq l => Return l
  end.

(** [len(v)]. *)
Definition py_len (v : value) : result nat :=
  match v with
  | Num _ => Throw TypeError
  | Seq l => Return (length l)
  end.

(** [v[i]] for [i >= 0]. *)
Definition py_item (v : value) (i : nat) : result scalar :=
  match v with
  | Num _ => Throw TypeError
  | Seq l =>
      match nth_error l i with
      | Some s => Return s
      | None => Throw (Std IndexError)
      end
  end.

(** The integers that [float(z)] accepts: those that round to a finite
    double, the largest of which is [2^1024 - 2^971]. *)
Definition float_limit : Z := (2 ^ 1024 - 2 ^ 970)%Z.

Definition fits_float (s : scalar) : bool :=
  match s with
  | SInt z => (Z.abs z <? float_limit)%Z
  | SFloat _ | SBool _ => true
  end.

(** [v / 2.0]: an integer is converted to a float first, and one beyond
    the range of the floats raises. *)
Definition halve (v : value) : result Q :=
  match v with
  | Num s =>
      if fits_float s then Return (to_Q s / 2)%Q
      else Throw (Std OverflowError)
  | Seq _ => Throw TypeError
  end.

(** An integer no 64-bit type of NumPy holds, signed or unsigned. *)
Definition beyond_64_bits (s : scalar) : bool :=
  match s with
  | SInt z => ((z <? - 2 ^ 63) || (2 ^ 64 <=? z))%Z
  | SFloat _ | SBool _ => false
  end.

Definition is_float (s : scalar) : bool :=
  match s with
  | SFloat _ => true
  | SInt _ | SBool _ => false
  end.


(** [np.array(np.atleast_1d(v), dtype=int).flatten()].  Integers and
    Booleans one of which no 64-bit type holds make [np.atleast_1d] an
    array of Python objects, and its conversion raises OverflowError.
    Otherwise an array is returned; its entries are the integer parts for
    entries that convert exactly.  For the others the stored value is
    NumPy's own matter (an unsigned 64-bit value is wrapped, a float out of
    range is cast to an unspecified integer, an integer next to a float is
    rounded to a double first): there this definition describes the
    return, not the values, and what is proved of the values leaves such
    entries out ([acceptable]). *)
Definition int_array (v : value) : result (list scalar) :=
  let l := match v with Num s => [s] | Seq l => l end in
  if (existsb beyond_64_bits l && negb (existsb is_float l))%bool
  then Throw (Std OverflowError)
  else Return (map (fun s => SInt (int_of s)) l).

(** [l[i] = s] on a list that has an entry [i]. *)
Fixpoint list_set (i : nat) (s : scalar) (l : list scalar) : list scalar :=
  match i, l with
  | _, [] => []
  | O, _ :: l' => s :: l'
  | S i', a :: l' => a :: list_set i' s l'
  end.

(** [s.lower()]. *)
Definition lower_ascii (c : ascii) : ascii :=
  let n := nat_of_ascii c in
  if ((65 <=? n) && (n <=? 90))%nat then ascii_of_nat (n + 32) else c.

Fixpoint lower (s : string) : string :=
  match s with
  | EmptyString => EmptyString
  | String c s' => String (lower_ascii c) (lower s')
  end.

(** *** _validate_parameters *)

Definition _validate_parameters (params : pdict) : logged pdict :=
  _ <~~ error_if (negb (contains "Fs" params)) NoSampleRate ;;
  (* check/fix taper input *)
  tapers <~~ quiet (getitem "tapers" params) ;;
  n <~~ quiet (py_len tapers) ;;
  _ <~~ error_if (negb (n =? 2)%nat) TapersForm ;;
  tw <~~ quiet (py_item tapers 0) ;;
  _ <~~ error_if (Qle_bool (to_Q tw) 0) TWNotPositive ;;
  ntaps <~~ quiet (py_item tapers 1) ;;
  _ <~~ error_if (Qle_bool (to_Q ntaps) 0) NtapsNotPositive ;;
  (* check/fix fpass *)
  if contains "fpass" params then
    fpass <~~ quiet (getitem "fpass" params) ;;
    n <~~ quiet (py_len fpass) ;;
    _ <~~ error_if (negb (2 =? n)%nat) FpassForm ;;
    lo <~~ quiet (py_item fpass 0) ;;
    _ <~~ error_if (negb (Qle_bool 0 (to_Q lo))) FpassLowNegative ;;
    hi <~~ quiet (py_item fpass 1) ;;
    _ <~~ error_if (negb (Qle_bool 0 (to_Q hi))) FpassHighNegative ;;
    lo <~~ quiet (py_item fpass 0) ;;
    fs <~~ quiet (getitem "Fs" params) ;;
    half <~~ quiet (halve fs) ;;
    _ <~~ error_if (negb (Qle_bool (to_Q lo) half)) FpassLowAboveHalf ;;
    hi <~~ quiet (py_item fpass 1) ;;
    fs <~~ quiet (getitem "Fs" params) ;;
    half <~~ quiet (halve fs) ;;
    _ <~~ error_if (negb (Qle_bool (to_Q hi) half)) FpassHighAboveHalf ;;
    lo <~~ quiet (py_item fpass 0) ;;
    hi <~~ quiet (py_item fpass 1) ;;
    _ <~~ error_if (Qle_bool (to_Q hi) (to_Q lo)) FpassOrder ;;
    quiet (Return params)
  else
    fs <~~ quiet (getitem "Fs" params) ;;
    half <~~ quiet (halve fs) ;;
    quiet (Return (setitem "fpass" (Seq [SFloat 0; SFloat half]) params)).

(** *** generate_parameters *)

Section Generate.

(** [multiprocessing.cpu_count()]. *)
Variable cpu_count : Z.

Definition defaults : pdict :=
  [("tapers"%string, Seq [SInt 2; SInt 3]);
   ("Npairs"%string, Num (SInt 0));
   ("itc"%string, Num (SBool false));
   ("threads"%string, Num (SInt cpu_count));
   ("nDraws"%string, Num (SInt 1000));
   ("indivDraw"%string, Num (SBool false));
   ("debugMode"%string, Num (SBool false));
   ("bootstrapMode"%string, Num (SBool false));
   ("returnEigenvectors"%string, Num (SBool false));
   ("pcaComponentNumber"%string, Seq [SInt 1])].

(** The body of [for kw in userKeys:].  The tests [kw.lower == 'sfreq'] and
    [kw.lower == 'srate'] compare a bound method with a string and are
    never true. *)
Definition set_keyword (params : pdict) (kw : string) (v : value)
  : result pdict :=
  let k := lower kw in
  if (String.eqb k "fs" || String.eqb k "samplerate" || false || false)%bool
  then
    z <~ py_int v ;; Return (setitem "Fs" (Num (SInt z)) params)
  else if String.eqb k "nfft" then
    z <~ py_int v ;; Return (setitem "nfft" (Num (SInt z)) params)
  else if String.eqb k "tapers" then
    l <~ py_list v ;;
    ntaps <~ py_item (Seq l) 1 ;;
    Return (setitem "tapers" (Seq (list_set 1 (SInt (int_of ntaps)) l)) params)
  else if String.eqb k "fpass" then
    l <~ py_list v ;; Return (setitem "fpass" (Seq l) params)
  else if String.eqb k "npairs" then
    z <~ py_int v ;; Return (setitem "Npairs" (Num (SInt z)) params)
  else if String.eqb k "itc" then
    Return (setitem "itc" (Num (SBool (py_bool v))) params)
  else if String.eqb k "threads" then
    z <~ py_int v ;; Return (setitem "threads" (Num (SInt z)) params)
  else if String.eqb k "ndraws" then
    z <~ py_int v ;; Return (setitem "nDraws" (Num (SInt z)) params)
  else if String.eqb k "debugmode" then
    Return (setitem "debugMode" (Num (SBool (py_bool v))) params)
  else if (String.eqb k "returnindividualbootstrapresults"
           || String.eqb k "indivdraw")%bool then
    Return (setitem "indivDraw" (Num (SBool (py_bool v))) params)
  else if String.eqb k "bootstrapmode" then
    Return (setitem "bootstrapMode" (Num (SBool (py_bool v))) params)
  else if String.eqb k "pcacomponentnumber" then
    l <~ int_array v ;;
    Return (setitem "pcaComponentNumber" (Seq l) params)
  else
    Return (setitem kw v params).

Fixpoint set_keywords (params : pdict) (kwArgs : list (string * value))
  : result pdict :=
  match kwArgs with
  | [] => Return params
  | (kw, v) :: rest =>
      params <~ set_keyword params kw v ;; set_keywords params rest
  end.

(** The arguments of the closing [logger.info] calls are evaluated whatever
    the verbosity. *)
Definition report (params : pdict) : result unit :=
  _ <~ getitem "Fs" params ;;
  tapers <~ getitem "tapers" params ;;
  _ <~ py_item tapers 1 ;;
  tapers <~ getitem "tapers" params ;;
  _ <~ py_item tapers 0 ;;
  fpass <~ getitem "fpass" params ;;
  _ <~ py_item fpass 0 ;;
  fpass <~ getitem "fpass" params ;;
  _ <~ py_item fpass 1 ;;
  _ <~ getitem "itc" params ;;
  _ <~ getitem "Npairs" params ;;
  _ <~ getitem "debugMode" params ;;
  _ <~ getitem "bootstrapMode" params ;;
  b <~ getitem "bootstrapMode" params ;;
  if py_bool b then
    _ <~ getitem "threads" params ;;
    _ <~ getitem "nDraws" params ;;
    _ <~ getitem "indivDraw" params ;;
    Return tt
  else Return tt.

Definition generate_parameters (kwArgs : list (string * value))
  : logged pdict :=
  params <~~ quiet (set_keywords defaults kwArgs) ;;
  params <~~ _validate_parameters params ;;
  _ <~~ quiet (report params) ;;
  quiet (Return params).

End Generate.

(** The keywords [generate_parameters] recognises, in lower case. *)
Definition recognised : list string :=
  ["fs"; "samplerate"; "nfft"; "tapers"; "fpass"; "npairs"; "itc";
   "threads"; "ndraws"; "debugmode"; "returnindividualbootstrapresults";
   "indivdraw"; "bootstrapmode"; "pcacomponentnumber"]%string.

Definition is_recognised (kw : string) : bool :=
  existsb (String.eqb (lower kw)) recognised.

(** The keywords that set the sample rate. *)
Definition is_rate_keyword (kw : string) : bool :=
  (String.eqb (lower kw) "fs" || String.eqb (lower kw) "samplerate")%bool.

(** The key a keyword is stored under. *)
Definition stored_key (kw : string) : string :=
  let k := lower kw in
  if (String.eqb k "fs" || String.eqb k "samplerate")%bool then "Fs"
  else if String.eqb k "nfft" then "nfft"
  else if String.eqb k "tapers" then "tapers"
  else if String.eqb k "fpass" then "fpass"
  else if String.eqb k "npairs" then "Npairs"
  else if String.eqb k "itc" then "itc"
  else if String.eqb k "threads" then "threads"
  else if String.eqb k "ndraws" then "nDraws"
  else if String.eqb k "debugmode" then "debugMode"
  else if (String.eqb k "returnindividualbootstrapresults"
           || String.eqb k "indivdraw")%bool then "indivDraw"
  else if String.eqb k "bootstrapmode" then "bootstrapMode"
  else if String.eqb k "pcacomponentnumber" then "pcaComponentNumber"
  else kw.


(** Kinds of values. *)
Definition is_int (v : value) : Prop := exists z, v = Num (SInt z).
Definition is_bool (v : value) : Prop := exists b, v = Num (SBool b).
Definition is_seq (v : value) : Prop := exists l, v = Seq l.
Definition is_int_seq (v : value) : Prop := exists l, v = Seq (map SInt l).
(** At least two entries. *)
Definition is_pair (v : value) : Prop :=
  exists a b rest, v = Seq (a :: b :: rest).
(** At least two entries, the second an integer. *)
Definition is_tapers (v : value) : Prop :=
  exists tw nt rest, v = Seq (tw :: SInt nt :: rest).

(** The key is present, with a value of the given kind. *)
Definition holds (d : pdict) (k : string) (P : value -> Prop) : Prop :=
  exists v, getitem k d = Return v /\ P v.

(** The key is absent, or has a value of the given kind. *)
Definition may_hold (d : pdict) (k : string) (P : value -> Prop) : Prop :=
  forall v, getitem k d = Return v -> P v.

(** What the keyword loop keeps true of the dictionary it builds. *)
Definition well_formed (d : pdict) : Prop :=
  holds d "tapers" is_tapers /\
  holds d "Npairs" is_int /\
  holds d "itc" is_bool /\
  holds d "threads" is_int /\
  holds d "nDraws" is_int /\
  holds d "indivDraw" is_bool /\
  holds d "debugMode" is_bool /\
  holds d "bootstrapMode" is_bool /\
  holds d "pcaComponentNumber" is_int_seq /\
  holds d "returnEigenvectors" (fun _ => True) /\
  may_hold d "Fs" is_int /\
  may_hold d "nfft" is_int /\
  may_hold d "fpass" is_seq.

End Parameters.

(** ** Recordings and results under a gain *)

(** [a * x]. *)
Definition scale (a : R) (x : ndarray R) : ndarray R :=
  mkarr (shape x) (map (Rmult a) (data x)).

Definition scale_values (g : R) (a : ndarray nanR) : ndarray nanR :=
  mkarr (shape a) (map (lift1 (Rmult g)) (data a)).

(** Every array of a return value multiplied by [g]; the frequency axis is
    left alone. *)
Definition rescale (g : R) (r : pyval) : pyval :=
  let one := fun v => match v with
                      | Arr a => Arr (scale_values g a)
                      | _ => v
                      end in
  match r with
  | Tuple l => Tuple (map one l)
  | Dict d => Dict (map (fun kv => (fst kv, one (snd kv))) d)
  | _ => one r
  end.

(** A value that is NaN or has the property. *)
Definition nan_or (P : R -> Prop) (v : nanR) : Prop :=
  match v with
  | Some r => P r
  | None => True
  end.

(** A property of reals that the mean of a non-empty list inherits. *)
Definition mean_closed (P : R -> Prop) : Prop :=
  forall (l : list R) (r : R), Forall P l -> Rmean l = Some r -> P r.

(** Where both values are finite, the first is not negative and its square
    is not above the second. *)
Definition square_below (s w : nanR) : Prop :=
  forall s0 w0, s = Some s0 -> w = Some w0 -> 0 <= s0 /\ s0 * s0 <= w0.

(** A finite value, and zero for NaN. *)
Definition finite_part (v : nanR) : R :=
  match v with
  | Some s => s
  | None => 0
  end.

(** The square of a finite value. *)
Definition squared (v : nanR) : R :=
  match v with
  | Some s => s * s
  | None => 0
  end.

(** The average over the channels. *)
Definition channel_mean (nchans : nat) (g : nat -> R) : R :=
  Rsum (map g (seq 0 nchans)) / INR nchans.

(** ** A decomposition for any number of channels

    The n x n matrix with entries [h i j], as the list of its rows. *)
Definition matrix_of (n : nat) (h : nat -> nat -> complex) : cmat :=
  map (fun i => map (fun j => h i j) (seq 0 n)) (seq 0 n).

Definition delta (i j : nat) : complex :=
  if (i =? j)%nat then C1 else C0.

(** The reflection about the hyperplane orthogonal to [w], for
    [W = |w|^2]: [I - 2 w w^H / W]. *)
Definition reflector (w : nat -> complex) (W : R) (i j : nat) : complex :=
  Cadd (delta i j) (Cscal (- 2 / W) (Cmul (w i) (Cconj (w j)))).

(** A complex number of magnitude one with [z = |z| phase(z)]. *)
Definition phase (z : complex) : complex :=
  if Req_EM_T (Cabs z) 0 then C1 else Cscal (/ Cabs z) z.

(** The vector about which to reflect so that the last basis vector goes
    to a multiple of [v]. *)
Definition pivot (v : list complex) (k : nat) : complex :=
  let p := (length v - 1)%nat in
  Cadd (nth k v C0)
       (Cmul (delta k p) (Cscal (sqrt (norm2 v)) (phase (nth p v C0)))).

(** A unitary matrix whose last column is parallel to [v]; the identity
    when [v] is zero. *)
Definition completion (v : list complex) : cmat :=
  let n := length v in
  if Req_EM_T (norm2 v) 0 then matrix_of n delta
  else matrix_of n
         (reflector (pivot v)
                    (Rsum (map (fun k => Cabs2 (pivot v k)) (seq 0 n)))).

(** [out[key]] on what [mtcpca_all] returns: the dictionary itself in
    bootstrap mode, the first of the pair [(out, f)] otherwise. *)
Definition entry (key : string) (r : pyval) : option pyval :=
  match r with
  | Dict d => lookup key d
  | Tuple (Dict d :: _) => lookup key d
  | _ => None
  end.

(** The parameters with [params['itc']] set to [b]. *)
Definition with_itc (b : bool) (p : params) : params :=
  mkparams (Fs p) (tapers p) (fpass p) b (Npairs p) (nfft p)
           (bootstrapMode p) (returnEigenvectors p) (pcaComponentNumber p).

(** What the single stored eigenvector [V] of one bin is for the channel
    statistics [col]: there is one vector, of one entry per channel; and
    when the statistics are not all zero it has unit norm, and the squared
    magnitude of each entry is that channel's share of the total. *)
Definition channel_shares (col : list nanC) (V : list (list complex))
  : Prop :=
  exists v u,
    col = map Some v /\ V = [u] /\ length u = length v /\
    (norm2 v <> 0 ->
     norm2 u = 1 /\
     forall c, Cabs2 (nth c u C0) = Cabs2 (nth c v C0) / norm2 v).

(** The value of component index [i] for channel statistics [v]: their
    summed squared magnitude over the channel count for the top
    component, zero for every other. *)
Definition component_value (nchans : nat) (v : list complex) (i : Z) : R :=
  if ((i =? -1) || (i =? Z.of_nat (length v) - 1))%Z
  then norm2 v / INR nchans else 0.

Definition rank_one_values (nchans : nat) (col : list nanC) (pc : list Z)
  (vals : list R) : Prop :=
  exists v, col = map Some v /\ vals = map (component_value nchans v) pc.

(** Two channels and one bin, every statistic one. *)
Definition all_ones : tensor2 nanC := mkt2 2 1 (fun _ _ => Some C1).

(** The pairs of a draw, each with its two trials exchanged. *)
Definition swapped (randint : pair_source) : pair_source :=
  fun k i => (snd (randint k i), fst (randint k i)).

(** * Verification *)

(** ** Lists, masks and subsequences *)

Lemma mask_map_filter {A} (q : A -> bool) (l : list A) :
  mask (map q l) l = filter q l.
Proof.
  induction l as [|a l IH]; simpl; [reflexivity|].
  destruct (q a); rewrite IH; reflexivity.
Qed.

Lemma subseq_filter {A} (q : A -> bool) (l : list A) : subseq (filter q l) l.
Proof.
  induction l as [|a l IH]; simpl.
  - constructor.
  - destruct (q a); constructor; exact IH.
Qed.

Lemma subseq_Forall {A} (P : A -> Prop) (l1 l2 : list A) :
  subseq l1 l2 -> Forall P l2 -> Forall P l1.
Proof.
  induction 1; intros HF; auto.
  - inversion HF; subst; auto.
  - inversion HF; subst; constructor; auto.
Qed.

Lemma subseq_sorted {A} (lt : A -> A -> Prop) (l1 l2 : list A) :
  subseq l1 l2 -> StronglySorted lt l2 -> StronglySorted lt l1.
Proof.
  induction 1; intros HS.
  - constructor.
  - inversion HS; subst; auto.
  - inversion HS; subst. constructor; auto.
    eapply subseq_Forall; eauto.
Qed.

Lemma sorted_by_index {A} (lt : A -> A -> Prop) (d : A) (l : list A) :
  (forall i j, (i < j)%nat -> (j < length l)%nat ->
               lt (nth i l d) (nth j l d)) ->
  StronglySorted lt l.
Proof.
  induction l as [|a l IH]; intros H; constructor.
  - apply IH. intros i j Hij Hj.
    apply (H (S i) (S j)); simpl; lia.
  - apply Forall_forall. intros b Hb.
    destruct (In_nth _ _ d Hb) as [j [Hj Hnth]].
    rewrite <- Hnth. apply (H O (S j)); simpl; lia.
Qed.

(** ** FrequencyGrid *)

Module GridFacts.
Import FrequencyGrid.
Local Open Scope Q_scope.

Lemma maxIdx_half n : maxIdx n = (n / 2 + 1)%nat.
Proof.
  unfold maxIdx. destruct (Nat.odd n) eqn:E; [|reflexivity].
  apply Nat.odd_spec in E. destruct E as [k ->].
  replace (2 * k + 1 + 1)%nat with ((k + 1) * 2)%nat by lia.
  rewrite Nat.div_mul by lia.
  replace (2 * k + 1)%nat with (1 + k * 2)%nat by lia.
  rewrite Nat.div_add by lia. simpl. lia.
Qed.

Lemma fftfreq_length n d : (1 <= n)%nat -> length (fftfreq n d) = n.
Proof.
  intros Hn. unfold fftfreq.
  rewrite length_map, length_app, !length_map, !length_seq.
  pose proof (Nat.div_mod_eq n 2) as E.
  pose proof (Nat.div_mod_eq (n - 1) 2) as E1.
  pose proof (Nat.mod_upper_bound n 2).
  pose proof (Nat.mod_upper_bound (n - 1) 2).
  lia.
Qed.

Lemma full_axis_length n fs :
  (1 <= n)%nat -> length (full_axis n fs) = (n / 2 + 1)%nat.
Proof.
  intros Hn. unfold full_axis.
  rewrite length_map, length_firstn, fftfreq_length, maxIdx_half by exact Hn.
  pose proof (Nat.div_mod_eq n 2). pose proof (Nat.mod_upper_bound n 2).
  lia.
Qed.

(** Bin [i] of the full axis sits at [i] bin widths, the Nyquist bin of an
    even size included: its negative frequency is folded by [np.abs]. *)
Lemma full_axis_nth n fs i :
  (1 <= n)%nat -> (i < n / 2 + 1)%nat ->
  nth i (full_axis n fs) 0 == inject_Z (Z.of_nat i) * Qabs (bin_width n fs).
Proof.
  intros Hn Hi.
  assert (Hlen : (i < length (firstn (maxIdx n) (fftfreq n (1 / fs))))%nat).
  { rewrite length_firstn, fftfreq_length, maxIdx_half by exact Hn.
    pose proof (Nat.div_mod_eq n 2). pose proof (Nat.mod_upper_bound n 2).
    lia. }
  unfold full_axis.
  rewrite (nth_indep _ 0 (Qabs 0)) by (rewrite length_map; exact Hlen).
  rewrite map_nth, nth_firstn.
  rewrite maxIdx_half.
  destruct (Nat.ltb_spec i (n / 2 + 1)) as [_|]; [|lia].
  unfold fftfreq. fold (bin_width n fs).
  set (ks := (map Z.of_nat (seq 0 ((n - 1) / 2 + 1)) ++
              map (fun j => (Z.of_nat j - Z.of_nat (n / 2))%Z)
                  (seq 0 (n / 2)))).
  assert (Hks : Z.abs (nth i ks 0%Z) = Z.of_nat i).
  { unfold ks.
    destruct (Nat.lt_ge_cases i ((n - 1) / 2 + 1)) as [Hlt|Hge].
    - rewrite app_nth1 by (rewrite length_map, length_seq; exact Hlt).
      rewrite (nth_indep _ 0%Z (Z.of_nat 0))
        by (rewrite length_map, length_seq; exact Hlt).
      rewrite map_nth, seq_nth by exact Hlt. lia.
    - rewrite app_nth2 by (rewrite length_map, length_seq; exact Hge).
      rewrite length_map, length_seq.
      pose proof (Nat.div_mod_eq n 2) as E.
      pose proof (Nat.div_mod_eq (n - 1) 2) as E1.
      pose proof (Nat.mod_upper_bound n 2).
      pose proof (Nat.mod_upper_bound (n - 1) 2).
      assert (Hi0 : (i - ((n - 1) / 2 + 1) < n / 2)%nat) by lia.
      rewrite (nth_indep _ 0%Z ((fun j => (Z.of_nat j - Z.of_nat (n / 2))%Z) O))
        by (rewrite length_map, length_seq; exact Hi0).
      rewrite (map_nth (fun j => (Z.of_nat j - Z.of_nat (n / 2))%Z)).
      rewrite seq_nth by exact Hi0. cbn beta. lia. }
  rewrite (nth_indep _ 0 ((fun k => inject_Z k * bin_width n fs) 0%Z)).
  2:{ rewrite length_map. unfold ks.
      rewrite length_app, !length_map, !length_seq.
      pose proof (Nat.div_mod_eq n 2) as E.
      pose proof (Nat.div_mod_eq (n - 1) 2) as E1.
      pose proof (Nat.mod_upper_bound n 2).
      pose proof (Nat.mod_upper_bound (n - 1) 2). lia. }
  rewrite (map_nth (fun k => inject_Z k * bin_width n fs)).
  rewrite Qabs_Qmult. rewrite <- Hks.
  apply Qmult_comp; [|reflexivity].
  unfold Qabs, inject_Z. simpl. reflexivity.
Qed.

(** For an even size, the entry [fftfreq] puts at index [n/2] is the negative
    Nyquist frequency. *)
Lemma fftfreq_nyquist n d :
  (1 <= n)%nat -> Nat.even n = true ->
  nth (n / 2) (fftfreq n d) 0
  = inject_Z (- Z.of_nat (n / 2)) * (1 / (inject_Z (Z.of_nat n) * d)).
Proof.
  intros Hn He. apply Nat.even_spec in He. destruct He as [k ->].
  assert (Hk : (1 <= k)%nat) by lia.
  replace (2 * k)%nat with (k * 2)%nat by lia.
  unfold fftfreq. rewrite Nat.div_mul by lia.
  replace ((k * 2 - 1) / 2 + 1)%nat with k.
  2:{ replace (k * 2 - 1)%nat with (1 + (k - 1) * 2)%nat by lia.
      rewrite Nat.div_add by lia. simpl. lia. }
  set (val := 1 / (inject_Z (Z.of_nat (k * 2)) * d)).
  rewrite (nth_indep _ 0 ((fun z => inject_Z z * val) 0%Z)).
  2:{ rewrite length_map, length_app, !length_map, !length_seq. lia. }
  rewrite (map_nth (fun z => inject_Z z * val)).
  rewrite app_nth2 by (rewrite length_map, length_seq; lia).
  rewrite length_map, length_seq, Nat.sub_diag.
  destruct k as [|k']; [lia|]. simpl nth.
  replace (Z.of_nat 0 - Z.of_nat (S k'))%Z with (- Z.of_nat (S k'))%Z by lia.
  reflexivity.
Qed.

Lemma Qinv_nonzero (y : Q) : ~ y == 0 -> ~ / y == 0.
Proof.
  intros Hy E. apply Hy.
  rewrite <- (Qinv_involutive y). rewrite E. reflexivity.
Qed.

Lemma bin_width_nonzero n fs :
  (1 <= n)%nat -> ~ fs == 0 -> 0 < Qabs (bin_width n fs).
Proof.
  intros Hn Hfs.
  assert (Hne : ~ bin_width n fs == 0).
  { unfold bin_width, Qdiv. rewrite !Qmult_1_l.
    apply Qinv_nonzero. intros Ey.
    apply Qmult_integral in Ey. destruct Ey as [Ey|Ey].
    - unfold inject_Z, Qeq in Ey. simpl in Ey. lia.
    - revert Ey. apply Qinv_nonzero. exact Hfs. }
  destruct (Qlt_le_dec 0 (Qabs (bin_width n fs))) as [H|H]; [exact H|].
  exfalso. apply Hne.
  pose proof (Qabs_nonneg (bin_width n fs)) as H0.
  assert (E : Qabs (bin_width n fs) == 0) by (apply Qle_antisym; assumption).
  revert E. apply Qabs_case; intros _ E.
  - exact E.
  - rewrite <- (Qopp_involutive (bin_width n fs)), E. reflexivity.
Qed.

Lemma full_axis_sorted n fs :
  (1 <= n)%nat -> ~ fs == 0 -> StronglySorted Qlt (full_axis n fs).
Proof.
  intros Hn Hfs. apply (sorted_by_index Qlt 0).
  intros i j Hij Hj. rewrite full_axis_length in Hj by exact Hn.
  rewrite !full_axis_nth by lia.
  apply Qmult_lt_compat_r; [apply bin_width_nonzero; assumption|].
  rewrite <- Zlt_Qlt. lia.
Qed.

Lemma full_axis_nonneg n fs : Forall (fun v => 0 <= v) (full_axis n fs).
Proof.
  unfold full_axis. apply Forall_forall. intros v Hv.
  apply in_map_iff in Hv. destruct Hv as [u [<- _]]. apply Qabs_nonneg.
Qed.

Lemma in_passband_spec p v :
  in_passband p v = true <-> fst (fpass p) <= v /\ v <= snd (fpass p).
Proof.
  unfold in_passband. rewrite andb_true_iff, !Qle_bool_iff. reflexivity.
Qed.

Lemma get_freq_vector_inv {A} (x : ndarray A) p timeDim n f fInd :
  _get_freq_vector x p timeDim = Ok (n, f, fInd) ->
  (1 <= n)%nat /\ ~ Fs p == 0 /\
  fInd = map (in_passband p) (full_axis n (Fs p)) /\
  f = mask fInd (full_axis n (Fs p)).
Proof.
  unfold _get_freq_vector.
  destruct (nth_error (shape x) timeDim) as [L|]; [|discriminate].
  destruct (choose_nfft _ p) as [m|e]; simpl; [|discriminate].
  destruct (Qeq_bool (Fs p) 0) eqn:EF; [discriminate|].
  destruct (Nat.eqb_spec m 0); [discriminate|].
  intros H. inversion H; subst. repeat split.
  - lia.
  - intros E. apply Qeq_bool_iff in E. congruence.
Qed.

(** The time axis, when the recording has it. *)
Lemma axis_extent {A} (x : ndarray A) (timeDim L : nat) :
  nth_error (shape x) timeDim = Some L -> nth timeDim (shape x) O = L.
Proof. intros H. now apply nth_error_nth. Qed.

Lemma get_freq_vector_at {A} (x : ndarray A) p timeDim :
  (timeDim < length (shape x))%nat ->
  _get_freq_vector x p timeDim
  = (n <- choose_nfft (nth timeDim (shape x) O) p ;;
     if Qeq_bool (Fs p) 0 then Raise ZeroDivisionError
     else if (n =? 0)%nat then Raise ZeroDivisionError
     else Ok (n, mask (map (in_passband p) (full_axis n (Fs p)))
                      (full_axis n (Fs p)),
              map (in_passband p) (full_axis n (Fs p)))).
Proof.
  intros H. unfold _get_freq_vector.
  destruct (nth_error (shape x) timeDim) as [L|] eqn:E.
  - now rewrite (axis_extent _ _ E).
  - apply nth_error_None in E. lia.
Qed.

Lemma get_freq_vector_no_axis {A} (x : ndarray A) p timeDim :
  (length (shape x) <= timeDim)%nat ->
  _get_freq_vector x p timeDim = Raise IndexError.
Proof.
  intros H. unfold _get_freq_vector.
  apply nth_error_None in H. now rewrite H.
Qed.

Lemma get_freq_vector_axis {A} (x : ndarray A) p timeDim r :
  _get_freq_vector x p timeDim = Ok r -> (timeDim < length (shape x))%nat.
Proof.
  intros H. destruct (Nat.lt_ge_cases timeDim (length (shape x))) as [Hl|Hl];
    [exact Hl|].
  rewrite get_freq_vector_no_axis in H by exact Hl. discriminate.
Qed.

End GridFacts.


(** C7: whenever [_get_freq_vector] returns, the axis before masking has
    floor(nfft/2)+1 entries, none negative, strictly increasing (the Nyquist
    bin of an even size being the absolute value of the negative entry
    [fftfreq] puts there); the mask marks exactly the bins with
    fpass[0] <= f <= fpass[1]; and the returned axis is the marked bins, a
    strictly increasing subsequence of the full axis. *)
Theorem freq_vector_axis {A} (x : ndarray A) (p : params) (timeDim : nat)
  (n : nat) (f : list Q) (fInd : list bool) :
  FrequencyGrid._get_freq_vector x p timeDim = Ok (n, f, fInd) ->
  let full := FrequencyGrid.full_axis n (Fs p) in
  length full = (n / 2 + 1)%nat /\
  Forall (fun v => (0 <= v)%Q) full /\
  StronglySorted Qlt full /\
  (forall i, (i < n / 2 + 1)%nat ->
     (nth i full 0 ==
      inject_Z (Z.of_nat i) * Qabs (FrequencyGrid.bin_width n (Fs p)))%Q) /\
  (Nat.even n = true ->
     nth (n / 2) (FrequencyGrid.fftfreq n (1 / Fs p)) 0%Q
     = (inject_Z (- Z.of_nat (n / 2)) * FrequencyGrid.bin_width n (Fs p))%Q) /\
  length fInd = length full /\
  (forall i, (i < length full)%nat ->
     nth i fInd false = true <->
     (fst (fpass p) <= nth i full 0 /\ nth i full 0 <= snd (fpass p))%Q) /\
  f = mask fInd full /\
  subseq f full /\
  StronglySorted Qlt f.
Proof.
  intros H full.
  destruct (GridFacts.get_freq_vector_inv _ _ _ H) as (Hn & Hfs & EI & Ef).
  fold full in EI, Ef.
  assert (Hsorted : StronglySorted Qlt full)
    by (apply GridFacts.full_axis_sorted; assumption).
  assert (Hsub : subseq f full).
  { rewrite Ef, EI, mask_map_filter. apply subseq_filter. }
  split; [apply GridFacts.full_axis_length; exact Hn|].
  split; [apply GridFacts.full_axis_nonneg|].
  split; [exact Hsorted|].
  split; [intros i Hi; apply GridFacts.full_axis_nth; assumption|].
  split; [intros He; apply GridFacts.fftfreq_nyquist; assumption|].
  split; [rewrite EI; apply length_map|].
  split.
  { intros i Hi. rewrite EI.
    rewrite (nth_indep _ false (FrequencyGrid.in_passband p 0))
      by (rewrite length_map; assumption).
    rewrite map_nth. apply GridFacts.in_passband_spec. }
  split; [exact Ef|].
  split; [exact Hsub|].
  eapply subseq_sorted; eassumption.
Qed.

Lemma freq_vector_axis_witness :
  let full := FrequencyGrid.full_axis 4 (Fs grid_params) in
  length full = (4 / 2 + 1)%nat /\
  Forall (fun v => (0 <= v)%Q) full /\
  StronglySorted Qlt full /\
  (forall i, (i < 4 / 2 + 1)%nat ->
     (nth i full 0 ==
      inject_Z (Z.of_nat i)
      * Qabs (FrequencyGrid.bin_width 4 (Fs grid_params)))%Q) /\
  (Nat.even 4 = true ->
     nth (4 / 2) (FrequencyGrid.fftfreq 4 (1 / Fs grid_params)) 0%Q
     = (inject_Z (- Z.of_nat (4 / 2))
        * FrequencyGrid.bin_width 4 (Fs grid_params))%Q) /\
  length [false; true; false] = length full /\
  (forall i, (i < length full)%nat ->
     nth i [false; true; false] false = true <->
     (fst (fpass grid_params) <= nth i full 0 /\
      nth i full 0 <= snd (fpass grid_params))%Q) /\
  [8 # 4] = mask [false; true; false] full /\
  subseq [8 # 4] full /\
  StronglySorted Qlt [8 # 4].
Proof.
  apply (@freq_vector_axis R grid_recording grid_params 1).
  vm_compute. reflexivity.
Defined.

(** [_get_freq_vector] returns for every recording with at least one sample
    along the time axis and every non-zero sample rate. *)
Lemma get_freq_vector_total {A} (x : ndarray A) (p : params) (timeDim : nat) :
  (1 <= nth timeDim (shape x) O)%nat -> ~ (Fs p == 0)%Q ->
  exists n f fInd,
    FrequencyGrid._get_freq_vector x p timeDim = Ok (n, f, fInd) /\
    (nth timeDim (shape x) O <= n)%nat.
Proof.
  intros HL Hfs.
  rewrite GridFacts.get_freq_vector_at.
  2:{ destruct (Nat.lt_ge_cases timeDim (length (shape x))) as [Hl|Hl];
        [exact Hl|].
      rewrite nth_overflow in HL by exact Hl. lia. }
  set (L := nth timeDim (shape x) O) in *.
  assert (Hd : exists n, FrequencyGrid.default_nfft L = Ok n /\ (L <= n)%nat).
  { unfold FrequencyGrid.default_nfft. destruct L as [|L']; [lia|].
    eexists; split; [reflexivity|].
    destruct (Nat.eq_dec L' 0) as [->|Hne]; [simpl; lia|].
    apply Nat.log2_up_spec. lia. }
  assert (Hc : exists n, FrequencyGrid.choose_nfft L p = Ok n /\ (L <= n)%nat).
  { unfold FrequencyGrid.choose_nfft. destruct (nfft p) as [z|]; [|exact Hd].
    destruct (Z.ltb_spec z (Z.of_nat L)); [exact Hd|].
    eexists; split; [reflexivity|]. lia. }
  destruct Hc as [n [-> Hn]]. simpl.
  destruct (Qeq_bool (Fs p) 0) eqn:E.
  { apply Qeq_bool_iff in E. contradiction. }
  destruct (Nat.eqb_spec n 0); [lia|].
  do 3 eexists. split; [reflexivity|exact Hn].
Qed.

(** ** Complex arithmetic *)

Lemma complex_eq (a b : complex) : fst a = fst b -> snd a = snd b -> a = b.
Proof. destruct a, b; simpl; intros; subst; reflexivity. Qed.

Ltac cring :=
  intros;
  repeat match goal with z : complex |- _ => destruct z end;
  unfold Cadd, Cmul, Cconj, Cscal, RtoC, C0, C1, Cre, Cim; simpl;
  apply complex_eq; simpl; ring.

Lemma Cadd_comm a b : Cadd a b = Cadd b a.
Proof. cring. Qed.
Lemma Cadd_assoc a b c : Cadd a (Cadd b c) = Cadd (Cadd a b) c.
Proof. cring. Qed.
Lemma Cadd_0_l a : Cadd C0 a = a.
Proof. cring. Qed.
Lemma Cadd_0_r a : Cadd a C0 = a.
Proof. cring. Qed.
Lemma Cmul_comm a b : Cmul a b = Cmul b a.
Proof. cring. Qed.
Lemma Cmul_assoc a b c : Cmul a (Cmul b c) = Cmul (Cmul a b) c.
Proof. cring. Qed.
Lemma Cmul_0_l a : Cmul C0 a = C0.
Proof. cring. Qed.
Lemma Cmul_0_r a : Cmul a C0 = C0.
Proof. cring. Qed.
Lemma Cmul_1_l a : Cmul C1 a = a.
Proof. cring. Qed.
Lemma Cmul_add_l a b c : Cmul a (Cadd b c) = Cadd (Cmul a b) (Cmul a c).
Proof. cring. Qed.
Lemma Cmul_add_r a b c : Cmul (Cadd a b) c = Cadd (Cmul a c) (Cmul b c).
Proof. cring. Qed.
Lemma Cscal_RtoC r z : Cscal r z = Cmul (RtoC r) z.
Proof. cring. Qed.
Lemma Cscal_add r a b : Cscal r (Cadd a b) = Cadd (Cscal r a) (Cscal r b).
Proof. cring. Qed.

Lemma sumsq_nonneg (a b : R) : 0 <= a * a + b * b.
Proof. nra. Qed.

Lemma Cabs_nonneg z : 0 <= Cabs z.
Proof. apply sqrt_pos. Qed.

Lemma Cabs2_eq z : Cabs2 z = fst z * fst z + snd z * snd z.
Proof.
  unfold Cabs2, Cabs. simpl. rewrite Rmult_1_r.
  apply sqrt_sqrt, sumsq_nonneg.
Qed.

Lemma Cabs2_nonneg z : 0 <= Cabs2 z.
Proof. rewrite Cabs2_eq. apply sumsq_nonneg. Qed.

Lemma Cabs_0_iff z : Cabs z = 0 <-> z = C0.
Proof.
  split.
  - intros H. unfold Cabs in H. apply sqrt_eq_0 in H; [|apply sumsq_nonneg].
    destruct z as [a b]; simpl in *. unfold C0.
    f_equal; nra.
  - intros ->. unfold Cabs, C0. simpl.
    replace (0 * 0 + 0 * 0) with 0 by ring. apply sqrt_0.
Qed.

Lemma Cmul_conj z : Cmul (Cconj z) z = RtoC (Cabs2 z).
Proof.
  rewrite Cabs2_eq. destruct z as [a b].
  unfold Cmul, Cconj, RtoC; simpl. f_equal; ring.
Qed.

Lemma Cabs_scal r z : 0 <= r -> Cabs (Cscal r z) = r * Cabs z.
Proof.
  intros Hr. unfold Cabs, Cscal. simpl.
  replace (r * fst z * (r * fst z) + r * snd z * (r * snd z))
    with ((r * r) * (fst z * fst z + snd z * snd z)) by ring.
  rewrite sqrt_mult; [|nra|apply sumsq_nonneg].
  rewrite sqrt_square by exact Hr. reflexivity.
Qed.

Lemma Cabs_triangle a b : Cabs (Cadd a b) <= Cabs a + Cabs b.
Proof.
  destruct a as [a1 a2], b as [b1 b2]. unfold Cabs, Cadd. simpl.
  apply Rsqr_incr_0_var.
  2:{ apply Rplus_le_le_0_compat; apply sqrt_pos. }
  unfold Rsqr.
  rewrite sqrt_sqrt by apply sumsq_nonneg.
  pose proof (sqrt_cauchy a1 a2 b1 b2) as HC.
  pose proof (sqrt_sqrt (a1 * a1 + a2 * a2) (sumsq_nonneg _ _)) as Ea.
  pose proof (sqrt_sqrt (b1 * b1 + b2 * b2) (sumsq_nonneg _ _)) as Eb.
  unfold Rsqr in HC.
  replace (a1 ^ 2) with (a1 * a1) in HC by ring.
  replace (a2 ^ 2) with (a2 * a2) in HC by ring.
  replace (b1 ^ 2) with (b1 * b1) in HC by ring.
  replace (b2 ^ 2) with (b2 * b2) in HC by ring.
  nra.
Qed.

Lemma Cmul_integral a z : Cmul a z = C0 -> z <> C0 -> a = C0.
Proof.
  destruct a as [a1 a2], z as [z1 z2]. unfold Cmul, C0. simpl.
  intros H Hz. injection H as H1 H2.
  assert (Hpos : 0 < z1 * z1 + z2 * z2).
  { destruct (Req_dec z1 0) as [E1|E1]; destruct (Req_dec z2 0) as [E2|E2];
      try nra. subst. exfalso. apply Hz. reflexivity. }
  assert (Ea1 : a1 * (z1 * z1 + z2 * z2) = 0).
  { replace (a1 * (z1 * z1 + z2 * z2))
      with (z1 * (a1 * z1 - a2 * z2) + z2 * (a1 * z2 + a2 * z1)) by ring.
    rewrite H1, H2. ring. }
  assert (Ea2 : a2 * (z1 * z1 + z2 * z2) = 0).
  { replace (a2 * (z1 * z1 + z2 * z2))
      with (z1 * (a1 * z2 + a2 * z1) - z2 * (a1 * z1 - a2 * z2)) by ring.
    rewrite H1, H2. ring. }
  apply Rmult_integral in Ea1. apply Rmult_integral in Ea2.
  f_equal; lra.
Qed.

Lemma Cmul_cancel_r a b z : Cmul a z = Cmul b z -> z <> C0 -> a = b.
Proof.
  intros H Hz.
  assert (E : Cmul (Cadd a (Cscal (-1) b)) z = C0).
  { rewrite Cmul_add_r, H. cring. }
  apply Cmul_integral in E; [|exact Hz].
  destruct a as [a1 a2], b as [b1 b2]. unfold Cadd, Cscal, C0 in E.
  simpl in E. inversion E. f_equal; lra.
Qed.

(** ** Sums *)

Lemma Rsum_nonneg (l : list R) : Forall (fun r => 0 <= r) l -> 0 <= Rsum l.
Proof.
  induction 1; simpl; [lra|]. lra.
Qed.

Lemma norm2_nonneg v : 0 <= norm2 v.
Proof.
  unfold norm2. apply Rsum_nonneg, Forall_forall.
  intros r Hr. apply in_map_iff in Hr. destruct Hr as [z [<- _]].
  apply Cabs2_nonneg.
Qed.

Lemma norm2_cons z v : norm2 (z :: v) = Cabs2 z + norm2 v.
Proof. reflexivity. Qed.

Lemma norm2_zero_iff v : norm2 v = 0 <-> Forall (fun z => z = C0) v.
Proof.
  induction v as [|z v IH].
  - split; [constructor|reflexivity].
  - rewrite norm2_cons. pose proof (Cabs2_nonneg z). pose proof (norm2_nonneg v).
    split.
    + intros E. constructor.
      * apply Cabs_0_iff. unfold Cabs2 in *.
        assert (E2 : Cabs z ^ 2 = 0) by lra.
        simpl in E2. rewrite Rmult_1_r in E2.
        apply Rmult_integral in E2. tauto.
      * apply IH. lra.
    + intros HF. inversion HF; subst.
      assert (Cabs2 C0 = 0).
      { rewrite Cabs2_eq. unfold C0; simpl. ring. }
      apply IH in H4. lra.
Qed.

(** ** The spectrum of a rank-one cross-spectral matrix *)

Lemma cdot_nil_r a : cdot a [] = C0.
Proof. unfold cdot. destruct a; reflexivity. Qed.

Lemma cdot_cons x a y b :
  cdot (x :: a) (y :: b) = Cadd (Cmul x y) (cdot a b).
Proof. reflexivity. Qed.

Lemma cdot_scale_l x b u : cdot (map (Cmul x) b) u = Cmul x (cdot b u).
Proof.
  revert u. induction b as [|y b IH]; intros [|z u]; simpl;
    try (unfold cdot; simpl; rewrite Cmul_0_r; reflexivity).
  rewrite !cdot_cons, IH, Cmul_add_l, Cmul_assoc. reflexivity.
Qed.

Lemma cdot_scale_r lam a u : cdot a (map (Cmul lam) u) = Cmul lam (cdot a u).
Proof.
  revert u. induction a as [|y a IH]; intros [|z u]; simpl;
    try (unfold cdot; simpl; rewrite Cmul_0_r; reflexivity).
  rewrite !cdot_cons, IH, Cmul_add_l. f_equal.
  rewrite !Cmul_assoc, (Cmul_comm y lam). reflexivity.
Qed.

Lemma mat_vec_outer v w u :
  mat_vec (outer v w) u = map (fun x => Cmul x (cdot w u)) v.
Proof.
  unfold mat_vec, outer. rewrite map_map.
  apply map_ext. intros x. apply cdot_scale_l.
Qed.

Lemma cdot_conj_scaled v s :
  cdot (map Cconj v) (map (fun x => Cmul x s) v) = Cmul (RtoC (norm2 v)) s.
Proof.
  induction v as [|z v IH]; simpl.
  - unfold cdot, norm2. simpl. cring.
  - rewrite cdot_cons, IH, norm2_cons.
    rewrite Cmul_assoc, Cmul_conj.
    rewrite <- Cmul_add_r. f_equal.
    unfold RtoC, Cadd. simpl. f_equal. ring.
Qed.

Lemma inner_self v : inner v v = RtoC (norm2 v).
Proof.
  unfold inner.
  replace v with (map (fun x => Cmul x C1) v) at 2.
  - rewrite cdot_conj_scaled. cring.
  - rewrite <- (map_id v) at 2. apply map_ext. intros x. cring.
Qed.

(** Every eigenvalue of [outer(v, conj(v))] is [0] or [|v|^2]. *)
Lemma outer_eigenvalue_cases v lam :
  is_eigenvalue (outer v (map Cconj v)) lam ->
  lam = RtoC (norm2 v) \/ lam = C0.
Proof.
  intros [u (Hlen & [z [Hz Hz0]] & Heq)].
  rewrite mat_vec_outer in Heq.
  set (s := cdot (map Cconj v) u) in *.
  assert (E : Cmul (RtoC (norm2 v)) s = Cmul lam s).
  { rewrite <- cdot_conj_scaled, Heq, cdot_scale_r. reflexivity. }
  destruct (Req_EM_T (Cabs s) 0) as [Es|Es].
  - right. apply Cabs_0_iff in Es.
    assert (Hin : In (Cmul lam z) (map (fun x => Cmul x s) v)).
    { rewrite Heq. apply in_map. exact Hz. }
    apply in_map_iff in Hin. destruct Hin as [x [Hx _]].
    rewrite Es, Cmul_0_r in Hx.
    apply Cmul_integral with z; auto.
  - left. symmetry. apply Cmul_cancel_r with s; [exact E|].
    intros Hs. apply Es. apply Cabs_0_iff. exact Hs.
Qed.

Lemma outer_length v w : length (outer v w) = length v.
Proof. unfold outer. apply length_map. Qed.

Lemma zero_vector_scaled v s lam :
  Forall (fun z => z = C0) v ->
  map (fun x => Cmul x s) v = map (Cmul lam) (repeat C0 (length v)).
Proof.
  induction 1; simpl; [reflexivity|].
  subst. f_equal; [cring|assumption].
Qed.

(** [|v|^2] is an eigenvalue of [outer(v, conj(v))]. *)
Lemma outer_top_eigenvalue v :
  (1 <= length v)%nat ->
  is_eigenvalue (outer v (map Cconj v)) (RtoC (norm2 v)).
Proof.
  intros Hn.
  destruct (Req_EM_T (norm2 v) 0) as [E|E].
  - (* v = 0: every non-zero vector is in the kernel *)
    destruct v as [|a v]; [simpl in Hn; lia|].
    exists (C1 :: repeat C0 (length v)).
    split; [|split].
    + rewrite outer_length. simpl. rewrite repeat_length. reflexivity.
    + exists C1. split; [left; reflexivity|].
      unfold C1, C0. intros H. injection H as H. lra.
    + rewrite mat_vec_outer, E.
      apply norm2_zero_iff in E.
      inversion E as [|? ? Ha Hv]; subst.
      simpl. f_equal; [cring|].
      apply zero_vector_scaled. exact Hv.
  - exists v. split; [|split].
    + symmetry. apply outer_length.
    + destruct v as [|a v]; [simpl in Hn; lia|].
      assert (Hex : Exists (fun z => z <> C0) (a :: v)).
      { apply neg_Forall_Exists_neg.
        - intros z. destruct (Req_EM_T (Cabs z) 0) as [Hz|Hz].
          + left. apply Cabs_0_iff. exact Hz.
          + right. intros Hz'. apply Hz, Cabs_0_iff, Hz'.
        - intros HF. apply E. apply norm2_zero_iff. exact HF. }
      apply Exists_exists in Hex. exact Hex.
    + rewrite mat_vec_outer. fold (inner v v). rewrite inner_self.
      apply map_ext. intros x. apply Cmul_comm.
Qed.

Lemma cdot_zeros_r a n : cdot a (repeat C0 n) = C0.
Proof.
  revert n. induction a as [|x a IH]; intros [|n]; simpl;
    try reflexivity.
  rewrite cdot_cons, IH. cring.
Qed.

Lemma map_scale_zero v lam k :
  length v = k ->
  map (fun x => Cmul x C0) v = map (Cmul lam) (repeat C0 k).
Proof.
  intros <-. induction v as [|x v IH]; simpl; [reflexivity|].
  f_equal; [cring|exact IH].
Qed.

(** With two channels or more the matrix has a kernel: [0] is an
    eigenvalue. *)
Lemma outer_zero_eigenvalue v :
  (2 <= length v)%nat -> is_eigenvalue (outer v (map Cconj v)) C0.
Proof.
  destruct v as [|a [|b v]]; intros Hn; simpl in Hn; try lia.
  destruct (Req_EM_T (Cabs a) 0) as [Ea|Ea].
  - (* a = 0: use the first basis vector instead *)
    apply Cabs_0_iff in Ea. subst a.
    exists (C1 :: repeat C0 (S (length v))).
    split; [|split].
    + rewrite outer_length. simpl. rewrite repeat_length. reflexivity.
    + exists C1. split; [left; reflexivity|].
      unfold C1, C0. intros H. injection H as H. lra.
    + rewrite mat_vec_outer.
      replace (cdot (map Cconj (C0 :: b :: v)) (C1 :: repeat C0 (S (length v))))
        with C0.
      * change (C1 :: repeat C0 (S (length v)))
          with (repeat C0 0 ++ C1 :: repeat C0 (S (length v))).
        simpl. f_equal; [cring|]. f_equal; [cring|].
        apply map_scale_zero. reflexivity.
      * simpl map. rewrite cdot_cons.
        change (C0 :: repeat C0 (length v)) with (repeat C0 (S (length v))).
        rewrite cdot_zeros_r. cring.
  - exists (Cconj b :: Cscal (-1) (Cconj a) :: repeat C0 (length v)).
    split; [|split].
    + rewrite outer_length. simpl. rewrite repeat_length. reflexivity.
    + exists (Cscal (-1) (Cconj a)). split; [right; left; reflexivity|].
      intros H. apply Ea. apply Cabs_0_iff.
      destruct a as [a1 a2]. unfold Cscal, Cconj, C0 in *. simpl in H.
      injection H as H1 H2. f_equal; lra.
    + rewrite mat_vec_outer.
      replace (cdot (map Cconj (a :: b :: v))
                    (Cconj b :: Cscal (-1) (Cconj a) :: repeat C0 (length v)))
        with C0.
      * simpl. f_equal; [cring|]. f_equal; [cring|].
        apply map_scale_zero. reflexivity.
      * simpl map. rewrite !cdot_cons, cdot_zeros_r. cring.
Qed.

Lemma outer_single_zero a :
  is_eigenvalue (outer [a] (map Cconj [a])) C0 -> a = C0.
Proof.
  intros [u (Hlen & [z [Hz Hz0]] & Heq)].
  rewrite outer_length in Hlen.
  destruct u as [|y [|? ?]]; simpl in Hlen; try lia.
  destruct Hz as [->|[]].
  rewrite mat_vec_outer in Heq. simpl in Heq.
  rewrite cdot_cons, cdot_nil_r, Cadd_0_r in Heq.
  injection Heq as H1 H2.
  assert (E : Cmul (Cmul a (Cconj a)) z = C0).
  { rewrite <- Cmul_assoc. apply complex_eq; simpl; [rewrite H1|rewrite H2];
      destruct z; simpl; ring. }
  apply Cmul_integral in E; [|exact Hz0].
  rewrite Cmul_comm, Cmul_conj in E.
  apply Cabs_0_iff. unfold RtoC, C0 in E. injection E as E.
  unfold Cabs2 in E. simpl in E. rewrite Rmult_1_r in E.
  apply Rmult_integral in E. tauto.
Qed.

Lemma sorted_zeros_then (k : nat) (top : R) :
  0 <= top -> StronglySorted Rle (repeat 0 k ++ [top]).
Proof.
  intros Htop. induction k as [|k IH]; simpl.
  - repeat constructor.
  - constructor; [exact IH|].
    apply Forall_app. split.
    + apply Forall_forall. intros r Hr. apply repeat_spec in Hr. lra.
    + constructor; [exact Htop|constructor].
Qed.

(** The eigenvalues of a rank-one cross-spectral matrix, as [eigh] lists
    them: zeros, then [|v|^2]. *)
Lemma outer_contract v :
  (1 <= length v)%nat ->
  eigvals_contract (outer v (map Cconj v))
                   (repeat 0 (length v - 1) ++ [norm2 v]).
Proof.
  intros Hn. split; [|split].
  - rewrite outer_length, length_app, repeat_length. simpl. lia.
  - apply sorted_zeros_then, norm2_nonneg.
  - intros lam. split.
    + intros Hin. apply in_app_or in Hin. destruct Hin as [Hin|[<-|[]]].
      * assert (H2 : (2 <= length v)%nat).
        { destruct (length v) as [|[|k]]; simpl in Hin; [lia|tauto|lia]. }
        apply repeat_spec in Hin. subst lam.
        apply outer_zero_eigenvalue. exact H2.
      * apply outer_top_eigenvalue. exact Hn.
    + intros He. apply in_or_app.
      pose proof He as He'. apply outer_eigenvalue_cases in He'.
      destruct He' as [E|E].
      * right. left. unfold RtoC in E. injection E as E. congruence.
      * unfold RtoC, C0 in E. injection E as E. subst lam.
        destruct v as [|a [|b v]]; simpl in Hn; try lia.
        -- right. left. apply outer_single_zero in He. subst a.
           unfold norm2. simpl. rewrite Cabs2_eq. unfold C0. simpl. ring.
        -- left. simpl. left. reflexivity.
Qed.

Lemma eigvalsh_contract v :
  (1 <= length v)%nat ->
  eigvals_contract (outer v (map Cconj v)) (eigvalsh (outer v (map Cconj v))).
Proof.
  intros Hn. unfold eigvalsh. apply epsilon_spec.
  eexists. apply outer_contract. exact Hn.
Qed.

Lemma sorted_last_max (l : list R) (x : R) :
  StronglySorted Rle (l ++ [x]) -> Forall (fun r => r <= x) (l ++ [x]).
Proof.
  induction l as [|a l IH]; simpl; intros H.
  - constructor; [lra|constructor].
  - inversion H as [|? ? Hs Hf]; subst. constructor.
    + rewrite Forall_app in Hf. destruct Hf as [_ Hf].
      inversion Hf; subst. assumption.
    + apply IH. exact Hs.
Qed.

Lemma py_index_last {A} (l : list A) (x : A) :
  py_index (l ++ [x]) (-1) = Ok x.
Proof.
  unfold py_index. rewrite length_app. simpl length.
  change (-1 <? 0)%Z with true. cbv iota.
  replace (Z.of_nat (length l + 1) + -1)%Z with (Z.of_nat (length l)) by lia.
  assert (H : ((0 <=? Z.of_nat (length l))
               && (Z.of_nat (length l) <? Z.of_nat (length l + 1)))%Z%bool
              = true).
  { apply andb_true_iff. split; [apply Z.leb_le|apply Z.ltb_lt]; lia. }
  rewrite H, Nat2Z.id.
  rewrite nth_error_app2 by lia. rewrite Nat.sub_diag. reflexivity.
Qed.

Lemma py_index_nil {A} (i : Z) : py_index (@nil A) i = Raise IndexError.
Proof.
  unfold py_index. simpl length.
  match goal with |- (if ?c then _ else _) = _ => destruct c end;
    [|reflexivity].
  match goal with |- context [nth_error [] ?k] => destruct k end;
    reflexivity.
Qed.

(** In an ascending list of all the eigenvalues, [vals[-1]] is the largest
    eigenvalue. *)
Lemma contract_dominant M vals top :
  eigvals_contract M vals ->
  is_eigenvalue M (RtoC top) ->
  (forall lam, is_eigenvalue M (RtoC lam) -> lam <= top) ->
  py_index vals (-1) = Ok top.
Proof.
  intros (Hlen & Hs & Hiff) Htop Hmax.
  destruct (@exists_last _ vals) as [l [x E]].
  { intros ->. apply Hiff in Htop. inversion Htop. }
  subst vals. rewrite py_index_last. f_equal.
  pose proof (sorted_last_max _ _ Hs) as Hf.
  rewrite Forall_forall in Hf.
  assert (top <= x) by (apply Hf, Hiff, Htop).
  assert (x <= top).
  { apply Hmax, Hiff, in_or_app. right. left. reflexivity. }
  lra.
Qed.

Lemma outer_eigenvalue_bound v lam :
  is_eigenvalue (outer v (map Cconj v)) lam ->
  Cim lam = 0 /\ 0 <= Cre lam <= norm2 v.
Proof.
  intros He. pose proof (norm2_nonneg v).
  apply outer_eigenvalue_cases in He.
  destruct He as [->| ->]; simpl; lra.
Qed.

Lemma eigvalsh_outer_top v :
  (1 <= length v)%nat ->
  py_index (eigvalsh (outer v (map Cconj v))) (-1) = Ok (norm2 v).
Proof.
  intros Hn. apply contract_dominant with (M := outer v (map Cconj v)).
  - apply eigvalsh_contract. exact Hn.
  - apply outer_top_eigenvalue. exact Hn.
  - intros lam He. apply outer_eigenvalue_bound in He. simpl in He. lra.
Qed.

Lemma all_finite_Some {A} (l : list A) : all_finite (map Some l) = Some l.
Proof.
  induction l as [|a l IH]; simpl; [reflexivity|]. rewrite IH. reflexivity.
Qed.

Lemma outer_nan_finite (a b : list complex) :
  finite_matrix (outer_nan (map Some a) (map Some b)) = Some (outer a b).
Proof.
  unfold finite_matrix, outer_nan, outer.
  rewrite !map_map.
  rewrite (map_ext _ (fun x => Some (map (fun y => Cmul x y) b))).
  - rewrite <- (map_map (fun x => map (fun y => Cmul x y) b) Some).
    apply all_finite_Some.
  - intros x. rewrite map_map. simpl.
    rewrite <- (map_map (fun y => Cmul x y) Some). apply all_finite_Some.
Qed.

(** The cPCA value of one bin of finite channel statistics. *)
Lemma cpca_bin_finite nchans v :
  (1 <= length v)%nat ->
  cpca_bin nchans (map Some v) = Ok (norm2 v / INR nchans).
Proof.
  intros Hn. unfold cpca_bin, linalg_eigvalsh.
  rewrite map_map. simpl.
  rewrite <- (map_map Cconj Some).
  rewrite outer_nan_finite. simpl.
  rewrite eigvalsh_outer_top by exact Hn. reflexivity.
Qed.

Lemma eigvalsh_nonneg v :
  (1 <= length v)%nat ->
  Forall (fun e => 0 <= e) (eigvalsh (outer v (map Cconj v))).
Proof.
  intros Hn. destruct (eigvalsh_contract v Hn) as (_ & _ & Hiff).
  apply Forall_forall. intros e He. apply Hiff in He.
  apply outer_eigenvalue_bound in He. simpl in He. lra.
Qed.

(** C5: for a complex vector [v] (at least one channel), every eigenvalue of
    [outer(v, conj(v))] is real and lies between [0] and [|v|^2]; [|v|^2] is
    an eigenvalue; the ascending list [eigh] returns is non-negative and
    ends in [|v|^2]; and the per-bin cPCA value computed by [mtcpca] is
    [|v|^2] over the channel count. *)
Theorem cross_spectral_spectrum (v : list complex) :
  (1 <= length v)%nat ->
  let Csd := outer v (map Cconj v) in
  (forall lam, is_eigenvalue Csd lam ->
     Cim lam = 0 /\ 0 <= Cre lam <= norm2 v) /\
  is_eigenvalue Csd (RtoC (norm2 v)) /\
  StronglySorted Rle (eigvalsh Csd) /\
  Forall (fun e => 0 <= e) (eigvalsh Csd) /\
  py_index (eigvalsh Csd) (-1) = Ok (norm2 v) /\
  forall nchans, cpca_bin nchans (map Some v) = Ok (norm2 v / INR nchans).
Proof.
  intros Hn Csd. split; [|split; [|split; [|split; [|split]]]].
  - intros lam. apply outer_eigenvalue_bound.
  - apply outer_top_eigenvalue. exact Hn.
  - apply (eigvalsh_contract v Hn).
  - apply eigvalsh_nonneg. exact Hn.
  - apply eigvalsh_outer_top. exact Hn.
  - intros nchans. apply cpca_bin_finite. exact Hn.
Qed.

Lemma cross_spectral_spectrum_witness :
  let v := [C1; (0, 1)] in
  let Csd := outer v (map Cconj v) in
  (forall lam, is_eigenvalue Csd lam ->
     Cim lam = 0 /\ 0 <= Cre lam <= norm2 v) /\
  is_eigenvalue Csd (RtoC (norm2 v)) /\
  StronglySorted Rle (eigvalsh Csd) /\
  Forall (fun e => 0 <= e) (eigvalsh Csd) /\
  py_index (eigvalsh Csd) (-1) = Ok (norm2 v) /\
  forall nchans, cpca_bin nchans (map Some v) = Ok (norm2 v / INR nchans).
Proof.
  apply (@cross_spectral_spectrum [C1; (0, 1)]). simpl. lia.
Defined.

(** ** Means and the triangle inequality *)

Lemma Cabs_Csum (l : list complex) : Cabs (Csum l) <= Rsum (map Cabs l).
Proof.
  induction l as [|z l IH]; simpl.
  - replace (Cabs C0) with 0; [lra|].
    symmetry. apply Cabs_0_iff. reflexivity.
  - eapply Rle_trans; [apply Cabs_triangle|]. lra.
Qed.

Lemma Rsum_le_length (l : list R) (b : R) :
  Forall (fun r => r <= b) l -> Rsum l <= INR (length l) * b.
Proof.
  induction 1 as [|r l Hr Hl IH].
  - simpl. lra.
  - change (length (r :: l)) with (S (length l)). rewrite S_INR. simpl. lra.
Qed.

Lemma INR_length_pos {A} (l : list A) : INR (length l) <> 0 -> 0 < INR (length l).
Proof.
  intros H. pose proof (pos_INR (length l)). lra.
Qed.

Lemma Cdiv_nan_Some z b m :
  Cdiv_nan z b = Some m -> b <> 0 /\ m = Cscal (/ b) z.
Proof.
  unfold Cdiv_nan. destruct (Req_EM_T b 0); [discriminate|].
  intros H. injection H as <-. split; [assumption|reflexivity].
Qed.

Lemma Rdiv_nan_Some a b r :
  Rdiv_nan a b = Some r -> b <> 0 /\ r = a / b.
Proof.
  unfold Rdiv_nan. destruct (Req_EM_T b 0); [discriminate|].
  intros H. injection H as <-. split; [assumption|reflexivity].
Qed.

(** The mean of complex numbers of magnitude at most one has magnitude at
    most one. *)
Lemma Cmean_bounded (l : list complex) (m : complex) :
  Forall (fun z => Cabs z <= 1) l -> Cmean l = Some m -> Cabs m <= 1.
Proof.
  intros HF Hm. apply Cdiv_nan_Some in Hm. destruct Hm as [Hn ->].
  apply INR_length_pos in Hn.
  rewrite Cabs_scal by (left; apply Rinv_0_lt_compat; exact Hn).
  assert (Hs : Cabs (Csum l) <= INR (length l)).
  { eapply Rle_trans; [apply Cabs_Csum|].
    replace (INR (length l)) with (INR (length (map Cabs l)) * 1)
      by (rewrite length_map; ring).
    apply Rsum_le_length. apply Forall_forall. intros r Hr.
    apply in_map_iff in Hr. destruct Hr as [z [<- Hz]].
    rewrite Forall_forall in HF. apply HF. exact Hz. }
  apply Rmult_le_reg_l with (INR (length l)); [exact Hn|].
  rewrite <- Rmult_assoc, Rinv_r by lra. lra.
Qed.

Lemma Cunit_abs z u : Cunit z = Some u -> Cabs u = 1.
Proof.
  unfold Cunit. intros H. apply Cdiv_nan_Some in H. destruct H as [Hz ->].
  pose proof (Cabs_nonneg z).
  rewrite Cabs_scal by (left; apply Rinv_0_lt_compat; lra).
  apply Rinv_l. exact Hz.
Qed.

Lemma all_finite_Forall {A B} (f : A -> option B) (P : B -> Prop)
  (l : list A) (v : list B) :
  (forall a b, f a = Some b -> P b) ->
  all_finite (map f l) = Some v -> Forall P v.
Proof.
  intros Hf. revert v. induction l as [|a l IH]; simpl; intros v H.
  - injection H as <-. constructor.
  - destruct (f a) as [b|] eqn:Ea; [|discriminate].
    destruct (all_finite (map f l)) as [v'|]; [|discriminate].
    simpl in H. injection H as <-. constructor; eauto.
Qed.

Lemma all_finite_length {A} (l : list (option A)) (v : list A) :
  all_finite l = Some v -> length v = length l.
Proof.
  revert v. induction l as [|a l IH]; simpl; intros v H.
  - injection H as <-. reflexivity.
  - destruct a; [|discriminate].
    destruct (all_finite l); [|discriminate].
    simpl in H. injection H as <-. simpl. f_equal. apply IH. reflexivity.
Qed.

Lemma all_finite_map_Some {A} (l : list (option A)) (v : list A) :
  all_finite l = Some v -> l = map Some v.
Proof.
  revert v. induction l as [|a l IH]; simpl; intros v H.
  - injection H as <-. reflexivity.
  - destruct a; [|discriminate].
    destruct (all_finite l); [|discriminate].
    simpl in H. injection H as <-. simpl. f_equal. apply IH. reflexivity.
Qed.

Lemma Cabs2_le_1 z : Cabs z <= 1 -> 0 <= Cabs2 z <= 1.
Proof.
  intros H. pose proof (Cabs_nonneg z). unfold Cabs2. simpl.
  rewrite Rmult_1_r. nra.
Qed.

(** The phase-locking value of one (channel, bin) cell. *)
Lemma plv_cell_bounded (xs : list complex) :
  unit_or_nan (lift1 Cabs2 (Cmean_nan (map Cunit xs))).
Proof.
  unfold Cmean_nan.
  destruct (all_finite (map Cunit xs)) as [us|] eqn:E; [|exact I].
  destruct (Cmean us) as [m|] eqn:Em; [|exact I]. simpl.
  apply Cabs2_le_1. apply Cmean_bounded with us; [|exact Em].
  apply all_finite_Forall with (f := Cunit) (l := xs); [|exact E].
  intros a b Hab. rewrite (Cunit_abs _ Hab). lra.
Qed.

(** Cauchy-Schwarz against the all-ones vector. *)
Lemma Rsum_sq_le (l : list R) :
  Rsum l * Rsum l <= INR (length l) * Rsum (map (fun r => r * r) l).
Proof.
  induction l as [|a l IH].
  - simpl. lra.
  - change (length (a :: l)) with (S (length l)). rewrite S_INR. simpl.
    set (s := Rsum l) in *. set (q := Rsum (map (fun r => r * r) l)) in *.
    set (n := INR (length l)) in *.
    assert (Hn : 0 <= n) by apply pos_INR.
    assert (Hq : 0 <= q).
    { apply Rsum_nonneg, Forall_forall. intros r Hr.
      apply in_map_iff in Hr. destruct Hr as [x [<- _]]. nra. }
    destruct (Req_dec n 0) as [E0|E0].
    + rewrite E0 in *. assert (s = 0) by nra. subst s. nra.
    + assert (0 < n) by lra.
      assert (Hk : 0 <= n * (n * (a * a) - 2 * (a * s) + q)).
      { replace (n * (n * (a * a) - 2 * (a * s) + q))
          with ((n * a - s) * (n * a - s) + (n * q - s * s)) by ring.
        pose proof (Rle_0_sqr (n * a - s)) as Hsq. unfold Rsqr in Hsq.
        lra. }
      assert (0 <= n * (a * a) - 2 * (a * s) + q).
      { apply Rmult_le_reg_l with n; [assumption|]. lra. }
      nra.
Qed.

Lemma Cabs_Csum_sq (l : list complex) :
  Cabs2 (Csum l) <= INR (length l) * Rsum (map Cabs2 l).
Proof.
  pose proof (Cabs_Csum l) as H1. pose proof (Cabs_nonneg (Csum l)) as H0.
  pose proof (Rsum_sq_le (map Cabs l)) as H2.
  rewrite length_map, map_map in H2.
  assert (E : map (fun x => Cabs x * Cabs x) l = map Cabs2 l).
  { apply map_ext. intros z. unfold Cabs2. simpl. ring. }
  rewrite E in H2. unfold Cabs2 at 1. simpl. rewrite Rmult_1_r.
  nra.
Qed.

Lemma Cabs2_scal r z : Cabs2 (Cscal r z) = r * r * Cabs2 z.
Proof.
  rewrite !Cabs2_eq. unfold Cscal. simpl. ring.
Qed.

(** The inter-trial coherence of one (channel, bin) cell. *)
Lemma itc_cell_bounded (xs : list complex) :
  unit_or_nan (odiv (lift1 Cabs2 (Cmean xs)) (Rmean (map Cabs2 xs))).
Proof.
  destruct (Cmean xs) as [m|] eqn:Em; [|exact I].
  destruct (Rmean (map Cabs2 xs)) as [d|] eqn:Ed; [|exact I].
  simpl. destruct (Rdiv_nan (Cabs2 m) d) as [r|] eqn:Er; [|exact I].
  simpl. apply Rdiv_nan_Some in Er. destruct Er as [Hd ->].
  apply Cdiv_nan_Some in Em. destruct Em as [Hn ->].
  apply Rdiv_nan_Some in Ed. destruct Ed as [_ ->].
  rewrite length_map in *.
  apply INR_length_pos in Hn.
  set (n := INR (length xs)) in *.
  pose proof (Cabs_Csum_sq xs) as HCS. fold n in HCS.
  set (q := Rsum (map Cabs2 xs)) in *.
  assert (Hq : 0 <= q).
  { apply Rsum_nonneg, Forall_forall. intros r Hr.
    apply in_map_iff in Hr. destruct Hr as [x [<- _]]. apply Cabs2_nonneg. }
  assert (Hqpos : 0 < q).
  { destruct (Req_dec q 0) as [E|E]; [|lra].
    exfalso. apply Hd. rewrite E. unfold Rdiv. ring. }
  rewrite Cabs2_scal.
  pose proof (Cabs2_nonneg (Csum xs)) as H0.
  set (s := Cabs2 (Csum xs)) in *.
  assert (Hdq : 0 < q / n) by (apply Rdiv_lt_0_compat; assumption).
  assert (E : / n * / n * s / (q / n) = s / (n * q)).
  { field. lra. }
  rewrite E.
  assert (0 < n * q) by nra.
  split.
  - apply Rmult_le_pos; [lra|]. left. apply Rinv_0_lt_compat. assumption.
  - apply Rmult_le_reg_l with (n * q); [assumption|].
    replace (n * q * (s / (n * q))) with s by (field; lra). lra.
Qed.

Lemma trials_of_t3map {A B} (f : A -> B) (t : tensor3 A) c k :
  trials_of (t3map f t) c k = map f (trials_of t c k).
Proof. unfold trials_of. simpl. rewrite map_map. reflexivity. Qed.

Lemma Rmean_bounded (l : list R) (r : R) :
  Forall (fun v => 0 <= v <= 1) l -> Rmean l = Some r -> 0 <= r <= 1.
Proof.
  intros HF Hr. apply Rdiv_nan_Some in Hr. destruct Hr as [Hn ->].
  apply INR_length_pos in Hn.
  assert (H0 : 0 <= Rsum l).
  { apply Rsum_nonneg. eapply Forall_impl; [|exact HF]. simpl. intros; lra. }
  assert (H1 : Rsum l <= INR (length l) * 1).
  { apply Rsum_le_length. eapply Forall_impl; [|exact HF]. simpl. intros; lra. }
  split.
  - apply Rmult_le_pos; [lra|]. left. apply Rinv_0_lt_compat. exact Hn.
  - apply Rmult_le_reg_l with (INR (length l)); [exact Hn|].
    replace (INR (length l) * (Rsum l / INR (length l))) with (Rsum l)
      by (field; lra).
    lra.
Qed.

Lemma Rmean_nan_bounded (l : list nanR) :
  Forall unit_or_nan l -> unit_or_nan (Rmean_nan l).
Proof.
  intros HF. unfold Rmean_nan.
  destruct (all_finite l) as [v|] eqn:E; [|exact I].
  destruct (Rmean v) as [r|] eqn:Er; [|exact I]. simpl.
  apply Rmean_bounded with v; [|exact Er].
  apply all_finite_map_Some in E. subst l.
  rewrite Forall_map in HF. exact HF.
Qed.

Lemma data_squeeze {A} (a : ndarray A) : data (squeeze a) = data a.
Proof. reflexivity. Qed.

Lemma to_ndarray_Forall {A} (P : A -> Prop) (t : tensor2 A) :
  (forall c k, P (at2 t c k)) -> Forall P (data (to_ndarray t)).
Proof.
  intros H. simpl. apply Forall_flat_map, Forall_forall. intros c _.
  apply Forall_map, Forall_forall. intros k _. apply H.
Qed.

Lemma mean_tapers_bounded nchans nbins (acc : list (tensor2 nanR)) c k :
  Forall (fun s => forall c k, unit_or_nan (at2 s c k)) acc ->
  unit_or_nan (at2 (mean_tapers nchans nbins acc) c k).
Proof.
  intros HF. simpl. apply Rmean_nan_bounded.
  apply Forall_map. eapply Forall_impl; [|exact HF]. simpl. auto.
Qed.

Lemma mtplv_taper_bounded p xw c k :
  unit_or_nan (at2 (mtplv_taper p xw) c k).
Proof.
  unfold mtplv_taper. destruct (itc p); simpl.
  - rewrite trials_of_t3map. apply itc_cell_bounded.
  - rewrite trials_of_t3map. apply plv_cell_bounded.
Qed.

Lemma mtplv_bounded dpss x p r :
  mtplv dpss x p = Ok r ->
  exists a, statistic_of r = Some a /\ Forall unit_or_nan (data a).
Proof.
  unfold mtplv.
  destruct (dispatch (squeeze x)) as [lay|]; simpl; [|discriminate].
  destruct (FrequencyGrid._get_freq_vector (squeeze x) p (timedim lay))
    as [[[n f] fInd]|]; simpl; [|discriminate].
  set (a := squeeze (to_ndarray _)).
  assert (Ha : Forall unit_or_nan (data a)).
  { unfold a. rewrite data_squeeze. apply to_ndarray_Forall.
    intros c k. unfold mask2. cbn [at2].
    apply mean_tapers_bounded. apply Forall_map, Forall_forall.
    intros tap _ c' k'. apply mtplv_taper_bounded. }
  destruct (bootstrap p); intros H; injection H as <-;
    exists a; split; auto.
Qed.

(** ** cPCA values *)

Lemma all_finite_None {A} (l : list (option A)) :
  all_finite l = None -> In None l.
Proof.
  induction l as [|a l IH]; simpl; [discriminate|].
  destruct a; [|left; reflexivity].
  destruct (all_finite l); [discriminate|]. intros _. right. apply IH.
  reflexivity.
Qed.

Lemma all_finite_In_None {A} (l : list (option A)) :
  In None l -> all_finite l = None.
Proof.
  induction l as [|a l IH]; simpl; [tauto|].
  intros [->|H]; [reflexivity|].
  rewrite (IH H). destruct a; reflexivity.
Qed.

(** A NaN among the channel statistics makes the cross-spectral matrix
    non-finite. *)
Lemma outer_nan_not_finite (v : list nanC) :
  In None v ->
  finite_matrix (outer_nan v (map (lift1 Cconj) v)) = None.
Proof.
  intros Hin. unfold finite_matrix. apply all_finite_In_None.
  apply in_map_iff.
  exists (map (fun y => lift2 Cmul None y) (map (lift1 Cconj) v)).
  split.
  - apply all_finite_In_None. destruct v as [|a v]; [inversion Hin|].
    simpl. left. reflexivity.
  - unfold outer_nan.
    apply (in_map (fun x => map (fun y => lift2 Cmul x y)
                                (map (lift1 Cconj) v))) in Hin.
    exact Hin.
Qed.

Lemma eigvalsh_nil : eigvalsh [] = [].
Proof.
  assert (H : eigvals_contract [] (eigvalsh [])).
  { unfold eigvalsh. apply epsilon_spec. exists []. split; [|split].
    - reflexivity.
    - constructor.
    - intros lam. split; [intros []|].
      intros [u (Hlen & [z [Hz _]] & _)].
      destruct u; [inversion Hz|discriminate]. }
  destruct H as [Hlen _]. destruct (eigvalsh []); [reflexivity|discriminate].
Qed.

Lemma cpca_bin_nan nchans (v : list nanC) :
  In None v -> cpca_bin nchans v = Raise ValueError.
Proof.
  intros H. unfold cpca_bin, linalg_eigvalsh.
  rewrite (outer_nan_not_finite v H). reflexivity.
Qed.

(** The per-bin cPCA value returns only for a non-empty, finite column. *)
Lemma cpca_bin_inv nchans (col : list nanC) (r : R) :
  cpca_bin nchans col = Ok r ->
  exists v, col = map Some v /\ (1 <= length v)%nat /\
            r = norm2 v / INR nchans.
Proof.
  intros H.
  destruct (all_finite col) as [v|] eqn:E.
  - apply all_finite_map_Some in E. subst col.
    destruct v as [|a v].
    + exfalso. unfold cpca_bin, linalg_eigvalsh in H. simpl in H.
      unfold finite_matrix in H. simpl in H.
      rewrite eigvalsh_nil, py_index_nil in H. discriminate.
    + exists (a :: v). split; [reflexivity|]. split; [simpl; lia|].
      rewrite cpca_bin_finite in H by (simpl; lia). congruence.
  - apply all_finite_None in E. rewrite cpca_bin_nan in H by exact E.
    discriminate.
Qed.

Lemma mapM_Ok {A B} (f : A -> outcome B) (l : list A) (bs : list B) :
  mapM f l = Ok bs -> Forall2 (fun a b => f a = Ok b) l bs.
Proof.
  revert bs. induction l as [|a l IH]; simpl; intros bs H.
  - injection H as <-. constructor.
  - destruct (f a) as [b|] eqn:Ea; simpl in H; [|discriminate].
    destruct (mapM f l) as [bs'|]; simpl in H; [|discriminate].
    injection H as <-. constructor; auto.
Qed.

Lemma norm2_le_length (v : list complex) :
  Forall (fun z => Cabs z <= 1) v -> norm2 v <= INR (length v).
Proof.
  intros H. unfold norm2.
  replace (INR (length v)) with (INR (length (map Cabs2 v)) * 1)
    by (rewrite length_map; ring).
  apply Rsum_le_length. apply Forall_map.
  eapply Forall_impl; [|exact H]. intros z Hz.
  apply Cabs2_le_1. exact Hz.
Qed.

Lemma mtcpca_C_cell p xw c k z :
  at2 (mtcpca_C p xw) c k = Some z -> Cabs z <= 1.
Proof.
  unfold mtcpca_C. destruct (itc p); simpl.
  - rewrite trials_of_t3map. set (xs := trials_of xw c k).
    destruct (Cmean xs) as [m|] eqn:Em; [|discriminate].
    destruct (Rmean (map Cabs xs)) as [d|] eqn:Ed; [|discriminate].
    simpl. intros Hz.
    apply Cdiv_nan_Some in Hz. destruct Hz as [Hd ->].
    apply Cdiv_nan_Some in Em. destruct Em as [Hn ->].
    apply Rdiv_nan_Some in Ed. destruct Ed as [_ ->].
    rewrite length_map in *.
    apply INR_length_pos in Hn. set (n := INR (length xs)) in *.
    pose proof (Cabs_Csum xs) as Ht.
    pose proof (Cabs_nonneg (Csum xs)) as H0.
    set (S := Rsum (map Cabs xs)) in *.
    assert (HS : 0 < S).
    { destruct (Req_dec S 0) as [E|E]; [|lra].
      exfalso. apply Hd. rewrite E. unfold Rdiv. ring. }
    assert (Hdpos : 0 < S / n) by (apply Rdiv_lt_0_compat; assumption).
    rewrite Cabs_scal by (left; apply Rinv_0_lt_compat; exact Hdpos).
    rewrite Cabs_scal by (left; apply Rinv_0_lt_compat; exact Hn).
    replace (/ (S / n) * (/ n * Cabs (Csum xs))) with (Cabs (Csum xs) / S)
      by (field; lra).
    apply Rmult_le_reg_l with S; [exact HS|].
    replace (S * (Cabs (Csum xs) / S)) with (Cabs (Csum xs)) by (field; lra).
    lra.
  - rewrite trials_of_t3map. unfold Cmean_nan.
    destruct (all_finite (map Cunit (trials_of xw c k))) as [us|] eqn:E;
      [|discriminate].
    intros Hm. apply Cmean_bounded with us; [|exact Hm].
    apply all_finite_Forall with (f := Cunit) (l := trials_of xw c k);
      [|exact E].
    intros a b Hab. rewrite (Cunit_abs _ Hab). lra.
Qed.

Lemma cpca_value_bounded p xw fi r :
  cpca_bin (nch xw) (col_of (mtcpca_C p xw) fi) = Ok r -> 0 <= r <= 1.
Proof.
  intros H. apply cpca_bin_inv in H. destruct H as (v & Ecol & Hlen & ->).
  assert (Hrows : length v = nch xw).
  { apply (f_equal (@length _)) in Ecol.
    unfold col_of in Ecol. rewrite !length_map, length_seq in Ecol.
    unfold mtcpca_C in Ecol. destruct (itc p); simpl in Ecol; congruence. }
  assert (Hb : Forall (fun z => Cabs z <= 1) v).
  { apply Forall_forall. intros z Hz.
    apply (in_map Some) in Hz. rewrite <- Ecol in Hz.
    unfold col_of in Hz. apply in_map_iff in Hz. destruct Hz as [c [Hc _]].
    eapply mtcpca_C_cell. exact Hc. }
  apply norm2_le_length in Hb. pose proof (norm2_nonneg v) as H0.
  rewrite <- Hrows.
  assert (Hpos : 0 < INR (length v)) by (apply lt_0_INR; lia).
  split.
  - apply Rmult_le_pos; [exact H0|]. left. apply Rinv_0_lt_compat, Hpos.
  - apply Rmult_le_reg_l with (INR (length v)); [exact Hpos|].
    replace (INR (length v) * (norm2 v / INR (length v))) with (norm2 v)
      by (field; lra).
    lra.
Qed.

Lemma mask_In {A} (m : list bool) (l : list A) (a : A) :
  In a (mask m l) -> In a l.
Proof.
  revert l. induction m as [|b m IH]; intros [|x l]; simpl; try tauto.
  destruct b; simpl; intros H; [destruct H|]; auto.
Qed.

(** A taper goes through only on an array the squeeze leaves alone. *)
Lemma cpca_taper_Ok nchans (Cm : tensor2 nanC) (row : list R) :
  cpca_taper nchans Cm = Ok row ->
  rows Cm <> 1%nat /\ cols Cm <> 1%nat /\
  mapM (fun fi => cpca_bin nchans (col_of Cm fi)) (seq 0 (cols Cm)) = Ok row.
Proof.
  unfold cpca_taper, squeezed_bins.
  destruct (Nat.eqb_spec (rows Cm) 1); [discriminate|].
  destruct (Nat.eqb_spec (cols Cm) 1); [discriminate|].
  cbn [orb bind]. auto.
Qed.

Lemma cpca_taper_unsqueezed nchans (Cm : tensor2 nanC) :
  rows Cm <> 1%nat -> cols Cm <> 1%nat ->
  cpca_taper nchans Cm
  = mapM (fun fi => cpca_bin nchans (col_of Cm fi)) (seq 0 (cols Cm)).
Proof.
  intros Hr Hc. unfold cpca_taper, squeezed_bins.
  destruct (Nat.eqb_spec (rows Cm) 1); [contradiction|].
  destruct (Nat.eqb_spec (cols Cm) 1); [contradiction|].
  reflexivity.
Qed.

Lemma cpca_taper_squeezed nchans (Cm : tensor2 nanC) :
  rows Cm = 1%nat \/ cols Cm = 1%nat ->
  cpca_taper nchans Cm = Raise IndexError.
Proof.
  intros H. unfold cpca_taper, squeezed_bins.
  destruct (Nat.eqb_spec (rows Cm) 1); [reflexivity|].
  destruct (Nat.eqb_spec (cols Cm) 1); [reflexivity|].
  destruct H; contradiction.
Qed.

(** After [x.squeeze()] no axis has extent one. *)
Lemma squeeze_no_unit {A} (x : ndarray A) (d : nat) :
  In d (shape (squeeze x)) -> d <> 1%nat.
Proof.
  unfold squeeze. cbn [shape]. intros H. apply filter_In in H.
  destruct H as [_ H]. destruct (Nat.eqb_spec d 1); [discriminate|assumption].
Qed.

Lemma dispatch3_extents {A} (x : ndarray A) (lay : layout) :
  dispatch3 (squeeze x) = Ok lay ->
  nchans lay <> 1%nat /\ ntrials lay <> 1%nat /\ ntime lay <> 1%nat.
Proof.
  unfold dispatch3. intros H.
  destruct (shape (squeeze x)) as [|c [|t [|l [|? ?]]]] eqn:E;
    try discriminate.
  injection H as <-. cbn.
  repeat split; apply (@squeeze_no_unit _ x); rewrite E; cbn; auto.
Qed.

Lemma cpca_taper_bounded p xw row :
  cpca_taper (nch xw) (mtcpca_C p xw) = Ok row ->
  Forall (fun r => 0 <= r <= 1) row.
Proof.
  intros H. apply cpca_taper_Ok in H. destruct H as (_ & _ & H).
  apply mapM_Ok in H.
  induction H as [|fi r fis row Hfi Hrest IH]; constructor; [|exact IH].
  eapply cpca_value_bounded. exact Hfi.
Qed.

Lemma nth_Forall_default {A} (P : A -> Prop) (l : list A) (d : A) (k : nat) :
  Forall P l -> P d -> P (nth k l d).
Proof.
  intros HF Hd. destruct (nth_in_or_default k l d) as [Hin | ->];
    [|exact Hd].
  rewrite Forall_forall in HF. apply HF. exact Hin.
Qed.

Lemma mtcpca_bounded dpss x p r :
  mtcpca dpss x p = Ok r ->
  exists a, statistic_of r = Some a /\ Forall unit_or_nan (data a).
Proof.
  unfold mtcpca.
  destruct (dispatch3 (squeeze x)) as [lay|]; simpl; [|discriminate].
  destruct (FrequencyGrid._get_freq_vector (squeeze x) p (timedim lay))
    as [[[n f] fInd]|]; simpl; [|discriminate].
  destruct (mapM _ (windows dpss (squeeze x) lay p)) as [plv|] eqn:Eplv;
    simpl; [|discriminate].
  set (a := of_list _).
  assert (Ha : Forall unit_or_nan (data a)).
  { unfold a, of_list. simpl. apply Forall_forall. intros v Hv.
    apply mask_In in Hv. unfold mean_rows in Hv.
    apply in_map_iff in Hv. destruct Hv as [k [<- _]].
    destruct (Rmean (map (fun row => nth k row 0) plv)) as [m|] eqn:Em;
      [|exact I].
    simpl. apply Rmean_bounded with (2 := Em).
    apply Forall_map. apply mapM_Ok in Eplv.
    clear - Eplv.
    induction Eplv as [|tap row w rows Hrow Hrest IH];
      constructor; [|exact IH].
    apply nth_Forall_default; [|lra].
    apply (@cpca_taper_bounded p (rfft tap (squeeze x) lay n)).
    exact Hrow. }
  destruct (bootstrap p); intros H; injection H as <-;
    exists a; split; auto.
Qed.

(** ** A full eigen-decomposition for two channels *)

Lemma norm2_pair a b :
  norm2 [a; b] = fst a * fst a + snd a * snd a + (fst b * fst b + snd b * snd b).
Proof.
  unfold norm2. simpl. rewrite !Cabs2_eq. ring.
Qed.

Lemma rank1_contract (a b : complex) :
  norm2 [a; b] <> 0 ->
  eigh_contract (outer [a; b] (map Cconj [a; b]))
                ([0; norm2 [a; b]],
                 rank1_vecs (/ sqrt (norm2 [a; b])) a b).
Proof.
  intros HN.
  pose proof (norm2_nonneg [a; b]) as HN0.
  assert (Hpos : 0 < norm2 [a; b]) by lra.
  assert (Hsq : 0 < sqrt (norm2 [a; b])) by (apply sqrt_lt_R0; exact Hpos).
  set (r := / sqrt (norm2 [a; b])).
  assert (Hr : norm2 [a; b] * (r * r) = 1).
  { unfold r. rewrite <- (sqrt_sqrt (norm2 [a; b])) at 1 by lra.
    field. lra. }
  assert (Hr0 : r <> 0).
  { unfold r. apply Rinv_neq_0_compat. lra. }
  split; [|split; [|split; [|split]]].
  - apply (@outer_contract [a; b]). simpl. lia.
  - reflexivity.
  - repeat constructor.
  - intros j Hj. rewrite outer_length in Hj. simpl in Hj.
    destruct j as [|[|j]]; [| |lia].
    + (* the kernel direction *)
      split; [reflexivity|]. split.
      * destruct (Req_EM_T (Cabs a) 0) as [Ea|Ea].
        -- exists (Cscal r (Cconj b)). split; [left; reflexivity|].
           intros E. apply HN. apply Cabs_0_iff in Ea. subst a.
           rewrite norm2_pair. destruct b as [b1 b2].
           unfold Cscal, Cconj, C0 in E. simpl in *.
           injection E as E1 E2.
           apply Rmult_integral in E1. apply Rmult_integral in E2.
           assert (b1 = 0) by tauto. assert (b2 = 0) by (destruct E2; lra).
           subst. ring.
        -- exists (Cscal (- r) (Cconj a)). split; [right; left; reflexivity|].
           intros E. apply Ea. apply Cabs_0_iff. destruct a as [a1 a2].
           unfold Cscal, Cconj, C0 in *. simpl in *.
           injection E as E1 E2.
           apply Rmult_integral in E1. apply Rmult_integral in E2.
           assert (a1 = 0) by (destruct E1; lra).
           assert (a2 = 0) by (destruct E2; lra). subst. reflexivity.
      * rewrite mat_vec_outer. simpl.
        unfold cdot. simpl.
        destruct a as [a1 a2], b as [b1 b2].
        unfold Cmul, Cadd, Cscal, Cconj, RtoC, C0. simpl.
        f_equal; [apply complex_eq; simpl; ring|].
        f_equal; apply complex_eq; simpl; ring.
    + (* the direction of v *)
      split; [reflexivity|]. split.
      * destruct (Req_EM_T (Cabs a) 0) as [Ea|Ea].
        -- exists (Cscal r b). split; [right; left; reflexivity|].
           intros E. apply HN. apply Cabs_0_iff in Ea. subst a.
           rewrite norm2_pair. destruct b as [b1 b2].
           unfold Cscal, C0 in E. simpl in *.
           injection E as E1 E2.
           apply Rmult_integral in E1. apply Rmult_integral in E2.
           assert (b1 = 0) by tauto. assert (b2 = 0) by tauto.
           subst. ring.
        -- exists (Cscal r a). split; [left; reflexivity|].
           intros E. apply Ea. apply Cabs_0_iff. destruct a as [a1 a2].
           unfold Cscal, C0 in *. simpl in *.
           injection E as E1 E2.
           apply Rmult_integral in E1. apply Rmult_integral in E2.
           assert (a1 = 0) by tauto. assert (a2 = 0) by tauto.
           subst. reflexivity.
      * rewrite mat_vec_outer. simpl nth. rewrite norm2_pair. simpl.
        unfold cdot. simpl.
        destruct a as [a1 a2], b as [b1 b2].
        unfold Cmul, Cadd, Cscal, Cconj, RtoC, C0. simpl.
        f_equal; [apply complex_eq; simpl; ring|].
        f_equal; apply complex_eq; simpl; ring.
  - intros i j Hi Hj. rewrite outer_length in Hi, Hj. simpl in Hi, Hj.
    rewrite norm2_pair in Hr.
    destruct a as [a1 a2], b as [b1 b2]. simpl in Hr.
    destruct i as [|[|i]]; [| |lia]; destruct j as [|[|j]]; try lia;
      unfold inner, cdot; simpl;
      unfold Cmul, Cadd, Cscal, Cconj, C0, C1; simpl;
      apply complex_eq; simpl; try ring.
    + transitivity ((a1 * a1 + a2 * a2 + (b1 * b1 + b2 * b2)) * (r * r));
        [ring|exact Hr].
    + transitivity ((a1 * a1 + a2 * a2 + (b1 * b1 + b2 * b2)) * (r * r));
        [ring|exact Hr].
Qed.

Lemma zero_contract :
  eigh_contract (outer [C0; C0] (map Cconj [C0; C0]))
                ([0; 0], [[C1; C0]; [C0; C1]]).
Proof.
  split; [|split; [|split; [|split]]].
  - replace [0; 0] with (repeat 0 (length [C0; C0] - 1) ++ [norm2 [C0; C0]]).
    + apply (@outer_contract [C0; C0]). simpl. lia.
    + simpl. f_equal. f_equal. rewrite norm2_pair. simpl. ring.
  - reflexivity.
  - repeat constructor.
  - intros j Hj. rewrite outer_length in Hj. simpl in Hj.
    assert (Hne : C1 <> C0).
    { unfold C1, C0. intros E. injection E as E. lra. }
    destruct j as [|[|j]]; [| |lia];
      (split; [reflexivity|]; split;
       [exists C1; split; [simpl; tauto|exact Hne]|]);
      rewrite mat_vec_outer; simpl;
      (f_equal; [cring|f_equal; cring]).
  - intros i j Hi Hj. rewrite outer_length in Hi, Hj. simpl in Hi, Hj.
    destruct i as [|[|i]]; [| |lia]; destruct j as [|[|j]]; try lia;
      unfold inner, cdot; simpl; cring.
Qed.

(** Every two-channel cross-spectral matrix has a decomposition meeting the
    solver's contract. *)
Lemma eigh_exists_pair (a b : complex) :
  exists r, eigh_contract (outer [a; b] (map Cconj [a; b])) r.
Proof.
  destruct (Req_EM_T (norm2 [a; b]) 0) as [E|E].
  - apply norm2_zero_iff in E.
    inversion E as [|? ? Ha E']; subst. inversion E' as [|? ? Hb _]; subst.
    eexists. apply zero_contract.
  - eexists. apply rank1_contract. exact E.
Qed.

Lemma eigh_pair_contract (a b : complex) :
  eigh_contract (outer [a; b] (map Cconj [a; b]))
                (eigh (outer [a; b] (map Cconj [a; b]))).
Proof.
  unfold eigh. apply epsilon_spec. apply eigh_exists_pair.
Qed.

Lemma length_two {A} (l : list A) :
  length l = 2%nat -> exists x y, l = [x; y].
Proof.
  destruct l as [|x [|y [|z l]]]; simpl; try discriminate.
  intros _. exists x, y. reflexivity.
Qed.

(** What the solver returns for two finite channel statistics: two
    eigenvalues ending in [|v|^2], and a 2 x 2 matrix of eigenvectors whose
    last column is a unit eigenvector for [|v|^2]. *)
Lemma linalg_eigh_pair (a b : complex) :
  exists lo u00 u01 u10 u11,
    linalg_eigh (outer_nan [Some a; Some b]
                           (map (lift1 Cconj) [Some a; Some b]))
    = Ok ([lo; norm2 [a; b]], [[u00; u01]; [u10; u11]]) /\
    is_eigenpair (outer [a; b] (map Cconj [a; b])) (RtoC (norm2 [a; b]))
                 [u01; u11] /\
    inner [u01; u11] [u01; u11] = C1.
Proof.
  pose proof (eigh_pair_contract a b) as H.
  unfold linalg_eigh.
  change (map (lift1 Cconj) [Some a; Some b])
    with (map Some (map Cconj [a; b])).
  change [Some a; Some b] with (map Some [a; b]).
  rewrite outer_nan_finite.
  destruct (eigh (outer [a; b] (map Cconj [a; b]))) as [vals vecs].
  destruct H as (Hv & Hlen & Hrows & Hpairs & Horth).
  simpl fst in *. simpl snd in *. rewrite outer_length in *.
  simpl length in *.
  destruct Hv as (Hvl & Hsorted & Hiff).
  rewrite outer_length in Hvl. simpl in Hvl.
  destruct (length_two _ Hvl) as (lo & hi & ->).
  destruct (length_two _ Hlen) as (r0 & r1 & ->).
  inversion Hrows as [|? ? Hr0 Hrows']; subst.
  inversion Hrows' as [|? ? Hr1 _]; subst.
  destruct (length_two _ Hr0) as (u00 & u01 & ->).
  destruct (length_two _ Hr1) as (u10 & u11 & ->).
  assert (Ehi : hi = norm2 [a; b]).
  { assert (Htop : py_index [lo; hi] (-1) = Ok (norm2 [a; b])).
    { apply contract_dominant with (M := outer [a; b] (map Cconj [a; b])).
      - split; [rewrite outer_length; reflexivity|]. split; assumption.
      - apply outer_top_eigenvalue. simpl. lia.
      - intros lam He. apply outer_eigenvalue_bound in He. simpl in He. lra. }
    change [lo; hi] with ([lo] ++ [hi]) in Htop.
    rewrite py_index_last in Htop. congruence. }
  subst hi.
  exists lo, u00, u01, u10, u11. split; [reflexivity|]. split.
  - apply (Hpairs 1%nat). lia.
  - apply (Horth 1%nat 1%nat); lia.
Qed.

(** ** Squeezing and rank dispatch *)

Lemma squeeze_idempotent {A} (x : ndarray A) : squeeze (squeeze x) = squeeze x.
Proof.
  unfold squeeze. simpl. f_equal.
  induction (shape x) as [|d l IH]; simpl; [reflexivity|].
  destruct (Nat.eqb_spec d 1); simpl; [exact IH|].
  destruct (Nat.eqb_spec d 1); [contradiction|]. simpl. f_equal. exact IH.
Qed.

(** An estimator sees its input only through [x.squeeze()]. *)
Lemma run_squeeze dpss rs ri op (x y : ndarray R) p :
  squeeze x = squeeze y -> run dpss rs ri op x p = run dpss rs ri op y p.
Proof.
  intros E. destruct op; simpl;
    unfold mtplv, mtspec, mtphase, mtcpca, mtcspec, mtcpca_timeDomain,
      mtppc, mtspecraw, mtpspec, mtcpca_all;
    cbv zeta; rewrite E; reflexivity.
Qed.

Lemma squeeze_single_channel {A} (x : ndarray A) (T L : nat) :
  shape x = [1%nat; T; L] -> T <> 1%nat -> L <> 1%nat ->
  squeeze x = mkarr [T; L] (data x).
Proof.
  intros Hs HT HL. unfold squeeze. rewrite Hs. simpl.
  destruct (Nat.eqb_spec T 1); [contradiction|].
  destruct (Nat.eqb_spec L 1); [contradiction|]. reflexivity.
Qed.

Lemma squeeze_rank_single_channel {A} (x : ndarray A) (T L : nat) :
  shape x = [1%nat; T; L] -> (length (shape (squeeze x)) <= 2)%nat.
Proof.
  intros Hs. unfold squeeze. rewrite Hs. simpl.
  destruct (T =? 1)%nat; destruct (L =? 1)%nat; simpl; lia.
Qed.

Lemma dispatch3_rank {A} (x : ndarray A) :
  (length (shape x) <= 2)%nat -> dispatch3 x = Raise ShapeError.
Proof.
  unfold dispatch3. destruct (shape x) as [|a [|b [|c [|d l]]]]; simpl;
    intros; try reflexivity; lia.
Qed.

Lemma cpca_shape_error dpss rs ri op (x : ndarray R) p :
  per_channel op = false ->
  dispatch3 (squeeze x) = Raise ShapeError ->
  run dpss rs ri op x p = Raise ShapeError.
Proof.
  intros Hop Hd. destruct op; try discriminate; simpl;
    unfold mtcpca, mtcspec, mtcpca_timeDomain, mtcpca_all;
    cbv zeta; rewrite Hd; reflexivity.
Qed.

(** C10 (as the code has it): every operation reads its input, whatever it
    is, through [squeeze].  Every recording of shape (1, T, L) drives the
    cPCA estimators into their shape-error branch; one with T and L other
    than 1 is handed to the per-channel estimators as the (T, L) recording
    with trial axis 0 and time axis 1 and one channel. *)
Theorem single_channel_dispatch dpss rs ri (x : ndarray R) (p : params)
  (T L : nat) :
  (forall op, run dpss rs ri op x p = run dpss rs ri op (squeeze x) p) /\
  (shape x = [1%nat; T; L] ->
   (forall op, per_channel op = false ->
      run dpss rs ri op x p = Raise ShapeError) /\
   (T <> 1%nat -> L <> 1%nat ->
    squeeze x = mkarr [T; L] (data x) /\
    dispatch (squeeze x) = Ok (mklayout 1 0 1 T L) /\
    (forall op, per_channel op = true ->
       run dpss rs ri op x p
       = run dpss rs ri op (mkarr [T; L] (data x)) p))).
Proof.
  split.
  { intros op. apply run_squeeze. symmetry. apply squeeze_idempotent. }
  intros Hs. split.
  { intros op Hop. apply cpca_shape_error; [exact Hop|].
    apply dispatch3_rank. eapply squeeze_rank_single_channel. exact Hs. }
  intros HT HL.
  pose proof (squeeze_single_channel x Hs HT HL) as Esq.
  split; [|split].
  - exact Esq.
  - rewrite Esq. reflexivity.
  - intros op _. apply run_squeeze. rewrite Esq.
    unfold squeeze. simpl.
    destruct (Nat.eqb_spec T 1); [contradiction|].
    destruct (Nat.eqb_spec L 1); [contradiction|]. reflexivity.
Qed.

Lemma single_channel_dispatch_witness :
  (forall op, run flat_windows no_samples no_pairs op one_channel unit_params
              = run flat_windows no_samples no_pairs op (squeeze one_channel)
                    unit_params) /\
  (forall op, per_channel op = false ->
     run flat_windows no_samples no_pairs op one_channel unit_params
     = Raise ShapeError) /\
  squeeze one_channel = mkarr [2%nat; 2%nat] (data one_channel) /\
  dispatch (squeeze one_channel) = Ok (mklayout 1 0 1 2 2) /\
  (forall op, per_channel op = true ->
     run flat_windows no_samples no_pairs op one_channel unit_params
     = run flat_windows no_samples no_pairs op
           (mkarr [2%nat; 2%nat] (data one_channel)) unit_params).
Proof.
  destruct (@single_channel_dispatch flat_windows no_samples no_pairs
              one_channel unit_params 2 2) as [Hsq Hrest].
  destruct (Hrest eq_refl) as [Hcpca Hper].
  destruct Hper as (H1 & H2 & H3); [discriminate|discriminate|].
  split; [exact Hsq|]. split; [exact Hcpca|].
  split; [exact H1|]. split; [exact H2|exact H3].
Defined.

(** C10, as stated, fails for a single-trial recording: the trial axis is
    squeezed away with the channel axis, and the per-channel estimator is
    left with a one-dimensional array. *)
Lemma single_trial_not_dispatched :
  shape one_trial = [1%nat; 1%nat; 4%nat] /\
  dispatch (squeeze one_trial) = Raise ShapeError /\
  mtplv flat_windows one_trial unit_params = Raise ShapeError.
Proof.
  split; [reflexivity|]. split; reflexivity.
Qed.

(** ** Single-channel input and the cPCA estimators *)

(** C4, as stated, fails: on a one-channel recording [mtplv] returns and
    [mtcpca] does not. *)
Lemma single_channel_cpca_raises :
  mtcpca flat_windows one_channel unit_params = Raise ShapeError /\
  exists r, mtplv flat_windows one_channel unit_params = Ok r.
Proof.
  split; [reflexivity|]. eexists. reflexivity.
Qed.

Lemma norm2_single z : norm2 [z] / INR 1 = Cabs2 z.
Proof. unfold norm2. simpl. field. Qed.

(** C4 (as the code has it, in exact arithmetic): [mtcpca] rejects every
    recording with a channel axis of extent one; the 1 x 1 identity holds
    for the per-bin computation in PLV mode, and there for a finite
    statistic only: the cPCA value of a finite single channel statistic is
    the value [mtplv] computes for that cell; where the statistic is NaN,
    [mtplv] has NaN for the cell and the cPCA computation raises, the
    solver refusing a matrix that is not finite. *)
Theorem single_channel_cpca dpss (x : ndarray R) (p : params) (T L : nat) :
  shape x = [1%nat; T; L] ->
  mtcpca dpss x p = Raise ShapeError /\
  (itc p = false ->
   forall (xw : tensor3 complex) (c k : nat),
     match at2 (mtcpca_C p xw) c k with
     | Some z =>
         cpca_bin 1 [Some z] = Ok (Cabs2 z) /\
         at2 (mtplv_taper p xw) c k = Some (Cabs2 z)
     | None =>
         cpca_bin 1 [None] = Raise ValueError /\
         at2 (mtplv_taper p xw) c k = None
     end).
Proof.
  intros Hs. split.
  - apply (@cpca_shape_error dpss no_samples no_pairs Mtcpca x p);
      [reflexivity|].
    apply dispatch3_rank. eapply squeeze_rank_single_channel. exact Hs.
  - intros Hitc xw c k. unfold mtcpca_C, mtplv_taper. rewrite Hitc. simpl.
    destruct (Cmean_nan (trials_of (t3map Cunit xw) c k)) as [z|]; simpl.
    + split; [|reflexivity].
      rewrite <- norm2_single.
      apply (@cpca_bin_finite 1 [z]). simpl. lia.
    + split; [|reflexivity]. apply cpca_bin_nan. left. reflexivity.
Qed.

Lemma single_channel_cpca_witness :
  mtcpca flat_windows one_channel unit_params = Raise ShapeError /\
  (itc unit_params = false ->
   forall (xw : tensor3 complex) (c k : nat),
     match at2 (mtcpca_C unit_params xw) c k with
     | Some z =>
         cpca_bin 1 [Some z] = Ok (Cabs2 z) /\
         at2 (mtplv_taper unit_params xw) c k = Some (Cabs2 z)
     | None =>
         cpca_bin 1 [None] = Raise ValueError /\
         at2 (mtplv_taper unit_params xw) c k = None
     end).
Proof.
  apply (@single_channel_cpca flat_windows one_channel unit_params 2 2).
  reflexivity.
Defined.

(** ** Where the passband mask is applied *)

Lemma mask_length_le {A} (m : list bool) (l : list A) :
  (length (mask m l) <= length l)%nat.
Proof.
  revert l. induction m as [|b m IH]; intros [|a l]; simpl; try lia.
  specialize (IH l). destruct b; simpl; lia.
Qed.

Lemma mask_length_eq {A B} (m : list bool) (l1 : list A) (l2 : list B) :
  length l1 = length l2 -> length (mask m l1) = length (mask m l2).
Proof.
  revert l1 l2. induction m as [|b m IH]; intros [|a l1] [|c l2]; simpl;
    try discriminate; try reflexivity.
  intros H. injection H as H. destruct b; simpl; auto.
Qed.

Lemma kept_length_le (fInd : list bool) :
  (length (kept fInd) <= length fInd)%nat.
Proof.
  unfold kept. etransitivity; [apply mask_length_le|].
  rewrite length_seq. reflexivity.
Qed.

(** Masking commutes with the average over tapers, cell by cell. *)
Lemma mask_taper_mean_commute nchans (fInd : list bool)
  (acc : list (tensor2 nanR)) (c j : nat) :
  at2 (mask2 fInd (mean_tapers nchans (length fInd) acc)) c j =
  at2 (mean_tapers nchans (length (kept fInd)) (map (mask2 fInd) acc)) c j.
Proof.
  simpl. rewrite map_map. reflexivity.
Qed.

(** ** What the operations return *)

Ltac open_bind H :=
  match type of H with
  | bind ?m _ = Ok _ =>
      let E := fresh "E" in
      destruct m eqn:E; simpl in H; [|discriminate H]
  end.

Ltac open_triple H :=
  match type of H with
  | context [match ?t with (_, _) => _ end] =>
      let n := fresh "n" in let f := fresh "f" in let fInd := fresh "fInd" in
      destruct t as [[n f] fInd]
  end.

Ltac open_pair H :=
  match type of H with
  | context [match ?t with (_, _) => _ end] =>
      let a := fresh "a" in let b := fresh "b" in destruct t as [a b]
  end.

Ltac close_axis :=
  match goal with
  | H : (if bootstrap ?p then _ else _) = Ok _ |- _ =>
      unfold mode_shape; destruct (bootstrap p);
      injection H as <-; do 4 eexists;
      (split; [cbn [per_channel]; first [eassumption|reflexivity]|
        split; [eassumption|split; [simpl; auto|eexists; reflexivity]]])
  end.

Lemma spectral_returns_axis dpss rs ri op (x : ndarray R) p r :
  spectral op = true ->
  run dpss rs ri op x p = Ok r ->
  exists lay n f fInd,
    (if per_channel op then dispatch (squeeze x) else dispatch3 (squeeze x))
    = Ok lay /\
    FrequencyGrid._get_freq_vector (squeeze x) p (timedim lay)
    = Ok (n, f, fInd) /\
    returns_axis r f /\ mode_shape (bootstrap p) r.
Proof.
  intros Hop H. destruct op; try discriminate Hop; simpl in H;
    unfold mtplv, mtspec, mtphase, mtcpca, mtcspec, mtppc, mtspecraw,
      mtpspec, mtcpca_all in H; cbv zeta in H.
  - open_bind H. open_bind H. open_triple H. close_axis.
  - open_bind H. open_bind H. open_triple H. close_axis.
  - open_bind H. open_bind H. open_triple H. close_axis.
  - open_bind H. open_bind H. open_triple H. open_bind H. close_axis.
  - open_bind H. open_bind H. open_triple H. open_bind H. close_axis.
  - open_bind H. open_bind H. open_triple H. open_bind H. close_axis.
  - open_bind H. open_bind H. open_triple H. close_axis.
  - open_bind H. open_bind H. open_triple H.
    match type of H with
    | (if ?c then _ else _) = _ => destruct c; [discriminate H|]
    end.
    close_axis.
  - open_bind H. open_bind H. open_triple H. open_bind H.
    unfold mode_shape. destruct (bootstrap p); injection H as <-;
      do 4 eexists;
      (split; [cbn [per_channel]; first [eassumption|reflexivity]|
        split; [eassumption|split; [|eexists; reflexivity]]]).
    + simpl. destruct (wants_eigenvectors p); reflexivity.
    + simpl. auto.
Qed.

(** ** Evaluating the transform of an impulse *)

Lemma Csum_zeros (l : list complex) :
  Forall (fun z => z = C0) l -> Csum l = C0.
Proof.
  induction 1 as [|z l Hz _ IH]; simpl; [reflexivity|].
  rewrite Hz, IH. cring.
Qed.

(** A signal that is zero after its first sample has a flat transform. *)
Lemma rfft_bin_impulse (sig : nat -> R) (L n k : nat) :
  (1 <= L)%nat -> (1 <= n)%nat ->
  (forall l, (1 <= l < Nat.min L n)%nat -> sig l = 0) ->
  rfft_bin sig L n k = (sig O, 0).
Proof.
  intros HL Hn Hz. unfold rfft_bin.
  destruct (Nat.min L n) as [|m] eqn:Em; [lia|].
  simpl seq. simpl map. simpl Csum.
  rewrite Csum_zeros.
  - replace (- (2 * PI * INR k * 0 / INR n)) with 0
      by (unfold Rdiv; ring).
    unfold cis, Cscal, Cadd, C0. simpl. rewrite cos_0, sin_0.
    f_equal; ring.
  - apply Forall_forall. intros z Hz'.
    apply in_map_iff in Hz'. destruct Hz' as [l [<- Hl]].
    apply in_seq in Hl. rewrite Hz by lia.
    unfold Cscal, C0. simpl. f_equal; ring.
Qed.

Lemma Rdiv_nan_nonzero a b : b <> 0 -> Rdiv_nan a b = Some (a / b).
Proof.
  intros H. unfold Rdiv_nan. destruct (Req_EM_T b 0); [contradiction|].
  reflexivity.
Qed.

Lemma Cdiv_nan_nonzero z b : b <> 0 -> Cdiv_nan z b = Some (Cscal (/ b) z).
Proof.
  intros H. unfold Cdiv_nan. destruct (Req_EM_T b 0); [contradiction|].
  reflexivity.
Qed.

Lemma Rdiv_nan_zero a : Rdiv_nan a 0 = None.
Proof.
  unfold Rdiv_nan. destruct (Req_EM_T 0 0); [reflexivity|contradiction].
Qed.

Lemma Cdiv_nan_zero z : Cdiv_nan z 0 = None.
Proof.
  unfold Cdiv_nan. destruct (Req_EM_T 0 0); [reflexivity|contradiction].
Qed.

Lemma Cabs_real (a : R) : Cabs (a, 0) = Rabs a.
Proof.
  unfold Cabs. simpl. replace (a * a + 0 * 0) with (Rsqr a)
    by (unfold Rsqr; ring).
  apply sqrt_Rsqr_abs.
Qed.

Lemma impulses_sample (c t l : nat) :
  (c < 2)%nat -> (t < 2)%nat -> (l < 2)%nat ->
  sample impulses (mklayout 2 1 2 2 2) c t l = if (l =? 0)%nat then 1 else 0.
Proof.
  intros Hc Ht Hl.
  destruct c as [|[|c]]; [| |lia]; destruct t as [|[|t]]; try lia;
    destruct l as [|[|l]]; try lia; reflexivity.
Qed.

(** The transform of the recording [impulses] under a window [tap]: every
    coefficient is the first window sample. *)
Lemma impulses_transform (tap : list R) (c t k : nat) :
  (c < 2)%nat -> (t < 2)%nat ->
  at3 (rfft tap impulses (mklayout 2 1 2 2 2) 2) c t k = (nth 0 tap 0, 0).
Proof.
  intros Hc Ht. simpl at3.
  rewrite rfft_bin_impulse; simpl ntime; try (simpl; lia).
  - rewrite impulses_sample by lia. simpl. f_equal. ring.
  - intros l Hl. simpl in Hl. rewrite impulses_sample by lia.
    destruct l as [|l]; [lia|]. simpl. ring.
Qed.

Lemma impulses_trials (tap : list R) (c k : nat) :
  (c < 2)%nat ->
  trials_of (rfft tap impulses (mklayout 2 1 2 2 2) 2) c k
  = [(nth 0 tap 0, 0); (nth 0 tap 0, 0)].
Proof.
  intros Hc. unfold trials_of.
  change (ntr (rfft tap impulses (mklayout 2 1 2 2 2) 2)) with 2%nat.
  change (seq 0 2) with [0; 1]%nat. cbn [map].
  rewrite !impulses_transform by lia. reflexivity.
Qed.

(** The magnitude-normalised trial mean of a cell is finite as soon as one
    coefficient of the cell is not zero. *)
Lemma itc_norm_finite (xs : list complex) (z : complex) :
  In z xs -> z <> C0 ->
  exists v, ocdiv (Cmean xs) (Rmean (map Cabs xs)) = Some v.
Proof.
  intros Hin Hz.
  assert (Hn : INR (length xs) <> 0).
  { destruct xs; [inversion Hin|]. apply not_0_INR. simpl. lia. }
  assert (HS : 0 < Rsum (map Cabs xs)).
  { clear Hn. induction xs as [|y xs IH]; [inversion Hin|]. simpl.
    assert (0 <= Rsum (map Cabs xs)).
    { apply Rsum_nonneg, Forall_forall. intros r Hr.
      apply in_map_iff in Hr. destruct Hr as [u [<- _]]. apply Cabs_nonneg. }
    pose proof (Cabs_nonneg y).
    destruct Hin as [->|Hin].
    - assert (Cabs z <> 0) by (intros E; apply Hz, Cabs_0_iff, E). lra.
    - specialize (IH Hin). lra. }
  unfold Cmean, Rmean. rewrite length_map.
  rewrite Cdiv_nan_nonzero, Rdiv_nan_nonzero by exact Hn. simpl.
  rewrite Cdiv_nan_nonzero; [eexists; reflexivity|].
  apply INR_length_pos in Hn.
  assert (0 < Rsum (map Cabs xs) / INR (length xs))
    by (apply Rdiv_lt_0_compat; assumption).
  lra.
Qed.

(** The per-bin step of the reconstruction path on two finite channel
    statistics. *)
Lemma timeDomain_bin_pair (a b : complex) (C_fi : list nanC) :
  exists top coeff,
    timeDomain_bin [Some a; Some b] C_fi = Ok (top, coeff).
Proof.
  destruct (linalg_eigh_pair a b)
    as (lo & u00 & u01 & u10 & u11 & E & _ & _).
  unfold timeDomain_bin. rewrite E. simpl.
  do 2 eexists. reflexivity.
Qed.

Lemma timeDomain_result dpss (x : ndarray R) p r :
  mtcpca_timeDomain dpss x p = Ok r ->
  (exists a b,
     r = if bootstrap p
         then Dict [("y_cpc"%string, Arr a); ("y_pc"%string, Arr b)]
         else Tuple [Arr a; Arr b]) /\
  forall f, ~ returns_axis r f.
Proof.
  unfold mtcpca_timeDomain. cbv zeta. intros H.
  open_bind H. open_bind H. open_triple H.
  match type of H with
  | (if ?c then _ else _) = _ => destruct c; [discriminate H|]
  end.
  open_bind H. open_bind H. open_bind H. open_pair H. open_bind H.
  destruct (bootstrap p); injection H as <-.
  - split; [do 2 eexists; reflexivity|].
    intros f' Hf. simpl in Hf. discriminate.
  - split; [do 2 eexists; reflexivity|].
    intros f' Hf. simpl in Hf. destruct Hf as [Hf|[Hf|[]]]; discriminate.
Qed.

Lemma impulses_ave_cell (c l : nat) :
  (c < 2)%nat -> (l < 2)%nat ->
  at2 impulses_ave c l = Some (if (l =? 0)%nat then 1 else 0).
Proof.
  intros Hc Hl. simpl. change (seq 0 2) with [0; 1]%nat. cbn [map].
  rewrite !impulses_sample by lia.
  unfold Rmean. rewrite Rdiv_nan_nonzero by (simpl; lra).
  f_equal. destruct l as [|l]; simpl; field.
Qed.

Lemma cov_impulses :
  all_finite (map (@all_finite R) (cov impulses_ave))
  = Some [[1 / 2; 1 / 2]; [1 / 2; 1 / 2]].
Proof.
  unfold cov.
  change (rows impulses_ave) with 2%nat. change (cols impulses_ave) with 2%nat.
  change (seq 0 2) with [0; 1]%nat.
  cbn [map col_of rows cols at2 seq].
  rewrite !impulses_ave_cell by lia. cbn [Nat.eqb].
  unfold Rmean_nan, Rmean. cbn [all_finite lift2 length].
  rewrite !Rdiv_nan_nonzero by (simpl; lra).
  cbn [lift2 combine map fst snd all_finite].
  rewrite !Rdiv_nan_nonzero by (simpl; lra).
  cbn [lift2 all_finite]. simpl Rsum. simpl INR.
  f_equal. f_equal; [|f_equal]; (f_equal; [|f_equal]); field.
Qed.

(** The real symmetric matrix with every entry 1/2 has a real
    decomposition meeting the solver's contract. *)
Lemma eigh_real_half_exists :
  exists r : list R * list (list R),
    eigh_contract (map (map RtoC) [[1 / 2; 1 / 2]; [1 / 2; 1 / 2]])
                  (fst r, map (map RtoC) (snd r)).
Proof.
  set (s := sqrt (1 / 2)).
  assert (Hs : s * s = 1 / 2) by (apply sqrt_sqrt; lra).
  set (a := (s, 0) : complex).
  assert (HN : norm2 [a; a] = 1).
  { rewrite norm2_pair. unfold a. simpl. lra. }
  set (rho := / sqrt (norm2 [a; a])).
  exists ([0; norm2 [a; a]],
          [[rho * s; rho * s]; [- rho * s; rho * s]]).
  assert (EM : map (map RtoC) [[1 / 2; 1 / 2]; [1 / 2; 1 / 2]]
               = outer [a; a] (map Cconj [a; a])).
  { unfold outer, a, RtoC, Cmul, Cconj. simpl.
    assert (E : (1 / 2, 0) = (s * s - 0 * - 0, s * - 0 + 0 * s)).
    { f_equal; lra. }
    rewrite <- E. reflexivity. }
  assert (EV : map (map RtoC) [[rho * s; rho * s]; [- rho * s; rho * s]]
               = rank1_vecs rho a a).
  { unfold rank1_vecs, a, RtoC, Cscal, Cconj. simpl.
    repeat (f_equal; try lra). }
  simpl fst. simpl snd. rewrite EM, EV.
  apply rank1_contract. lra.
Qed.

Lemma eigh_real_half_size :
  length (snd (eigh_real [[1 / 2; 1 / 2]; [1 / 2; 1 / 2]])) = 2%nat.
Proof.
  pose proof (epsilon_spec (inhabits ([], []))
                (fun r : list R * list (list R) =>
                   eigh_contract
                     (map (map RtoC) [[1 / 2; 1 / 2]; [1 / 2; 1 / 2]])
                     (fst r, map (map RtoC) (snd r)))
                eigh_real_half_exists) as H.
  fold (eigh_real [[1 / 2; 1 / 2]; [1 / 2; 1 / 2]]) in H.
  destruct H as (_ & Hlen & _). simpl in Hlen.
  rewrite length_map in Hlen. exact Hlen.
Qed.

Lemma mapM_two {A B} (f : A -> outcome B) (a0 a1 : A) (b0 b1 : B) :
  f a0 = Ok b0 -> f a1 = Ok b1 -> mapM f [a0; a1] = Ok [b0; b1].
Proof. intros E0 E1. simpl. rewrite E0. simpl. rewrite E1. reflexivity. Qed.

Lemma flat_peak : list_max [1; 1] = 1.
Proof.
  unfold list_max. simpl. rewrite (Rmax_left 1 1) by lra.
  apply Rmax_left. lra.
Qed.

Lemma timeDomain_impulses_returns :
  exists a b,
    mtcpca_timeDomain flat_windows impulses unit_params
    = Ok (Tuple [Arr a; Arr b]).
Proof.
  unfold mtcpca_timeDomain. cbv zeta.
  change (squeeze impulses) with impulses.
  change (dispatch3 impulses) with (Ok (mklayout 2 1 2 2 2)).
  cbn [bind timedim].
  change (FrequencyGrid._get_freq_vector impulses unit_params 2)
    with (Ok (2%nat, FrequencyGrid.full_axis 2 2, [true; true])).
  cbn [bind nchans ntime ntrials].
  change (hd [] (flat_windows (nth 2 (shape impulses) 0%nat) 1%Q 1))
    with [1; 1].
  rewrite flat_peak.
  destruct (Req_EM_T 1 0) as [E|_]; [lra|].
  set (w := map (fun v => v / 1) [1; 1]).
  set (xw := rfft w impulses (mklayout 2 1 2 2 2) 2).
  assert (Hw : nth 0 w 0 <> 0).
  { unfold w. simpl. lra. }
  assert (Hcol : forall fi, exists v0 v1,
             col_of (t2zip ocdiv (mean_trials xw)
                           (mean_trials_R (t3map Cabs xw))) fi
             = [Some v0; Some v1]).
  { intros fi. unfold col_of. simpl rows.
    change (seq 0 2) with [0; 1]%nat. cbn [map t2zip at2 mean_trials
                                           mean_trials_R].
    rewrite !trials_of_t3map. unfold xw.
    rewrite !impulses_trials by lia.
    assert (Hz : (nth 0 w 0, 0) <> C0).
    { unfold C0. intros E. injection E as E. contradiction. }
    destruct (@itc_norm_finite [(nth 0 w 0, 0); (nth 0 w 0, 0)]
                _ (or_introl eq_refl) Hz) as [v Hv].
    rewrite Hv. exists v, v. reflexivity. }
  assert (Hbins : exists b0 b1,
             mapM (fun fi =>
                     timeDomain_bin
                       (col_of (t2zip ocdiv (mean_trials xw)
                                      (mean_trials_R (t3map Cabs xw))) fi)
                       (col_of (mean_trials xw) fi))
                  (seq 0 2)
             = Ok [b0; b1]).
  { change (seq 0 _) with [0; 1]%nat.
    destruct (Hcol 0%nat) as (u0 & u1 & E0).
    destruct (Hcol 1%nat) as (v0 & v1 & E1).
    destruct (timeDomain_bin_pair u0 u1 (col_of (mean_trials xw) 0))
      as (t0 & c0 & B0).
    destruct (timeDomain_bin_pair v0 v1 (col_of (mean_trials xw) 1))
      as (t1 & c1 & B1).
    exists (t0, c0), (t1, c1). apply mapM_two.
    - rewrite E0. exact B0.
    - rewrite E1. exact B1. }
  change (squeezed_bins (t2zip ocdiv (mean_trials xw)
                                (mean_trials_R (t3map Cabs xw))))
    with (@Ok nat 2%nat).
  cbn [bind].
  destruct Hbins as (b0 & b1 & ->). cbn [bind].
  fold impulses_ave. unfold linalg_eigh_real. rewrite cov_impulses.
  pose proof eigh_real_half_size as Hsize.
  destruct (eigh_real [[1 / 2; 1 / 2]; [1 / 2; 1 / 2]]) as [vals vecs].
  simpl in Hsize. cbn [bind].
  destruct (length_two _ Hsize) as (r0 & r1 & ->).
  change (py_index (seq 0 (length [r0; r1])) (-1)) with (@Ok nat 1%nat).
  cbn [bind]. change (bootstrap unit_params) with false. cbv iota.
  do 2 eexists. reflexivity.
Qed.

(** C8, as stated, fails for [mtcpca_timeDomain]: it returns its two
    waveforms and no frequency axis. *)
Lemma timeDomain_returns_no_axis :
  exists r,
    run flat_windows no_samples no_pairs Mtcpca_timeDomain impulses
        unit_params = Ok r /\
    forall f, ~ returns_axis r f.
Proof.
  destruct timeDomain_impulses_returns as (a & b & E).
  exists (Tuple [Arr a; Arr b]). split; [exact E|].
  intros f Hf. simpl in Hf. destruct Hf as [Hf|[Hf|[]]]; discriminate.
Qed.

(** C8 (as the code has it): every operation returns a tuple in normal mode
    and a dictionary in bootstrap mode; every operation with a
    frequency-domain statistic returns with it, as a tuple element or as the
    field ['f'], the masked frequency axis: the one [_get_freq_vector]
    builds for the squeezed recording along the time axis its rank dispatch
    has fixed; [mtcpca_timeDomain] returns its two waveforms only. *)
Theorem operations_return dpss rs ri (op : operation) (x : ndarray R)
  (p : params) (r : pyval) :
  run dpss rs ri op x p = Ok r ->
  mode_shape (bootstrap p) r /\
  (spectral op = true ->
   exists lay n f fInd,
     (if per_channel op then dispatch (squeeze x) else dispatch3 (squeeze x))
     = Ok lay /\
     FrequencyGrid._get_freq_vector (squeeze x) p (timedim lay)
     = Ok (n, f, fInd) /\
     returns_axis r f) /\
  (op = Mtcpca_timeDomain ->
   (exists a b,
      r = if bootstrap p
          then Dict [("y_cpc"%string, Arr a); ("y_pc"%string, Arr b)]
          else Tuple [Arr a; Arr b]) /\
   forall f, ~ returns_axis r f).
Proof.
  intros H. split; [|split].
  - destruct (spectral op) eqn:Hop.
    + destruct (spectral_returns_axis _ _ _ _ _ _ Hop H)
        as (lay & n & f & fInd & _ & _ & _ & Hm). exact Hm.
    + destruct op; try discriminate Hop. simpl in H.
      apply timeDomain_result in H. destruct H as [(a & b & ->) _].
      unfold mode_shape. destruct (bootstrap p); eexists; reflexivity.
  - intros Hop.
    destruct (spectral_returns_axis _ _ _ _ _ _ Hop H)
      as (lay & n & f & fInd & Hd & Hf & Hr & _).
    exists lay, n, f, fInd. split; [exact Hd|]. split; assumption.
  - intros ->. simpl in H. apply timeDomain_result in H. exact H.
Qed.

Lemma operations_return_witness :
  exists r,
    run flat_windows no_samples no_pairs Mtplv opposite_trials unit_params
    = Ok r /\
    mode_shape (bootstrap unit_params) r /\
    (spectral Mtplv = true ->
     exists lay n f fInd,
       (if per_channel Mtplv then dispatch (squeeze opposite_trials)
        else dispatch3 (squeeze opposite_trials)) = Ok lay /\
       FrequencyGrid._get_freq_vector (squeeze opposite_trials) unit_params
                                      (timedim lay)
       = Ok (n, f, fInd) /\
       returns_axis r f) /\
    (Mtplv = Mtcpca_timeDomain ->
     (exists a b,
        r = if bootstrap unit_params
            then Dict [("y_cpc"%string, Arr a); ("y_pc"%string, Arr b)]
            else Tuple [Arr a; Arr b]) /\
     forall f, ~ returns_axis r f).
Proof.
  eexists. split; [reflexivity|].
  apply (@operations_return flat_windows no_samples no_pairs Mtplv
           opposite_trials unit_params).
  reflexivity.
Defined.

(** ** Zero-magnitude coefficients *)

Lemma Cunit_zero : Cunit C0 = None.
Proof.
  unfold Cunit. rewrite (proj2 (Cabs_0_iff C0) eq_refl).
  apply Cdiv_nan_zero.
Qed.

Lemma trials_of_In {A} (t : tensor3 A) (c k r : nat) :
  (r < ntr t)%nat -> In (at3 t c r k) (trials_of t c k).
Proof.
  intros Hr. unfold trials_of.
  apply (in_map (fun r => at3 t c r k)). apply in_seq. lia.
Qed.

(** One zero coefficient among the trials of a cell makes the
    unit-normalised trial mean of the cell NaN. *)
Lemma unit_mean_nan (xw : tensor3 complex) (c t k : nat) :
  (t < ntr xw)%nat -> at3 xw c t k = C0 ->
  at2 (mean_trials_nan (t3map Cunit xw)) c k = None.
Proof.
  intros Ht Hz. simpl. unfold Cmean_nan.
  rewrite all_finite_In_None; [reflexivity|].
  rewrite trials_of_t3map. rewrite <- Cunit_zero, <- Hz.
  apply in_map. apply trials_of_In. exact Ht.
Qed.

Lemma at2_t2map {A B} (g : A -> B) (t : tensor2 A) (c k : nat) :
  at2 (t2map g t) c k = g (at2 t c k).
Proof. reflexivity. Qed.

Lemma mean_tapers_nan nchans nbins (acc : list (tensor2 nanR))
  (s : tensor2 nanR) (c k : nat) :
  In s acc -> at2 s c k = None ->
  at2 (mean_tapers nchans nbins acc) c k = None.
Proof.
  intros Hin Hs. simpl. unfold Rmean_nan.
  rewrite all_finite_In_None; [reflexivity|].
  rewrite <- Hs. apply (in_map (fun s => at2 s c k)). exact Hin.
Qed.

Lemma to_ndarray_In {A} (t : tensor2 A) (c j : nat) :
  (c < rows t)%nat -> (j < cols t)%nat ->
  In (at2 t c j) (data (to_ndarray t)).
Proof.
  intros Hc Hj. simpl. apply in_flat_map. exists c. split.
  - apply in_seq. lia.
  - apply (in_map (fun k => at2 t c k)). apply in_seq. lia.
Qed.

Lemma mask_seq_In (m : list bool) (s k : nat) :
  (k < length m)%nat -> nth k m false = true ->
  In (s + k)%nat (mask m (seq s (length m))).
Proof.
  revert s k. induction m as [|b m IH]; intros s k Hk Hn; simpl in *;
    [lia|].
  destruct k as [|k].
  - subst b. left. lia.
  - assert (Hin : In (S s + k)%nat (mask m (seq (S s) (length m))))
      by (apply IH; [lia|exact Hn]).
    replace (s + S k)%nat with (S s + k)%nat by lia.
    destruct b; [right|]; exact Hin.
Qed.

Lemma kept_index (fInd : list bool) (k : nat) :
  nth k fInd false = true ->
  exists j, (j < length (kept fInd))%nat /\ nth j (kept fInd) O = k.
Proof.
  intros Hn.
  assert (Hk : (k < length fInd)%nat).
  { destruct (Nat.lt_ge_cases k (length fInd)) as [H|H]; [exact H|].
    rewrite nth_overflow in Hn by exact H. discriminate. }
  pose proof (mask_seq_In fInd 0 Hk Hn) as Hin. simpl in Hin.
  apply In_nth with (d := O) in Hin. exact Hin.
Qed.

Lemma nth_map_seq {B} (g : nat -> B) (d : B) (n k : nat) :
  (k < n)%nat -> nth k (map g (seq 0 n)) d = g k.
Proof.
  intros Hk. rewrite (nth_indep _ d (g 0%nat))
    by now rewrite length_map, length_seq.
  rewrite (map_nth g (seq 0 n) 0%nat k). now rewrite seq_nth.
Qed.

(** Entry [(c, j)] of the row-major buffer of a (channel, bin) array. *)
Lemma nth_rows {B} (g : nat -> nat -> B) (d : B) (R C c j : nat) :
  (c < R)%nat -> (j < C)%nat ->
  nth (c * C + j) (flat_map (fun c => map (g c) (seq 0 C)) (seq 0 R)) d
  = g c j.
Proof.
  intros Hc Hj.
  assert (Hgen : forall s n c', (c' < n)%nat ->
            nth (c' * C + j)
                (flat_map (fun c => map (g c) (seq 0 C)) (seq s n)) d
            = g (s + c')%nat j).
  { intros s n. revert s. induction n as [|n IH]; intros s c' Hc'; [lia|].
    cbn [seq flat_map]. destruct c' as [|c'].
    - rewrite app_nth1 by now rewrite length_map, length_seq.
      rewrite Nat.add_0_r. now apply nth_map_seq.
    - rewrite app_nth2 by (rewrite length_map, length_seq; cbn; lia).
      rewrite length_map, length_seq.
      replace (S c' * C + j - C)%nat with (c' * C + j)%nat by (cbn; lia).
      rewrite IH by lia. f_equal. lia. }
  rewrite Hgen by exact Hc. reflexivity.
Qed.

Lemma length_rows {B} (g : nat -> nat -> B) (R C : nat) :
  length (flat_map (fun c => map (g c) (seq 0 C)) (seq 0 R)) = (R * C)%nat.
Proof.
  assert (Hgen : forall s,
            length (flat_map (fun c => map (g c) (seq 0 C)) (seq s R))
            = (R * C)%nat).
  { induction R as [|R IH]; intros s; cbn [seq flat_map]; [reflexivity|].
    rewrite length_app, length_map, length_seq, IH. cbn. lia. }
  apply Hgen.
Qed.

(** In PLV mode [mtplv] hands a zero coefficient on as NaN: the returned
    statistic holds a NaN at the cell of that channel and bin. *)
Lemma mtplv_nan_propagates dpss (x : ndarray R) p lay n f fInd tap c t k :
  itc p = false ->
  dispatch (squeeze x) = Ok lay ->
  FrequencyGrid._get_freq_vector (squeeze x) p (timedim lay)
  = Ok (n, f, fInd) ->
  In tap (windows dpss (squeeze x) lay p) ->
  (c < nchans lay)%nat -> (t < ntrials lay)%nat ->
  nth k fInd false = true ->
  at3 (rfft tap (squeeze x) lay n) c t k = C0 ->
  exists r a, mtplv dpss x p = Ok r /\ statistic_of r = Some a /\
    exists j, (j < length (kept fInd))%nat /\ nth j (kept fInd) O = k /\
              nth (c * length (kept fInd) + j) (data a) (Some 0) = None.
Proof.
  intros Hitc Hd Hf Htap Hc Ht Hk Hz.
  unfold mtplv. cbv zeta. rewrite Hd. cbn [bind]. rewrite Hf. cbn [bind].
  set (acc := map (fun tap => mtplv_taper p (rfft tap (squeeze x) lay n))
                  (windows dpss (squeeze x) lay p)).
  set (a := squeeze (to_ndarray
                       (mask2 fInd (mean_tapers (nchans lay)
                                                (length fInd) acc)))).
  assert (Ha : exists j, (j < length (kept fInd))%nat /\
                         nth j (kept fInd) O = k /\
                         nth (c * length (kept fInd) + j) (data a) (Some 0)
                         = None).
  { destruct (kept_index fInd k Hk) as (j & Hj & Ej).
    exists j. split; [exact Hj|]. split; [exact Ej|].
    unfold a. rewrite data_squeeze.
    assert (Hcell : at2 (mask2 fInd (mean_tapers (nchans lay)
                                                 (length fInd) acc)) c j
                    = None).
    { cbn [mask2 at2]. rewrite Ej.
      apply mean_tapers_nan
        with (s := mtplv_taper p (rfft tap (squeeze x) lay n)).
      - unfold acc.
        apply (in_map (fun tap => mtplv_taper p (rfft tap (squeeze x) lay n))).
        exact Htap.
      - unfold mtplv_taper. rewrite Hitc. cbn [negb]. rewrite at2_t2map.
        exact (f_equal (lift1 Cabs2)
                 (@unit_mean_nan (rfft tap (squeeze x) lay n) c t k Ht Hz)). }
    rewrite <- Hcell. unfold to_ndarray. cbn [data rows cols mask2].
    apply (@nth_rows _
             (at2 (mask2 fInd (mean_tapers (nchans lay) (length fInd) acc)))
             (Some 0) (nchans lay) (length (kept fInd)) c j Hc Hj). }
  destruct (bootstrap p); do 2 eexists;
    (split; [reflexivity|split; [reflexivity|exact Ha]]).
Qed.

Lemma cpca_bin_cases nchans (col : list nanC) :
  col <> [] ->
  (exists r, cpca_bin nchans col = Ok r) \/
  cpca_bin nchans col = Raise ValueError.
Proof.
  intros Hne. destruct (all_finite col) as [v|] eqn:E.
  - left. apply all_finite_map_Some in E. subst col.
    eexists. apply cpca_bin_finite.
    destruct v; [contradiction|simpl; lia].
  - right. apply cpca_bin_nan. apply all_finite_None. exact E.
Qed.

Lemma mapM_cases {A B} (f : A -> outcome B) (l : list A) (e : exn) :
  (forall a, In a l -> (exists b, f a = Ok b) \/ f a = Raise e) ->
  (exists bs, mapM f l = Ok bs) \/ mapM f l = Raise e.
Proof.
  induction l as [|a l IH]; intros H; simpl.
  - left. eexists. reflexivity.
  - destruct (H a (or_introl eq_refl)) as [[b ->]| ->]; simpl; [|right; reflexivity].
    destruct IH as [[bs ->]| ->]; simpl.
    + intros a' Ha'. apply H. right. exact Ha'.
    + left. eexists. reflexivity.
    + right. reflexivity.
Qed.

Lemma mapM_raise {A B} (f : A -> outcome B) (l : list A) (e : exn) (a : A) :
  (forall a, In a l -> (exists b, f a = Ok b) \/ f a = Raise e) ->
  In a l -> f a = Raise e -> mapM f l = Raise e.
Proof.
  induction l as [|a' l IH]; intros H Hin Ha; [inversion Hin|]. simpl.
  destruct (H a' (or_introl eq_refl)) as [[b Eb]|Eb]; rewrite Eb; simpl;
    [|reflexivity].
  destruct Hin as [->|Hin]; [congruence|].
  rewrite IH; [reflexivity| |exact Hin|exact Ha].
  intros a'' Ha''. apply H. right. exact Ha''.
Qed.

Lemma col_of_nonempty {A} (t : tensor2 A) (k : nat) :
  (1 <= rows t)%nat -> col_of t k <> [].
Proof.
  intros H E. apply (f_equal (@length _)) in E.
  unfold col_of in E. rewrite length_map, length_seq in E. simpl in E. lia.
Qed.

Lemma cpca_taper_cases nchans (Cm : tensor2 nanC) :
  (1 <= rows Cm)%nat -> rows Cm <> 1%nat -> cols Cm <> 1%nat ->
  (exists row, cpca_taper nchans Cm = Ok row) \/
  cpca_taper nchans Cm = Raise ValueError.
Proof.
  intros H Hr Hc. rewrite cpca_taper_unsqueezed by assumption.
  apply mapM_cases.
  intros fi _. apply cpca_bin_cases. apply col_of_nonempty. exact H.
Qed.

Lemma rows_mtcpca_C p xw : rows (mtcpca_C p xw) = nch xw.
Proof. unfold mtcpca_C. destruct (itc p); reflexivity. Qed.

Lemma cols_mtcpca_C p xw : cols (mtcpca_C p xw) = nbin xw.
Proof. unfold mtcpca_C. destruct (itc p); reflexivity. Qed.

(** The loop over tapers and bins of [mtcpca] and [mtcspec] does not
    survive a channel statistic that is not finite, at whichever bin of
    the full set it stands: the solver rejects the cross-spectral matrix
    of that bin.  With a single bin the loop has failed before, on the
    squeezed array. *)
Lemma cpca_loop_aborts (stat : tensor3 complex -> tensor2 nanC)
  (w : list (list R)) (x : ndarray R) (lay : layout) (n : nat)
  (tap : list R) (c k : nat) :
  (forall xw, rows (stat xw) = nch xw) ->
  (forall xw, cols (stat xw) = nbin xw) ->
  nchans lay <> 1%nat ->
  In tap w -> (c < nchans lay)%nat -> (k < n / 2 + 1)%nat ->
  at2 (stat (rfft tap x lay n)) c k = None ->
  mapM (fun tap => cpca_taper (nchans lay) (stat (rfft tap x lay n))) w
  = Raise (if (n / 2 + 1 =? 1)%nat then IndexError else ValueError).
Proof.
  intros Hrows Hcols Hn1 Htap Hc Hk Hz.
  destruct (Nat.eqb_spec (n / 2 + 1) 1) as [E1|E1].
  - apply mapM_raise with (a := tap); [|exact Htap|].
    + intros tap' _. right. apply cpca_taper_squeezed. right.
      rewrite Hcols. exact E1.
    + apply cpca_taper_squeezed. right. rewrite Hcols. exact E1.
  - assert (Hr : forall tap', rows (stat (rfft tap' x lay n)) <> 1%nat)
      by (intros; rewrite Hrows; exact Hn1).
    assert (Hcl : forall tap', cols (stat (rfft tap' x lay n)) <> 1%nat)
      by (intros; rewrite Hcols; exact E1).
    assert (H1 : forall tap', (1 <= rows (stat (rfft tap' x lay n)))%nat).
    { intros tap'. rewrite Hrows. cbn [nch rfft]. clear - Hc. lia. }
    apply mapM_raise with (a := tap); [|exact Htap|].
    + intros tap' _. apply cpca_taper_cases; auto.
    + rewrite cpca_taper_unsqueezed by auto.
      apply mapM_raise with (a := k).
      * intros fi _. apply cpca_bin_cases. apply col_of_nonempty. apply H1.
      * apply in_seq. rewrite Hcols. cbn [nbin rfft]. clear - Hk. lia.
      * apply cpca_bin_nan. unfold col_of. rewrite <- Hz.
        apply (in_map (fun c => at2 (stat (rfft tap x lay n)) c k)).
        apply in_seq. rewrite Hrows. cbn [nch rfft]. clear - Hc. lia.
Qed.

(** In PLV mode [mtcpca] does not survive a zero coefficient: the
    cross-spectral matrix of the bin holds NaN and the solver rejects it. *)
Lemma mtcpca_nan_aborts dpss (x : ndarray R) p lay n f fInd tap c t k :
  itc p = false ->
  dispatch3 (squeeze x) = Ok lay ->
  FrequencyGrid._get_freq_vector (squeeze x) p (timedim lay)
  = Ok (n, f, fInd) ->
  In tap (windows dpss (squeeze x) lay p) ->
  (c < nchans lay)%nat -> (t < ntrials lay)%nat -> (k < n / 2 + 1)%nat ->
  at3 (rfft tap (squeeze x) lay n) c t k = C0 ->
  mtcpca dpss x p
  = Raise (if (n / 2 + 1 =? 1)%nat then IndexError else ValueError).
Proof.
  intros Hitc Hd Hf Htap Hc Ht Hk Hz.
  destruct (dispatch3_extents _ Hd) as (Hn1 & _ & _).
  unfold mtcpca. cbv zeta. rewrite Hd. cbn [bind]. rewrite Hf. cbn [bind].
  rewrite (@cpca_loop_aborts (mtcpca_C p) _ (squeeze x) lay n tap c k);
    try assumption; [reflexivity| | |].
  - intros xw. apply rows_mtcpca_C.
  - intros xw. apply cols_mtcpca_C.
  - unfold mtcpca_C. rewrite Hitc.
    apply unit_mean_nan with (t := t); [exact Ht|exact Hz].
Qed.

Lemma silence_coefficient :
  at3 (rfft [1; 1] (squeeze silence) (mklayout 2 1 2 2 2) 2) 0 0 0 = C0.
Proof.
  simpl at3. rewrite rfft_bin_impulse; simpl ntime; try (simpl; lia).
  - unfold sample. simpl. unfold C0. f_equal. ring.
  - intros l Hl. simpl in Hl. assert (l = 1%nat) by lia. subst l.
    unfold sample. simpl. ring.
Qed.

Lemma nth_None_In (l : list nanR) (i : nat) :
  nth i l (Some 0) = None -> In None l.
Proof.
  intros H. destruct (nth_in_or_default i l (Some 0)) as [Hin|E].
  - rewrite H in Hin. exact Hin.
  - rewrite H in E. discriminate.
Qed.

Lemma silence_plv_cell :
  exists r a, mtplv flat_windows silence unit_params = Ok r /\
    statistic_of r = Some a /\
    exists j, (j < length (kept [true; true]))%nat /\
              nth j (kept [true; true]) O = O /\
              nth (0 * length (kept [true; true]) + j) (data a) (Some 0)
              = None.
Proof.
  apply mtplv_nan_propagates
    with (lay := mklayout 2 1 2 2 2) (n := 2%nat)
         (f := FrequencyGrid.full_axis 2 2) (tap := [1; 1]) (t := 0%nat);
    try reflexivity; try (simpl; lia).
  - simpl. left. reflexivity.
  - exact silence_coefficient.
Qed.

Lemma silence_plv_nan :
  exists r a, mtplv flat_windows silence unit_params = Ok r /\
              statistic_of r = Some a /\ In None (data a).
Proof.
  destruct silence_plv_cell as (r & a & Hr & Ha & j & _ & _ & Hn).
  exists r, a. split; [exact Hr|]. split; [exact Ha|].
  eapply nth_None_In. exact Hn.
Qed.

Lemma silence_cpca_aborts :
  mtcpca flat_windows silence unit_params = Raise ValueError.
Proof.
  apply (@mtcpca_nan_aborts flat_windows silence unit_params
           (mklayout 2 1 2 2 2) 2 (FrequencyGrid.full_axis 2 2)
           [true; true] [1; 1] 0 0 0);
    try reflexivity; try (simpl; lia).
  - simpl. left. reflexivity.
  - exact silence_coefficient.
Qed.

(** C9, as stated, fails: on a silent recording [mtplv] returns NaN without
    any substitute value, and [mtcpca] aborts. *)
Lemma silence_has_no_policy :
  (exists r a, mtplv flat_windows silence unit_params = Ok r /\
               statistic_of r = Some a /\ In None (data a)) /\
  mtcpca flat_windows silence unit_params = Raise ValueError.
Proof.
  split; [exact silence_plv_nan|exact silence_cpca_aborts].
Qed.

(** C9 (as the code has it): a zero-magnitude coefficient has no defined
    unit normalisation.  In PLV mode [mtplv] returns NaN at the cell of
    every channel and passband bin that has such a coefficient among its
    trials, for whichever taper; and [mtcpca] raises, for a zero coefficient
    at any bin of the full set: the eigen-solver's error on a matrix that is
    not finite, or, when the transform has a single bin, the index error of
    the squeezed array before that. *)
Theorem zero_coefficient_outcome dpss (x : ndarray R) (p : params)
  (lay : layout) (n : nat) (f : list Q) (fInd : list bool) (tap : list R)
  (c t k : nat) :
  itc p = false ->
  FrequencyGrid._get_freq_vector (squeeze x) p (timedim lay)
  = Ok (n, f, fInd) ->
  In tap (windows dpss (squeeze x) lay p) ->
  (c < nchans lay)%nat -> (t < ntrials lay)%nat -> (k < n / 2 + 1)%nat ->
  at3 (rfft tap (squeeze x) lay n) c t k = C0 ->
  Cunit (at3 (rfft tap (squeeze x) lay n) c t k) = None /\
  (dispatch (squeeze x) = Ok lay -> nth k fInd false = true ->
   exists r a, mtplv dpss x p = Ok r /\ statistic_of r = Some a /\
     exists j, (j < length (kept fInd))%nat /\ nth j (kept fInd) O = k /\
               nth (c * length (kept fInd) + j) (data a) (Some 0) = None) /\
  (dispatch3 (squeeze x) = Ok lay ->
   mtcpca dpss x p
   = Raise (if (n / 2 + 1 =? 1)%nat then IndexError else ValueError)).
Proof.
  intros Hitc Hf Htap Hc Ht Hk Hz. split; [|split].
  - rewrite Hz. apply Cunit_zero.
  - intros Hd Hkeep. eapply mtplv_nan_propagates; eassumption.
  - intros Hd. eapply mtcpca_nan_aborts; eassumption.
Qed.

Lemma zero_coefficient_outcome_witness :
  Cunit (at3 (rfft [1; 1] (squeeze silence) (mklayout 2 1 2 2 2) 2) 0 0 0)
  = None /\
  (dispatch (squeeze silence) = Ok (mklayout 2 1 2 2 2) ->
   nth 0 [true; true] false = true ->
   exists r a, mtplv flat_windows silence unit_params = Ok r /\
     statistic_of r = Some a /\
     exists j, (j < length (kept [true; true]))%nat /\
               nth j (kept [true; true]) O = O /\
               nth (0 * length (kept [true; true]) + j) (data a) (Some 0)
               = None) /\
  (dispatch3 (squeeze silence) = Ok (mklayout 2 1 2 2 2) ->
   mtcpca flat_windows silence unit_params
   = Raise (if (2 / 2 + 1 =? 1)%nat then IndexError else ValueError)).
Proof.
  apply (@zero_coefficient_outcome flat_windows silence unit_params
           (mklayout 2 1 2 2 2) 2 (FrequencyGrid.full_axis 2 2)
           [true; true] [1; 1] 0 0 0).
  - reflexivity.
  - reflexivity.
  - simpl. left. reflexivity.
  - simpl. lia.
  - simpl. lia.
  - simpl. lia.
  - exact silence_coefficient.
Defined.

(** ** The unit interval *)

(** C6, as stated, fails: the phase-locking value of a silent recording is
    NaN, not a number of the unit interval. *)
Lemma silence_plv_outside_unit_interval :
  exists r a,
    mtplv flat_windows silence unit_params = Ok r /\
    statistic_of r = Some a /\
    ~ Forall (fun v => exists q, v = Some q /\ 0 <= q <= 1) (data a).
Proof.
  destruct silence_plv_nan as (r & a & Hr & Ha & Hin).
  exists r, a. split; [exact Hr|]. split; [exact Ha|].
  intros HF. rewrite Forall_forall in HF.
  destruct (HF None Hin) as (q & Hq & _). discriminate.
Qed.

(** C6 (as the code has it, in exact arithmetic): every value [mtplv] (PLV
    or ITC mode) and [mtcpca] return is NaN or lies in [0, 1].  The bound is
    one of real numbers; the rounding of floating-point arithmetic, which
    the model leaves out, can carry a value past 1 by a unit in the last
    place. *)
Theorem phase_locking_bounded dpss (x : ndarray R) (p : params) (r : pyval) :
  mtplv dpss x p = Ok r \/ mtcpca dpss x p = Ok r ->
  exists a, statistic_of r = Some a /\ Forall unit_or_nan (data a).
Proof.
  intros [H|H]; [eapply mtplv_bounded|eapply mtcpca_bounded]; eassumption.
Qed.

Lemma phase_locking_bounded_witness :
  exists r,
    mtplv flat_windows opposite_trials unit_params = Ok r /\
    exists a, statistic_of r = Some a /\ Forall unit_or_nan (data a).
Proof.
  eexists. split; [reflexivity|].
  apply (@phase_locking_bounded flat_windows opposite_trials unit_params).
  left. reflexivity.
Defined.

(** ** Spectrum and noise floor *)

Lemma opposite_sample (t l : nat) :
  (t < 2)%nat -> (l < 2)%nat ->
  sample opposite_trials (mklayout 1 0 1 2 2) 0 t l
  = if (l =? 0)%nat then (if (t =? 0)%nat then 1 else -1) else 0.
Proof.
  intros Ht Hl.
  destruct t as [|[|t]]; [| |lia]; destruct l as [|[|l]]; try lia;
    reflexivity.
Qed.

Lemma opposite_transform (t k : nat) :
  (t < 2)%nat ->
  at3 (rfft [1; 1] opposite_trials (mklayout 1 0 1 2 2) 2) 0 t k
  = ((if (t =? 0)%nat then 1 else -1), 0).
Proof.
  intros Ht. simpl at3.
  rewrite rfft_bin_impulse; simpl ntime; try (simpl; lia).
  - rewrite opposite_sample by lia. simpl. f_equal. ring.
  - intros l Hl. simpl in Hl. rewrite opposite_sample by lia.
    destruct l as [|l]; [lia|]. simpl. ring.
Qed.

Lemma opposite_trials_of (k : nat) :
  trials_of (rfft [1; 1] opposite_trials (mklayout 1 0 1 2 2) 2) 0 k
  = [(1, 0); (-1, 0)].
Proof.
  unfold trials_of.
  change (ntr (rfft [1; 1] opposite_trials (mklayout 1 0 1 2 2) 2))
    with 2%nat.
  change (seq 0 2) with [0; 1]%nat. cbn [map].
  rewrite !opposite_transform by lia. reflexivity.
Qed.

(** The magnitude of the trial mean of two opposite trials is zero. *)
Lemma opposite_S (k : nat) :
  at2 (mtspec_S (rfft [1; 1] opposite_trials (mklayout 1 0 1 2 2) 2)) 0 k
  = Some 0.
Proof.
  unfold mtspec_S. rewrite at2_t2map. cbn [mean_trials at2].
  rewrite opposite_trials_of. unfold Cmean.
  rewrite Cdiv_nan_nonzero by (simpl; lra). cbn [lift1]. f_equal.
  apply Cabs_0_iff. unfold Cscal, C0. simpl. f_equal; field.
Qed.

(** The mean of their magnitudes is one. *)
Lemma opposite_spec_S (k : nat) :
  at2 (spec_S (rfft [1; 1] opposite_trials (mklayout 1 0 1 2 2) 2)) 0 k
  = Some 1.
Proof.
  unfold spec_S. cbn [mean_trials_R at2]. rewrite trials_of_t3map.
  rewrite opposite_trials_of. unfold Rmean. cbn [map length].
  rewrite Rdiv_nan_nonzero by (simpl; lra). f_equal.
  rewrite !Cabs_real.
  replace (Rabs (-1)) with 1
    by (unfold Rabs; destruct (Rcase_abs (-1)); lra).
  rewrite Rabs_R1. simpl. field.
Qed.

Lemma Rmean_nan_single (v : R) : Rmean_nan [Some v] = Some v.
Proof.
  unfold Rmean_nan, Rmean. cbn [all_finite lift2 length].
  rewrite Rdiv_nan_nonzero by (simpl; lra). f_equal. simpl. field.
Qed.

Lemma masked_mean_cell nchans nbins (fInd : list bool)
  (acc : list (tensor2 nanR)) (c j : nat) :
  at2 (mask2 fInd (mean_tapers nchans nbins acc)) c j
  = Rmean_nan (map (fun s => at2 s c (nth j (kept fInd) O)) acc).
Proof. reflexivity. Qed.

(** C2, as stated, fails: for two trials of opposite polarity the spectrum
    [mtspec] returns is 0 at the first bin, where the mean over trials of
    the magnitudes is 1. *)
Lemma spectrum_is_not_mean_magnitude :
  exists S N f S' N' f',
    mtspec flat_windows no_samples opposite_trials unit_params
    = Ok (Tuple [Arr S; Arr N; Freq f]) /\
    mtspec_as_specified flat_windows no_samples opposite_trials unit_params
    = Ok (Tuple [Arr S'; Arr N'; Freq f']) /\
    nth 0 (data S) None = Some 0 /\
    nth 0 (data S') None = Some 1.
Proof.
  set (xw := rfft [1; 1] opposite_trials (mklayout 1 0 1 2 2) 2).
  exists (squeeze (to_ndarray (mask2 [true; true]
                                     (mean_tapers 1 2 [mtspec_S xw])))),
         (squeeze (to_ndarray (mask2 [true; true]
                                     (mean_tapers 1 2
                                        [mtspec_N (no_samples 0%nat) xw])))),
         (FrequencyGrid.full_axis 2 2),
         (squeeze (to_ndarray (mask2 [true; true]
                                     (mean_tapers 1 2 [spec_S xw])))),
         (squeeze (to_ndarray (mask2 [true; true]
                                     (mean_tapers 1 2
                                        [spec_N (no_samples 0%nat) xw])))),
         (FrequencyGrid.full_axis 2 2).
  split; [reflexivity|]. split; [reflexivity|].
  rewrite !data_squeeze.
  cbn [to_ndarray data mask2 rows cols mean_tapers].
  change (length (kept [true; true])) with 2%nat.
  change (seq 0 2) with [0; 1]%nat.
  change (seq 0 1) with [0%nat].
  cbn [flat_map map app nth at2].
  change (nth 0 (kept [true; true]) 0%nat) with 0%nat.
  unfold xw. rewrite !masked_mean_cell. cbn [map].
  change (nth 0 (kept [true; true]) 0%nat) with 0%nat.
  rewrite opposite_S, opposite_spec_S.
  split; apply Rmean_nan_single.
Qed.

Lemma Cabs_cis (z : complex) (t : R) : Cabs (Cmul z (cis t)) = Cabs z.
Proof.
  destruct z as [a b]. unfold Cabs, Cmul, cis. simpl. f_equal.
  pose proof (sin2_cos2 t) as H. unfold Rsqr in H.
  replace ((a * cos t - b * sin t) * (a * cos t - b * sin t) +
           (a * sin t + b * cos t) * (a * sin t + b * cos t))
    with ((a * a + b * b) * (sin t * sin t + cos t * cos t)) by ring.
  rewrite H. ring.
Qed.

(** Rotating every coefficient leaves the mean of the magnitudes where it
    was: read as the specification words it, the noise floor would be the
    spectrum. *)
Lemma spec_N_is_spec_S (u : nat -> nat -> nat -> R) (xw : tensor3 complex)
  (c k : nat) :
  at2 (spec_N u xw) c k = at2 (spec_S xw) c k.
Proof.
  unfold spec_N, spec_S. cbn [mean_trials_R at2]. f_equal.
  unfold trials_of. cbn [ntr at3 t3map]. apply map_ext.
  intros t. apply Cabs_cis.
Qed.

(** The magnitude of the mean is at most the mean of the magnitudes. *)
Lemma mtspec_S_le_spec_S (xw : tensor3 complex) (c k : nat) (s s' : R) :
  at2 (mtspec_S xw) c k = Some s -> at2 (spec_S xw) c k = Some s' ->
  s <= s'.
Proof.
  unfold mtspec_S, spec_S. rewrite at2_t2map.
  cbn [mean_trials mean_trials_R at2]. rewrite trials_of_t3map.
  set (xs := trials_of xw c k).
  destruct (Cmean xs) as [m|] eqn:Em; [|discriminate].
  cbn [lift1]. intros Hs Hs'. injection Hs as <-.
  apply Cdiv_nan_Some in Em. destruct Em as [Hn ->].
  apply Rdiv_nan_Some in Hs'. destruct Hs' as [_ ->].
  rewrite length_map. apply INR_length_pos in Hn.
  rewrite Cabs_scal by (left; apply Rinv_0_lt_compat; exact Hn).
  pose proof (Cabs_Csum xs) as Ht.
  unfold Rdiv. rewrite Rmult_comm.
  apply Rmult_le_compat_r; [|exact Ht].
  left. apply Rinv_0_lt_compat. exact Hn.
Qed.

(** C2 (as the code has it): per taper, S is the magnitude of the mean over
    trials of x, and N the magnitude of the mean over trials of
    x * exp(i theta), theta = 2 pi u for one draw u in [0, 1) per trial and
    bin; each is averaged over the tapers, masked to the passband and
    returned with the masked axis. *)
Theorem mtspec_statistics dpss (rs : sample_source) (x : ndarray R)
  (p : params) (r : pyval) :
  mtspec dpss rs x p = Ok r ->
  (exists lay n f fInd,
     dispatch (squeeze x) = Ok lay /\
     FrequencyGrid._get_freq_vector (squeeze x) p (timedim lay)
     = Ok (n, f, fInd) /\
     let w := windows dpss (squeeze x) lay p in
     let S := map (fun tap => mtspec_S (rfft tap (squeeze x) lay n)) w in
     let N := map (fun kt => mtspec_N (rs (fst kt))
                                      (rfft (snd kt) (squeeze x) lay n))
                  (enumerate w) in
     let S := squeeze (to_ndarray
                (mask2 fInd (mean_tapers (nchans lay) (length fInd) S))) in
     let N := squeeze (to_ndarray
                (mask2 fInd (mean_tapers (nchans lay) (length fInd) N))) in
     r = if bootstrap p
         then Dict [("mtspec"%string, Arr S);
                    ("mtspec_noise"%string, Arr N); ("f"%string, Freq f)]
         else Tuple [Arr S; Arr N; Freq f]) /\
  (forall (xw : tensor3 complex) (u : nat -> nat -> nat -> R) (c k : nat),
     at2 (mtspec_S xw) c k = lift1 Cabs (Cmean (trials_of xw c k)) /\
     at2 (mtspec_N u xw) c k
     = lift1 Cabs
         (Cmean (map (fun t => Cmul (at3 xw c t k)
                                    (cis (u c t k * 2 * PI)))
                     (seq 0 (ntr xw)))) /\
     (forall t, 0 <= u c t k < 1 -> 0 <= u c t k * 2 * PI < 2 * PI) /\
     at2 (spec_N u xw) c k = at2 (spec_S xw) c k /\
     (forall s s', at2 (mtspec_S xw) c k = Some s ->
                   at2 (spec_S xw) c k = Some s' -> s <= s')).
Proof.
  intros H. split.
  - unfold mtspec in H. cbv zeta in H.
    open_bind H. open_bind H. open_triple H.
    exists a, n, f, fInd.
    split; [first [assumption|reflexivity]|].
    split; [first [assumption|reflexivity]|].
    cbv zeta. destruct (bootstrap p); injection H as <-; reflexivity.
  - intros xw u c k. split; [reflexivity|]. split; [reflexivity|].
    split; [|split].
    + intros t [H0 H1]. pose proof PI_RGT_0. split; nra.
    + apply spec_N_is_spec_S.
    + intros s s'. apply mtspec_S_le_spec_S.
Qed.

Lemma mtspec_statistics_witness :
  exists r,
    mtspec flat_windows no_samples opposite_trials unit_params = Ok r /\
    (exists lay n f fInd,
       dispatch (squeeze opposite_trials) = Ok lay /\
       FrequencyGrid._get_freq_vector (squeeze opposite_trials) unit_params
                                      (timedim lay)
       = Ok (n, f, fInd) /\
       let w := windows flat_windows (squeeze opposite_trials) lay
                        unit_params in
       let S := map (fun tap => mtspec_S (rfft tap (squeeze opposite_trials)
                                               lay n)) w in
       let N := map (fun kt => mtspec_N (no_samples (fst kt))
                                        (rfft (snd kt)
                                              (squeeze opposite_trials)
                                              lay n))
                    (enumerate w) in
       let S := squeeze (to_ndarray
                  (mask2 fInd (mean_tapers (nchans lay) (length fInd) S))) in
       let N := squeeze (to_ndarray
                  (mask2 fInd (mean_tapers (nchans lay) (length fInd) N))) in
       r = if bootstrap unit_params
           then Dict [("mtspec"%string, Arr S);
                      ("mtspec_noise"%string, Arr N); ("f"%string, Freq f)]
           else Tuple [Arr S; Arr N; Freq f]) /\
    (forall (xw : tensor3 complex) (u : nat -> nat -> nat -> R) (c k : nat),
       at2 (mtspec_S xw) c k = lift1 Cabs (Cmean (trials_of xw c k)) /\
       at2 (mtspec_N u xw) c k
       = lift1 Cabs
           (Cmean (map (fun t => Cmul (at3 xw c t k)
                                      (cis (u c t k * 2 * PI)))
                       (seq 0 (ntr xw)))) /\
       (forall t, 0 <= u c t k < 1 -> 0 <= u c t k * 2 * PI < 2 * PI) /\
       at2 (spec_N u xw) c k = at2 (spec_S xw) c k /\
       (forall s s', at2 (mtspec_S xw) c k = Some s ->
                     at2 (spec_S xw) c k = Some s' -> s <= s')).
Proof.
  eexists. split; [reflexivity|].
  apply (@mtspec_statistics flat_windows no_samples opposite_trials
           unit_params).
  reflexivity.
Defined.

(** ** Eigenvectors as they are returned *)

(** For two equal channel statistics the dominant unit eigenvector has equal
    entries, and they do not sum to one. *)
Lemma equal_channels_eigenvector (a u0 u1 : complex) :
  a <> C0 ->
  is_eigenpair (outer [a; a] (map Cconj [a; a])) (RtoC (norm2 [a; a]))
               [u0; u1] ->
  inner [u0; u1] [u0; u1] = C1 ->
  Cadd u0 u1 <> C1.
Proof.
  intros Ha (_ & _ & Heq) Hunit Hsum.
  rewrite mat_vec_outer in Heq. cbn [map] in Heq.
  pose proof (f_equal (fun l => nth 0 l C0) Heq) as E0.
  pose proof (f_equal (fun l => nth 1 l C0) Heq) as E1.
  cbn [nth] in E0, E1.
  assert (HN : 0 < norm2 [a; a]).
  { rewrite norm2_pair. destruct a as [a1 a2].
    assert (a1 <> 0 \/ a2 <> 0).
    { destruct (Req_dec a1 0) as [Z1|Z1]; [|left; exact Z1].
      destruct (Req_dec a2 0) as [Z2|Z2]; [|right; exact Z2].
      subst. exfalso. apply Ha. reflexivity. }
    simpl. nra. }
  assert (Eu : u0 = u1).
  { apply Cmul_cancel_r with (RtoC (norm2 [a; a])).
    - rewrite !(Cmul_comm _ (RtoC (norm2 [a; a]))).
      rewrite <- E0, <- E1. reflexivity.
    - unfold RtoC, C0. intros E. injection E as E. lra. }
  subst u1. destruct u0 as [p q].
  unfold inner, cdot, Cadd, Cmul, Cconj, C1, C0 in *. simpl in *.
  injection Hunit as Hre _. injection Hsum as Hp Hq.
  nra.
Qed.

(** [eig_select] on two finite channel statistics, for the dominant
    component. *)
Lemma eig_select_pair (nchans : nat) (a b : complex) :
  exists u00 u01 u10 u11,
    eig_select nchans [(-1)%Z] [Some a; Some b]
    = Ok ([norm2 [a; b] / INR nchans], [[u00; u01]; [u10; u11]]) /\
    is_eigenpair (outer [a; b] (map Cconj [a; b])) (RtoC (norm2 [a; b]))
                 [u01; u11] /\
    inner [u01; u11] [u01; u11] = C1.
Proof.
  destruct (linalg_eigh_pair a b)
    as (lo & u00 & u01 & u10 & u11 & E & Hp & Hu).
  exists u00, u01, u10, u11. unfold eig_select. rewrite E.
  split; [reflexivity|]. split; [exact Hp|exact Hu].
Qed.

Lemma eigenvector_rows_last (u00 u01 u10 u11 : complex) :
  eigenvector_rows [[u00; u01]; [u10; u11]] [(-1)%Z] = Ok [[u01; u11]].
Proof. reflexivity. Qed.

Lemma Csum_scaled (r : R) (c : complex) (v : list complex) :
  Csum (map (fun z => Cscal r (Cmul z c)) v) = Cscal r (Cmul (Csum v) c).
Proof.
  induction v as [|z v IH]; simpl.
  - cring.
  - rewrite IH. cring.
Qed.

(** Dividing a vector by the sum of its entries leaves entries that sum to
    one. *)
Lemma normalized_by_sum_sums_to_one (v w : list complex) :
  all_finite (normalized_by_sum v) = Some w -> v <> [] -> sums_to_one w.
Proof.
  intros Hw Hne. unfold normalized_by_sum in Hw.
  destruct (Req_EM_T (Cabs2 (Csum v)) 0) as [E|E].
  - exfalso. destruct v as [|z v]; [contradiction|].
    simpl in Hw. unfold Cdiv_c in Hw at 1.
    destruct (Req_EM_T (Cabs2 (Cadd z (Csum v))) 0); [discriminate|].
    contradiction.
  - assert (Ew : w = map (fun z => Cscal (/ Cabs2 (Csum v))
                                         (Cmul z (Cconj (Csum v)))) v).
    { apply all_finite_map_Some in Hw.
      rewrite (map_ext _ (fun z => Some (Cscal (/ Cabs2 (Csum v))
                                               (Cmul z (Cconj (Csum v))))))
        in Hw.
      - rewrite <- (map_map _ Some) in Hw.
        clear - Hw. revert w Hw.
        generalize (map (fun z => Cscal (/ Cabs2 (Csum v))
                                        (Cmul z (Cconj (Csum v)))) v).
        induction l as [|a l IH]; intros [|b w] H; simpl in H;
          try discriminate; [reflexivity|].
        injection H as -> H. f_equal. apply IH. exact H.
      - intros z. unfold Cdiv_c.
        destruct (Req_EM_T (Cabs2 (Csum v)) 0); [contradiction|reflexivity]. }
    unfold sums_to_one. rewrite Ew, Csum_scaled.
    rewrite (Cmul_comm (Csum v)), Cmul_conj.
    unfold Cscal, RtoC, C1. simpl. f_equal; field; exact E.
Qed.

(** ** [mtcpca_all] on the recording [impulses] *)

Lemma masked_impulses_trials (c fi : nat) :
  (c < 2)%nat ->
  trials_of (mtcpca_all_xw [true; true] [1; 1] impulses
                           (mklayout 2 1 2 2 2) 2) c fi
  = [(1, 0); (1, 0)].
Proof.
  intros Hc. unfold trials_of, mtcpca_all_xw, mask3. cbn [ntr at3].
  change (ntr (rfft [1; 1] impulses (mklayout 2 1 2 2 2) 2)) with 2%nat.
  change (seq 0 2) with [0; 1]%nat. cbn [map].
  rewrite !impulses_transform by lia. reflexivity.
Qed.

Lemma Cunit_one : Cunit (1, 0) = Some (Cscal (/ 1) (1, 0)).
Proof.
  unfold Cunit. rewrite Cabs_real, Rabs_R1.
  apply Cdiv_nan_nonzero. lra.
Qed.

Lemma impulses_columns (fi : nat) :
  let xw := mtcpca_all_xw [true; true] [1; 1] impulses
                          (mklayout 2 1 2 2 2) 2 in
  exists m v w,
    v <> C0 /\
    col_of (mean_trials xw) fi = [Some m; Some m] /\
    col_of (mean_trials_nan (t3map Cunit xw)) fi = [Some v; Some v] /\
    col_of (t2zip ocdiv (mean_trials xw) (mean_trials_R (t3map Cabs xw))) fi
    = [Some w; Some w].
Proof.
  intros xw.
  assert (Hz : ((1, 0) : complex) <> C0).
  { unfold C0. intros E. injection E as E. lra. }
  destruct (@itc_norm_finite [(1, 0); (1, 0)] _ (or_introl eq_refl) Hz)
    as [w Hw].
  exists (Cscal (/ INR 2) (Csum [(1, 0); (1, 0)])),
         (Cscal (/ INR 2)
                (Csum [Cscal (/ 1) (1, 0); Cscal (/ 1) (1, 0)])),
         w.
  split; [|split; [|split]].
  - unfold C0, Cscal, Csum, Cadd. simpl. intros E. injection E as E _.
    assert (H : / (1 + 1) * (/ 1 * 1 + (/ 1 * 1 + 0)) = 1) by field.
    lra.
  - unfold col_of. change (rows (mean_trials xw)) with 2%nat.
    change (seq 0 2) with [0; 1]%nat. cbn [map mean_trials at2].
    unfold xw. rewrite !masked_impulses_trials by lia.
    unfold Cmean. rewrite Cdiv_nan_nonzero by (simpl; lra). reflexivity.
  - unfold col_of.
    change (rows (mean_trials_nan (t3map Cunit xw))) with 2%nat.
    change (seq 0 2) with [0; 1]%nat. cbn [map mean_trials_nan at2].
    rewrite !trials_of_t3map. unfold xw.
    rewrite !masked_impulses_trials by lia.
    cbn [map]. rewrite Cunit_one. unfold Cmean_nan.
    cbn [all_finite lift2]. unfold Cmean.
    rewrite Cdiv_nan_nonzero by (simpl; lra). reflexivity.
  - unfold col_of.
    change (rows (t2zip ocdiv (mean_trials xw)
                        (mean_trials_R (t3map Cabs xw)))) with 2%nat.
    change (seq 0 2) with [0; 1]%nat.
    cbn [map t2zip mean_trials mean_trials_R at2].
    rewrite !trials_of_t3map. unfold xw.
    rewrite !masked_impulses_trials by lia.
    rewrite Hw. reflexivity.
Qed.

Lemma impulses_bin (fi : nat) :
  let xw := mtcpca_all_xw [true; true] [1; 1] impulses
                          (mklayout 2 1 2 2 2) 2 in
  exists b u0 u1,
    mtcpca_all_bin unit_params 2 [(-1)%Z] (mean_trials xw)
                   (mean_trials_nan (t3map Cunit xw))
                   (t2zip ocdiv (mean_trials xw)
                          (mean_trials_R (t3map Cabs xw))) fi
    = Ok b /\
    bin_plvV b = [[u0; u1]] /\
    inner [u0; u1] [u0; u1] = C1 /\
    ~ sums_to_one [u0; u1].
Proof.
  intros xw.
  destruct (impulses_columns fi) as (m & v & w & Hv & Em & Ev & Ew).
  fold xw in Em, Ev, Ew.
  destruct (eig_select_pair 2 m m) as (s00 & s01 & s10 & s11 & Es & _ & _).
  destruct (eig_select_pair 2 v v) as (p00 & p01 & p10 & p11 & Ep & Hp & Hu).
  destruct (eig_select_pair 2 w w) as (i00 & i01 & i10 & i11 & Ei & _ & _).
  unfold mtcpca_all_bin. rewrite Em, Ev, Ew, Es, Ep, Ei.
  cbn [bind]. change (returnEigenvectors unit_params) with (Some true).
  cbv iota. rewrite !eigenvector_rows_last. cbn [bind].
  do 3 eexists. split; [reflexivity|]. cbn [bin_plvV].
  split; [reflexivity|]. split; [exact Hu|].
  unfold sums_to_one. simpl Csum. rewrite Cadd_0_r.
  apply equal_channels_eigenvector with v; assumption.
Qed.

(** C3, as stated, fails for [mtcpca_all]: the PLV eigenvector it returns
    for the first bin of [impulses] has unit Euclidean norm, and its entries
    do not sum to one. *)
Lemma returned_eigenvectors_are_not_sum_normalized :
  exists out f V u0 u1,
    mtcpca_all flat_windows impulses unit_params
    = Ok (Tuple [Dict out; Freq f]) /\
    lookup "plvV" out = Some (CArr V) /\
    nth 0 (data V) None = Some u0 /\
    nth 2 (data V) None = Some u1 /\
    inner [u0; u1] [u0; u1] = C1 /\
    ~ sums_to_one [u0; u1].
Proof.
  destruct (impulses_bin 0) as (b0 & u0 & u1 & E0 & V0 & Hunit & Hsum).
  destruct (impulses_bin 1) as (b1 & _ & _ & E1 & _ & _ & _).
  cbv zeta in E0, E1.
  assert (Etap : mtcpca_all_taper unit_params 2 [(-1)%Z]
                   (mtcpca_all_xw [true; true] [1; 1] impulses
                                  (mklayout 2 1 2 2 2) 2)
                 = Ok [b0; b1]).
  { unfold mtcpca_all_taper. cbv zeta.
    change (nbin (mtcpca_all_xw [true; true] [1; 1] impulses
                                (mklayout 2 1 2 2 2) 2)) with 2%nat.
    cbn [Nat.eqb]. change (seq 0 2) with [0; 1]%nat.
    apply mapM_two; assumption. }
  assert (Erun : mtcpca_all flat_windows impulses unit_params
                 = Ok (Tuple
                         [Dict
                            [("spectrum"%string,
                              Arr (mean_components 1 2 bin_cspec [[b0; b1]]));
                             ("plv"%string,
                              Arr (mean_components 1 2 bin_plv [[b0; b1]]));
                             ("itc"%string,
                              Arr (mean_components 1 2 bin_itc [[b0; b1]]));
                             ("spectrumV"%string,
                              CArr (stack_vectors 1 2 2 bin_cspecV
                                                  [[b0; b1]]));
                             ("plvV"%string,
                              CArr (stack_vectors 1 2 2 bin_plvV [[b0; b1]]));
                             ("itcV"%string,
                              CArr (stack_vectors 1 2 2 bin_itcV
                                                  [[b0; b1]]))];
                          Freq (FrequencyGrid.full_axis 2 2)])).
  { unfold mtcpca_all. cbv zeta.
    change (squeeze impulses) with impulses.
    change (dispatch3 impulses) with (Ok (mklayout 2 1 2 2 2)).
    cbn [bind timedim].
    change (FrequencyGrid._get_freq_vector impulses unit_params 2)
      with (Ok (2%nat, FrequencyGrid.full_axis 2 2, [true; true])).
    cbn [bind nchans].
    change (windows flat_windows impulses (mklayout 2 1 2 2 2) unit_params)
      with [[1; 1]].
    change (component_index unit_params) with [(-1)%Z].
    cbn [mapM]. rewrite Etap. cbn [bind]. reflexivity. }
  do 5 eexists. split; [exact Erun|]. split; [reflexivity|].
  split; [|split; [|split]].
  - unfold stack_vectors. rewrite data_squeeze. simpl. rewrite V0.
    reflexivity.
  - unfold stack_vectors. rewrite data_squeeze. simpl. rewrite V0.
    reflexivity.
  - exact Hunit.
  - exact Hsum.
Qed.

Lemma eig_select_inv nchans pc (v : list nanC) sel vecs :
  eig_select nchans pc v = Ok (sel, vecs) ->
  exists vals,
    linalg_eigh (outer_nan v (map (lift1 Cconj) v)) = Ok (vals, vecs).
Proof.
  unfold eig_select. cbv zeta. intros H.
  open_bind H. open_pair H. open_bind H. injection H as _ <-.
  eexists. reflexivity.
Qed.

Lemma Rsum_Cabs_scaled (r : R) (v : list complex) :
  0 <= r -> Rsum (map Cabs (map (Cscal r) v)) = r * Rsum (map Cabs v).
Proof.
  intros Hr. induction v as [|z v IH]; simpl; [ring|].
  rewrite IH, Cabs_scal by exact Hr. ring.
Qed.

(** The weights of the reconstruction path have magnitudes that sum to
    one. *)
Lemma timeDomain_cwts_normalized (v : list complex) :
  Rsum (map Cabs v) <> 0 ->
  timeDomain_cwts v
  = map (fun z => Some (Cscal (/ Rsum (map Cabs v)) z)) v /\
  Rsum (map Cabs (map (Cscal (/ Rsum (map Cabs v))) v)) = 1.
Proof.
  intros Hs. split.
  - unfold timeDomain_cwts. apply map_ext. intros z.
    apply Cdiv_nan_nonzero. exact Hs.
  - assert (H0 : 0 <= Rsum (map Cabs v)).
    { apply Rsum_nonneg, Forall_forall. intros r Hr.
      apply in_map_iff in Hr. destruct Hr as [z [<- _]]. apply Cabs_nonneg. }
    rewrite Rsum_Cabs_scaled.
    + field. exact Hs.
    + left. apply Rinv_0_lt_compat. lra.
Qed.

(** C3 (as the code has it): with eigenvector retention requested,
    [mtcpca_all] stores for each of power, PLV and ITC the columns
    [vecs[:, pc]] of the solver's result as they are, with no division by
    the sum of the entries; the reconstruction path of [mtcpca_timeDomain]
    divides the dominant eigenvector by the sum of the magnitudes of its
    entries. *)
Theorem eigenvector_conventions (p : params) (nchans : nat) (pc : list Z)
  (Cm plvC itcC : tensor2 nanC) (fi : nat) (b : bin_out) :
  returnEigenvectors p = Some true ->
  mtcpca_all_bin p nchans pc Cm plvC itcC fi = Ok b ->
  (exists es vs ep vp ei vi,
     linalg_eigh (outer_nan (col_of Cm fi)
                            (map (lift1 Cconj) (col_of Cm fi)))
     = Ok (es, vs) /\
     linalg_eigh (outer_nan (col_of plvC fi)
                            (map (lift1 Cconj) (col_of plvC fi)))
     = Ok (ep, vp) /\
     linalg_eigh (outer_nan (col_of itcC fi)
                            (map (lift1 Cconj) (col_of itcC fi)))
     = Ok (ei, vi) /\
     mapM (column_at vs) pc = Ok (bin_cspecV b) /\
     mapM (column_at vp) pc = Ok (bin_plvV b) /\
     mapM (column_at vi) pc = Ok (bin_itcV b)) /\
  (forall v : list complex,
     Rsum (map Cabs v) <> 0 ->
     timeDomain_cwts v
     = map (fun z => Some (Cscal (/ Rsum (map Cabs v)) z)) v /\
     Rsum (map Cabs (map (Cscal (/ Rsum (map Cabs v))) v)) = 1) /\
  (forall Cnorm_fi C_fi top coeff,
     timeDomain_bin Cnorm_fi C_fi = Ok (top, coeff) ->
     exists vals vecs v,
       linalg_eigh (outer_nan Cnorm_fi (map (lift1 Cconj) Cnorm_fi))
       = Ok (vals, vecs) /\
       column_at vecs (-1) = Ok v /\
       coeff = lift1 Csum
                 (all_finite
                    (map (fun ab => lift2 Cmul (lift1 Cconj (fst ab))
                                          (snd ab))
                         (combine (timeDomain_cwts v) C_fi)))).
Proof.
  intros Hret H. split; [|split].
  - unfold mtcpca_all_bin in H. rewrite Hret in H.
    destruct (eig_select nchans pc (col_of Cm fi)) as [[s1 vs]|] eqn:E1;
      cbn [bind] in H; [|discriminate].
    destruct (eig_select nchans pc (col_of plvC fi)) as [[s2 vp]|] eqn:E2;
      cbn [bind] in H; [|discriminate].
    destruct (eig_select nchans pc (col_of itcC fi)) as [[s3 vi]|] eqn:E3;
      cbn [bind] in H; [|discriminate].
    unfold eigenvector_rows in H.
    destruct (mapM (column_at vs) pc) as [r1|] eqn:R1;
      cbn [bind] in H; [|discriminate].
    destruct (mapM (column_at vp) pc) as [r2|] eqn:R2;
      cbn [bind] in H; [|discriminate].
    destruct (mapM (column_at vi) pc) as [r3|] eqn:R3;
      cbn [bind] in H; [|discriminate].
    injection H as <-.
    apply eig_select_inv in E1. destruct E1 as [es E1].
    apply eig_select_inv in E2. destruct E2 as [ep E2].
    apply eig_select_inv in E3. destruct E3 as [ei E3].
    exists es, vs, ep, vp, ei, vi. cbn [bin_cspecV bin_plvV bin_itcV].
    repeat split; assumption.
  - intros v. apply timeDomain_cwts_normalized.
  - intros Cnorm_fi C_fi top coeff Hb.
    unfold timeDomain_bin in Hb. cbv zeta in Hb.
    destruct (linalg_eigh (outer_nan Cnorm_fi (map (lift1 Cconj) Cnorm_fi)))
      as [[vals vecs]|] eqn:E; cbn [bind] in Hb; [|discriminate].
    destruct (py_index vals (-1)) as [t|]; cbn [bind] in Hb; [|discriminate].
    destruct (column_at vecs (-1)) as [v|] eqn:Ev; cbn [bind] in Hb;
      [|discriminate].
    injection Hb as _ <-. exists vals, vecs, v.
    split; [reflexivity|]. split; [exact Ev|reflexivity].
Qed.

Lemma eigenvector_conventions_witness :
  let xw := mtcpca_all_xw [true; true] [1; 1] impulses
                          (mklayout 2 1 2 2 2) 2 in
  let Cm := mean_trials xw in
  let plvC := mean_trials_nan (t3map Cunit xw) in
  let itcC := t2zip ocdiv (mean_trials xw) (mean_trials_R (t3map Cabs xw)) in
  exists b,
    returnEigenvectors unit_params = Some true /\
    mtcpca_all_bin unit_params 2 [(-1)%Z] Cm plvC itcC 0 = Ok b /\
    (exists es vs ep vp ei vi,
       linalg_eigh (outer_nan (col_of Cm 0)
                              (map (lift1 Cconj) (col_of Cm 0)))
       = Ok (es, vs) /\
       linalg_eigh (outer_nan (col_of plvC 0)
                              (map (lift1 Cconj) (col_of plvC 0)))
       = Ok (ep, vp) /\
       linalg_eigh (outer_nan (col_of itcC 0)
                              (map (lift1 Cconj) (col_of itcC 0)))
       = Ok (ei, vi) /\
       mapM (column_at vs) [(-1)%Z] = Ok (bin_cspecV b) /\
       mapM (column_at vp) [(-1)%Z] = Ok (bin_plvV b) /\
       mapM (column_at vi) [(-1)%Z] = Ok (bin_itcV b)) /\
    (forall v : list complex,
       Rsum (map Cabs v) <> 0 ->
       timeDomain_cwts v
       = map (fun z => Some (Cscal (/ Rsum (map Cabs v)) z)) v /\
       Rsum (map Cabs (map (Cscal (/ Rsum (map Cabs v))) v)) = 1) /\
    (forall Cnorm_fi C_fi top coeff,
       timeDomain_bin Cnorm_fi C_fi = Ok (top, coeff) ->
       exists vals vecs v,
         linalg_eigh (outer_nan Cnorm_fi (map (lift1 Cconj) Cnorm_fi))
         = Ok (vals, vecs) /\
         column_at vecs (-1) = Ok v /\
         coeff = lift1 Csum
                   (all_finite
                      (map (fun ab => lift2 Cmul (lift1 Cconj (fst ab))
                                            (snd ab))
                           (combine (timeDomain_cwts v) C_fi)))).
Proof.
  intros xw Cm plvC itcC.
  destruct (impulses_bin 0) as (b & _ & _ & E & _).
  exists b. split; [reflexivity|]. split; [exact E|].
  apply (@eigenvector_conventions unit_params 2 [(-1)%Z] Cm plvC itcC 0 b);
    [reflexivity|exact E].
Defined.

(** ** Parameter dictionaries *)

Module ParameterFacts.

Import Parameters.

Lemma getitem_setitem_same k v d : getitem k (setitem k v d) = Return v.
Proof.
  induction d as [|[k' v'] d IH]; simpl.
  - now rewrite String.eqb_refl.
  - destruct (String.eqb k k') eqn:E; simpl.
    + now rewrite String.eqb_refl.
    + now rewrite E.
Qed.

Lemma getitem_setitem_other k k' v d :
  String.eqb k k' = false -> getitem k (setitem k' v d) = getitem k d.
Proof.
  intros Hk. induction d as [|[k0 v0] d IH]; simpl.
  - now rewrite Hk.
  - destruct (String.eqb k' k0) eqn:E; simpl.
    + apply String.eqb_eq in E. subst k0. now rewrite Hk.
    + now rewrite IH.
Qed.

Lemma contains_getitem k d :
  contains k d = true <-> exists v, getitem k d = Return v.
Proof.
  unfold contains. induction d as [|[k' v'] d IH]; simpl.
  - split; [discriminate | intros [v H]; discriminate].
  - destruct (String.eqb k k'); simpl.
    + split; [eauto | reflexivity].
    + exact IH.
Qed.

Lemma contains_false k d :
  contains k d = false <-> getitem k d = Throw (Std KeyError).
Proof.
  unfold contains. induction d as [|[k' v'] d IH]; simpl.
  - split; reflexivity.
  - destruct (String.eqb k k'); simpl.
    + split; discriminate.
    + exact IH.
Qed.


Lemma snd_lbind {A B} (m : logged A) (k : A -> logged B) :
  snd (lbind m k) =
  match snd m with
  | Return a => snd (k a)
  | Throw e => Throw e
  end.
Proof.
  destruct m as [l [a|e]]; simpl; [destruct (k a)|]; reflexivity.
Qed.

Lemma fst_lbind {A B} (m : logged A) (k : A -> logged B) :
  fst (lbind m k) =
  match snd m with
  | Return a => fst m ++ fst (k a)
  | Throw e => fst m
  end.
Proof.
  destruct m as [l [a|e]]; simpl; [destruct (k a)|]; reflexivity.
Qed.

Lemma error_if_nil b c : fst (error_if b c) = [] <-> b = false.
Proof. destruct b; simpl; split; congruence. Qed.

Lemma snd_error_if b c : snd (error_if b c) = Return tt.
Proof. reflexivity. Qed.

(** Unfolds one step of a logged computation, on the result side. *)
Ltac step_result :=
  rewrite snd_lbind; cbn [snd quiet error_if].

(** The result of validation when every lookup it makes succeeds. *)
Lemma validate_result d tw nt rest fs :
  getitem "tapers" d = Return (Seq (tw :: nt :: rest)) ->
  getitem "Fs" d = Return (Num fs) ->
  (forall v, getitem "fpass" d = Return v ->
             exists lo hi more, v = Seq (lo :: hi :: more)) ->
  snd (_validate_parameters d)
  = if fits_float fs
    then Return (if contains "fpass" d then d
                 else setitem "fpass" (Seq [SFloat 0; SFloat (to_Q fs / 2)])
                              d)
    else Throw (Std OverflowError).
Proof.
  intros Ht Hf Hp. unfold _validate_parameters.
  destruct (contains "fpass" d) eqn:Hc.
  - apply contains_getitem in Hc. destruct Hc as [v Hv].
    destruct (Hp v Hv) as (lo & hi & more & ->).
    destruct (fits_float fs) eqn:Hfit;
      repeat first [ rewrite snd_lbind | rewrite Ht | rewrite Hf | rewrite Hv
                   | rewrite Hfit
                   | progress cbn [snd quiet error_if py_len py_item
                                   nth_error halve] ];
      reflexivity.
  - destruct (fits_float fs) eqn:Hfit;
      repeat first [ rewrite snd_lbind | rewrite Ht | rewrite Hf
                   | rewrite Hfit
                   | progress cbn [snd quiet error_if py_len py_item
                                   nth_error halve] ];
      reflexivity.
Qed.

(** X1: validation reports and does not reject.  A dictionary that has a
    numeric sample rate, at least two taper entries and, if it has a
    passband at all, at least two passband entries is returned as it is,
    with [0, Fs/2] filled in for an absent passband, whatever the values
    are: not even a rate of zero, a negative taper count or a reversed
    passband raises.  The one exception is not a check: a rate that is an
    integer too large for a float makes [Fs/2.0] raise OverflowError. *)
Theorem validate_reports_only (d : pdict) (tw nt : scalar)
  (rest : list scalar) (fs : scalar) :
  getitem "tapers" d = Return (Seq (tw :: nt :: rest)) ->
  getitem "Fs" d = Return (Num fs) ->
  (forall v, getitem "fpass" d = Return v ->
             exists lo hi more, v = Seq (lo :: hi :: more)) ->
  snd (_validate_parameters d)
  = if fits_float fs
    then Return (if contains "fpass" d then d
                 else setitem "fpass" (Seq [SFloat 0; SFloat (to_Q fs / 2)])
                              d)
    else Throw (Std OverflowError).
Proof. apply validate_result. Qed.

Lemma validate_reports_only_witness :
  snd (_validate_parameters
         [("tapers"%string, Seq [SInt (-2); SInt (-3)]);
          ("Fs"%string, Num (SInt 0));
          ("fpass"%string, Seq [SFloat 9; SFloat 4])])
  = Return [("tapers"%string, Seq [SInt (-2); SInt (-3)]);
            ("Fs"%string, Num (SInt 0));
            ("fpass"%string, Seq [SFloat 9; SFloat 4])].
Proof.
  refine (@validate_reports_only
            [("tapers"%string, Seq [SInt (-2); SInt (-3)]);
             ("Fs"%string, Num (SInt 0));
             ("fpass"%string, Seq [SFloat 9; SFloat 4])]
            (SInt (-2)) (SInt (-3)) [] (SInt 0) eq_refl eq_refl _).
  intros v H. injection H as <-. now exists (SFloat 9), (SFloat 4), [].
Defined.





(** *** The keyword loop *)

Lemma holds_set_same d k v (P : value -> Prop) :
  P v -> holds (setitem k v d) k P.
Proof. intros H. exists v. now rewrite getitem_setitem_same. Qed.

Lemma holds_set_other d k k' v (P : value -> Prop) :
  String.eqb k k' = false -> holds d k P -> holds (setitem k' v d) k P.
Proof.
  intros Hk (w & Hw & HP). exists w. now rewrite getitem_setitem_other.
Qed.

Lemma may_hold_set_same d k v (P : value -> Prop) :
  P v -> may_hold (setitem k v d) k P.
Proof.
  intros H w Hw. rewrite getitem_setitem_same in Hw. now injection Hw as <-.
Qed.

Lemma may_hold_set_other d k k' v (P : value -> Prop) :
  String.eqb k k' = false -> may_hold d k P -> may_hold (setitem k' v d) k P.
Proof.
  intros Hk H w Hw. rewrite getitem_setitem_other in Hw by exact Hk. auto.
Qed.

(** Splits [set_keyword] into its thirteen branches, the tests kept. *)
Ltac keyword_branches H :=
  unfold set_keyword in H; cbn zeta in H; rewrite ?orb_false_r in H;
  repeat match type of H with
         | (if ?b then _ else _) = _ => destruct b eqn:?
         end;
  repeat match type of H with
         | rbind ?m _ = _ => destruct m eqn:?; cbn [rbind] in H
         end;
  try discriminate H;
  injection H as <-.

(** A key other than the one an unrecognised keyword is stored under. *)
Ltac other_key :=
  match goal with
  | |- String.eqb ?K ?kw = false =>
      first [ reflexivity
            | destruct (String.eqb_spec K kw) as [<-|];
              [ cbn in *; discriminate | reflexivity ] ]
  end.

Lemma set_keyword_stores d kw v d' :
  set_keyword d kw v = Return d' ->
  exists v', d' = setitem (stored_key kw) v' d.
Proof.
  intros H. unfold stored_key. keyword_branches H; eauto.
Qed.

Lemma list_set_tapers l s z :
  py_item (Seq l) 1 = Return s -> is_tapers (Seq (list_set 1 (SInt z) l)).
Proof.
  destruct l as [|a [|b l]]; cbn; try discriminate.
  intros _. now exists a, z, l.
Qed.

Lemma int_array_seq v l : int_array v = Return l -> is_int_seq (Seq l).
Proof.
  unfold int_array. destruct (_ && _)%bool; [discriminate|].
  intros H. injection H as <-.
  eexists (map int_of _). now rewrite map_map.
Qed.



Lemma set_keyword_well_formed d kw v d' :
  well_formed d -> set_keyword d kw v = Return d' -> well_formed d'.
Proof.
  intros (T1 & T2 & T3 & T4 & T5 & T6 & T7 & T8 & T9 & T10 & T11 & T12 & T13) H.
  keyword_branches H; unfold well_formed; repeat split;
    first [ apply holds_set_other; [other_key | assumption]
          | apply may_hold_set_other; [other_key | assumption]
          | apply holds_set_same
          | apply may_hold_set_same
          | idtac ];
    first [ now eexists
          | eapply list_set_tapers; eassumption
          | eapply int_array_seq; eassumption
          | idtac ].
  destruct (String.eqb_spec "returnEigenvectors" kw) as [<-|Hne].
  - now apply holds_set_same.
  - apply holds_set_other; [|assumption].
    now apply String.eqb_neq.
Qed.

Lemma set_keywords_well_formed kw : forall d d',
  well_formed d -> set_keywords d kw = Return d' -> well_formed d'.
Proof.
  induction kw as [|[k v] kw IH]; intros d d' W H; cbn in H.
  - now injection H as <-.
  - destruct (set_keyword d k v) as [d1|e] eqn:E; cbn in H; [|discriminate].
    eapply IH; [|exact H]. eapply set_keyword_well_formed; eassumption.
Qed.

Lemma defaults_well_formed cpu : well_formed (defaults cpu).
Proof.
  unfold well_formed, holds, may_hold, defaults; cbn.
  repeat split; try discriminate;
    try (eexists; split; [reflexivity|]).
  - now exists (SInt 2), 3%Z, [].
  - now exists 0%Z.
  - now exists false.
  - now exists cpu.
  - now exists 1000%Z.
  - now exists false.
  - now exists false.
  - now exists false.
  - now exists [1%Z].
  - exact I.
Qed.

(** Keys the loop leaves alone. *)
Lemma set_keywords_untouched key kw : forall d d',
  set_keywords d kw = Return d' ->
  (forall k v, In (k, v) kw -> String.eqb key (stored_key k) = false) ->
  getitem key d' = getitem key d.
Proof.
  induction kw as [|[k v] kw IH]; intros d d' H Hk; cbn in H.
  - now injection H as <-.
  - destruct (set_keyword d k v) as [d1|e] eqn:E; cbn in H; [|discriminate].
    rewrite (IH _ _ H) by (intros; eapply Hk; right; eassumption).
    destruct (set_keyword_stores _ _ _ E) as [v' ->].
    apply getitem_setitem_other. eapply Hk. left. reflexivity.
Qed.

Lemma stored_key_rate k :
  is_rate_keyword k = false -> String.eqb "Fs" (stored_key k) = false.
Proof.
  unfold is_rate_keyword, stored_key. intros H. rewrite H.
  repeat match goal with
         | |- context [if ?b then _ else _] => destruct b eqn:?
         end; try reflexivity.
  destruct (String.eqb_spec "Fs" k) as [<-|]; [cbn in H; discriminate|].
  reflexivity.
Qed.

Lemma stored_key_fpass k :
  String.eqb (lower k) "fpass" = false ->
  String.eqb "fpass" (stored_key k) = false.
Proof.
  unfold stored_key. intros H. rewrite H.
  repeat match goal with
         | |- context [if ?b then _ else _] => destruct b eqn:?
         end; try reflexivity.
  destruct (String.eqb_spec "fpass" k) as [<-|]; [cbn in H; discriminate|].
  reflexivity.
Qed.

Lemma stored_key_unrecognised k k' :
  is_recognised k = false -> k' <> k ->
  String.eqb k (stored_key k') = false.
Proof.
  intros Hk Hne. unfold stored_key.
  repeat match goal with
         | |- context [if ?b then _ else _] => destruct b eqn:?
         end;
    try (destruct (String.eqb_spec k k') as [->|]; [congruence|reflexivity]);
    match goal with
    | |- String.eqb k ?K = false =>
        destruct (String.eqb_spec k K) as [->|]; [|reflexivity];
        cbn in Hk; discriminate
    end.
Qed.

Lemma halve_Return (v : value) (q : Q) :
  halve v = Return q ->
  exists fs, v = Num fs /\ fits_float fs = true /\ q = (to_Q fs / 2)%Q.
Proof.
  destruct v as [fs|l]; cbn [halve]; [|discriminate].
  destruct (fits_float fs) eqn:E; [|discriminate].
  intros H. injection H as <-. exists fs. repeat split. exact E.
Qed.

(** What a successful validation has found and done. *)
Lemma validate_inv d d' :
  snd (_validate_parameters d) = Return d' ->
  exists fs,
    getitem "Fs" d = Return (Num fs) /\ fits_float fs = true /\
    ((contains "fpass" d = true /\ d' = d /\
      exists v lo hi, getitem "fpass" d = Return v /\
                      py_item v 0 = Return lo /\ py_item v 1 = Return hi) \/
     (contains "fpass" d = false /\
      d' = setitem "fpass" (Seq [SFloat 0; SFloat (to_Q fs / 2)]) d)).
Proof.
  unfold _validate_parameters. intros H.
  repeat (rewrite snd_lbind in H; cbn [snd quiet error_if] in H;
          match type of H with
          | match ?r with Return _ => _ | Throw _ => _ end = _ =>
              destruct r eqn:?; [|discriminate H]
          | _ => idtac
          end).
  destruct (contains "fpass" d) eqn:Hc.
  - repeat (rewrite snd_lbind in H; cbn [snd quiet error_if] in H;
            match type of H with
            | match ?r with Return _ => _ | Throw _ => _ end = _ =>
                destruct r eqn:?; [|discriminate H]
            | _ => idtac
            end).
    injection H as <-.
    match goal with
    | Hh : halve ?v = Return _, Hg : getitem "Fs" d = Return ?v |- _ =>
        destruct (halve_Return _ Hh) as (fs & -> & Hfit & _); exists fs
    end.
    split; [reflexivity|]. split; [exact Hfit|].
    left. do 2 (split; [reflexivity|]).
    eauto 10.
  - repeat (rewrite snd_lbind in H; cbn [snd quiet error_if] in H;
            match type of H with
            | match ?r with Return _ => _ | Throw _ => _ end = _ =>
                destruct r eqn:?; [|discriminate H]
            | _ => idtac
            end).
    injection H as <-.
    match goal with
    | Hh : halve ?v = Return _, Hg : getitem "Fs" d = Return ?v |- _ =>
        destruct (halve_Return _ Hh) as (fs & -> & Hfit & ->); exists fs
    end.
    split; [reflexivity|]. split; [exact Hfit|]. right. now split.
Qed.

(** Opens a successful run of [generate_parameters]. *)
Lemma generate_inv cpu kw d :
  snd (generate_parameters cpu kw) = Return d ->
  exists d0,
    set_keywords (defaults cpu) kw = Return d0 /\
    snd (_validate_parameters d0) = Return d.
Proof.
  unfold generate_parameters. intros H.
  rewrite snd_lbind in H. cbn [snd quiet] in H.
  destruct (set_keywords (defaults cpu) kw) as [d0|e] eqn:E0; [|discriminate].
  exists d0. split; [reflexivity|].
  rewrite snd_lbind in H.
  destruct (snd (_validate_parameters d0)) as [d1|e] eqn:E1; [|discriminate].
  rewrite snd_lbind in H. cbn [snd quiet] in H.
  destruct (report d1); [|discriminate].
  cbn in H. now injection H as <-.
Qed.

Lemma validate_well_formed d d' :
  well_formed d -> snd (_validate_parameters d) = Return d' ->
  well_formed d' /\ holds d' "Fs" is_int /\ holds d' "fpass" is_pair.
Proof.
  intros W H. destruct (validate_inv _ H) as (fs & Hfs & _ & Hcase).
  pose proof W as
    (T1 & T2 & T3 & T4 & T5 & T6 & T7 & T8 & T9 & T10 & T11 & T12 & T13).
  destruct Hcase as [(Hc & -> & v & lo & hi & Hv & Hlo & Hhi) | (Hc & ->)].
  - split; [exact W|]. split.
    + exists (Num fs). split; [exact Hfs|]. exact (T11 _ Hfs).
    + exists v. split; [exact Hv|].
      destruct (T13 _ Hv) as [l ->]. destruct l as [|a [|b l]]; try discriminate.
      now exists a, b, l.
  - split; [|split].
    + unfold well_formed; repeat split;
        first [ apply holds_set_other; [reflexivity | assumption]
              | apply may_hold_set_other; [reflexivity | assumption]
              | apply may_hold_set_same ].
      now eexists.
    + apply holds_set_other; [reflexivity|].
      exists (Num fs). split; [exact Hfs|]. exact (T11 _ Hfs).
    + apply holds_set_same. now eexists _, _, _.
Qed.

(** X3: whatever the keywords, a dictionary [generate_parameters] returns
    has every key the estimators read but the optional nfft: an integer
    sample rate, at least two passband entries, at least two taper entries
    the second of which is an integer, integers under Npairs, threads and
    nDraws, Booleans under itc, indivDraw, debugMode and bootstrapMode, a
    sequence of integers under pcaComponentNumber, and a returnEigenvectors
    entry; nfft, if present, is an integer. *)
Theorem generate_parameters_result (cpu : Z) (kw : list (string * value))
  (d : pdict) :
  snd (generate_parameters cpu kw) = Return d ->
  holds d "Fs" is_int /\
  holds d "fpass" is_pair /\
  holds d "tapers" is_tapers /\
  holds d "Npairs" is_int /\
  holds d "itc" is_bool /\
  holds d "threads" is_int /\
  holds d "nDraws" is_int /\
  holds d "indivDraw" is_bool /\
  holds d "debugMode" is_bool /\
  holds d "bootstrapMode" is_bool /\
  holds d "pcaComponentNumber" is_int_seq /\
  contains "returnEigenvectors" d = true /\
  may_hold d "nfft" is_int.
Proof.
  intros H. destruct (generate_inv _ _ H) as (d0 & Hloop & Hval).
  assert (W0 : well_formed d0)
    by (eapply set_keywords_well_formed;
        [apply defaults_well_formed | exact Hloop]).
  destruct (validate_well_formed W0 Hval) as (W & HFs & Hfp).
  destruct W as
    (T1 & T2 & T3 & T4 & T5 & T6 & T7 & T8 & T9 & T10 & T11 & T12 & T13).
  repeat split; try assumption.
  apply contains_getitem. destruct T10 as (v & Hv & _). eauto.
Qed.

Lemma generate_parameters_result_witness :
  holds [("tapers"%string, Seq [SInt 2; SInt 3]);
         ("Npairs"%string, Num (SInt 0));
         ("itc"%string, Num (SBool false));
         ("threads"%string, Num (SInt 4));
         ("nDraws"%string, Num (SInt 1000));
         ("indivDraw"%string, Num (SBool false));
         ("debugMode"%string, Num (SBool false));
         ("bootstrapMode"%string, Num (SBool false));
         ("returnEigenvectors"%string, Num (SBool false));
         ("pcaComponentNumber"%string, Seq [SInt 1]);
         ("Fs"%string, Num (SInt 16384));
         ("fpass"%string, Seq [SFloat 0; SFloat (inject_Z 16384 / 2)])]
        "Fs" is_int.
Proof.
  exact (proj1 (@generate_parameters_result 4
                  [("Fs"%string, Num (SFloat (163849 # 10)))] _ eq_refl)).
Defined.

Lemma generate_throws cpu kw d0 e :
  set_keywords (defaults cpu) kw = Return d0 ->
  snd (_validate_parameters d0) = Throw e ->
  snd (generate_parameters cpu kw) = Throw e.
Proof.
  intros E0 E1. unfold generate_parameters.
  rewrite snd_lbind. cbn [snd quiet]. rewrite E0.
  rewrite snd_lbind. now rewrite E1.
Qed.

Lemma generate_log cpu kw d0 :
  set_keywords (defaults cpu) kw = Return d0 ->
  exists rest,
    fst (generate_parameters cpu kw) = fst (_validate_parameters d0) ++ rest.
Proof.
  intros E0. unfold generate_parameters.
  rewrite fst_lbind. cbn [fst snd quiet]. rewrite E0. cbn [app].
  rewrite fst_lbind. destruct (snd (_validate_parameters d0)).
  - eexists. reflexivity.
  - exists []. now rewrite app_nil_r.
Qed.

(** X4: without a keyword that reads [fs] or [samplerate] in lower case the
    call raises, whatever else is passed; [sfreq] and [srate] are not such
    keywords.  When the keyword loop itself goes through, the missing rate
    is the first thing logged. *)
Theorem generate_parameters_needs_rate (cpu : Z)
  (kw : list (string * value)) :
  (forall k v, In (k, v) kw -> is_rate_keyword k = false) ->
  is_rate_keyword "sfreq" = false /\
  is_rate_keyword "srate" = false /\
  (exists e, snd (generate_parameters cpu kw) = Throw e) /\
  (forall d0, set_keywords (defaults cpu) kw = Return d0 ->
     exists rest, fst (generate_parameters cpu kw) = NoSampleRate :: rest).
Proof.
  intros Hk. do 2 (split; [reflexivity|]).
  destruct (set_keywords (defaults cpu) kw) as [d0|e] eqn:E0.
  - assert (HFs : getitem "Fs" d0 = Throw (Std KeyError)).
    { rewrite (set_keywords_untouched "Fs" _ _ E0); [reflexivity|].
      intros k v Hin. apply stored_key_rate. eauto. }
    split.
    + destruct (snd (_validate_parameters d0)) as [d1|e] eqn:E1.
      * destruct (validate_inv _ E1) as (fs & Hfs & _). congruence.
      * exists e. eapply generate_throws; eassumption.
    + intros d1 Hd1. injection Hd1 as <-.
      destruct (generate_log cpu kw E0) as [rest ->].
      apply contains_false in HFs.
      unfold _validate_parameters. rewrite HFs. cbn [negb].
      rewrite fst_lbind. cbn [fst snd error_if app].
      eexists. reflexivity.
  - split; [|discriminate].
    exists e. unfold generate_parameters.
    rewrite snd_lbind. cbn [snd quiet]. now rewrite E0.
Qed.

Lemma generate_parameters_needs_rate_witness :
  exists e,
    snd (generate_parameters 4 [("sfreq"%string, Num (SInt 16384))])
    = Throw e.
Proof.
  refine (proj1 (proj2 (proj2
            (@generate_parameters_needs_rate 4
               [("sfreq"%string, Num (SInt 16384))] _)))).
  intros k v [H|[]]. now injection H as <- <-.
Defined.

Lemma set_keywords_app l1 : forall l2 d,
  set_keywords d (l1 ++ l2)
  = (d1 <~ set_keywords d l1 ;; set_keywords d1 l2).
Proof.
  induction l1 as [|[k v] l1 IH]; intros l2 d; cbn.
  - reflexivity.
  - destruct (set_keyword d k v); cbn; [apply IH | reflexivity].
Qed.

Lemma set_keyword_rate d k v d' :
  is_rate_keyword k = true -> set_keyword d k v = Return d' ->
  exists s, v = Num s /\ d' = setitem "Fs" (Num (SInt (int_of s))) d.
Proof.
  unfold is_rate_keyword, set_keyword. intros Hk H. cbn zeta in H.
  rewrite !orb_false_r, Hk in H.
  destruct v as [s|l]; cbn in H; [|discriminate].
  injection H as <-. now exists s.
Qed.

(** X5: the last keyword that reads [fs] or [samplerate] in lower case sets
    the rate, and the rate is stored truncated to an integer; if no keyword
    reads [fpass], the passband is [0.0, Fs/2.0] for that truncated rate. *)
Theorem generate_parameters_rate (cpu : Z)
  (before after : list (string * value)) (k : string) (v : value)
  (d : pdict) :
  is_rate_keyword k = true ->
  (forall k' v', In (k', v') after -> is_rate_keyword k' = false) ->
  snd (generate_parameters cpu (before ++ (k, v) :: after)) = Return d ->
  exists s,
    v = Num s /\
    getitem "Fs" d = Return (Num (SInt (int_of s))) /\
    ((forall k' v', In (k', v') (before ++ (k, v) :: after) ->
                    String.eqb (lower k') "fpass" = false) ->
     getitem "fpass" d
     = Return (Seq [SFloat 0; SFloat (inject_Z (int_of s) / 2)])).
Proof.
  intros Hk Hafter H.
  destruct (generate_inv _ _ H) as (d0 & Hloop & Hval).
  pose proof Hloop as Hsplit. rewrite set_keywords_app in Hsplit.
  destruct (set_keywords (defaults cpu) before) as [d1|] eqn:E1;
    cbn [rbind] in Hsplit; [|discriminate].
  cbn [set_keywords] in Hsplit.
  destruct (set_keyword d1 k v) as [d2|] eqn:E2;
    cbn [rbind] in Hsplit; [|discriminate].
  destruct (set_keyword_rate _ _ _ Hk E2) as (s & -> & ->).
  exists s. split; [reflexivity|].
  assert (HFs0 : getitem "Fs" d0 = Return (Num (SInt (int_of s)))).
  { rewrite (set_keywords_untouched "Fs" _ _ Hsplit).
    - apply getitem_setitem_same.
    - intros k' v' Hin. apply stored_key_rate. eauto. }
  destruct (validate_inv _ Hval) as (fs & Hfs & _ & Hcase).
  assert (fs = SInt (int_of s)) as -> by congruence.
  split.
  - destruct Hcase as [(_ & -> & _) | (_ & ->)]; [exact HFs0|].
    now rewrite getitem_setitem_other.
  - intros Hfp.
    assert (Hnone : getitem "fpass" d0 = Throw (Std KeyError)).
    { rewrite (set_keywords_untouched "fpass" _ _ Hloop); [reflexivity|].
      intros k' v' Hin. apply stored_key_fpass. eauto. }
    destruct Hcase as [(Hc & _) | (_ & ->)].
    + apply contains_getitem in Hc. destruct Hc as [w Hw]. congruence.
    + apply getitem_setitem_same.
Qed.

Lemma generate_parameters_rate_witness :
  exists s,
    Num (SFloat (5 # 2)) = Num s /\
    getitem "Fs"
      [("tapers"%string, Seq [SInt 2; SInt 3]);
       ("Npairs"%string, Num (SInt 0));
       ("itc"%string, Num (SBool false));
       ("threads"%string, Num (SInt 4));
       ("nDraws"%string, Num (SInt 1000));
       ("indivDraw"%string, Num (SBool false));
       ("debugMode"%string, Num (SBool false));
       ("bootstrapMode"%string, Num (SBool false));
       ("returnEigenvectors"%string, Num (SBool false));
       ("pcaComponentNumber"%string, Seq [SInt 1]);
       ("Fs"%string, Num (SInt 2));
       ("fpass"%string, Seq [SFloat 0; SFloat (inject_Z 2 / 2)])]
    = Return (Num (SInt (int_of s))) /\
    ((forall k' v',
        In (k', v') ([("Fs"%string, Num (SInt 9))]
                     ++ [("SampleRate"%string, Num (SFloat (5 # 2)))]) ->
        String.eqb (lower k') "fpass" = false) ->
     getitem "fpass"
       [("tapers"%string, Seq [SInt 2; SInt 3]);
        ("Npairs"%string, Num (SInt 0));
        ("itc"%string, Num (SBool false));
        ("threads"%string, Num (SInt 4));
        ("nDraws"%string, Num (SInt 1000));
        ("indivDraw"%string, Num (SBool false));
        ("debugMode"%string, Num (SBool false));
        ("bootstrapMode"%string, Num (SBool false));
        ("returnEigenvectors"%string, Num (SBool false));
        ("pcaComponentNumber"%string, Seq [SInt 1]);
        ("Fs"%string, Num (SInt 2));
        ("fpass"%string, Seq [SFloat 0; SFloat (inject_Z 2 / 2)])]
     = Return (Seq [SFloat 0; SFloat (inject_Z (int_of s) / 2)])).
Proof.
  refine (@generate_parameters_rate 4 [("Fs"%string, Num (SInt 9))] []
            "SampleRate" (Num (SFloat (5 # 2))) _ eq_refl _ eq_refl).
  intros k' v' [].
Defined.

Lemma set_keyword_unrecognised d k v :
  is_recognised k = false -> set_keyword d k v = Return (setitem k v d).
Proof.
  unfold is_recognised, recognised, set_keyword. cbn [existsb]. intros H.
  rewrite !orb_false_iff in H.
  destruct H as (H1&H2&H3&H4&H5&H6&H7&H8&H9&H10&H11&H12&H13&H14&_).
  cbn zeta.
  now rewrite H1, H2, H3, H4, H5, H6, H7, H8, H9, H10, H11, H12, H13, H14.
Qed.

Lemma set_keywords_verbatim kw : forall d d' k v,
  NoDup (map fst kw) -> In (k, v) kw -> is_recognised k = false ->
  set_keywords d kw = Return d' -> getitem k d' = Return v.
Proof.
  induction kw as [|[k0 v0] kw IH]; intros d d' k v Hnd Hin Hk H.
  - destruct Hin.
  - cbn in Hnd. inversion Hnd as [|? ? Hnotin Hnd']; subst.
    cbn in H.
    destruct (set_keyword d k0 v0) as [d1|] eqn:E; cbn [rbind] in H;
      [|discriminate].
    destruct Hin as [Heq|Hin].
    + injection Heq as -> ->.
      rewrite (@set_keyword_unrecognised d k v Hk) in E. injection E as <-.
      rewrite (set_keywords_untouched k _ _ H).
      * apply getitem_setitem_same.
      * intros k' v' Hin'. apply stored_key_unrecognised; [exact Hk|].
        intros ->. apply Hnotin.
        change k with (fst (k, v')). now apply in_map.
    + eapply IH; eassumption.
Qed.

(** X6: a keyword that is not recognised is stored under its own name with
    its value as passed: no conversion is applied to it, and nothing else
    the call does overwrites it.  This is what happens to [sfreq] and
    [srate], and to [returnEigenvectors]. *)
Theorem generate_parameters_verbatim (cpu : Z) (kw : list (string * value))
  (k : string) (v : value) (d : pdict) :
  NoDup (map fst kw) -> In (k, v) kw -> is_recognised k = false ->
  snd (generate_parameters cpu kw) = Return d ->
  getitem k d = Return v /\
  is_recognised "sfreq" = false /\
  is_recognised "srate" = false /\
  is_recognised "returnEigenvectors" = false.
Proof.
  intros Hnd Hin Hk H. split; [|repeat split].
  destruct (generate_inv _ _ H) as (d0 & Hloop & Hval).
  pose proof (@set_keywords_verbatim kw _ _ _ _ Hnd Hin Hk Hloop) as H0.
  destruct (validate_inv _ Hval) as (fs & _ & _ & [(_ & -> & _) | (_ & ->)]).
  - exact H0.
  - rewrite getitem_setitem_other; [exact H0|].
    destruct (String.eqb_spec k "fpass") as [->|]; [|reflexivity].
    cbn in Hk. discriminate.
Qed.

Lemma generate_parameters_verbatim_witness :
  getitem "sfreq"
    [("tapers"%string, Seq [SInt 2; SInt 3]);
     ("Npairs"%string, Num (SInt 0));
     ("itc"%string, Num (SBool false));
     ("threads"%string, Num (SInt 4));
     ("nDraws"%string, Num (SInt 1000));
     ("indivDraw"%string, Num (SBool false));
     ("debugMode"%string, Num (SBool false));
     ("bootstrapMode"%string, Num (SBool false));
     ("returnEigenvectors"%string, Num (SBool false));
     ("pcaComponentNumber"%string, Seq [SInt 1]);
     ("sfreq"%string, Num (SFloat (5 # 2)));
     ("Fs"%string, Num (SInt 8));
     ("fpass"%string, Seq [SFloat 0; SFloat (inject_Z 8 / 2)])]
  = Return (Num (SFloat (5 # 2))).
Proof.
  refine (proj1 (@generate_parameters_verbatim 4
                   [("sfreq"%string, Num (SFloat (5 # 2)));
                    ("Fs"%string, Num (SInt 8))]
                   "sfreq" (Num (SFloat (5 # 2))) _ _ _ eq_refl eq_refl)).
  - repeat constructor; cbn; intuition discriminate.
  - left. reflexivity.
Defined.

(** *** Returning *)












End ParameterFacts.

(** ** The transform size and the failures of the frequency grid *)

Lemma default_nfft_spec (L n : nat) :
  FrequencyGrid.default_nfft L = Ok n ->
  (1 <= L)%nat /\ n = (2 ^ Nat.log2_up L)%nat /\ (L <= n)%nat /\
  (n < 2 * L)%nat.
Proof.
  unfold FrequencyGrid.default_nfft. destruct L as [|L']; [discriminate|].
  intros H. injection H as <-. split; [lia|]. split; [reflexivity|].
  destruct (Nat.eq_dec L' 0) as [->|Hne]; [cbn; lia|].
  pose proof (Nat.log2_up_spec (S L') ltac:(lia)) as [Hlo Hhi].
  split; [exact Hhi|].
  assert (Hpos : (0 < Nat.log2_up (S L'))%nat) by (apply Nat.log2_up_pos; lia).
  replace (Nat.log2_up (S L')) with (S (Nat.pred (Nat.log2_up (S L'))))
    by lia.
  rewrite Nat.pow_succ_r'. lia.
Qed.

Lemma get_freq_vector_covers {A} (x : ndarray A) (p : params)
  (timeDim : nat) (n : nat) (f : list Q) (fInd : list bool) :
  FrequencyGrid._get_freq_vector x p timeDim = Ok (n, f, fInd) ->
  (nth timeDim (shape x) O <= n)%nat.
Proof.
  intros H. pose proof (GridFacts.get_freq_vector_axis _ _ _ H) as Hax.
  rewrite GridFacts.get_freq_vector_at in H by exact Hax.
  destruct (FrequencyGrid.choose_nfft (nth timeDim (shape x) O) p)
    as [n0|e] eqn:E; cbn [bind] in H; [|discriminate].
  destruct (Qeq_bool (Fs p) 0); [discriminate|].
  destruct (n0 =? 0)%nat; [discriminate|].
  injection H as <- _ _.
  unfold FrequencyGrid.choose_nfft in E.
  destruct (nfft p) as [m|].
  - destruct (Z.ltb_spec m (Z.of_nat (nth timeDim (shape x) O))).
    + now destruct (default_nfft_spec _ E) as (_ & _ & H3 & _).
    + injection E as <-. lia.
  - now destruct (default_nfft_spec _ E) as (_ & _ & H3 & _).
Qed.

(** X8: the transform is never shorter than the recording.  A transform
    size below the number of time points is not an error: it is replaced,
    as an absent one is, by the least power of two that is not below the
    number of time points; a size that is not below is used as given. *)
Theorem transform_size {A} (x : ndarray A) (p : params) (timeDim : nat)
  (n : nat) (f : list Q) (fInd : list bool) :
  FrequencyGrid._get_freq_vector x p timeDim = Ok (n, f, fInd) ->
  let L := nth timeDim (shape x) O in
  (L <= n)%nat /\
  (forall m, nfft p = Some m -> (Z.of_nat L <= m)%Z -> n = Z.to_nat m) /\
  (nfft p = None \/ (exists m, nfft p = Some m /\ (m < Z.of_nat L)%Z) ->
   n = (2 ^ Nat.log2_up L)%nat /\ (n < 2 * L)%nat).
Proof.
  intros H L. pose proof (GridFacts.get_freq_vector_axis _ _ _ H) as Hax.
  rewrite GridFacts.get_freq_vector_at in H by exact Hax. fold L in H.
  destruct (FrequencyGrid.choose_nfft L p) as [n0|e] eqn:E; cbn [bind] in H;
    [|discriminate].
  destruct (Qeq_bool (Fs p) 0); [discriminate|].
  destruct (n0 =? 0)%nat; [discriminate|].
  injection H as <- _ _.
  unfold FrequencyGrid.choose_nfft in E.
  destruct (nfft p) as [m|] eqn:Em.
  - destruct (Z.ltb_spec m (Z.of_nat L)) as [Hlt|Hge].
    + destruct (default_nfft_spec _ E) as (H1 & H2 & H3 & H4).
      split; [exact H3|]. split.
      * intros m' Hm' Hle. injection Hm' as <-. lia.
      * intros _. now split.
    + injection E as <-. split; [lia|]. split.
      * intros m' Hm' _. now injection Hm' as <-.
      * intros [Hn|(m' & Hm' & Hlt)]; [discriminate|].
        injection Hm' as <-. lia.
  - destruct (default_nfft_spec _ E) as (H1 & H2 & H3 & H4).
    split; [exact H3|]. split.
    + intros m' Hm'. discriminate.
    + intros _. now split.
Qed.

Lemma transform_size_witness :
  (nth 1 (shape grid_recording) O <= 4)%nat /\
  (forall m, nfft grid_params = Some m ->
             (Z.of_nat (nth 1 (shape grid_recording) O) <= m)%Z ->
             4%nat = Z.to_nat m) /\
  (nfft grid_params = None \/
   (exists m, nfft grid_params = Some m /\
              (m < Z.of_nat (nth 1 (shape grid_recording) O))%Z) ->
   4%nat = (2 ^ Nat.log2_up (nth 1 (shape grid_recording) O))%nat /\
   (4 < 2 * nth 1 (shape grid_recording) O)%nat).
Proof.
  exact (@transform_size R grid_recording grid_params 1 4
           [8 # 4]%Q [false; true; false] eq_refl).
Defined.



Lemma bin_width_value (n : nat) (fs : Q) :
  (1 <= n)%nat -> ~ (fs == 0)%Q ->
  (FrequencyGrid.bin_width n fs == fs / inject_Z (Z.of_nat n))%Q.
Proof.
  intros Hn Hfs. unfold FrequencyGrid.bin_width.
  assert (Hz : ~ (inject_Z (Z.of_nat n) == 0)%Q).
  { unfold Qeq. cbn. lia. }
  field. split; assumption.
Qed.

Lemma mask_all_true {A} (l : list A) (m : list bool) :
  length m = length l -> Forall (fun b => b = true) m -> mask m l = l.
Proof.
  revert m. induction l as [|a l IH]; intros [|b m] Hlen Hall;
    try discriminate; [reflexivity|].
  inversion Hall; subst. cbn. f_equal. apply IH; [|assumption].
  now injection Hlen.
Qed.

(** X10 (in exact arithmetic): a passband that reaches from zero to half
    the sample rate, as the default [0, Fs/2] of validation does for a
    positive rate, cuts nothing: every bin is marked and the returned axis
    is the full axis, with its floor(nfft/2)+1 entries.  The axis is one of
    rationals here; in floating point the last entry of an even transform
    size, [Fs/2] itself, can be rounded to just above the float [Fs/2.0],
    and the comparison then drops that one bin. *)
Theorem whole_band_keeps_all {A} (x : ndarray A) (p : params)
  (timeDim : nat) (n : nat) (f : list Q) (fInd : list bool) :
  (0 < Fs p)%Q ->
  (fst (fpass p) <= 0)%Q -> (Fs p / 2 <= snd (fpass p))%Q ->
  FrequencyGrid._get_freq_vector x p timeDim = Ok (n, f, fInd) ->
  Forall (fun b => b = true) fInd /\
  f = FrequencyGrid.full_axis n (Fs p) /\
  length f = (n / 2 + 1)%nat.
Proof.
  intros Hpos Hlo Hhi H.
  destruct (GridFacts.get_freq_vector_inv _ _ _ H) as (Hn & Hfs & -> & ->).
  assert (Hall : Forall (fun b => b = true)
                        (map (FrequencyGrid.in_passband p)
                             (FrequencyGrid.full_axis n (Fs p)))).
  { apply Forall_forall. intros b Hb. apply in_map_iff in Hb.
    destruct Hb as (v & <- & Hv).
    apply GridFacts.in_passband_spec.
    apply (In_nth _ _ 0%Q) in Hv. destruct Hv as (i & Hi & <-).
    rewrite GridFacts.full_axis_length in Hi by exact Hn.
    rewrite GridFacts.full_axis_nth by assumption.
    rewrite bin_width_value by assumption.
    assert (Hnq : (0 < inject_Z (Z.of_nat n))%Q).
    { replace 0%Q with (inject_Z 0) by reflexivity.
      rewrite <- Zlt_Qlt. lia. }
    assert (Hbw : (0 < Fs p / inject_Z (Z.of_nat n))%Q).
    { apply Qlt_shift_div_l; [exact Hnq|]. now rewrite Qmult_0_l. }
    rewrite Qabs_pos by (apply Qlt_le_weak; exact Hbw).
    assert (Hi0 : (0 <= inject_Z (Z.of_nat i))%Q).
    { replace 0%Q with (inject_Z 0) by reflexivity.
      rewrite <- Zle_Qle. lia. }
    split.
    - apply Qle_trans with 0%Q; [exact Hlo|].
      apply Qmult_le_0_compat; [exact Hi0 | apply Qlt_le_weak; exact Hbw].
    - apply Qle_trans with (Fs p / 2)%Q; [|exact Hhi].
      assert (H2i : (2 * i <= n)%nat).
      { pose proof (Nat.div_mod_eq n 2). lia. }
      assert (E : (inject_Z (Z.of_nat i) * (Fs p / inject_Z (Z.of_nat n))
                   == Fs p * (inject_Z (Z.of_nat i) / inject_Z (Z.of_nat n)))%Q).
      { field. intros E0. rewrite E0 in Hnq. exact (Qlt_irrefl _ Hnq). }
      rewrite E. unfold Qdiv at 2.
      apply Qmult_le_l; [exact Hpos|].
      apply Qle_shift_div_r; [exact Hnq|].
      assert (E2 : (/ 2 * inject_Z (Z.of_nat n)
                    == inject_Z (Z.of_nat n) / 2)%Q) by field.
      rewrite E2. apply Qle_shift_div_l; [reflexivity|].
      replace 2%Q with (inject_Z 2) by reflexivity.
      rewrite <- inject_Z_mult, <- Zle_Qle. lia. }
  split; [exact Hall|].
  assert (Hm : mask (map (FrequencyGrid.in_passband p)
                         (FrequencyGrid.full_axis n (Fs p)))
                    (FrequencyGrid.full_axis n (Fs p))
               = FrequencyGrid.full_axis n (Fs p)).
  { apply mask_all_true; [apply length_map | exact Hall]. }
  rewrite Hm. split; [reflexivity|].
  now apply GridFacts.full_axis_length.
Qed.

Lemma whole_band_keeps_all_witness :
  Forall (fun b => b = true) [true; true] /\
  [0 # 2; 2 # 2]%Q
  = FrequencyGrid.full_axis 2 (Fs unit_params) /\
  length [0 # 2; 2 # 2]%Q = (2 / 2 + 1)%nat.
Proof.
  refine (@whole_band_keeps_all R impulses unit_params 2 2 _ _ _ _ _ _).
  - reflexivity.
  - discriminate.
  - discriminate.
  - vm_compute. reflexivity.
Defined.

(** ** Rank errors *)

Lemma no_shape_bind {A B} (m : outcome A) (k : A -> outcome B) :
  m <> Raise ShapeError ->
  (forall a, m = Ok a -> k a <> Raise ShapeError) ->
  bind m k <> Raise ShapeError.
Proof.
  intros Hm Hk. destruct m as [a|e]; cbn.
  - now apply Hk.
  - intros E. apply Hm. injection E as ->. reflexivity.
Qed.

Lemma no_shape_mapM {A B} (f : A -> outcome B) (l : list A) :
  (forall a, In a l -> f a <> Raise ShapeError) ->
  mapM f l <> Raise ShapeError.
Proof.
  induction l as [|a l IH]; intros Hf; cbn; [discriminate|].
  apply no_shape_bind; [apply Hf; now left|]. intros b _.
  apply no_shape_bind; [apply IH; intros; apply Hf; now right|].
  discriminate.
Qed.

Lemma get_freq_vector_no_shape {A} (x : ndarray A) p timeDim :
  FrequencyGrid._get_freq_vector x p timeDim <> Raise ShapeError.
Proof.
  unfold FrequencyGrid._get_freq_vector, FrequencyGrid.choose_nfft,
    FrequencyGrid.default_nfft.
  destruct (nth_error (shape x) timeDim) as [L|]; [|discriminate].
  destruct (nfft p) as [m|]; [destruct (m <? _)%Z|];
    destruct L; cbn [bind];
    repeat match goal with
           | |- (if ?b then _ else _) <> _ => destruct b
           end; discriminate.
Qed.

Lemma py_index_no_shape {A} (l : list A) i :
  py_index l i <> Raise ShapeError.
Proof.
  unfold py_index.
  destruct ((0 <=? _) && _)%Z; [|discriminate].
  destruct (nth_error l _); discriminate.
Qed.

(** Discharges "this call does not end in the rank error" for the code
    after the rank dispatch. *)
Ltac no_shape :=
  repeat first
    [ discriminate
    | apply get_freq_vector_no_shape
    | apply py_index_no_shape
    | apply no_shape_mapM; intros
    | apply no_shape_bind; [|intros ? _]
    | match goal with
      | |- (if ?b then _ else _) <> _ => destruct b
      | |- (match ?r with Some _ => _ | None => _ end) <> _ => destruct r
      | |- (match ?r with (_, _) => _ end) <> _ => destruct r
      | |- (let (_, _) := ?r in _) <> _ => destruct r
      end ].

Lemma cpca_bin_no_shape nchans v : cpca_bin nchans v <> Raise ShapeError.
Proof. unfold cpca_bin, linalg_eigvalsh. no_shape. Qed.

Lemma squeezed_bins_no_shape {A} (C : tensor2 A) :
  squeezed_bins C <> Raise ShapeError.
Proof. unfold squeezed_bins. no_shape. Qed.

Lemma cpca_taper_no_shape nchans Cm :
  cpca_taper nchans Cm <> Raise ShapeError.
Proof.
  unfold cpca_taper.
  apply no_shape_bind; [apply squeezed_bins_no_shape|]. intros nb _.
  apply no_shape_mapM. intros fi _. apply cpca_bin_no_shape.
Qed.

Lemma column_at_no_shape V i : column_at V i <> Raise ShapeError.
Proof. unfold column_at. no_shape. Qed.

Lemma timeDomain_bin_no_shape a b : timeDomain_bin a b <> Raise ShapeError.
Proof.
  unfold timeDomain_bin, linalg_eigh. no_shape.
Qed.

Lemma eig_select_no_shape nchans pc v :
  eig_select nchans pc v <> Raise ShapeError.
Proof. unfold eig_select, linalg_eigh. no_shape. Qed.

Lemma eigenvector_rows_no_shape vecs pc :
  eigenvector_rows vecs pc <> Raise ShapeError.
Proof. unfold eigenvector_rows. no_shape. Qed.

Lemma mtcpca_all_bin_no_shape p nchans pc Cm plvC itcC fi :
  mtcpca_all_bin p nchans pc Cm plvC itcC fi <> Raise ShapeError.
Proof.
  unfold mtcpca_all_bin.
  apply no_shape_bind; [apply eig_select_no_shape|]. intros [? ?] _.
  apply no_shape_bind; [apply eig_select_no_shape|]. intros [? ?] _.
  apply no_shape_bind; [apply eig_select_no_shape|]. intros [? ?] _.
  destruct (returnEigenvectors p) as [[|]|]; try discriminate.
  do 3 (apply no_shape_bind; [apply eigenvector_rows_no_shape|]; intros ? _).
  discriminate.
Qed.

(** After a successful dispatch nothing raises the rank error. *)
Lemma dispatched_no_shape dpss rs ri op (x : ndarray R) p lay :
  (if per_channel op then dispatch (squeeze x) else dispatch3 (squeeze x))
  = Ok lay ->
  run dpss rs ri op x p <> Raise ShapeError.
Proof.
  intros Hd. destruct op; cbn [per_channel] in Hd; cbn [run];
    unfold mtplv, mtspec, mtphase, mtcpca, mtcspec, mtcpca_timeDomain,
      mtppc, mtspecraw, mtpspec, mtcpca_all;
    cbv zeta; rewrite Hd; cbn [bind].
  - no_shape.
  - no_shape.
  - no_shape.
  - apply no_shape_bind; [apply get_freq_vector_no_shape|].
    intros [[n f] fInd] _.
    apply no_shape_bind.
    + apply no_shape_mapM. intros tap _. apply cpca_taper_no_shape.
    + intros plv _. no_shape.
  - apply no_shape_bind; [apply get_freq_vector_no_shape|].
    intros [[n f] fInd] _.
    apply no_shape_bind.
    + apply no_shape_mapM. intros tap _. apply cpca_taper_no_shape.
    + intros plv _. no_shape.
  - apply no_shape_bind; [apply get_freq_vector_no_shape|].
    intros [[n f] fInd] _.
    destruct (Req_EM_T _ 0); [discriminate|].
    apply no_shape_bind; [apply squeezed_bins_no_shape|]. intros nb _.
    apply no_shape_bind.
    + apply no_shape_mapM. intros fi _. apply timeDomain_bin_no_shape.
    + intros bins _. unfold linalg_eigh_real.
      apply no_shape_bind; [no_shape|]. intros [vals vecs] _.
      apply no_shape_bind; [apply py_index_no_shape|]. intros j _.
      no_shape.
  - apply no_shape_bind; [apply get_freq_vector_no_shape|].
    intros [[n f] fInd] _.
    apply no_shape_bind.
    + apply no_shape_mapM. intros kt _. unfold draw_pairs. no_shape.
    + intros ppc _. no_shape.
  - no_shape.
  - no_shape.
  - apply no_shape_bind; [apply get_freq_vector_no_shape|].
    intros [[n f] fInd] _.
    apply no_shape_bind.
    + apply no_shape_mapM. intros tap _. unfold mtcpca_all_taper.
      cbv zeta. destruct (_ =? 1)%nat; [discriminate|].
      apply no_shape_mapM. intros fi _. apply mtcpca_all_bin_no_shape.
    + intros acc _. no_shape.
Qed.

Lemma dispatch_rank {A} (x : ndarray A) :
  match dispatch x with
  | Ok _ => length (shape x) = 3%nat \/ length (shape x) = 2%nat
  | Raise e => e = ShapeError /\ length (shape x) <> 3%nat /\
               length (shape x) <> 2%nat
  end.
Proof.
  unfold dispatch. destruct (shape x) as [|a [|b [|c [|d l]]]]; cbn;
    try (left; reflexivity); try (right; reflexivity);
    (split; [reflexivity | split; lia]).
Qed.

Lemma dispatch3_rank_cases {A} (x : ndarray A) :
  match dispatch3 x with
  | Ok _ => length (shape x) = 3%nat
  | Raise e => e = ShapeError /\ length (shape x) <> 3%nat
  end.
Proof.
  unfold dispatch3. destruct (shape x) as [|a [|b [|c [|d l]]]]; cbn;
    try reflexivity; (split; [reflexivity | lia]).
Qed.

(** X11: the rank error, exactly.  An estimator fails on the rank of its
    input if and only if, once every axis of extent one is dropped, the
    input is not three-dimensional and, for a per-channel estimator, not
    two-dimensional either; a four-dimensional input is not reshaped, and
    nothing past the dispatch raises this error. *)
Theorem shape_error_iff dpss rs ri (op : operation) (x : ndarray R)
  (p : params) :
  run dpss rs ri op x p = Raise ShapeError <->
  ~ (length (shape (squeeze x)) = 3%nat \/
     (per_channel op = true /\ length (shape (squeeze x)) = 2%nat)).
Proof.
  split.
  - intros H Hrank.
    destruct (per_channel op) eqn:Hop.
    + pose proof (dispatch_rank (squeeze x)) as Hd.
      destruct (dispatch (squeeze x)) as [lay|e] eqn:E.
      * refine (@dispatched_no_shape dpss rs ri op x p lay _ H).
        now rewrite Hop.
      * destruct Hd as (_ & H3 & H2). destruct Hrank as [|[_ ?]]; lia.
    + pose proof (dispatch3_rank_cases (squeeze x)) as Hd.
      destruct (dispatch3 (squeeze x)) as [lay|e] eqn:E.
      * refine (@dispatched_no_shape dpss rs ri op x p lay _ H).
        now rewrite Hop.
      * destruct Hd as (_ & H3). destruct Hrank as [|[? _]];
          [lia | discriminate].
  - intros Hrank.
    destruct (per_channel op) eqn:Hop.
    + pose proof (dispatch_rank (squeeze x)) as Hd.
      destruct (dispatch (squeeze x)) as [lay|e] eqn:E.
      * exfalso. apply Hrank. destruct Hd; [now left | right; now split].
      * destruct Hd as (-> & _).
        destruct op; try discriminate; cbn [run];
          unfold mtplv, mtspec, mtphase, mtppc, mtspecraw, mtpspec;
          cbv zeta; rewrite E; reflexivity.
    + pose proof (dispatch3_rank_cases (squeeze x)) as Hd.
      destruct (dispatch3 (squeeze x)) as [lay|e] eqn:E.
      * exfalso. apply Hrank. now left.
      * destruct Hd as (-> & _). now apply cpca_shape_error.
Qed.

(** X12: a multichannel recording with a single trial, of shape (C, 1, L)
    with C and L other than 1, loses its trial axis to [squeeze]; the
    per-channel estimators then read its C channels as C trials of one
    channel, and the cPCA estimators fail on its rank. *)
Theorem single_trial_channels_as_trials dpss rs ri (x : ndarray R)
  (p : params) (C L : nat) :
  shape x = [C; 1%nat; L] -> C <> 1%nat -> L <> 1%nat ->
  squeeze x = mkarr [C; L] (data x) /\
  dispatch (squeeze x) = Ok (mklayout 1 0 1 C L) /\
  (forall op, per_channel op = true ->
     run dpss rs ri op x p = run dpss rs ri op (mkarr [C; L] (data x)) p) /\
  (forall op, per_channel op = false ->
     run dpss rs ri op x p = Raise ShapeError).
Proof.
  intros Hs HC HL.
  assert (Esq : squeeze x = mkarr [C; L] (data x)).
  { unfold squeeze. rewrite Hs. cbn.
    destruct (Nat.eqb_spec C 1); [contradiction|].
    destruct (Nat.eqb_spec L 1); [contradiction|]. reflexivity. }
  split; [exact Esq|]. split; [now rewrite Esq|]. split.
  - intros op _. apply run_squeeze. rewrite Esq.
    unfold squeeze. cbn.
    destruct (Nat.eqb_spec C 1); [contradiction|].
    destruct (Nat.eqb_spec L 1); [contradiction|]. reflexivity.
  - intros op Hop. apply cpca_shape_error; [exact Hop|].
    apply dispatch3_rank. rewrite Esq. cbn. lia.
Qed.

Lemma single_trial_channels_as_trials_witness :
  squeeze (mkarr [2%nat; 1%nat; 2%nat] [1; 0; 1; 0])
  = mkarr [2%nat; 2%nat] [1; 0; 1; 0] /\
  dispatch (squeeze (mkarr [2%nat; 1%nat; 2%nat] [1; 0; 1; 0]))
  = Ok (mklayout 1 0 1 2 2) /\
  (forall op, per_channel op = true ->
     run flat_windows no_samples no_pairs op
         (mkarr [2%nat; 1%nat; 2%nat] [1; 0; 1; 0]) unit_params
     = run flat_windows no_samples no_pairs op
           (mkarr [2%nat; 2%nat] [1; 0; 1; 0]) unit_params) /\
  (forall op, per_channel op = false ->
     run flat_windows no_samples no_pairs op
         (mkarr [2%nat; 1%nat; 2%nat] [1; 0; 1; 0]) unit_params
     = Raise ShapeError).
Proof.
  apply (@single_trial_channels_as_trials flat_windows no_samples no_pairs
           (mkarr [2%nat; 1%nat; 2%nat] [1; 0; 1; 0]) unit_params 2 2).
  - reflexivity.
  - discriminate.
  - discriminate.
Defined.

(** ** Means of values with a property *)

Lemma Rmean_nan_closed (P : R -> Prop) (l : list nanR) :
  mean_closed P -> Forall (nan_or P) l -> nan_or P (Rmean_nan l).
Proof.
  intros HP Hl. unfold Rmean_nan.
  destruct (all_finite l) as [v|] eqn:E; [|exact I].
  destruct (Rmean v) as [r|] eqn:Er; [|exact I]. cbn.
  apply (HP v r); [|exact Er].
  apply all_finite_map_Some in E. subst l.
  apply Forall_forall. intros y Hy.
  rewrite Forall_forall in Hl. apply (Hl (Some y)). now apply in_map.
Qed.

Lemma to_ndarray_Forall_rows {A} (P : A -> Prop) (t : tensor2 A) :
  (forall c k, (c < rows t)%nat -> P (at2 t c k)) ->
  Forall P (data (to_ndarray t)).
Proof.
  intros H. cbn. apply Forall_flat_map, Forall_forall. intros c Hc.
  apply in_seq in Hc.
  apply Forall_map, Forall_forall. intros k _. apply H. lia.
Qed.

Lemma pipeline_Forall (P : R -> Prop) nchans nbins (fInd : list bool)
  (acc : list (tensor2 nanR)) :
  mean_closed P ->
  Forall (fun s => forall c k, (c < nchans)%nat -> nan_or P (at2 s c k))
         acc ->
  Forall (nan_or P)
         (data (squeeze (to_ndarray
                  (mask2 fInd (mean_tapers nchans nbins acc))))).
Proof.
  intros HP Hacc. rewrite data_squeeze. apply to_ndarray_Forall_rows.
  intros c j Hc. rewrite masked_mean_cell.
  apply Rmean_nan_closed; [exact HP|].
  apply Forall_map. eapply Forall_impl; [|exact Hacc].
  intros s Hs. apply Hs. exact Hc.
Qed.

Lemma Rsum_ge_length (l : list R) (b : R) :
  Forall (fun r => b <= r) l -> INR (length l) * b <= Rsum l.
Proof.
  induction 1 as [|r l Hr Hl IH]; [cbn; lra|].
  change (length (r :: l)) with (S (length l)).
  rewrite S_INR. cbn [Rsum fold_right]. fold (Rsum l). lra.
Qed.

Lemma Rsum_gt_length (l : list R) (b : R) :
  l <> [] -> Forall (fun r => b < r) l -> INR (length l) * b < Rsum l.
Proof.
  intros Hne H. induction H as [|r l Hr Hl IH]; [contradiction|].
  change (length (r :: l)) with (S (length l)).
  rewrite S_INR. cbn [Rsum fold_right]. fold (Rsum l).
  destruct l as [|r' l'].
  - cbn. lra.
  - assert (INR (length (r' :: l')) * b < Rsum (r' :: l'))
      by (apply IH; discriminate).
    lra.
Qed.

Lemma mean_closed_interval lo hi : mean_closed (fun v => lo <= v <= hi).
Proof.
  intros l r HF Hr. apply Rdiv_nan_Some in Hr. destruct Hr as [Hn ->].
  apply INR_length_pos in Hn.
  assert (H0 : INR (length l) * lo <= Rsum l).
  { apply Rsum_ge_length. eapply Forall_impl; [|exact HF].
    cbn. intros; lra. }
  assert (H1 : Rsum l <= INR (length l) * hi).
  { apply Rsum_le_length. eapply Forall_impl; [|exact HF].
    cbn. intros; lra. }
  split.
  - apply Rmult_le_reg_l with (INR (length l)); [exact Hn|].
    replace (INR (length l) * (Rsum l / INR (length l))) with (Rsum l)
      by (field; lra).
    exact H0.
  - apply Rmult_le_reg_l with (INR (length l)); [exact Hn|].
    replace (INR (length l) * (Rsum l / INR (length l))) with (Rsum l)
      by (field; lra).
    exact H1.
Qed.

Lemma mean_closed_half_open lo hi : mean_closed (fun v => lo < v <= hi).
Proof.
  intros l r HF Hr. apply Rdiv_nan_Some in Hr. destruct Hr as [Hn ->].
  assert (Hne : l <> []) by (intros ->; cbn in Hn; lra).
  apply INR_length_pos in Hn.
  assert (H0 : INR (length l) * lo < Rsum l).
  { apply Rsum_gt_length; [exact Hne|]. eapply Forall_impl; [|exact HF].
    cbn. intros; lra. }
  assert (H1 : Rsum l <= INR (length l) * hi).
  { apply Rsum_le_length. eapply Forall_impl; [|exact HF].
    cbn. intros; lra. }
  split.
  - apply Rmult_lt_reg_l with (INR (length l)); [exact Hn|].
    replace (INR (length l) * (Rsum l / INR (length l))) with (Rsum l)
      by (field; lra).
    exact H0.
  - apply Rmult_le_reg_l with (INR (length l)); [exact Hn|].
    replace (INR (length l) * (Rsum l / INR (length l))) with (Rsum l)
      by (field; lra).
    exact H1.
Qed.

Lemma mean_closed_point a : mean_closed (fun v => v = a).
Proof.
  intros l r HF Hr.
  assert (H : a <= r <= a); [|lra].
  apply (@mean_closed_interval a a l r); [|exact Hr].
  eapply Forall_impl; [|exact HF]. cbn. intros; lra.
Qed.

(** ** Phase *)

Lemma angle_range (z : complex) : - PI < angle z <= PI.
Proof.
  destruct z as [a b]. unfold angle.
  pose proof PI_RGT_0 as Hpi.
  destruct (Rlt_dec 0 a) as [Ha|Ha].
  - pose proof (atan_bound (b / a)). lra.
  - destruct (Rlt_dec a 0) as [Ha'|Ha'].
    + pose proof (atan_bound (b / a)) as Hb.
      destruct (Rle_dec 0 b) as [Hb0|Hb0].
      * assert (b / a <= 0).
        { unfold Rdiv. replace 0 with (b * 0) by ring.
          apply Rmult_le_compat_l; [exact Hb0|].
          left. now apply Rinv_lt_0_compat. }
        assert (atan (b / a) <= 0).
        { rewrite <- atan_0. destruct H as [H|H];
            [left; now apply atan_increasing | rewrite H; right; reflexivity]. }
        lra.
      * assert (0 < b / a).
        { unfold Rdiv.
          replace (b * / a) with ((- b) * (- / a)) by ring.
          apply Rmult_lt_0_compat; [lra|].
          pose proof (Rinv_lt_0_compat a Ha'). lra. }
        assert (0 < atan (b / a)).
        { rewrite <- atan_0. now apply atan_increasing. }
        lra.
    + destruct (Rlt_dec 0 b); [lra|]. destruct (Rlt_dec b 0); lra.
Qed.

(** X13 (in exact arithmetic): every phase [mtphase] returns is NaN or
    lies in (-pi, pi]: the average over tapers is the arithmetic mean of
    per-taper phases of that range.  The phases are real numbers here; in
    floating point [np.angle] also gives -pi, for a negative real part
    with an imaginary part of -0.0. *)
Theorem mtphase_range dpss (x : ndarray R) (p : params) (r : pyval) :
  mtphase dpss x p = Ok r ->
  exists a, statistic_of r = Some a /\
            Forall (nan_or (fun v => - PI < v <= PI)) (data a).
Proof.
  unfold mtphase.
  destruct (dispatch (squeeze x)) as [lay|]; cbn [bind]; [|discriminate].
  destruct (FrequencyGrid._get_freq_vector (squeeze x) p (timedim lay))
    as [[[n f] fInd]|]; cbn [bind]; [|discriminate].
  set (a := squeeze (to_ndarray _)).
  assert (Ha : Forall (nan_or (fun v => - PI < v <= PI)) (data a)).
  { unfold a. rewrite data_squeeze. apply to_ndarray_Forall.
    intros c k. unfold mean_tapers. cbn [at2].
    apply Rmean_nan_closed; [apply mean_closed_half_open|].
    rewrite !map_map. apply Forall_map, Forall_forall. intros tap _.
    unfold mask2, mtphase_taper. cbn [at2 t2map mean_trials].
    destruct (Cmean _); cbn; [apply angle_range | exact I]. }
  destruct (bootstrap p); intros H; injection H as <-;
    exists a; split; auto.
Qed.

Lemma mtphase_range_witness :
  exists r,
    mtphase flat_windows opposite_trials unit_params = Ok r /\
    exists a, statistic_of r = Some a /\
              Forall (nan_or (fun v => - PI < v <= PI)) (data a).
Proof.
  eexists. split; [reflexivity|].
  apply (@mtphase_range flat_windows opposite_trials unit_params).
  reflexivity.
Defined.

(** ** Identical trials *)

Lemma Csum_repeat (z : complex) (n : nat) :
  Csum (repeat z n) = Cscal (INR n) z.
Proof.
  induction n as [|n IH].
  - cbn. unfold Cscal, C0. f_equal; ring.
  - change (repeat z (S n)) with (z :: repeat z n).
    cbn [Csum fold_right]. fold (Csum (repeat z n)). rewrite IH, S_INR.
    unfold Cadd, Cscal. cbn. f_equal; ring.
Qed.

Lemma Rsum_repeat (v : R) (n : nat) : Rsum (repeat v n) = INR n * v.
Proof.
  induction n as [|n IH].
  - cbn. ring.
  - change (repeat v (S n)) with (v :: repeat v n).
    cbn [Rsum fold_right]. fold (Rsum (repeat v n)). rewrite IH, S_INR. ring.
Qed.

Lemma INR_S_nonzero (n : nat) : INR (S n) <> 0.
Proof. rewrite S_INR. pose proof (pos_INR n). lra. Qed.

Lemma Cmean_repeat (z : complex) (n : nat) :
  Cmean (repeat z (S n)) = Some z.
Proof.
  unfold Cmean. rewrite repeat_length, Csum_repeat.
  rewrite Cdiv_nan_nonzero by apply INR_S_nonzero. f_equal.
  destruct z as [a b]. unfold Cscal. cbn.
  pose proof (INR_S_nonzero n). f_equal; field; assumption.
Qed.

Lemma Rmean_repeat (v : R) (n : nat) : Rmean (repeat v (S n)) = Some v.
Proof.
  unfold Rmean. rewrite repeat_length, Rsum_repeat.
  rewrite Rdiv_nan_nonzero by apply INR_S_nonzero. f_equal.
  pose proof (INR_S_nonzero n). field; assumption.
Qed.

Lemma all_finite_repeat_None {A} (n : nat) :
  all_finite (repeat (@None A) (S n)) = None.
Proof. reflexivity. Qed.

Lemma all_finite_repeat_Some {A} (a : A) (n : nat) :
  all_finite (repeat (Some a) n) = Some (repeat a n).
Proof.
  induction n as [|n IH]; [reflexivity|].
  cbn. now rewrite IH.
Qed.

Lemma map_repeat {A B} (g : A -> B) (a : A) (n : nat) :
  map g (repeat a n) = repeat (g a) n.
Proof. induction n; cbn; congruence. Qed.

(** Perfect locking: the cell of one taper when all trials hold the same
    coefficient. *)
Lemma locked_cell (p : params) (xw : tensor3 complex) (c k : nat)
  (z : complex) :
  trials_of xw c k = repeat z (ntr xw) ->
  nan_or (fun v => v = 1) (at2 (mtplv_taper p xw) c k).
Proof.
  intros Ht. unfold mtplv_taper.
  destruct (ntr xw) as [|n] eqn:En.
  - destruct (itc p); cbn [negb at2 t2map t2zip mean_trials mean_trials_nan
                           mean_trials_R];
      rewrite ?trials_of_t3map, Ht; cbn; unfold Cmean, Rmean; cbn;
      rewrite ?Cdiv_nan_zero, ?Rdiv_nan_zero; exact I.
  - destruct (itc p); cbn [negb at2 t2map t2zip mean_trials mean_trials_nan
                           mean_trials_R];
      rewrite ?trials_of_t3map, Ht.
    + rewrite Cmean_repeat, map_repeat, Rmean_repeat. cbn [lift1 odiv].
      unfold Rdiv_nan. destruct (Req_EM_T (Cabs2 z) 0) as [|Hz]; [exact I|].
      cbn [nan_or]. unfold Rdiv. now apply Rinv_r.
    + rewrite map_repeat. unfold Cmean_nan.
      destruct (Cunit z) as [u|] eqn:Eu.
      * unfold nanC. rewrite (all_finite_repeat_Some u (S n)), Cmean_repeat. cbn.
        unfold Cabs2. rewrite (Cunit_abs _ Eu). ring.
      * cbn. exact I.
Qed.

Lemma map_const_repeat {A B} (b : B) (l : list A) :
  map (fun _ => b) l = repeat b (length l).
Proof. induction l; cbn; congruence. Qed.

Lemma rfft_bin_ext (s s' : nat -> R) L n k :
  (forall l, (l < L)%nat -> s l = s' l) ->
  rfft_bin s L n k = rfft_bin s' L n k.
Proof.
  intros H. unfold rfft_bin. f_equal. apply map_ext_in. intros l Hl.
  apply in_seq in Hl. rewrite H by lia. reflexivity.
Qed.

(** X14: a recording whose trials are all the same is perfectly locked:
    every value [mtplv] returns for it, in PLV mode and in ITC mode, is
    NaN or exactly 1. *)
Theorem identical_trials_lock dpss (x : ndarray R) (p : params)
  (lay : layout) (r : pyval) :
  dispatch (squeeze x) = Ok lay ->
  (forall c t l,
     (c < nchans lay)%nat -> (t < ntrials lay)%nat -> (l < ntime lay)%nat ->
     sample (squeeze x) lay c t l = sample (squeeze x) lay c O l) ->
  mtplv dpss x p = Ok r ->
  exists a, statistic_of r = Some a /\
            Forall (nan_or (fun v => v = 1)) (data a).
Proof.
  intros Hd Hsame. unfold mtplv. rewrite Hd. cbn [bind].
  destruct (FrequencyGrid._get_freq_vector (squeeze x) p (timedim lay))
    as [[[n f] fInd]|]; cbn [bind]; [|discriminate].
  set (a := squeeze (to_ndarray _)).
  assert (Ha : Forall (nan_or (fun v => v = 1)) (data a)).
  { unfold a. apply pipeline_Forall; [apply mean_closed_point|].
    apply Forall_map, Forall_forall. intros tap _ c k Hc.
    apply locked_cell
      with (z := at3 (rfft tap (squeeze x) lay n) c O k).
    unfold trials_of.
    assert (Hrep : forall (z : complex) m,
               map (fun _ : nat => z) (seq 0 m) = repeat z m)
      by (intros z m; now rewrite map_const_repeat, length_seq).
    rewrite <- Hrep. apply map_ext_in.
    intros t Ht. apply in_seq in Ht. cbn [rfft at3 ntr] in *.
    apply rfft_bin_ext. intros l Hl. rewrite Hsame by lia. reflexivity. }
  destruct (bootstrap p); intros H; injection H as <-;
    exists a; split; auto.
Qed.

Lemma identical_trials_lock_witness :
  exists r,
    mtplv flat_windows impulses unit_params = Ok r /\
    exists a, statistic_of r = Some a /\
              Forall (nan_or (fun v => v = 1)) (data a).
Proof.
  eexists. split; [reflexivity|].
  apply (@identical_trials_lock flat_windows impulses unit_params
           (mklayout 2 1 2 2 2)).
  - reflexivity.
  - intros c t l Hc Ht Hl. cbn in Hc, Ht, Hl.
    change (squeeze impulses) with impulses.
    rewrite !impulses_sample by lia. reflexivity.
  - reflexivity.
Defined.

(** ** Pairwise estimators *)

Lemma Cabs_mul (a b : complex) : Cabs (Cmul a b) = Cabs a * Cabs b.
Proof.
  destruct a as [a1 a2], b as [b1 b2]. unfold Cabs, Cmul. cbn.
  rewrite <- sqrt_mult by apply sumsq_nonneg. f_equal. ring.
Qed.

Lemma Cabs_conj (z : complex) : Cabs (Cconj z) = Cabs z.
Proof. destruct z as [a b]. unfold Cabs, Cconj. cbn. f_equal. ring. Qed.

Lemma Cre_le_Cabs (z : complex) : Rabs (Cre z) <= Cabs z.
Proof.
  destruct z as [a b]. unfold Cabs, Cre. cbn.
  rewrite <- sqrt_Rsqr_abs. apply sqrt_le_1.
  - apply Rle_0_sqr.
  - apply sumsq_nonneg.
  - unfold Rsqr. pose proof (Rle_0_sqr b) as Hb. unfold Rsqr in Hb. lra.
Qed.

Lemma trials_of_t3zip {A B D} (g : A -> B -> D) (s : tensor3 A)
  (t : tensor3 B) c k :
  trials_of (t3zip g s t) c k
  = map (fun r => g (at3 s c r k) (at3 t c r k)) (seq 0 (ntr s)).
Proof. reflexivity. Qed.

Lemma all_finite_each {A} (P : A -> Prop) (l : list (option A))
  (v : list A) :
  (forall a, In (Some a) l -> P a) -> all_finite l = Some v -> Forall P v.
Proof.
  intros H E. apply all_finite_map_Some in E. subst l.
  apply Forall_forall. intros a Ha. apply H. now apply in_map.
Qed.

(** One cell of one taper of [mtppc] in PLV mode. *)
Lemma ppc_cell_range (p : params) (pairs : list (nat * nat))
  (xw : tensor3 complex) (c k : nat) :
  itc p = false ->
  nan_or (fun v => -1 <= v <= 1) (at2 (mtppc_taper p pairs xw) c k).
Proof.
  intros Hitc. unfold mtppc_taper. rewrite Hitc.
  cbn [negb at2 t2map mean_trials_nan].
  rewrite trials_of_t3zip. unfold Cmean_nan.
  destruct (all_finite _) as [v|] eqn:E; [|exact I].
  destruct (Cmean v) as [m|] eqn:Em; [|exact I]. cbn [lift1 nan_or].
  assert (Hv : Forall (fun z => Cabs z <= 1) v).
  { eapply all_finite_each; [|exact E].
    intros w Hw. apply in_map_iff in Hw. destruct Hw as (r & Hr & _).
    cbn [t3map at3 pick] in Hr.
    destruct (Cunit _) as [u1|] eqn:E1; [|discriminate].
    destruct (Cunit (at3 xw c (nth r (map snd pairs) O) k)) as [u2|] eqn:E2;
      [|discriminate].
    cbn in Hr. injection Hr as <-.
    rewrite Cabs_mul, Cabs_conj, (Cunit_abs _ E1), (Cunit_abs _ E2). lra. }
  pose proof (Cmean_bounded Hv Em) as Hm.
  pose proof (Cre_le_Cabs m) as Hre.
  unfold Rabs in Hre. destruct (Rcase_abs (Cre m)); lra.
Qed.

Lemma mapM_Forall {A B} (f : A -> outcome B) (Q : B -> Prop) (l : list A)
  (bs : list B) :
  (forall a b, In a l -> f a = Ok b -> Q b) ->
  mapM f l = Ok bs -> Forall Q bs.
Proof.
  revert bs. induction l as [|a l IH]; intros bs Hf H; cbn in H.
  - injection H as <-. constructor.
  - destruct (f a) as [b|] eqn:Eb; cbn in H; [|discriminate].
    destruct (mapM f l) as [bs'|] eqn:Ebs; cbn in H; [|discriminate].
    injection H as <-. constructor.
    + eapply Hf; [now left | exact Eb].
    + apply IH; [|reflexivity]. intros a' b' Hin. apply Hf. now right.
Qed.

(** X15 (in exact arithmetic): in PLV mode every value [mtppc] returns is
    NaN or lies in [-1, 1].  The values are real numbers here; in floating
    point the rounding of the normalisation and of the means can leave a
    value an ulp outside. *)
Theorem mtppc_range dpss (randint : pair_source) (x : ndarray R)
  (p : params) (r : pyval) :
  itc p = false ->
  mtppc dpss randint x p = Ok r ->
  exists a, statistic_of r = Some a /\
            Forall (nan_or (fun v => -1 <= v <= 1)) (data a).
Proof.
  intros Hitc. unfold mtppc.
  destruct (dispatch (squeeze x)) as [lay|]; cbn [bind]; [|discriminate].
  destruct (FrequencyGrid._get_freq_vector (squeeze x) p (timedim lay))
    as [[[n f] fInd]|]; cbn [bind]; [|discriminate].
  destruct (mapM _ _) as [ppc|] eqn:Eppc; cbn [bind]; [|discriminate].
  set (a := squeeze (to_ndarray _)).
  assert (Ha : Forall (nan_or (fun v => -1 <= v <= 1)) (data a)).
  { unfold a. apply pipeline_Forall; [apply mean_closed_interval|].
    eapply mapM_Forall; [|exact Eppc].
    intros kt s _ Hs c k _. cbn beta in Hs.
    destruct (draw_pairs randint (fst kt) (Npairs p) (ntrials lay))
      as [pairs|]; cbn [bind] in Hs; [|discriminate].
    injection Hs as <-. now apply ppc_cell_range. }
  destruct (bootstrap p); intros H; injection H as <-;
    exists a; split; auto.
Qed.

Lemma mtppc_range_witness :
  exists r,
    mtppc flat_windows no_pairs impulses unit_params = Ok r /\
    exists a, statistic_of r = Some a /\
              Forall (nan_or (fun v => -1 <= v <= 1)) (data a).
Proof.
  eexists. split; [reflexivity|].
  apply (@mtppc_range flat_windows no_pairs impulses unit_params);
    reflexivity.
Defined.

Lemma Rmean_nan_all_nan (l : list nanR) :
  Forall (fun v => v = None) l -> Rmean_nan l = None.
Proof.
  intros H. unfold Rmean_nan. destruct l as [|v l].
  - cbn. unfold Rmean. cbn. apply Rdiv_nan_zero.
  - inversion H; subst. reflexivity.
Qed.

Lemma pipeline_all_nan nchans nbins (fInd : list bool)
  (acc : list (tensor2 nanR)) :
  Forall (fun s => forall c k, (c < nchans)%nat -> at2 s c k = None) acc ->
  Forall (fun v => v = None)
         (data (squeeze (to_ndarray
                  (mask2 fInd (mean_tapers nchans nbins acc))))).
Proof.
  intros Hacc. rewrite data_squeeze. apply to_ndarray_Forall_rows.
  intros c j Hc. rewrite masked_mean_cell.
  apply Rmean_nan_all_nan.
  apply Forall_map. eapply Forall_impl; [|exact Hacc].
  intros s Hs. apply Hs. exact Hc.
Qed.

(** X16: with no pairs to draw, which is the default [Npairs = 0] of
    [generate_parameters], there is nothing to average: every value
    [mtppc] and [mtpspec] return is NaN. *)
Theorem no_pairs_all_nan dpss (randint : pair_source) (x : ndarray R)
  (p : params) (r : pyval) :
  Npairs p = O ->
  mtppc dpss randint x p = Ok r \/ mtpspec dpss randint x p = Ok r ->
  exists a, statistic_of r = Some a /\
            Forall (fun v => v = None) (data a).
Proof.
  intros Hn [H|H]; revert H.
  - unfold mtppc.
    destruct (dispatch (squeeze x)) as [lay|]; cbn [bind]; [|discriminate].
    destruct (FrequencyGrid._get_freq_vector (squeeze x) p (timedim lay))
      as [[[n f] fInd]|]; cbn [bind]; [|discriminate].
    destruct (mapM _ _) as [ppc|] eqn:Eppc; cbn [bind]; [|discriminate].
    set (a := squeeze (to_ndarray _)).
    assert (Ha : Forall (fun v => v = None) (data a)).
    { unfold a. apply pipeline_all_nan.
      eapply mapM_Forall; [|exact Eppc].
      intros kt s _ Hs c k _. cbn beta in Hs.
      unfold draw_pairs in Hs. rewrite Hn in Hs.
      destruct (ntrials lay =? 0)%nat; cbn [bind seq map] in Hs;
        [discriminate|].
      injection Hs as <-. unfold mtppc_taper.
      destruct (itc p); cbn; unfold Cmean, Rmean; cbn;
        rewrite ?Cdiv_nan_zero, ?Rdiv_nan_zero; reflexivity. }
    destruct (bootstrap p); intros H; injection H as <-;
      exists a; split; auto.
  - unfold mtpspec.
    destruct (dispatch (squeeze x)) as [lay|]; cbn [bind]; [|discriminate].
    destruct (FrequencyGrid._get_freq_vector (squeeze x) p (timedim lay))
      as [[[n f] fInd]|]; cbn [bind]; [|discriminate].
    destruct (_ && _)%bool; [discriminate|].
    set (a := squeeze (to_ndarray _)).
    assert (Ha : Forall (fun v => v = None) (data a)).
    { unfold a. apply pipeline_all_nan.
      apply Forall_map, Forall_forall. intros kt _ c k _.
      unfold mtpspec_taper, mtpspec_row. rewrite Hn.
      cbn. unfold Cmean. cbn. now rewrite Cdiv_nan_zero. }
    destruct (bootstrap p); intros H; injection H as <-;
      exists a; split; auto.
Qed.

Lemma no_pairs_all_nan_witness :
  exists r,
    mtppc flat_windows no_pairs impulses unit_params = Ok r /\
    exists a, statistic_of r = Some a /\
              Forall (fun v => v = None) (data a).
Proof.
  eexists. split; [reflexivity|].
  apply (@no_pairs_all_nan flat_windows no_pairs impulses unit_params).
  - reflexivity.
  - left. reflexivity.
Defined.

(** ** The recording under a gain *)

Lemma flat_map_ext_seq {B} (g g' : nat -> list B) (s n : nat) :
  (forall a, (s <= a < s + n)%nat -> g a = g' a) ->
  flat_map g (seq s n) = flat_map g' (seq s n).
Proof.
  revert s. induction n as [|n IH]; intros s H; cbn; [reflexivity|].
  rewrite H by lia. f_equal. apply IH. intros; apply H; lia.
Qed.

Lemma to_ndarray_ext {A} (t t' : tensor2 A) :
  rows t = rows t' -> cols t = cols t' ->
  (forall c k, (c < rows t)%nat -> (k < cols t)%nat ->
               at2 t c k = at2 t' c k) ->
  to_ndarray t = to_ndarray t'.
Proof.
  intros Hr Hc H. unfold to_ndarray. rewrite <- Hr, <- Hc. f_equal.
  apply flat_map_ext_seq. intros c Hin.
  apply map_ext_in. intros k Hk. apply in_seq in Hk.
  apply H; lia.
Qed.

(** Two accumulators that agree cell by cell give the same array. *)
Lemma pipeline_ext {A} nchans nbins (fInd : list bool) (l : list A)
  (g g' : A -> tensor2 nanR) :
  (forall a c k, In a l -> (c < nchans)%nat ->
                 at2 (g a) c k = at2 (g' a) c k) ->
  squeeze (to_ndarray (mask2 fInd (mean_tapers nchans nbins (map g l))))
  = squeeze (to_ndarray (mask2 fInd (mean_tapers nchans nbins (map g' l)))).
Proof.
  intros H. f_equal. apply to_ndarray_ext; try reflexivity.
  intros c j Hc _. rewrite !masked_mean_cell, !map_map. f_equal.
  apply map_ext_in. intros a Ha. apply H; assumption.
Qed.

Lemma all_finite_map_lift {A B} (g : A -> B) (l : list (option A)) :
  all_finite (map (lift1 g) l) = lift1 (map g) (all_finite l).
Proof.
  induction l as [|[a|] l IH]; cbn; [reflexivity| |reflexivity].
  rewrite IH. destruct (all_finite l); reflexivity.
Qed.

Lemma Rsum_map_mult (g : R) (v : list R) :
  Rsum (map (Rmult g) v) = g * Rsum v.
Proof.
  induction v as [|r v IH]; cbn; [ring|].
  fold (Rsum (map (Rmult g) v)). fold (Rsum v). rewrite IH. ring.
Qed.

Lemma Rmean_map_mult (g : R) (v : list R) :
  Rmean (map (Rmult g) v) = lift1 (Rmult g) (Rmean v).
Proof.
  unfold Rmean. rewrite length_map, Rsum_map_mult. unfold Rdiv_nan.
  destruct (Req_EM_T (INR (length v)) 0); cbn; [reflexivity|].
  f_equal. unfold Rdiv. ring.
Qed.

Lemma Rmean_nan_map_mult (g : R) (l : list nanR) :
  Rmean_nan (map (lift1 (Rmult g)) l) = lift1 (Rmult g) (Rmean_nan l).
Proof.
  unfold Rmean_nan. rewrite all_finite_map_lift.
  destruct (all_finite l) as [v|]; cbn; [|reflexivity].
  apply Rmean_map_mult.
Qed.

Lemma flat_map_map_seq {B D} (h : B -> D) (g g' : nat -> list B)
  (gd : nat -> list D) (s n : nat) :
  (forall a, (s <= a < s + n)%nat -> gd a = map h (g a)) ->
  flat_map gd (seq s n) = map h (flat_map g (seq s n)).
Proof.
  revert s. induction n as [|n IH]; intros s H; cbn; [reflexivity|].
  rewrite map_app, H by lia. f_equal. apply IH. intros; apply H; lia.
Qed.

(** An accumulator that is another one times [g], cell by cell, gives the
    other array times [g]. *)
Lemma pipeline_scaled {A} (g0 : R) nchans nbins (fInd : list bool)
  (l : list A) (g g' : A -> tensor2 nanR) :
  (forall a c k, In a l -> (c < nchans)%nat ->
                 at2 (g' a) c k = lift1 (Rmult g0) (at2 (g a) c k)) ->
  squeeze (to_ndarray (mask2 fInd (mean_tapers nchans nbins (map g' l))))
  = scale_values g0
      (squeeze (to_ndarray
                  (mask2 fInd (mean_tapers nchans nbins (map g l))))).
Proof.
  intros H. unfold scale_values, squeeze. cbn [shape data to_ndarray].
  cbn [rows cols mask2 mean_tapers]. f_equal.
  apply flat_map_map_seq with (g' := fun _ => []).
  intros c Hc. rewrite map_map. apply map_ext_in. intros j _.
  change (at2 (mask2 fInd (mean_tapers nchans nbins (map g' l))) c j
          = lift1 (Rmult g0)
              (at2 (mask2 fInd (mean_tapers nchans nbins (map g l))) c j)).
  rewrite !masked_mean_cell, <- Rmean_nan_map_mult, !map_map. f_equal.
  apply map_ext_in. intros a Ha. apply H; [exact Ha | lia].
Qed.

Lemma sample_scale (a : R) (x : ndarray R) lay c t l :
  sample (scale a x) lay c t l = a * sample x lay c t l.
Proof.
  unfold sample, scale. cbn [data].
  replace 0 with (a * 0) at 1 by ring. apply map_nth.
Qed.

Lemma Csum_map_scal (a : R) (l : list complex) :
  Csum (map (Cscal a) l) = Cscal a (Csum l).
Proof.
  induction l as [|z l IH]; cbn.
  - unfold Cscal, C0. cbn. f_equal; ring.
  - fold (Csum (map (Cscal a) l)). fold (Csum l). rewrite IH.
    now rewrite Cscal_add.
Qed.

Lemma rfft_scale (a : R) (tap : list R) (x : ndarray R) lay n c t k :
  at3 (rfft tap (scale a x) lay n) c t k
  = Cscal a (at3 (rfft tap x lay n) c t k).
Proof.
  cbn [rfft at3]. unfold rfft_bin. rewrite <- Csum_map_scal, map_map.
  f_equal. apply map_ext. intros l. rewrite sample_scale.
  unfold Cscal. cbn. f_equal; ring.
Qed.

Lemma trials_scale (a : R) (tap : list R) (x : ndarray R) lay n c k :
  trials_of (rfft tap (scale a x) lay n) c k
  = map (Cscal a) (trials_of (rfft tap x lay n) c k).
Proof.
  unfold trials_of. rewrite map_map. apply map_ext. intros t.
  apply rfft_scale.
Qed.

Lemma Cabs_scal_abs (a : R) (z : complex) :
  Cabs (Cscal a z) = Rabs a * Cabs z.
Proof.
  destruct z as [x y]. unfold Cabs, Cscal. cbn.
  rewrite <- sqrt_Rsqr_abs, <- sqrt_mult;
    [|apply Rle_0_sqr | apply sumsq_nonneg].
  f_equal. unfold Rsqr. ring.
Qed.

Lemma Cscal_scal (a b : R) (z : complex) :
  Cscal a (Cscal b z) = Cscal (a * b) z.
Proof. destruct z. unfold Cscal. cbn. f_equal; ring. Qed.

Lemma Cunit_scal (a : R) (z : complex) :
  a <> 0 -> Cunit (Cscal a z) = lift1 (Cscal (a / Rabs a)) (Cunit z).
Proof.
  intros Ha. unfold Cunit, Cdiv_nan. rewrite Cabs_scal_abs.
  assert (Habs : Rabs a <> 0) by now apply Rabs_no_R0.
  destruct (Req_EM_T (Cabs z) 0) as [Hz|Hz].
  - rewrite Hz, Rmult_0_r.
    destruct (Req_EM_T 0 0); [reflexivity|contradiction].
  - destruct (Req_EM_T (Rabs a * Cabs z) 0) as [H0|H0].
    + apply Rmult_integral in H0. destruct H0; contradiction.
    + cbn. f_equal. rewrite !Cscal_scal. f_equal. field. split; assumption.
Qed.

Lemma Cmean_map_scal (a : R) (l : list complex) :
  Cmean (map (Cscal a) l) = lift1 (Cscal a) (Cmean l).
Proof.
  unfold Cmean. rewrite length_map, Csum_map_scal. unfold Cdiv_nan.
  destruct (Req_EM_T (INR (length l)) 0); cbn; [reflexivity|].
  f_equal. rewrite !Cscal_scal. f_equal. ring.
Qed.

Lemma Cmean_nan_map_scal (a : R) (l : list nanC) :
  Cmean_nan (map (lift1 (Cscal a)) l) = lift1 (Cscal a) (Cmean_nan l).
Proof.
  unfold Cmean_nan. rewrite all_finite_map_lift.
  destruct (all_finite l) as [v|]; cbn; [|reflexivity].
  apply Cmean_map_scal.
Qed.

Lemma sign_square (a : R) : a <> 0 -> a / Rabs a * (a / Rabs a) = 1.
Proof.
  intros Ha. assert (Habs : Rabs a <> 0) by now apply Rabs_no_R0.
  replace (a / Rabs a * (a / Rabs a)) with (a * a / (Rabs a * Rabs a))
    by (field; assumption).
  replace (Rabs a * Rabs a) with (a * a).
  - field. assumption.
  - unfold Rabs. destruct (Rcase_abs a); ring.
Qed.

(** One cell of one taper of [mtplv], under a gain. *)
Lemma plv_cell_gain (p : params) (a : R) (tap : list R) (x : ndarray R)
  lay n c k :
  a <> 0 ->
  at2 (mtplv_taper p (rfft tap (scale a x) lay n)) c k
  = at2 (mtplv_taper p (rfft tap x lay n)) c k.
Proof.
  intros Ha. unfold mtplv_taper.
  destruct (itc p); cbn [negb at2 t2map t2zip mean_trials mean_trials_nan
                         mean_trials_R];
    rewrite !trials_of_t3map, trials_scale.
  - rewrite Cmean_map_scal, map_map.
    rewrite (map_ext (fun z => Cabs2 (Cscal a z))
                     (fun z => a * a * Cabs2 z))
      by (intros; apply Cabs2_scal).
    rewrite <- (map_map Cabs2 (Rmult (a * a))), Rmean_map_mult.
    destruct (Cmean _) as [m|]; [|reflexivity].
    destruct (Rmean _) as [d|]; [|reflexivity].
    cbn [lift1 odiv]. rewrite Cabs2_scal. unfold Rdiv_nan.
    assert (Haa : a * a <> 0) by (apply Rmult_integral_contrapositive; tauto).
    destruct (Req_EM_T d 0) as [Hd|Hd].
    + rewrite Hd, Rmult_0_r.
      destruct (Req_EM_T 0 0); [reflexivity|contradiction].
    + destruct (Req_EM_T (a * a * d) 0) as [H0|H0].
      * apply Rmult_integral in H0. destruct H0; contradiction.
      * f_equal. field. split; assumption.
  - rewrite map_map.
    rewrite (map_ext (fun z => Cunit (Cscal a z))
                     (fun z => lift1 (Cscal (a / Rabs a)) (Cunit z)))
      by (intros; now apply Cunit_scal).
    rewrite <- (map_map Cunit (lift1 (Cscal (a / Rabs a)))).
    rewrite Cmean_nan_map_scal.
    destruct (Cmean_nan _) as [m|]; [|reflexivity].
    cbn [lift1]. f_equal. rewrite Cabs2_scal, sign_square by exact Ha. ring.
Qed.

(** X17 (in exact arithmetic): phase locking does not depend on the gain
    or the polarity of the recording: for every non-zero [a], [mtplv]
    returns for [a * x] what it returns for [x], in PLV mode and in ITC
    mode.  Over floats the two results agree up to rounding only, and a
    gain that overflows or underflows the samples breaks the identity. *)
Theorem mtplv_gain_invariant dpss (a : R) (x : ndarray R) (p : params) :
  a <> 0 -> mtplv dpss (scale a x) p = mtplv dpss x p.
Proof.
  intros Ha. unfold mtplv.
  change (squeeze (scale a x)) with (scale a (squeeze x)).
  change (dispatch (scale a (squeeze x))) with (dispatch (squeeze x)).
  destruct (dispatch (squeeze x)) as [lay|]; cbn [bind]; [|reflexivity].
  change (FrequencyGrid._get_freq_vector (scale a (squeeze x)) p (timedim lay))
    with (FrequencyGrid._get_freq_vector (squeeze x) p (timedim lay)).
  destruct (FrequencyGrid._get_freq_vector (squeeze x) p (timedim lay))
    as [[[n f] fInd]|]; cbn [bind]; [|reflexivity].
  change (windows dpss (scale a (squeeze x)) lay p)
    with (windows dpss (squeeze x) lay p).
  rewrite (@pipeline_ext _ (nchans lay) (length fInd) fInd
             (windows dpss (squeeze x) lay p)
             (fun tap => mtplv_taper p (rfft tap (scale a (squeeze x)) lay n))
             (fun tap => mtplv_taper p (rfft tap (squeeze x) lay n))).
  - reflexivity.
  - intros tap c k _ _. now apply plv_cell_gain.
Qed.

Lemma mtplv_gain_invariant_witness :
  mtplv flat_windows (scale (-3) impulses) unit_params
  = mtplv flat_windows impulses unit_params.
Proof.
  apply mtplv_gain_invariant. lra.
Defined.

Lemma Cmul_scal_l (a : R) (z w : complex) :
  Cmul (Cscal a z) w = Cscal a (Cmul z w).
Proof. destruct z, w. unfold Cmul, Cscal. cbn. f_equal; ring. Qed.

Lemma spectrum_cell_gain (a : R) (tap : list R) (x : ndarray R) lay n c k :
  at2 (mtspec_S (rfft tap (scale a x) lay n)) c k
  = lift1 (Rmult (Rabs a)) (at2 (mtspec_S (rfft tap x lay n)) c k).
Proof.
  unfold mtspec_S. cbn [at2 t2map mean_trials].
  rewrite trials_scale, Cmean_map_scal.
  destruct (Cmean _) as [m|]; [|reflexivity].
  cbn [lift1]. now rewrite Cabs_scal_abs.
Qed.

Lemma noise_cell_gain (a : R) (u : nat -> nat -> nat -> R) (tap : list R)
  (x : ndarray R) lay n c k :
  at2 (mtspec_N u (rfft tap (scale a x) lay n)) c k
  = lift1 (Rmult (Rabs a)) (at2 (mtspec_N u (rfft tap x lay n)) c k).
Proof.
  unfold mtspec_N. cbn [at2 t2map mean_trials].
  unfold trials_of. cbn [at3 ntr nch nbin rfft].
  rewrite (map_ext
             (fun t => Cmul
                         (rfft_bin (fun l => nth l tap 0
                                             * sample (scale a x) lay c t l)
                                   (ntime lay) n k)
                         (cis (u c t k * 2 * PI)))
             (fun t => Cscal a
                         (Cmul
                            (rfft_bin (fun l => nth l tap 0
                                                * sample x lay c t l)
                                      (ntime lay) n k)
                            (cis (u c t k * 2 * PI))))).
  - rewrite <- (map_map _ (Cscal a)), Cmean_map_scal.
    destruct (Cmean _) as [m|]; [|reflexivity].
    cbn [lift1]. now rewrite Cabs_scal_abs.
  - intros t. rewrite <- Cmul_scal_l. f_equal.
    exact (rfft_scale a tap x lay n c t k).
Qed.

Lemma raw_cell_gain (a : R) (tap : list R) (x : ndarray R) lay n c k :
  at2 (mtspecraw_taper (rfft tap (scale a x) lay n)) c k
  = lift1 (Rmult (a * a)) (at2 (mtspecraw_taper (rfft tap x lay n)) c k).
Proof.
  unfold mtspecraw_taper. cbn [at2 mean_trials_R].
  rewrite !trials_of_t3map, trials_scale, map_map.
  rewrite (map_ext (fun z => Cabs2 (Cscal a z))
                   (fun z => a * a * Cabs2 z))
    by (intros; apply Cabs2_scal).
  rewrite <- (map_map Cabs2 (Rmult (a * a))). apply Rmean_map_mult.
Qed.

(** X18 (in exact arithmetic): spectra scale with the gain of the
    recording.  For every [a], [mtspec] returns for [a * x] the spectrum
    and the noise floor of [x] times [|a|], and [mtspecraw] the raw
    spectrum of [x] times [a^2], NaN for NaN, on the same frequency axis
    and with the same exceptions.  Over floats the identity holds up to
    rounding, and within the range of the format only. *)
Theorem spectrum_homogeneous dpss (rs : sample_source) (a : R)
  (x : ndarray R) (p : params) :
  mtspec dpss rs (scale a x) p
  = (r <- mtspec dpss rs x p ;; Ok (rescale (Rabs a) r)) /\
  mtspecraw dpss (scale a x) p
  = (r <- mtspecraw dpss x p ;; Ok (rescale (a * a) r)).
Proof.
  split.
  - unfold mtspec.
    change (squeeze (scale a x)) with (scale a (squeeze x)).
    change (dispatch (scale a (squeeze x))) with (dispatch (squeeze x)).
    destruct (dispatch (squeeze x)) as [lay|]; cbn [bind]; [|reflexivity].
    change (FrequencyGrid._get_freq_vector (scale a (squeeze x)) p
                                           (timedim lay))
      with (FrequencyGrid._get_freq_vector (squeeze x) p (timedim lay)).
    destruct (FrequencyGrid._get_freq_vector (squeeze x) p (timedim lay))
      as [[[n f] fInd]|]; cbn [bind]; [|reflexivity].
    change (windows dpss (scale a (squeeze x)) lay p)
      with (windows dpss (squeeze x) lay p).
    rewrite (@pipeline_scaled _ (Rabs a) (nchans lay) (length fInd) fInd
               (windows dpss (squeeze x) lay p)
               (fun tap => mtspec_S (rfft tap (squeeze x) lay n))
               (fun tap => mtspec_S (rfft tap (scale a (squeeze x)) lay n)))
      by (intros; apply spectrum_cell_gain).
    rewrite (@pipeline_scaled _ (Rabs a) (nchans lay) (length fInd) fInd
               (enumerate (windows dpss (squeeze x) lay p))
               (fun kt => mtspec_N (rs (fst kt))
                                   (rfft (snd kt) (squeeze x) lay n))
               (fun kt => mtspec_N (rs (fst kt))
                                   (rfft (snd kt) (scale a (squeeze x))
                                         lay n)))
      by (intros; apply noise_cell_gain).
    destruct (bootstrap p); reflexivity.
  - unfold mtspecraw.
    change (squeeze (scale a x)) with (scale a (squeeze x)).
    change (dispatch (scale a (squeeze x))) with (dispatch (squeeze x)).
    destruct (dispatch (squeeze x)) as [lay|]; cbn [bind]; [|reflexivity].
    change (FrequencyGrid._get_freq_vector (scale a (squeeze x)) p
                                           (timedim lay))
      with (FrequencyGrid._get_freq_vector (squeeze x) p (timedim lay)).
    destruct (FrequencyGrid._get_freq_vector (squeeze x) p (timedim lay))
      as [[[n f] fInd]|]; cbn [bind]; [|reflexivity].
    change (windows dpss (scale a (squeeze x)) lay p)
      with (windows dpss (squeeze x) lay p).
    rewrite (@pipeline_scaled _ (a * a) (nchans lay) (length fInd) fInd
               (windows dpss (squeeze x) lay p)
               (fun tap => mtspecraw_taper (rfft tap (squeeze x) lay n))
               (fun tap => mtspecraw_taper
                             (rfft tap (scale a (squeeze x)) lay n)))
      by (intros; apply raw_cell_gain).
    destruct (bootstrap p); reflexivity.
Qed.

(** ** Evoked and raw power *)

Lemma Forall2_flat_map_seq {B D} (Rel : B -> D -> Prop)
  (g : nat -> list B) (g' : nat -> list D) (s n : nat) :
  (forall a, (s <= a < s + n)%nat -> Forall2 Rel (g a) (g' a)) ->
  Forall2 Rel (flat_map g (seq s n)) (flat_map g' (seq s n)).
Proof.
  revert s. induction n as [|n IH]; intros s H; cbn; [constructor|].
  apply Forall2_app; [apply H; lia|]. apply IH. intros; apply H; lia.
Qed.

Lemma Forall2_map_same {A B D} (Rel : B -> D -> Prop) (g : A -> B)
  (g' : A -> D) (l : list A) :
  (forall a, In a l -> Rel (g a) (g' a)) ->
  Forall2 Rel (map g l) (map g' l).
Proof.
  induction l as [|a l IH]; intros H; cbn; constructor.
  - apply H. now left.
  - apply IH. intros; apply H; now right.
Qed.

Lemma pipeline_Forall2 {A} (Rel : nanR -> nanR -> Prop) nchans nbins
  (fInd : list bool) (l : list A) (g g' : A -> tensor2 nanR) :
  (forall c j, (c < nchans)%nat ->
     Rel (Rmean_nan (map (fun a => at2 (g a) c j) l))
         (Rmean_nan (map (fun a => at2 (g' a) c j) l))) ->
  Forall2 Rel
    (data (squeeze (to_ndarray
             (mask2 fInd (mean_tapers nchans nbins (map g l))))))
    (data (squeeze (to_ndarray
             (mask2 fInd (mean_tapers nchans nbins (map g' l)))))).
Proof.
  intros H. rewrite !data_squeeze. cbn [data to_ndarray rows cols mask2
                                        mean_tapers].
  apply Forall2_flat_map_seq. intros c Hc.
  apply Forall2_map_same. intros j _.
  change (Rel (at2 (mask2 fInd (mean_tapers nchans nbins (map g l))) c j)
              (at2 (mask2 fInd (mean_tapers nchans nbins (map g' l))) c j)).
  rewrite !masked_mean_cell, !map_map. apply H. lia.
Qed.

Lemma Rsum_le_pointwise (ls lw : list R) :
  Forall2 Rle ls lw -> Rsum ls <= Rsum lw.
Proof.
  induction 1 as [|s w ls lw Hsw _ IH]; cbn; [lra|].
  fold (Rsum ls). fold (Rsum lw). lra.
Qed.

Lemma all_finite_Forall2 (Rel : nanR -> nanR -> Prop)
  (Rel' : R -> R -> Prop) (ls lw : list nanR) (vs vw : list R) :
  (forall s w, Rel (Some s) (Some w) -> Rel' s w) ->
  Forall2 Rel ls lw ->
  all_finite ls = Some vs -> all_finite lw = Some vw ->
  Forall2 Rel' vs vw.
Proof.
  intros HR H. revert vs vw.
  induction H as [|s w ls lw Hsw _ IH]; intros vs vw Es Ew; cbn in Es, Ew.
  - injection Es as <-. injection Ew as <-. constructor.
  - destruct s as [s|]; [|discriminate]. destruct w as [w|]; [|discriminate].
    destruct (all_finite ls) as [vs'|]; [|discriminate].
    destruct (all_finite lw) as [vw'|]; [|discriminate].
    cbn in Es, Ew. injection Es as <-. injection Ew as <-.
    constructor; [now apply HR | now apply IH].
Qed.

(** The mean keeps "square below". *)
Lemma mean_square_below (ls lw : list nanR) :
  Forall2 square_below ls lw ->
  square_below (Rmean_nan ls) (Rmean_nan lw).
Proof.
  intros H s0 w0 Es Ew. unfold Rmean_nan in Es, Ew.
  destruct (all_finite ls) as [vs|] eqn:Als; [|discriminate].
  destruct (all_finite lw) as [vw|] eqn:Alw; [|discriminate].
  pose proof (@all_finite_Forall2 square_below
                (fun s w => 0 <= s /\ s * s <= w) ls lw vs vw
                (fun s w Hsw => Hsw s w eq_refl eq_refl) H Als Alw) as Hv.
  apply Rdiv_nan_Some in Es, Ew.
  destruct Es as [Hn ->], Ew as [Hn' ->].
  assert (Hlen : length vw = length vs)
    by (symmetry; eapply Forall2_length; exact Hv).
  rewrite Hlen in *. apply INR_length_pos in Hn.
  assert (H0 : 0 <= Rsum vs).
  { apply Rsum_nonneg. clear - Hv. induction Hv; constructor; tauto. }
  assert (Hsq : Rsum (map (fun r => r * r) vs) <= Rsum vw).
  { apply Rsum_le_pointwise. clear - Hv.
    induction Hv; cbn; constructor; tauto. }
  pose proof (Rsum_sq_le vs) as HCS.
  split.
  - apply Rmult_le_pos; [exact H0|]. left. now apply Rinv_0_lt_compat.
  - apply Rmult_le_reg_l with (INR (length vs) * INR (length vs)).
    + now apply Rmult_lt_0_compat.
    + replace (INR (length vs) * INR (length vs)
               * (Rsum vs / INR (length vs) * (Rsum vs / INR (length vs))))
        with (Rsum vs * Rsum vs) by (field; lra).
      replace (INR (length vs) * INR (length vs)
               * (Rsum vw / INR (length vs)))
        with (INR (length vs) * Rsum vw) by (field; lra).
      apply Rle_trans with (INR (length vs) * Rsum (map (fun r => r * r) vs));
        [exact HCS|].
      apply Rmult_le_compat_l; [lra|exact Hsq].
Qed.

(** One cell of one taper: the evoked magnitude against the raw power. *)
Lemma evoked_cell_below_raw (xw : tensor3 complex) (c k : nat) :
  square_below (at2 (mtspec_S xw) c k) (at2 (mtspecraw_taper xw) c k).
Proof.
  unfold mtspec_S, mtspecraw_taper.
  cbn [at2 t2map mean_trials mean_trials_R]. rewrite trials_of_t3map.
  set (xs := trials_of xw c k).
  intros s0 w0 Es Ew.
  destruct (Cmean xs) as [m|] eqn:Em; [|discriminate].
  cbn in Es. injection Es as <-.
  apply Cdiv_nan_Some in Em. destruct Em as [Hn ->].
  apply Rdiv_nan_Some in Ew. destruct Ew as [_ ->].
  rewrite length_map.
  split; [apply Cabs_nonneg|].
  replace (Cabs (Cscal (/ INR (length xs)) (Csum xs))
           * Cabs (Cscal (/ INR (length xs)) (Csum xs)))
    with (Cabs2 (Cscal (/ INR (length xs)) (Csum xs)))
    by (unfold Cabs2; ring).
  rewrite Cabs2_scal.
  pose proof (Cabs_Csum_sq xs) as HCS.
  pose proof (INR_length_pos _ Hn) as Hpos.
  apply Rmult_le_reg_l with (INR (length xs) * INR (length xs)).
  - now apply Rmult_lt_0_compat.
  - replace (INR (length xs) * INR (length xs)
             * (/ INR (length xs) * / INR (length xs) * Cabs2 (Csum xs)))
      with (Cabs2 (Csum xs)) by (field; lra).
    replace (INR (length xs) * INR (length xs)
             * (Rsum (map Cabs2 xs) / INR (length xs)))
      with (INR (length xs) * Rsum (map Cabs2 xs)) by (field; lra).
    exact HCS.
Qed.

(** X19 (in exact arithmetic): the evoked spectrum is bounded by the raw
    one.  Entry by entry, where both are finite, the spectrum [mtspec]
    returns is not negative and its square is not above the raw spectrum
    of [mtspecraw] for the same recording and parameters.  Over floats the
    square can exceed the raw value by rounding where the two are equal
    in exact arithmetic (a single trial, or identical trials). *)
Theorem evoked_below_raw dpss (rs : sample_source) (x : ndarray R)
  (p : params) (r r' : pyval) :
  mtspec dpss rs x p = Ok r ->
  mtspecraw dpss x p = Ok r' ->
  exists S Sraw,
    statistic_of r = Some S /\ statistic_of r' = Some Sraw /\
    shape S = shape Sraw /\
    Forall2 square_below (data S) (data Sraw).
Proof.
  unfold mtspec, mtspecraw.
  destruct (dispatch (squeeze x)) as [lay|]; cbn [bind]; [|discriminate].
  destruct (FrequencyGrid._get_freq_vector (squeeze x) p (timedim lay))
    as [[[n f] fInd]|]; cbn [bind]; [|discriminate].
  set (S := squeeze (to_ndarray
               (mask2 fInd (mean_tapers (nchans lay) (length fInd)
                  (map (fun tap => mtspec_S (rfft tap (squeeze x) lay n))
                       (windows dpss (squeeze x) lay p)))))).
  set (Sraw := squeeze (to_ndarray
                  (mask2 fInd (mean_tapers (nchans lay) (length fInd)
                     (map (fun tap => mtspecraw_taper
                                        (rfft tap (squeeze x) lay n))
                          (windows dpss (squeeze x) lay p)))))).
  assert (HF : Forall2 square_below (data S) (data Sraw)).
  { unfold S, Sraw. apply pipeline_Forall2. intros c j _.
    apply mean_square_below. apply Forall2_map_same. intros tap _.
    apply evoked_cell_below_raw. }
  intros H H'. exists S, Sraw.
  destruct (bootstrap p); injection H as <-; injection H' as <-;
    repeat split; try reflexivity; exact HF.
Qed.

Lemma evoked_below_raw_witness :
  exists r r',
    mtspec flat_windows no_samples opposite_trials unit_params = Ok r /\
    mtspecraw flat_windows opposite_trials unit_params = Ok r' /\
    exists S Sraw,
      statistic_of r = Some S /\ statistic_of r' = Some Sraw /\
      shape S = shape Sraw /\
      Forall2 square_below (data S) (data Sraw).
Proof.
  eexists. eexists. split; [reflexivity|]. split; [reflexivity|].
  apply (@evoked_below_raw flat_windows no_samples opposite_trials
           unit_params); reflexivity.
Defined.

(** ** The order of the two trials of a pair *)

Lemma Csum_map_conj (l : list complex) :
  Csum (map Cconj l) = Cconj (Csum l).
Proof.
  induction l as [|z l IH]; cbn.
  - unfold Cconj, C0. cbn. f_equal. ring.
  - fold (Csum (map Cconj l)). fold (Csum l). rewrite IH.
    destruct z, (Csum l). unfold Cadd, Cconj. cbn. f_equal. ring.
Qed.

Lemma Cmean_map_conj (l : list complex) :
  Cmean (map Cconj l) = lift1 Cconj (Cmean l).
Proof.
  unfold Cmean. rewrite length_map, Csum_map_conj. unfold Cdiv_nan.
  destruct (Req_EM_T (INR (length l)) 0); cbn; [reflexivity|].
  f_equal. destruct (Csum l). unfold Cscal, Cconj. cbn. f_equal. ring.
Qed.

Lemma Cmean_nan_map_conj (l : list nanC) :
  Cmean_nan (map (lift1 Cconj) l) = lift1 Cconj (Cmean_nan l).
Proof.
  unfold Cmean_nan. rewrite all_finite_map_lift.
  destruct (all_finite l) as [v|]; cbn; [|reflexivity].
  apply Cmean_map_conj.
Qed.

Lemma Cmul_conj_swap (a b : complex) :
  Cmul b (Cconj a) = Cconj (Cmul a (Cconj b)).
Proof. destruct a, b. unfold Cmul, Cconj. cbn. f_equal; ring. Qed.

Lemma Cre_lift_conj (m : nanC) : lift1 Cre (lift1 Cconj m) = lift1 Cre m.
Proof. destruct m as [[a b]|]; reflexivity. Qed.

Lemma filter_map_swap (pairs : list (nat * nat)) :
  filter (fun ij => negb (fst ij =? snd ij)%nat)
         (map (fun ij => (snd ij, fst ij)) pairs)
  = map (fun ij => (snd ij, fst ij))
        (filter (fun ij => negb (fst ij =? snd ij)%nat) pairs).
Proof.
  induction pairs as [|[i j] l IH]; cbn; [reflexivity|].
  rewrite (Nat.eqb_sym j i). destruct (i =? j)%nat; cbn; now rewrite IH.
Qed.

Lemma mtpspec_row_swap (pairs : list (nat * nat)) (xw : tensor3 complex)
  (ch k : nat) :
  mtpspec_row (map (fun ij => (snd ij, fst ij)) pairs) xw ch k
  = mtpspec_row pairs xw ch k.
Proof.
  unfold mtpspec_row. rewrite filter_map_swap, map_map. cbn [fst snd].
  rewrite (map_ext
             (fun ij => Cmul (at3 xw ch (snd ij) k)
                             (Cconj (at3 xw ch (fst ij) k)))
             (fun ij => Cconj (Cmul (at3 xw ch (fst ij) k)
                                    (Cconj (at3 xw ch (snd ij) k)))))
    by (intros; apply Cmul_conj_swap).
  rewrite <- (map_map _ Cconj), Cmean_map_conj. apply Cre_lift_conj.
Qed.

Lemma lift2_conj_swap (a b : nanC) :
  lift2 (fun x y => Cmul x (Cconj y)) b a
  = lift1 Cconj (lift2 (fun x y => Cmul x (Cconj y)) a b).
Proof.
  destruct a, b; cbn; try reflexivity. f_equal. apply Cmul_conj_swap.
Qed.

Lemma lift2_Rmult_comm (a b : nanR) : lift2 Rmult a b = lift2 Rmult b a.
Proof. destruct a, b; cbn; try reflexivity. f_equal. ring. Qed.

Lemma mtppc_taper_swap (p : params) (pairs : list (nat * nat))
  (xw : tensor3 complex) (c k : nat) :
  at2 (mtppc_taper p (map (fun ij => (snd ij, fst ij)) pairs) xw) c k
  = at2 (mtppc_taper p pairs xw) c k.
Proof.
  unfold mtppc_taper. rewrite !map_map. cbn [fst snd].
  change (map (fun x : nat * nat => snd x) pairs) with (map snd pairs).
  change (map (fun x : nat * nat => fst x) pairs) with (map fst pairs).
  destruct (itc p); cbn [negb at2 t2map t2zip mean_trials mean_trials_nan
                         mean_trials_R].
  - f_equal; [|apply lift2_Rmult_comm].
    rewrite !trials_of_t3zip. cbn [pick ntr at3]. rewrite !length_map.
    rewrite (map_ext
               (fun r => Cmul (at3 xw c (nth r (map snd pairs) O) k)
                              (Cconj (at3 xw c (nth r (map fst pairs) O) k)))
               (fun r => Cconj
                           (Cmul (at3 xw c (nth r (map fst pairs) O) k)
                                 (Cconj (at3 xw c (nth r (map snd pairs) O)
                                             k)))))
      by (intros; apply Cmul_conj_swap).
    rewrite <- (map_map _ Cconj), Cmean_map_conj. apply Cre_lift_conj.
  - rewrite !trials_of_t3zip. cbn [t3map pick ntr at3]. rewrite !length_map.
    rewrite (map_ext
               (fun r => lift2 (fun a b => Cmul a (Cconj b))
                           (Cunit (at3 xw c (nth r (map snd pairs) O) k))
                           (Cunit (at3 xw c (nth r (map fst pairs) O) k)))
               (fun r => lift1 Cconj
                           (lift2 (fun a b => Cmul a (Cconj b))
                              (Cunit (at3 xw c (nth r (map fst pairs) O) k))
                              (Cunit (at3 xw c (nth r (map snd pairs) O)
                                          k)))))
      by (intros; apply lift2_conj_swap).
    rewrite <- (map_map _ (lift1 Cconj)), Cmean_nan_map_conj.
    apply Cre_lift_conj.
Qed.

Lemma mapM_pure {A B} (f : A -> outcome B) (g : A -> B) (l : list A) :
  (forall a, In a l -> f a = Ok (g a)) -> mapM f l = Ok (map g l).
Proof.
  induction l as [|a l IH]; intros H; cbn; [reflexivity|].
  rewrite H by now left. cbn [bind].
  rewrite IH by (intros; apply H; now right). reflexivity.
Qed.

Lemma mapM_first_raise {A B} (f : A -> outcome B) (e : exn) (l : list A) :
  l <> [] -> (forall a, In a l -> f a = Raise e) -> mapM f l = Raise e.
Proof.
  destruct l as [|a l]; [contradiction|]. intros _ H. cbn.
  rewrite H by now left. reflexivity.
Qed.

(** X20: the pairwise estimators do not depend on the order of the two
    trials of a pair: with every drawn pair exchanged, [mtpspec] and
    [mtppc] return the same. *)
Theorem pair_order_irrelevant dpss (randint : pair_source) (x : ndarray R)
  (p : params) :
  mtpspec dpss (swapped randint) x p = mtpspec dpss randint x p /\
  mtppc dpss (swapped randint) x p = mtppc dpss randint x p.
Proof.
  split.
  - unfold mtpspec.
    destruct (dispatch (squeeze x)) as [lay|]; cbn [bind]; [|reflexivity].
    destruct (FrequencyGrid._get_freq_vector (squeeze x) p (timedim lay))
      as [[[n f] fInd]|]; cbn [bind]; [|reflexivity].
    destruct (_ && _)%bool; [reflexivity|].
    rewrite (@pipeline_ext _ (nchans lay) (length fInd) fInd
               (enumerate (windows dpss (squeeze x) lay p))
               (fun kt => mtpspec_taper (swapped randint) p lay fInd
                            (length (windows dpss (squeeze x) lay p))
                            (fst kt) (rfft (snd kt) (squeeze x) lay n))
               (fun kt => mtpspec_taper randint p lay fInd
                            (length (windows dpss (squeeze x) lay p))
                            (fst kt) (rfft (snd kt) (squeeze x) lay n))).
    + reflexivity.
    + intros kt c k _ _. unfold mtpspec_taper. cbn [at2].
      rewrite <- (mtpspec_row_swap
                    (map (randint (c * _ + fst kt)%nat) (seq 0 (Npairs p)))).
      rewrite map_map. reflexivity.
  - unfold mtppc.
    destruct (dispatch (squeeze x)) as [lay|]; cbn [bind]; [|reflexivity].
    destruct (FrequencyGrid._get_freq_vector (squeeze x) p (timedim lay))
      as [[[n f] fInd]|]; cbn [bind]; [|reflexivity].
    set (w := enumerate (windows dpss (squeeze x) lay p)).
    unfold draw_pairs.
    destruct (ntrials lay =? 0)%nat eqn:Ent.
    + destruct w as [|kt w']; [reflexivity|].
      rewrite !(@mapM_first_raise _ _ _ ValueError (kt :: w'));
        try discriminate; try reflexivity.
    + rewrite (@mapM_pure _ _ _
                 (fun kt => mtppc_taper p
                              (map (swapped randint (fst kt))
                                   (seq 0 (Npairs p)))
                              (rfft (snd kt) (squeeze x) lay n)) w)
        by reflexivity.
      rewrite (@mapM_pure _ _ _
                 (fun kt => mtppc_taper p
                              (map (randint (fst kt)) (seq 0 (Npairs p)))
                              (rfft (snd kt) (squeeze x) lay n)) w)
        by reflexivity.
      cbn [bind].
      rewrite (@pipeline_ext _ (nchans lay) (length fInd) fInd w
                 (fun kt => mtppc_taper p
                              (map (swapped randint (fst kt))
                                   (seq 0 (Npairs p)))
                              (rfft (snd kt) (squeeze x) lay n))
                 (fun kt => mtppc_taper p
                              (map (randint (fst kt)) (seq 0 (Npairs p)))
                              (rfft (snd kt) (squeeze x) lay n))).
      * reflexivity.
      * intros kt c k _ _.
        rewrite <- (mtppc_taper_swap p
                      (map (randint (fst kt)) (seq 0 (Npairs p)))).
        rewrite map_map. reflexivity.
Qed.

(** ** Failures of mtcpca_all *)

Lemma kept_length_axis {A} (x : ndarray A) p timeDim n f fInd :
  FrequencyGrid._get_freq_vector x p timeDim = Ok (n, f, fInd) ->
  length (kept fInd) = length f /\ length fInd = (n / 2 + 1)%nat.
Proof.
  intros H.
  destruct (GridFacts.get_freq_vector_inv _ _ _ H) as (Hn & Hfs & Hf & ->).
  assert (Hlen : length fInd = (n / 2 + 1)%nat).
  { rewrite Hf, length_map. now apply GridFacts.full_axis_length. }
  split; [|exact Hlen].
  unfold kept. apply mask_length_eq.
  rewrite length_seq, Hlen. symmetry. now apply GridFacts.full_axis_length.
Qed.

Lemma squeezed_bins_Ok {A} (C : tensor2 A) (nb : nat) :
  squeezed_bins C = Ok nb ->
  nb = cols C /\ rows C <> 1%nat /\ cols C <> 1%nat.
Proof.
  unfold squeezed_bins.
  destruct (Nat.eqb_spec (rows C) 1); [discriminate|].
  destruct (Nat.eqb_spec (cols C) 1); [discriminate|].
  cbn [orb]. intros H. injection H as <-. auto.
Qed.

(** X21: with the default single component (no [pcaComponentNumber], or
    the value 1), a passband that holds exactly one bin makes [mtcpca_all]
    fail: the frequency axis of extent one is squeezed away, and indexing
    the first bin raises IndexError before anything is computed.  The
    component entry is restricted because its truth test, which comes
    before the loop, raises ValueError on an array of two or more
    entries. *)
Theorem single_bin_band dpss (x : ndarray R) (p : params) (lay : layout)
  (n : nat) (f : list Q) (fInd : list bool) :
  component_index p = [(-1)%Z] ->
  dispatch3 (squeeze x) = Ok lay ->
  FrequencyGrid._get_freq_vector (squeeze x) p (timedim lay)
  = Ok (n, f, fInd) ->
  length f = 1%nat ->
  windows dpss (squeeze x) lay p <> [] ->
  mtcpca_all dpss x p = Raise IndexError.
Proof.
  intros _ Hd Hg Hf Hw. unfold mtcpca_all. rewrite Hd. cbn [bind].
  rewrite Hg. cbn [bind].
  destruct (windows dpss (squeeze x) lay p) as [|tap w]; [contradiction|].
  cbn [mapM]. unfold mtcpca_all_taper at 1. cbv zeta.
  unfold mtcpca_all_xw at 1. cbn [nbin mask3].
  destruct (kept_length_axis _ _ _ Hg) as [Hk _].
  rewrite Hk, Hf. reflexivity.
Qed.

Lemma single_bin_band_witness :
  mtcpca_all flat_windows long_recording grid_params = Raise IndexError.
Proof.
  apply (@single_bin_band flat_windows long_recording grid_params
           (mklayout 2 1 2 2 4) 4 [8 # 4]%Q [false; true; false]).
  - reflexivity.
  - reflexivity.
  - reflexivity.
  - reflexivity.
  - discriminate.
Defined.

(** X22: [mtcpca_all] reads [params['returnEigenvectors']] inside its loop
    without the guard it uses elsewhere: on a dictionary without that key
    it returns only when the loop has nothing to run over, no taper or no
    bin in the passband. *)
Theorem missing_key_never_returns dpss (x : ndarray R) (p : params)
  (r : pyval) :
  returnEigenvectors p = None ->
  mtcpca_all dpss x p = Ok r ->
  exists lay n f fInd,
    dispatch3 (squeeze x) = Ok lay /\
    FrequencyGrid._get_freq_vector (squeeze x) p (timedim lay)
    = Ok (n, f, fInd) /\
    (windows dpss (squeeze x) lay p = [] \/ f = []).
Proof.
  intros Hkey. unfold mtcpca_all.
  destruct (dispatch3 (squeeze x)) as [lay|]; cbn [bind]; [|discriminate].
  destruct (FrequencyGrid._get_freq_vector (squeeze x) p (timedim lay))
    as [[[n f] fInd]|] eqn:Hg; cbn [bind]; [|discriminate].
  intros H. exists lay, n, f, fInd. split; [reflexivity|].
  split; [exact Hg|].
  destruct (windows dpss (squeeze x) lay p) as [|tap w]; [now left|].
  right. cbn [mapM] in H.
  destruct (mtcpca_all_taper p (nchans lay) (component_index p)
              (mtcpca_all_xw fInd tap (squeeze x) lay n))
    as [tapres|] eqn:Et; cbn [bind] in H; [|discriminate].
  clear H. unfold mtcpca_all_taper in Et. cbv zeta in Et.
  destruct (_ =? 1)%nat; [discriminate|].
  unfold mtcpca_all_xw in Et. cbn [nbin mask3] in Et.
  destruct (kept_length_axis _ _ _ Hg) as [Hk _].
  destruct f as [|f0 f']; [reflexivity|]. exfalso.
  rewrite Hk in Et. cbn [length seq mapM] in Et.
  unfold mtcpca_all_bin at 1 in Et.
  destruct (eig_select _ _ _) as [[? ?]|]; cbn [bind] in Et; [|discriminate].
  destruct (eig_select _ _ _) as [[? ?]|]; cbn [bind] in Et; [|discriminate].
  destruct (eig_select _ _ _) as [[? ?]|]; cbn [bind] in Et; [|discriminate].
  rewrite Hkey in Et. discriminate.
Qed.

Lemma missing_key_never_returns_witness :
  exists lay n f fInd,
    dispatch3 (squeeze long_recording) = Ok lay /\
    FrequencyGrid._get_freq_vector
      (squeeze long_recording)
      (mkparams 8%Q (2%Q, 3%nat) (100%Q, 200%Q) false O None None None None)
      (timedim lay)
    = Ok (n, f, fInd) /\
    (windows flat_windows (squeeze long_recording) lay
             (mkparams 8%Q (2%Q, 3%nat) (100%Q, 200%Q) false O None None
                       None None) = [] \/
     f = []).
Proof.
  refine (@missing_key_never_returns flat_windows long_recording
            (mkparams 8%Q (2%Q, 3%nat) (100%Q, 200%Q) false O None None
                      None None) _ eq_refl _).
  reflexivity.
Defined.

(** ** The waveforms of mtcpca_timeDomain *)

Lemma mapM_length {A B} (f : A -> outcome B) (l : list A) (bs : list B) :
  mapM f l = Ok bs -> length bs = length l.
Proof.
  intros H. apply mapM_Ok in H. symmetry. eapply Forall2_length. exact H.
Qed.

Lemma irfft_nan_length (X : list nanC) :
  length (irfft_nan X) = (2 * (length X - 1))%nat.
Proof.
  unfold irfft_nan. destruct (all_finite X) as [X'|] eqn:E.
  - rewrite length_map. unfold irfft. rewrite length_map, length_seq.
    now rewrite (all_finite_length _ E).
  - apply repeat_length.
Qed.

(** X23: the lengths of the two waveforms.  [y_pc] has as many samples as
    the recording; [y_cpc] has min(L, 2*floor(nfft/2)) samples, which is
    the L samples of the recording for an even transform size, and one
    sample less when the transform size is odd and equal to L. *)
Theorem timeDomain_lengths dpss (x : ndarray R) (p : params) (lay : layout)
  (n : nat) (f : list Q) (fInd : list bool) (r : pyval) :
  dispatch3 (squeeze x) = Ok lay ->
  FrequencyGrid._get_freq_vector (squeeze x) p (timedim lay)
  = Ok (n, f, fInd) ->
  mtcpca_timeDomain dpss x p = Ok r ->
  exists y_cpc y_pc,
    r = (if bootstrap p
         then Dict [("y_cpc"%string, Arr y_cpc); ("y_pc"%string, Arr y_pc)]
         else Tuple [Arr y_cpc; Arr y_pc]) /\
    length (data y_cpc) = Nat.min (ntime lay) (2 * (n / 2)) /\
    length (data y_pc) = ntime lay /\
    (Nat.even n = true -> length (data y_cpc) = ntime lay) /\
    (Nat.odd n = true -> n = ntime lay ->
     length (data y_cpc) = (ntime lay - 1)%nat).
Proof.
  intros Hd Hg. unfold mtcpca_timeDomain. rewrite Hd. cbn [bind].
  rewrite Hg. cbn [bind].
  destruct (Req_EM_T _ 0); [discriminate|].
  destruct (squeezed_bins _) as [nb|] eqn:Enb; cbn [bind]; [|discriminate].
  apply squeezed_bins_Ok in Enb. destruct Enb as (-> & _ & _).
  destruct (mapM _ _) as [bins|] eqn:Ebins; cbn [bind]; [|discriminate].
  destruct (linalg_eigh_real _) as [[vals vecs]|]; cbn [bind];
    [|discriminate].
  destruct (py_index _ _) as [j|]; cbn [bind]; [|discriminate].
  assert (HL : nth (timedim lay) (shape (squeeze x)) O = ntime lay).
  { unfold dispatch3 in Hd.
    destruct (shape (squeeze x)) as [|a [|b [|c [|d l]]]]; try discriminate.
    injection Hd as <-. reflexivity. }
  assert (Hn : (ntime lay <= n)%nat).
  { pose proof (get_freq_vector_covers _ _ _ Hg) as Hle.
    now rewrite HL in Hle. }
  apply mapM_length in Ebins. rewrite length_seq in Ebins.
  cbn [t2zip cols mean_trials rfft nbin] in Ebins.
  match goal with
  | |- (if _ then Ok (Dict [(_, Arr ?a); (_, Arr ?b)]) else _) = _ -> _ =>
      set (y_cpc := a); set (y_pc := b)
  end.
  assert (Hc : length (data y_cpc) = Nat.min (ntime lay) (2 * (n / 2))).
  { unfold y_cpc, of_list. cbn [data].
    rewrite length_firstn, irfft_nan_length, length_map, length_combine,
      !length_map, Ebins, HL.
    rewrite Nat.min_id. lia. }
  assert (Hp : length (data y_pc) = ntime lay).
  { unfold y_pc, of_list. cbn [data]. now rewrite length_map, length_seq. }
  intros H. exists y_cpc, y_pc.
  split; [destruct (bootstrap p); now injection H as <-|].
  split; [exact Hc|]. split; [exact Hp|]. split.
  - intros He. rewrite Hc. apply Nat.even_spec in He. destruct He as [k ->].
    replace (2 * k / 2)%nat with k
      by (rewrite Nat.mul_comm, Nat.div_mul; lia).
    lia.
  - intros Ho En. rewrite Hc. apply Nat.odd_spec in Ho.
    destruct Ho as [k Hk].
    assert (n / 2 = k)%nat.
    { rewrite Hk. replace (2 * k + 1)%nat with (1 + k * 2)%nat by lia.
      rewrite Nat.div_add by lia. reflexivity. }
    lia.
Qed.

Lemma timeDomain_lengths_witness :
  exists r,
    mtcpca_timeDomain flat_windows impulses unit_params = Ok r /\
    exists y_cpc y_pc,
      r = (if bootstrap unit_params
           then Dict [("y_cpc"%string, Arr y_cpc);
                      ("y_pc"%string, Arr y_pc)]
           else Tuple [Arr y_cpc; Arr y_pc]) /\
      length (data y_cpc) = Nat.min 2 (2 * (2 / 2)) /\
      length (data y_pc) = 2%nat /\
      (Nat.even 2 = true -> length (data y_cpc) = 2%nat) /\
      (Nat.odd 2 = true -> 2%nat = 2%nat ->
       length (data y_cpc) = (2 - 1)%nat).
Proof.
  destruct timeDomain_impulses_returns as (a & b & E).
  eexists. split; [exact E|].
  exact (@timeDomain_lengths flat_windows impulses unit_params
           (mklayout 2 1 2 2 2) 2 (FrequencyGrid.full_axis 2 2)
           [true; true] _ eq_refl eq_refl E).
Defined.

(** ** The cPCA spectrum without the eigen-solver *)

Lemma mask_map_seq {B} (g : nat -> B) (fInd : list bool) :
  mask fInd (map g (seq 0 (length fInd))) = map g (kept fInd).
Proof.
  unfold kept. generalize 0%nat as s.
  induction fInd as [|b m IH]; intros s; cbn; [reflexivity|].
  destruct b; cbn; now rewrite IH.
Qed.

Lemma norm2_map (g : nat -> complex) (l : list nat) :
  norm2 (map g l) = Rsum (map (fun c => Cabs2 (g c)) l).
Proof. unfold norm2. now rewrite map_map. Qed.

(** A taper whose statistic is finite everywhere: no bin fails, and the
    value of a bin is the squared norm of its column over the channel
    count. *)
Lemma cpca_taper_finite nchans (Cm : tensor2 nanC)
  (g : nat -> nat -> complex) :
  (2 <= rows Cm)%nat -> cols Cm <> 1%nat ->
  (forall c k, (c < rows Cm)%nat -> (k < cols Cm)%nat ->
               at2 Cm c k = Some (g c k)) ->
  cpca_taper nchans Cm
  = Ok (map (fun k => norm2 (map (fun c => g c k) (seq 0 (rows Cm)))
                      / INR nchans)
            (seq 0 (cols Cm))).
Proof.
  intros Hr Hcol Hg. rewrite cpca_taper_unsqueezed by (lia || assumption).
  apply mapM_pure. intros k Hk.
  apply in_seq in Hk. unfold col_of.
  rewrite (map_ext_in (fun c => at2 Cm c k) (fun c => Some (g c k)))
    by (intros c Hc; apply in_seq in Hc; apply Hg; lia).
  rewrite <- (map_map (fun c => g c k) Some).
  apply cpca_bin_finite. rewrite length_map, length_seq. lia.
Qed.

Lemma kept_bound (fInd : list bool) (k : nat) :
  In k (kept fInd) -> (k < length fInd)%nat.
Proof.
  unfold kept. intros H. apply mask_In in H. apply in_seq in H. lia.
Qed.

(** X24: on a recording with at least one channel, one trial and one time
    sample [mtcspec] cannot fail past the frequency grid (the squeezed
    recording then has at least two samples, so the transform has more
    than one bin and the squeeze of the statistic drops no axis), and its
    eigen-decomposition
    amounts to an average: each value it returns is, averaged over the
    tapers, the channel average of the squared spectrum [mtspec] computes
    for that taper. *)
Theorem mtcspec_channel_power dpss (x : ndarray R) (p : params)
  (lay : layout) (n : nat) (f : list Q) (fInd : list bool) :
  dispatch3 (squeeze x) = Ok lay ->
  FrequencyGrid._get_freq_vector (squeeze x) p (timedim lay)
  = Ok (n, f, fInd) ->
  (1 <= nchans lay)%nat -> (1 <= ntrials lay)%nat -> (1 <= ntime lay)%nat ->
  exists a,
    mtcspec dpss x p
    = Ok (if bootstrap p
          then Dict [("mtcspec"%string, Arr a); ("f"%string, Freq f)]
          else Tuple [Arr a; Freq f]) /\
    data a
    = map (fun k =>
             Rmean (map (fun tap =>
                           channel_mean (nchans lay)
                             (fun c => squared
                                (at2 (mtspec_S (rfft tap (squeeze x) lay n))
                                     c k)))
                        (windows dpss (squeeze x) lay p)))
          (kept fInd).
Proof.
  intros Hd Hg Hc Ht Hl.
  destruct (dispatch3_extents _ Hd) as (Hc1 & _ & Hl1).
  assert (Hn : (2 <= n)%nat).
  { pose proof (get_freq_vector_covers _ _ _ Hg) as Hle.
    replace (nth (timedim lay) (shape (squeeze x)) O) with (ntime lay)
      in Hle; [lia|].
    unfold dispatch3 in Hd.
    destruct (shape (squeeze x)) as [|a [|b [|c [|d l]]]]; try discriminate.
    injection Hd as <-. reflexivity. }
  assert (Hbins : (n / 2 + 1 <> 1)%nat).
  { pose proof (Nat.div_le_lower_bound n 2 1). lia. }
  unfold mtcspec. rewrite Hd. cbn [bind].
  rewrite Hg. cbn [bind].
  destruct (kept_length_axis _ _ _ Hg) as [_ Hlen].
  set (w := windows dpss (squeeze x) lay p).
  set (m := fun (tap : list R) (c k : nat) =>
              Cscal (/ INR (ntrials lay))
                    (Csum (trials_of (rfft tap (squeeze x) lay n) c k))).
  assert (Hm : forall tap c k,
             at2 (mean_trials (rfft tap (squeeze x) lay n)) c k
             = Some (m tap c k)).
  { intros tap c k. cbn [mean_trials at2]. unfold Cmean, trials_of.
    rewrite length_map, length_seq. cbn [rfft ntr].
    apply Cdiv_nan_nonzero.
    assert (0 < INR (ntrials lay)) by (apply lt_0_INR; lia). lra. }
  rewrite (@mapM_pure _ _ _
             (fun tap => map (fun k => norm2 (map (fun c => m tap c k)
                                                  (seq 0 (nchans lay)))
                                       / INR (nchans lay))
                             (seq 0 (n / 2 + 1))) w).
  2:{ intros tap _.
      rewrite (@cpca_taper_finite (nchans lay)
                 (mean_trials (rfft tap (squeeze x) lay n)) (m tap));
        [reflexivity | cbn [rows mean_trials rfft nch]; lia
        | exact Hbins | intros; apply Hm]. }
  cbn [bind].
  eexists. split; [destruct (bootstrap p); reflexivity|].
  unfold of_list. cbn [data]. unfold mean_rows.
  rewrite mask_map_seq. apply map_ext_in. intros k Hk.
  apply kept_bound in Hk. rewrite Hlen in Hk.
  rewrite map_map. f_equal. apply map_ext. intros tap.
  rewrite nth_map_seq by exact Hk.
  unfold channel_mean. f_equal. rewrite norm2_map. f_equal.
  apply map_ext. intros c.
  unfold mtspec_S. cbn [at2 t2map]. rewrite Hm. cbn [lift1 squared].
  unfold Cabs2. ring.
Qed.

Lemma mtcspec_channel_power_witness :
  exists a,
    mtcspec flat_windows impulses unit_params
    = Ok (if bootstrap unit_params
          then Dict [("mtcspec"%string, Arr a);
                     ("f"%string, Freq (FrequencyGrid.full_axis 2 2))]
          else Tuple [Arr a; Freq (FrequencyGrid.full_axis 2 2)]) /\
    data a
    = map (fun k =>
             Rmean (map (fun tap =>
                           channel_mean 2
                             (fun c => squared
                                (at2 (mtspec_S (rfft tap (squeeze impulses)
                                                     (mklayout 2 1 2 2 2) 2))
                                     c k)))
                        (windows flat_windows (squeeze impulses)
                                 (mklayout 2 1 2 2 2) unit_params)))
          (kept [true; true]).
Proof.
  refine (@mtcspec_channel_power flat_windows impulses unit_params
            (mklayout 2 1 2 2 2) 2 (FrequencyGrid.full_axis 2 2)
            [true; true] eq_refl eq_refl _ _ _); cbn; lia.
Defined.

(** ** cPCA phase locking as a channel average *)

Lemma Rsum_map_plus {A} (g h : A -> R) (l : list A) :
  Rsum (map (fun a => g a + h a) l) = Rsum (map g l) + Rsum (map h l).
Proof.
  induction l as [|a l IH]; cbn; [lra|].
  fold (Rsum (map (fun a => g a + h a) l)).
  fold (Rsum (map g l)). fold (Rsum (map h l)). rewrite IH. ring.
Qed.

Lemma Rsum_map_zero {A} (l : list A) : Rsum (map (fun _ => 0) l) = 0.
Proof.
  induction l as [|a l IH]; cbn; [reflexivity|].
  fold (Rsum (map (fun _ : A => 0) l)). rewrite IH. ring.
Qed.

Lemma Rsum_swap {A B} (g : A -> B -> R) (la : list A) (lb : list B) :
  Rsum (map (fun a => Rsum (map (fun b => g a b) lb)) la)
  = Rsum (map (fun b => Rsum (map (fun a => g a b) la)) lb).
Proof.
  induction la as [|a la IH]; cbn.
  - now rewrite Rsum_map_zero.
  - fold (Rsum (map (fun a => Rsum (map (fun b => g a b) lb)) la)).
    rewrite IH, <- Rsum_map_plus. reflexivity.
Qed.

Lemma Rsum_map_div {A} (h : A -> R) (d : R) (l : list A) :
  Rsum (map (fun a => h a / d) l) = Rsum (map h l) / d.
Proof.
  induction l as [|a l IH]; cbn; [unfold Rdiv; lra|].
  fold (Rsum (map (fun a => h a / d) l)). fold (Rsum (map h l)).
  rewrite IH. unfold Rdiv. ring.
Qed.

Lemma Forall2_map_eq {A B D} (g : A -> D) (g' : B -> D) (l : list A)
  (l' : list B) :
  Forall2 (fun a b => g' b = g a) l l' -> map g' l' = map g l.
Proof. induction 1; cbn; congruence. Qed.

(** What a taper of [mtcpca] holds when it goes through. *)
Lemma cpca_taper_values nchans (Cm : tensor2 nanC) (row : list R) (k : nat) :
  cpca_taper nchans Cm = Ok row -> (k < cols Cm)%nat ->
  exists v, col_of Cm k = map Some v /\ (1 <= length v)%nat /\
            nth k row 0 = norm2 v / INR nchans.
Proof.
  intros H Hk. apply cpca_taper_Ok in H. destruct H as (_ & _ & H).
  apply mapM_Ok in H.
  assert (Hgen : forall s n (row : list R),
             Forall2 (fun fi b => cpca_bin nchans (col_of Cm fi) = Ok b)
                     (seq s n) row ->
             forall k', (k' < n)%nat ->
               cpca_bin nchans (col_of Cm (s + k')) = Ok (nth k' row 0)).
  { intros s n. revert s. induction n as [|n IH]; intros s row' HF k' Hk';
      [lia|].
    cbn [seq] in HF. inversion HF as [|? b ? rest Hb Hrest]; subst.
    destruct k' as [|k']; cbn [nth].
    - now rewrite Nat.add_0_r.
    - replace (s + S k')%nat with (S s + k')%nat by lia.
      apply IH; [exact Hrest | lia]. }
  specialize (Hgen 0%nat (cols Cm) row H k Hk). cbn in Hgen.
  now apply cpca_bin_inv.
Qed.

Lemma col_of_length {A} (t : tensor2 A) (k : nat) :
  length (col_of t k) = rows t.
Proof. unfold col_of. now rewrite length_map, length_seq. Qed.

(** One taper of [mtcpca] in PLV mode against the same taper of [mtplv]. *)
Lemma cpca_taper_plv (p : params) (xw : tensor3 complex) (row : list R)
  (k : nat) :
  itc p = false ->
  cpca_taper (nch xw) (mtcpca_C p xw) = Ok row -> (k < nbin xw)%nat ->
  (1 <= nch xw)%nat /\
  (forall c, (c < nch xw)%nat ->
     exists q, at2 (mtplv_taper p xw) c k = Some q) /\
  nth k row 0
  = channel_mean (nch xw)
      (fun c => finite_part (at2 (mtplv_taper p xw) c k)).
Proof.
  intros Hitc Hrow Hk.
  assert (Hcols : cols (mtcpca_C p xw) = nbin xw) by apply cols_mtcpca_C.
  destruct (@cpca_taper_values (nch xw) (mtcpca_C p xw) row k Hrow)
    as (v & Hv & Hlen & Hval); [now rewrite Hcols|].
  assert (Hrows : length v = nch xw).
  { rewrite <- (length_map Some v), <- Hv, col_of_length.
    apply rows_mtcpca_C. }
  assert (Hcell : forall c, (c < nch xw)%nat ->
             at2 (mtplv_taper p xw) c k = Some (Cabs2 (nth c v C0))).
  { intros c Hc.
    assert (E : at2 (mtcpca_C p xw) c k = Some (nth c v C0)).
    { assert (Hn : nth c (col_of (mtcpca_C p xw) k) None
                   = at2 (mtcpca_C p xw) c k).
      { unfold col_of. rewrite rows_mtcpca_C.
        now rewrite nth_map_seq. }
      rewrite <- Hn, Hv.
      rewrite (nth_indep _ None (Some C0)) by (rewrite length_map; lia).
      apply map_nth. }
    unfold mtcpca_C in E. rewrite Hitc in E.
    unfold mtplv_taper. rewrite Hitc. cbn [negb].
    rewrite at2_t2map. exact (f_equal (lift1 Cabs2) E). }
  split; [lia|]. split.
  - intros c Hc. eexists. now apply Hcell.
  - rewrite Hval. unfold channel_mean. f_equal. unfold norm2.
    rewrite <- Hrows.
    clear - Hcell Hrows.
    assert (Hgen : forall s (v' : list complex),
               (forall i, (i < length v')%nat ->
                  at2 (mtplv_taper p xw) (s + i) k
                  = Some (Cabs2 (nth i v' C0))) ->
               Rsum (map Cabs2 v')
               = Rsum (map (fun c => finite_part
                                       (at2 (mtplv_taper p xw) c k))
                           (seq s (length v')))).
    { intros s v'. revert s. induction v' as [|z v' IH]; intros s H;
        [reflexivity|].
      cbn [length seq map Rsum fold_right].
      fold (Rsum (map Cabs2 v')).
      fold (Rsum (map (fun c => finite_part (at2 (mtplv_taper p xw) c k))
                      (seq (S s) (length v')))).
      rewrite <- IH.
      - specialize (H 0%nat ltac:(cbn; lia)). rewrite Nat.add_0_r in H.
        rewrite H. reflexivity.
      - intros i Hi. specialize (H (S i) ltac:(cbn; lia)).
        replace (S s + i)%nat with (s + S i)%nat by lia. exact H. }
    apply Hgen. intros i Hi. apply Hcell. cbn. lia.
Qed.

Lemma all_finite_map_Some_fun {A B} (g : A -> B) (l : list A) :
  all_finite (map (fun a => Some (g a)) l) = Some (map g l).
Proof.
  rewrite <- (map_map g Some). apply all_finite_Some.
Qed.

(** Averaging over the tapers and over the channels, in either order. *)
Lemma mean_swap {A} (w : list A) (nchans : nat) (cell : A -> nat -> nanR) :
  (forall tap c, In tap w -> (c < nchans)%nat ->
                 exists q, cell tap c = Some q) ->
  (w <> [] -> (1 <= nchans)%nat) ->
  Rmean (map (fun tap =>
                channel_mean nchans (fun c => finite_part (cell tap c))) w)
  = Rmean_nan (map (fun c => Rmean_nan (map (fun tap => cell tap c) w))
                   (seq 0 nchans)).
Proof.
  unfold nanR in *. intros Hfin Hch. destruct w as [|tap0 w'] eqn:Ew.
  - cbn [map]. unfold Rmean at 1. cbn. rewrite Rdiv_nan_zero.
    symmetry. apply Rmean_nan_all_nan.
    apply Forall_map, Forall_forall. intros c _.
    unfold Rmean_nan. cbn. unfold Rmean. cbn. apply Rdiv_nan_zero.
  - rewrite <- Ew in *.
    assert (Hw : w <> []) by (rewrite Ew; discriminate).
    specialize (Hch Hw).
    assert (HT : INR (length w) <> 0).
    { rewrite Ew. cbn [length]. apply INR_S_nonzero. }
    assert (HN : INR nchans <> 0).
    { assert (0 < INR nchans) by (apply lt_0_INR; lia). lra. }
    assert (Hinner : forall c, (c < nchans)%nat ->
               Rmean_nan (map (fun tap => cell tap c) w)
               = Some (Rsum (map (fun tap => finite_part (cell tap c)) w)
                       / INR (length w))).
    { intros c Hc. unfold Rmean_nan.
      rewrite (map_ext_in (fun tap => cell tap c)
                          (fun tap => Some (finite_part (cell tap c)))).
      - rewrite all_finite_map_Some_fun. unfold Rmean.
        rewrite length_map. now apply Rdiv_nan_nonzero.
      - intros tap Hin. destruct (Hfin tap c Hin Hc) as [q ->].
        reflexivity. }
    rewrite (map_ext_in
               (fun c => Rmean_nan (map (fun tap => cell tap c) w))
               (fun c => Some (Rsum (map (fun tap => finite_part (cell tap c))
                                         w) / INR (length w))))
      by (intros c Hc; apply in_seq in Hc; apply Hinner; lia).
    unfold Rmean_nan, nanR. rewrite all_finite_map_Some_fun.
    unfold Rmean. rewrite !length_map, length_seq.
    rewrite !Rdiv_nan_nonzero by assumption. f_equal.
    unfold channel_mean. rewrite !Rsum_map_div.
    rewrite (Rsum_swap (fun tap c => finite_part (cell tap c)) w
                       (seq 0 nchans)).
    field. split; assumption.
Qed.

Lemma dispatch3_dispatch {A} (x : ndarray A) lay :
  dispatch3 x = Ok lay -> dispatch x = Ok lay.
Proof.
  unfold dispatch3, dispatch.
  destruct (shape x) as [|a [|b [|c [|d l]]]]; try discriminate.
  exact (fun H => H).
Qed.

Lemma Forall2_In_l {A B} (Rel : A -> B -> Prop) (l : list A) (l' : list B) :
  Forall2 Rel l l' -> Forall2 (fun a b => In a l /\ Rel a b) l l'.
Proof.
  induction 1 as [|a b l l' Hab _ IH]; constructor.
  - split; [now left | exact Hab].
  - eapply Forall2_impl; [|exact IH]. cbn. intros a' b' [Hin HR].
    split; [now right | exact HR].
Qed.

Lemma nth_map_In {A B} (g : A -> B) (l : list A) (d : B) (d0 : A)
  (j : nat) :
  (j < length l)%nat -> nth j (map g l) d = g (nth j l d0).
Proof.
  intros Hj. rewrite (nth_indep _ d (g d0)) by now rewrite length_map.
  apply map_nth.
Qed.

(** X25: in PLV mode cPCA phase locking is the channel average of the
    per-channel phase locking.  Whenever [mtcpca] and [mtplv] both return
    for a recording, each value of [mtcpca] is the mean over the channels
    of the values [mtplv] returns at that frequency, and NaN where one of
    these is NaN. *)
Theorem cpca_plv_is_channel_mean dpss (x : ndarray R) (p : params)
  (ra rb : pyval) :
  itc p = false ->
  mtcpca dpss x p = Ok ra -> mtplv dpss x p = Ok rb ->
  exists lay n f fInd a b,
    dispatch3 (squeeze x) = Ok lay /\
    FrequencyGrid._get_freq_vector (squeeze x) p (timedim lay)
    = Ok (n, f, fInd) /\
    statistic_of ra = Some a /\ statistic_of rb = Some b /\
    length (data a) = length f /\
    length (data b) = (nchans lay * length f)%nat /\
    forall j, (j < length f)%nat ->
      nth j (data a) None
      = Rmean_nan (map (fun c => nth (c * length f + j) (data b) None)
                       (seq 0 (nchans lay))).
Proof.
  intros Hitc. unfold mtcpca, mtplv.
  destruct (dispatch3 (squeeze x)) as [lay|] eqn:Hd; cbn [bind];
    [|discriminate].
  rewrite (dispatch3_dispatch _ Hd). cbn [bind].
  destruct (FrequencyGrid._get_freq_vector (squeeze x) p (timedim lay))
    as [[[n f] fInd]|] eqn:Hg; cbn [bind]; [|discriminate].
  set (w := windows dpss (squeeze x) lay p).
  destruct (mapM _ w) as [plv|] eqn:Eplv; cbn [bind]; [|discriminate].
  set (gP := fun tap => mtplv_taper p (rfft tap (squeeze x) lay n)).
  set (a := of_list (mask fInd (mean_rows (length fInd) plv))).
  set (b := squeeze (to_ndarray
               (mask2 fInd (mean_tapers (nchans lay) (length fInd)
                                        (map gP w))))).
  intros Ha Hb. exists lay, n, f, fInd, a, b.
  split; [reflexivity|]. split; [first [exact Hg | reflexivity]|].
  split; [destruct (bootstrap p); now injection Ha as <-|].
  split; [destruct (bootstrap p); now injection Hb as <-|].
  clear Ha Hb.
  destruct (kept_length_axis _ _ _ Hg) as [Hkept Hlen].
  assert (Hda : data a
                = map (fun k => Rmean (map (fun row => nth k row 0) plv))
                      (kept fInd)).
  { unfold a, of_list, mean_rows. cbn [data]. apply mask_map_seq. }
  split; [now rewrite Hda, length_map|].
  split.
  { unfold b. rewrite data_squeeze. cbn [data to_ndarray rows cols mask2
                                          mean_tapers].
    rewrite length_rows. now rewrite Hkept. }
  intros j Hj. rewrite <- Hkept in Hj.
  set (k := nth j (kept fInd) O).
  assert (Hk : (k < n / 2 + 1)%nat).
  { rewrite <- Hlen. apply kept_bound. unfold k. now apply nth_In. }
  apply mapM_Ok in Eplv. apply Forall2_In_l in Eplv.
  assert (Hrows : map (fun row => nth k row 0) plv
                  = map (fun tap => channel_mean (nchans lay)
                                      (fun c => finite_part
                                                  (at2 (gP tap) c k))) w).
  { apply Forall2_map_eq. eapply Forall2_impl; [|exact Eplv].
    cbn beta. intros tap row [_ Hrow].
    now destruct (@cpca_taper_plv p (rfft tap (squeeze x) lay n) row k
                    Hitc Hrow Hk) as (_ & _ & E). }
  assert (Hcells : forall tap c, In tap w -> (c < nchans lay)%nat ->
             exists q, at2 (gP tap) c k = Some q).
  { intros tap c Hin Hc.
    assert (Hex : exists row,
               cpca_taper (nchans lay)
                 (mtcpca_C p (rfft tap (squeeze x) lay n)) = Ok row).
    { clear - Eplv Hin. revert Hin.
      induction Eplv as [|t r w' rows [_ Hr] _ IH]; intros Hin.
      - destruct Hin.
      - destruct Hin as [<-|Hin]; [eauto | now apply IH]. }
    destruct Hex as [row Hrow].
    destruct (@cpca_taper_plv p (rfft tap (squeeze x) lay n) row k
                Hitc Hrow Hk) as (_ & Hq & _).
    now apply Hq. }
  assert (Hch : w <> [] -> (1 <= nchans lay)%nat).
  { intros Hw. destruct w as [|tap w'] eqn:Ew; [contradiction|].
    inversion Eplv as [|? row ? ? [_ Hrow] _]; subst.
    now destruct (@cpca_taper_plv p (rfft tap (squeeze x) lay n) row k
                    Hitc Hrow Hk) as (H1 & _ & _). }
  rewrite Hda.
  etransitivity; [apply nth_map_In with (d0 := O); exact Hj|].
  fold k. cbn beta. rewrite Hrows.
  rewrite (@mean_swap _ w (nchans lay) (fun tap c => at2 (gP tap) c k)
             Hcells Hch).
  f_equal. apply map_ext_in. intros c Hc. apply in_seq in Hc.
  symmetry. unfold b. rewrite data_squeeze, <- Hkept.
  set (T := mask2 fInd (mean_tapers (nchans lay) (length fInd) (map gP w))).
  etransitivity;
    [exact (@nth_rows _ (at2 T) None (rows T) (cols T) c j
              ltac:(cbn; lia) ltac:(cbn; lia))|].
  unfold T. rewrite masked_mean_cell. now rewrite map_map.
Qed.

Lemma mtcpca_impulses_returns :
  exists ra, mtcpca flat_windows impulses unit_params = Ok ra.
Proof.
  unfold mtcpca. cbv zeta.
  change (squeeze impulses) with impulses.
  change (dispatch3 impulses) with (Ok (mklayout 2 1 2 2 2)).
  cbn [bind timedim].
  change (FrequencyGrid._get_freq_vector impulses unit_params 2)
    with (Ok (2%nat, FrequencyGrid.full_axis 2 2, [true; true])).
  cbn [bind nchans].
  change (windows flat_windows impulses (mklayout 2 1 2 2 2) unit_params)
    with [[1; 1]].
  cbn [mapM].
  set (xw := rfft [1; 1] impulses (mklayout 2 1 2 2 2) 2).
  rewrite (@cpca_taper_finite 2 (mtcpca_C unit_params xw)
             (fun _ _ => Cscal (/ INR 2)
                           (Csum [Cscal (/ 1) (1, 0); Cscal (/ 1) (1, 0)]))).
  - cbn [bind]. eexists. reflexivity.
  - cbn. lia.
  - cbn. lia.
  - intros c k Hc _. change (rows (mtcpca_C unit_params xw)) with 2%nat in Hc.
    unfold mtcpca_C. change (itc unit_params) with false. cbv iota.
    cbn [mean_trials_nan at2]. rewrite trials_of_t3map. unfold xw.
    rewrite impulses_trials by exact Hc.
    cbn [map nth]. rewrite Cunit_one. unfold Cmean_nan.
    cbn [all_finite lift2]. unfold Cmean.
    rewrite Cdiv_nan_nonzero by (cbn; lra). reflexivity.
Qed.

Lemma cpca_plv_is_channel_mean_witness :
  exists ra rb,
    mtcpca flat_windows impulses unit_params = Ok ra /\
    mtplv flat_windows impulses unit_params = Ok rb /\
    exists lay n f fInd a b,
      dispatch3 (squeeze impulses) = Ok lay /\
      FrequencyGrid._get_freq_vector (squeeze impulses) unit_params
                                     (timedim lay)
      = Ok (n, f, fInd) /\
      statistic_of ra = Some a /\ statistic_of rb = Some b /\
      length (data a) = length f /\
      length (data b) = (nchans lay * length f)%nat /\
      forall j, (j < length f)%nat ->
        nth j (data a) None
        = Rmean_nan (map (fun c => nth (c * length f + j) (data b) None)
                         (seq 0 (nchans lay))).
Proof.
  destruct mtcpca_impulses_returns as [ra Ha].
  exists ra. eexists. split; [exact Ha|]. split; [reflexivity|].
  exact (@cpca_plv_is_channel_mean flat_windows impulses unit_params ra _
           eq_refl Ha eq_refl).
Defined.

(** ** A full eigen-decomposition for any number of channels *)

Lemma map_nth_seq {A} (l : list A) (d : A) :
  map (fun k => nth k l d) (seq 0 (length l)) = l.
Proof.
  induction l as [|a l IH]; [reflexivity|].
  cbn [length seq map nth]. f_equal.
  rewrite <- seq_shift, map_map. exact IH.
Qed.

Lemma column_matrix_of (n : nat) (h : nat -> nat -> complex) (j : nat) :
  (j < n)%nat ->
  column j (matrix_of n h) = map (fun i => h i j) (seq 0 n).
Proof.
  intros Hj. unfold column, matrix_of. rewrite map_map.
  apply map_ext. intros i. now apply nth_map_seq.
Qed.

Lemma cdot_maps {A} (f g : A -> complex) (l : list A) :
  cdot (map f l) (map g l) = Csum (map (fun k => Cmul (f k) (g k)) l).
Proof.
  induction l as [|a l IH]; [reflexivity|].
  cbn [map]. rewrite cdot_cons, IH. reflexivity.
Qed.

Lemma inner_maps {A} (f g : A -> complex) (l : list A) :
  inner (map f l) (map g l)
  = Csum (map (fun k => Cmul (Cconj (f k)) (g k)) l).
Proof. unfold inner. rewrite map_map. apply cdot_maps. Qed.

Lemma Csum_map_add {A} (f g : A -> complex) (l : list A) :
  Csum (map (fun k => Cadd (f k) (g k)) l)
  = Cadd (Csum (map f l)) (Csum (map g l)).
Proof.
  induction l as [|a l IH]; cbn [map Csum fold_right].
  - cring.
  - fold (Csum (map (fun k => Cadd (f k) (g k)) l)).
    fold (Csum (map f l)). fold (Csum (map g l)). rewrite IH. cring.
Qed.

Lemma Csum_map_scal_vec {A} (r : A -> R) (z : complex) (l : list A) :
  Csum (map (fun k => Cscal (r k) z) l) = Cscal (Rsum (map r l)) z.
Proof.
  induction l as [|a l IH]; cbn [map Csum Rsum fold_right].
  - cring.
  - fold (Csum (map (fun k => Cscal (r k) z) l)). fold (Rsum (map r l)).
    rewrite IH. cring.
Qed.

(** Summing against a Kronecker delta picks one term. *)
Lemma Csum_delta (g : nat -> complex) (p s n : nat) :
  Csum (map (fun k => Cmul (delta k p) (g k)) (seq s n))
  = if ((s <=? p) && (p <? s + n))%nat then g p else C0.
Proof.
  revert s. induction n as [|n IH]; intros s; cbn [seq map Csum fold_right].
  - destruct (s <=? p)%nat eqn:E1; cbn [andb]; [|reflexivity].
    destruct (Nat.ltb_spec p (s + 0)); [|reflexivity].
    apply Nat.leb_le in E1. lia.
  - fold (Csum (map (fun k => Cmul (delta k p) (g k)) (seq (S s) n))).
    rewrite IH. unfold delta.
    destruct (Nat.eqb_spec s p) as [->|Hne].
    + rewrite Nat.leb_refl.
      destruct (Nat.leb_spec (S p) p); [lia|]. cbn [andb].
      destruct (Nat.ltb_spec p (p + S n)); [|lia]. cring.
    + destruct (Nat.leb_spec (S s) p); destruct (Nat.leb_spec s p);
        try lia; cbn [andb]; try cring.
      replace (p <? S s + n)%nat with (p <? s + S n)%nat
        by (f_equal; lia).
      destruct (p <? s + S n)%nat; cring.
Qed.

Lemma Csum_delta_in (g : nat -> complex) (p n : nat) :
  (p < n)%nat ->
  Csum (map (fun k => Cmul (delta k p) (g k)) (seq 0 n)) = g p.
Proof.
  intros Hp. rewrite Csum_delta. cbn [Nat.leb andb].
  destruct (Nat.ltb_spec p (0 + n)); [reflexivity|lia].
Qed.

Lemma delta_sym (i j : nat) : delta i j = delta j i.
Proof. unfold delta. now rewrite Nat.eqb_sym. Qed.

(** The reflection is unitary: its columns are orthonormal. *)
Lemma reflector_unitary (w : nat -> complex) (n i j : nat) :
  let W := Rsum (map (fun k => Cabs2 (w k)) (seq 0 n)) in
  W <> 0 -> (i < n)%nat -> (j < n)%nat ->
  Csum (map (fun k => Cmul (Cconj (reflector w W k i)) (reflector w W k j))
            (seq 0 n))
  = delta i j.
Proof.
  intros W HW Hi Hj.
  set (a := - 2 / W).
  set (Z := Cmul (w i) (Cconj (w j))).
  rewrite (map_ext
             (fun k => Cmul (Cconj (reflector w W k i)) (reflector w W k j))
             (fun k => Cadd
                (Cadd (Cmul (delta k i) (delta k j))
                      (Cmul (delta k i)
                            (Cscal a (Cmul (w k) (Cconj (w j))))))
                (Cadd (Cmul (delta k j)
                            (Cscal a (Cmul (Cconj (w k)) (w i))))
                      (Cscal (a * a * Cabs2 (w k)) Z)))).
  2:{ intros k. unfold reflector, Z. fold a. rewrite Cabs2_eq.
      unfold delta. destruct (k =? i)%nat, (k =? j)%nat;
        generalize (w k) (w i) (w j); cring. }
  rewrite !Csum_map_add.
  rewrite (Csum_delta_in (fun k => delta k j) Hi).
  rewrite (Csum_delta_in (fun k => Cscal a (Cmul (w k) (Cconj (w j)))) Hi).
  rewrite (Csum_delta_in (fun k => Cscal a (Cmul (Cconj (w k)) (w i))) Hj).
  rewrite (Csum_map_scal_vec (fun k => a * a * Cabs2 (w k)) Z).
  replace (map (fun k => a * a * Cabs2 (w k)) (seq 0 n))
    with (map (Rmult (a * a)) (map (fun k => Cabs2 (w k)) (seq 0 n)))
    by (rewrite map_map; reflexivity).
  rewrite Rsum_map_mult. fold W.
  fold Z. unfold a.
  replace (Cmul (Cconj (w j)) (w i)) with Z by (unfold Z; cring).
  destruct Z as [x y]. unfold delta.
  destruct (i =? j)%nat;
    unfold Cadd, Cscal, C0, C1; cbn; apply complex_eq; cbn; field;
    exact HW.
Qed.

Lemma phase_unit (z : complex) : Cmul (Cconj (phase z)) (phase z) = C1.
Proof.
  unfold phase. destruct (Req_EM_T (Cabs z) 0) as [E|E]; [cring|].
  pose proof (Cabs2_eq z) as H2. unfold Cabs2 in H2.
  destruct z as [x y]. cbn [fst snd] in H2.
  unfold Cmul, Cconj, Cscal, C1. cbn [fst snd].
  set (m := Cabs (x, y)) in *.
  f_equal.
  - replace (/ m * x * (/ m * x) - - (/ m * y) * (/ m * y))
      with ((x * x + y * y) * (/ m * / m)) by ring.
    rewrite <- H2. now field.
  - ring.
Qed.

Lemma phase_spec (z : complex) : z = Cscal (Cabs z) (phase z).
Proof.
  unfold phase. destruct (Req_EM_T (Cabs z) 0) as [E|E].
  - rewrite E. apply Cabs_0_iff in E. subst z. cring.
  - destruct z as [x y]. set (m := Cabs (x, y)) in *.
    unfold Cscal. cbn [fst snd]. f_equal; now field.
Qed.

Lemma Cabs2_phase_scaled (r : R) (z : complex) :
  Cabs2 (Cscal r (phase z)) = r * r.
Proof.
  rewrite Cabs2_eq. pose proof (phase_unit z) as H.
  destruct (phase z) as [x y]. unfold Cmul, Cconj, Cscal, C1 in *.
  cbn [fst snd] in *. injection H as H _. nra.
Qed.

Lemma Rsum_pick (g : nat -> R) (X : R) (p s n : nat) :
  (s <= p < s + n)%nat ->
  Rsum (map (fun k => if (k =? p)%nat then X else g k) (seq s n))
  = Rsum (map g (seq s n)) - g p + X.
Proof.
  revert s. induction n as [|n IH]; intros s Hp; [lia|].
  cbn [seq map Rsum fold_right].
  fold (Rsum (map (fun k => if (k =? p)%nat then X else g k) (seq (S s) n))).
  fold (Rsum (map g (seq (S s) n))).
  destruct (Nat.eqb_spec s p) as [->|Hne].
  - rewrite (map_ext_in (fun k => if (k =? p)%nat then X else g k) g).
    + lra.
    + intros k Hk. apply in_seq in Hk.
      destruct (Nat.eqb_spec k p); [lia|reflexivity].
  - rewrite IH by lia. lra.
Qed.

Lemma norm2_nth (v : list complex) :
  Rsum (map (fun k => Cabs2 (nth k v C0)) (seq 0 (length v))) = norm2 v.
Proof.
  unfold norm2.
  rewrite <- (map_map (fun k => nth k v C0) Cabs2), map_nth_seq.
  reflexivity.
Qed.

Section Reflection.

Variable v : list complex.
Hypothesis Hlen : (1 <= length v)%nat.
Hypothesis Hnz : norm2 v <> 0.

Let n := length v.
Let p := (length v - 1)%nat.
Let s := sqrt (norm2 v).
Let m := Cabs (nth p v C0).
Let W := Rsum (map (fun k => Cabs2 (pivot v k)) (seq 0 n)).

Lemma root_norm_pos : 0 < s.
Proof.
  unfold s. apply sqrt_lt_R0. pose proof (norm2_nonneg v). lra.
Qed.

Lemma root_norm_square : s * s = norm2 v.
Proof. unfold s. apply sqrt_sqrt, norm2_nonneg. Qed.

Lemma pivot_last : pivot v p = Cscal (m + s) (phase (nth p v C0)).
Proof.
  unfold pivot. fold p. fold s. unfold delta. rewrite Nat.eqb_refl.
  rewrite (phase_spec (nth p v C0)) at 1. fold m.
  generalize (phase (nth p v C0)). cring.
Qed.

Lemma pivot_other (k : nat) : k <> p -> pivot v k = nth k v C0.
Proof.
  intros Hk. unfold pivot. fold p. unfold delta.
  destruct (Nat.eqb_spec k p); [contradiction|]. cring.
Qed.

Lemma pivot_norm : W = 2 * s * (s + m).
Proof.
  unfold W.
  rewrite (map_ext_in (fun k => Cabs2 (pivot v k))
             (fun k => if (k =? p)%nat then (m + s) * (m + s)
                       else Cabs2 (nth k v C0))).
  2:{ intros k _. destruct (Nat.eqb_spec k p) as [->|Hk].
      - rewrite pivot_last. apply Cabs2_phase_scaled.
      - now rewrite pivot_other. }
  rewrite Rsum_pick by (unfold n, p; lia).
  unfold n. rewrite norm2_nth, <- root_norm_square.
  unfold Cabs2. fold m. ring.
Qed.

Lemma pivot_norm_pos : 0 < W.
Proof.
  rewrite pivot_norm. pose proof root_norm_pos. 
  assert (0 <= m) by apply Cabs_nonneg. nra.
Qed.

(** The last column of the reflection is a multiple of [v]. *)
Lemma reflector_last (k : nat) :
  reflector (pivot v) W k p
  = Cmul (Cscal (- / s) (Cconj (phase (nth p v C0)))) (nth k v C0).
Proof.
  pose proof root_norm_pos as Hs. pose proof pivot_norm_pos as HW.
  assert (Hm : 0 <= m) by apply Cabs_nonneg.
  unfold reflector. rewrite pivot_last.
  assert (Ha : - 2 / W * (m + s) = - / s).
  { rewrite pivot_norm. field. split; nra. }
  pose proof (phase_unit (nth p v C0)) as Hu.
  destruct (Nat.eq_dec k p) as [->|Hk].
  - rewrite pivot_last. unfold delta. rewrite Nat.eqb_refl.
    rewrite (phase_spec (nth p v C0)) at 4. fold m.
    destruct (phase (nth p v C0)) as [x y].
    unfold Cmul, Cconj, Cscal, Cadd, C1 in *. cbn [fst snd] in *.
    injection Hu as Hu1 Hu2.
    assert (Hxy : x * x + y * y = 1) by nra.
    f_equal.
    + replace (1 + - 2 / W * ((m + s) * x * ((m + s) * x)
                              - (m + s) * y * - ((m + s) * y)))
        with (1 + (- 2 / W * (m + s)) * (m + s) * (x * x + y * y))
        by (field; lra).
      rewrite Ha.
      replace (- / s * x * (m * x) - - / s * - y * (m * y))
        with (- / s * m * (x * x + y * y)) by ring.
      rewrite Hxy. field. lra.
    + replace (0 + - 2 / W * ((m + s) * x * - ((m + s) * y)
                              + (m + s) * y * ((m + s) * x)))
        with 0 by (field; lra).
      ring.
  - rewrite pivot_other by exact Hk. unfold delta.
    destruct (Nat.eqb_spec k p); [contradiction|].
    destruct (phase (nth p v C0)) as [x y].
    destruct (nth k v C0) as [a b].
    unfold Cmul, Cconj, Cscal, Cadd, C0. cbn [fst snd].
    f_equal.
    + replace (0 + - 2 / W * (a * ((m + s) * x) - b * - ((m + s) * y)))
        with ((- 2 / W * (m + s)) * (a * x + b * y)) by (field; lra).
      rewrite Ha. ring.
    + replace (0 + - 2 / W * (a * - ((m + s) * y) + b * ((m + s) * x)))
        with ((- 2 / W * (m + s)) * (b * x - a * y)) by (field; lra).
      rewrite Ha. ring.
Qed.

End Reflection.

Lemma length_matrix_of (n : nat) (h : nat -> nat -> complex) :
  length (matrix_of n h) = n.
Proof. unfold matrix_of. now rewrite length_map, length_seq. Qed.

Lemma rows_matrix_of (n : nat) (h : nat -> nat -> complex) :
  Forall (fun row => length row = n) (matrix_of n h).
Proof.
  unfold matrix_of. apply Forall_forall. intros row Hr.
  apply in_map_iff in Hr. destruct Hr as [i [<- _]].
  now rewrite length_map, length_seq.
Qed.

Lemma inner_zero_l (v u : list complex) :
  Forall (fun z => z = C0) v -> inner v u = C0.
Proof.
  intros Hv. revert u. induction Hv as [|z v -> _ IH]; intros u.
  - reflexivity.
  - destruct u as [|y u]; [reflexivity|].
    unfold inner in *. cbn [map]. rewrite cdot_cons, IH. cring.
Qed.

Lemma inner_scale_l (c : complex) (v u : list complex) :
  inner (map (Cmul c) v) u = Cmul (Cconj c) (inner v u).
Proof.
  unfold inner. rewrite map_map.
  rewrite (map_ext (fun x => Cconj (Cmul c x))
                   (fun x => Cmul (Cconj c) (Cconj x))) by cring.
  rewrite <- (map_map Cconj (Cmul (Cconj c))). apply cdot_scale_l.
Qed.

Lemma norm2_has_entry (u : list complex) :
  norm2 u <> 0 -> exists z, In z u /\ z <> C0.
Proof.
  induction u as [|z u IH]; intros Hn.
  - now contradiction Hn.
  - rewrite norm2_cons in Hn.
    destruct (Req_EM_T (Cabs2 z) 0) as [E|E].
    + destruct IH as [y [Hy Hy0]]; [lra|].
      exists y. split; [now right|exact Hy0].
    + exists z. split; [now left|]. intros ->. apply E.
      rewrite Cabs2_eq. unfold C0. cbn. ring.
Qed.

Lemma unit_has_entry (u : list complex) :
  inner u u = C1 -> exists z, In z u /\ z <> C0.
Proof.
  intros Hu. apply norm2_has_entry. rewrite inner_self in Hu.
  unfold RtoC, C1 in Hu. injection Hu as Hu. lra.
Qed.

Lemma last_value (n : nat) (x : R) : nth n (repeat 0 n ++ [x]) 0 = x.
Proof.
  rewrite app_nth2; rewrite repeat_length; [|lia].
  now rewrite Nat.sub_diag.
Qed.

Lemma lower_value (j n : nat) (x : R) :
  (j < n)%nat -> nth j (repeat 0 n ++ [x]) 0 = 0.
Proof.
  intros Hj. rewrite app_nth1 by (rewrite repeat_length; exact Hj).
  apply nth_repeat.
Qed.


Lemma zeros_scaled (lam : complex) (u : list complex) :
  map (Cmul lam) (repeat C0 (length u)) = map (Cmul (RtoC 0)) u.
Proof.
  induction u as [|z u IH]; [reflexivity|].
  cbn [length repeat map]. rewrite IH.
  replace (Cmul lam C0) with (Cmul (RtoC 0) z) by cring. reflexivity.
Qed.

Lemma scaled_zero (v u : list complex) :
  length v = length u ->
  map (fun x => Cmul x C0) v = map (Cmul (RtoC 0)) u.
Proof.
  revert u. induction v as [|x v IH]; intros [|z u] Hl;
    cbn in Hl; try discriminate; [reflexivity|].
  cbn [map]. rewrite (IH u) by lia.
  replace (Cmul x C0) with (Cmul (RtoC 0) z) by cring. reflexivity.
Qed.

(** A matrix with orthonormal columns, the last of them parallel to [v],
    diagonalises [v v^H]. *)
Lemma unitary_contract (v : list complex) (h : nat -> nat -> complex) :
  (1 <= length v)%nat ->
  (forall i j, (i < length v)%nat -> (j < length v)%nat ->
     Csum (map (fun k => Cmul (Cconj (h k i)) (h k j)) (seq 0 (length v)))
     = delta i j) ->
  (norm2 v <> 0 ->
   exists c, forall k, h k (length v - 1)%nat = Cmul c (nth k v C0)) ->
  eigh_contract (outer v (map Cconj v))
                (repeat 0 (length v - 1) ++ [norm2 v],
                 matrix_of (length v) h).
Proof.
  intros Hlen Hu Hlast.
  set (n := length v) in *.
  assert (Hcol : forall j, (j < n)%nat ->
            column j (matrix_of n h) = map (fun i => h i j) (seq 0 n))
    by (intros; now apply column_matrix_of).
  assert (Hin : forall i j, (i < n)%nat -> (j < n)%nat ->
            inner (column i (matrix_of n h)) (column j (matrix_of n h))
            = delta i j).
  { intros i j Hi Hj. rewrite !Hcol by assumption.
    rewrite inner_maps. now apply Hu. }
  unfold eigh_contract. cbn [fst snd]. rewrite outer_length. fold n.
  split; [|split; [|split; [|split]]].
  - now apply outer_contract.
  - apply length_matrix_of.
  - apply rows_matrix_of.
  - intros j Hj.
    assert (Hlu : length (column j (matrix_of n h)) = n).
    { rewrite Hcol by exact Hj. now rewrite length_map, length_seq. }
    split; [|split].
    + now rewrite outer_length.
    + apply unit_has_entry. rewrite Hin by assumption.
      unfold delta. now rewrite Nat.eqb_refl.
    + rewrite mat_vec_outer.
      fold (inner v (column j (matrix_of n h))).
      destruct (Req_EM_T (norm2 v) 0) as [E0|E0].
      * (* zero vector *)
        assert (Hz : Forall (fun z => z = C0) v) by now apply norm2_zero_iff.
        assert (Hv : nth j (repeat 0 (n - 1) ++ [norm2 v]) 0 = 0).
        { destruct (Nat.eq_dec j (n - 1)) as [->|Hne].
          - now rewrite last_value.
          - apply lower_value. lia. }
        rewrite Hv.
        rewrite (zero_vector_scaled _ (RtoC 0) Hz). fold n.
        rewrite <- Hlu at 1. apply zeros_scaled.
      * destruct (Hlast E0) as [c Hc].
        assert (Hp : column (n - 1) (matrix_of n h) = map (Cmul c) v).
        { rewrite Hcol by lia.
          rewrite (map_ext _ _ (fun k => Hc k)).
          rewrite <- (map_map (fun k => nth k v C0) (Cmul c)).
          unfold n. now rewrite map_nth_seq. }
        destruct (Nat.eq_dec j (n - 1)) as [->|Hne].
        -- rewrite last_value, Hp.
           unfold inner. rewrite cdot_scale_r.
           fold (inner v v). rewrite inner_self, map_map.
           apply map_ext. intros x. generalize (norm2 v). cring.
        -- rewrite lower_value by lia.
           assert (Hc0 : c <> C0).
           { intros ->. pose proof (Hin (n - 1)%nat (n - 1)%nat) as H1.
             rewrite Hp, inner_scale_l in H1.
             unfold delta in H1. rewrite Nat.eqb_refl in H1.
             specialize (H1 ltac:(lia) ltac:(lia)).
             revert H1. generalize (inner v (map (Cmul C0) v)).
             intros z. destruct z. unfold Cmul, Cconj, C0, C1. cbn.
             intros H1. injection H1 as H1. lra. }
           assert (Hort : inner v (column j (matrix_of n h)) = C0).
           { pose proof (Hin (n - 1)%nat j ltac:(lia) Hj) as H1.
             rewrite Hp, inner_scale_l in H1. unfold delta in H1.
             destruct (Nat.eqb_spec (n - 1) j); [lia|].
             revert H1. generalize (inner v (column j (matrix_of n h))).
             intros z H1.
             assert (Hcc : Cabs2 (Cconj c) <> 0).
             { unfold Cabs2. rewrite Cabs_conj.
               assert (Cabs c <> 0) by (intros E; now apply Cabs_0_iff in E).
               nra. }
             apply (f_equal (Cmul c)) in H1.
             rewrite Cmul_assoc, Cmul_0_r in H1.
             rewrite Cabs2_eq in Hcc.
             destruct c as [c1 c2], z as [z1 z2].
             unfold Cmul, Cconj, C0 in *. cbn [fst snd] in *.
             injection H1 as H1 H2.
             f_equal; nra. }
           rewrite Hort. apply scaled_zero. now rewrite Hlu.
  - intros i j Hi Hj. rewrite Hin by assumption. reflexivity.
Qed.

(** Every rank-one matrix [v v^H] of at least one row has a full
    decomposition meeting the solver's contract, with [|v|^2] as the last
    value. *)
Lemma completion_contract (v : list complex) :
  (1 <= length v)%nat ->
  eigh_contract (outer v (map Cconj v))
                (repeat 0 (length v - 1) ++ [norm2 v], completion v).
Proof.
  intros Hlen. unfold completion.
  destruct (Req_EM_T (norm2 v) 0) as [E|E].
  - apply unitary_contract; [exact Hlen| |contradiction].
    intros i j Hi Hj.
    rewrite (map_ext (fun k => Cmul (Cconj (delta k i)) (delta k j))
                     (fun k => Cmul (delta k i) (delta k j))).
    + apply (Csum_delta_in (fun k => delta k j) Hi).
    + intros k. unfold delta. destruct (k =? i)%nat; cring.
  - apply unitary_contract; [exact Hlen| |].
    + intros i j Hi Hj. apply reflector_unitary; [|exact Hi|exact Hj].
      pose proof (@pivot_norm_pos v Hlen E). lra.
    + intros _. eexists. intros k. apply (@reflector_last v Hlen E).
Qed.

Lemma eigh_outer (v : list complex) :
  (1 <= length v)%nat ->
  eigh_contract (outer v (map Cconj v)) (eigh (outer v (map Cconj v))).
Proof.
  intros Hlen. unfold eigh. apply epsilon_spec.
  eexists. apply (@completion_contract v Hlen).
Qed.

(** ** [mtcpca_all] against [mtcspec] and [mtcpca] *)

Lemma eigh_nil : fst (eigh []) = [].
Proof.
  assert (H : eigh_contract [] (eigh [])).
  { unfold eigh. apply epsilon_spec. exists ([], []).
    split; [|split; [|split; [|split]]].
    - split; [reflexivity|]. split; [constructor|].
      intros lam. split; [intros []|].
      intros [u (Hlen & [z [Hz _]] & _)].
      destruct u; [inversion Hz|discriminate].
    - reflexivity.
    - constructor.
    - intros j Hj. cbn in Hj. lia.
    - intros i j Hi. cbn in Hi. lia. }
  destruct H as [[Hlen _] _].
  destruct (fst (eigh [])); [reflexivity|discriminate].
Qed.

Lemma eigh_outer_top (v : list complex) :
  (1 <= length v)%nat ->
  py_index (fst (eigh (outer v (map Cconj v)))) (-1) = Ok (norm2 v).
Proof.
  intros Hn. apply contract_dominant with (M := outer v (map Cconj v)).
  - apply (@eigh_outer v Hn).
  - apply outer_top_eigenvalue. exact Hn.
  - intros lam He. apply outer_eigenvalue_bound in He. simpl in He. lra.
Qed.

Lemma eig_select_finite nchans (v : list complex) :
  (1 <= length v)%nat ->
  eig_select nchans [(-1)%Z] (map Some v)
  = Ok ([norm2 v / INR nchans], snd (eigh (outer v (map Cconj v)))).
Proof.
  intros Hn. unfold eig_select, linalg_eigh.
  rewrite map_map. simpl.
  rewrite <- (map_map Cconj Some).
  rewrite outer_nan_finite. cbn [bind].
  destruct (eigh (outer v (map Cconj v))) as [vals vecs] eqn:E.
  pose proof (@eigh_outer_top v Hn) as Ht. rewrite E in Ht. cbn [fst] in Ht.
  cbn [mapM]. rewrite Ht. reflexivity.
Qed.

(** The full decomposition returns only for a non-empty, finite column,
    and its top value is the one [eigvalsh] gives. *)
Lemma eig_select_top_inv nchans (col : list nanC) (r : list R * cmat) :
  eig_select nchans [(-1)%Z] col = Ok r ->
  exists v, col = map Some v /\ (1 <= length v)%nat /\
            r = ([norm2 v / INR nchans], snd (eigh (outer v (map Cconj v)))).
Proof.
  intros H.
  destruct (all_finite col) as [v|] eqn:E.
  - apply all_finite_map_Some in E. subst col.
    destruct v as [|a v].
    + exfalso. unfold eig_select, linalg_eigh in H. simpl in H.
      unfold finite_matrix in H. simpl in H.
      destruct (eigh []) as [vals vecs] eqn:E.
      pose proof eigh_nil as Hn. rewrite E in Hn. cbn [fst] in Hn.
      subst vals. cbn [mapM] in H. rewrite py_index_nil in H. discriminate.
    + exists (a :: v). split; [reflexivity|]. split; [simpl; lia|].
      rewrite eig_select_finite in H by (simpl; lia). congruence.
  - apply all_finite_None in E. unfold eig_select, linalg_eigh in H.
    rewrite (outer_nan_not_finite col E) in H. discriminate.
Qed.

Lemma eig_select_cpca nchans (col : list nanC) (r : list R * cmat) :
  eig_select nchans [(-1)%Z] col = Ok r ->
  cpca_bin nchans col = Ok (nth 0 (fst r) 0).
Proof.
  intros H. destruct (eig_select_top_inv _ _ H) as (v & -> & Hn & ->).
  now apply cpca_bin_finite.
Qed.

Lemma mtcpca_all_bin_values (p : params) nchans (Cm plvC itcC : tensor2 nanC)
  (fi : nat) (b : bin_out) :
  mtcpca_all_bin p nchans [(-1)%Z] Cm plvC itcC fi = Ok b ->
  cpca_bin nchans (col_of Cm fi) = Ok (nth 0 (bin_cspec b) 0) /\
  cpca_bin nchans (col_of plvC fi) = Ok (nth 0 (bin_plv b) 0) /\
  cpca_bin nchans (col_of itcC fi) = Ok (nth 0 (bin_itc b) 0).
Proof.
  unfold mtcpca_all_bin. intros H.
  destruct (eig_select nchans [(-1)%Z] (col_of Cm fi)) as [[s sv]|] eqn:E1;
    [|discriminate].
  destruct (eig_select nchans [(-1)%Z] (col_of plvC fi)) as [[q qv]|] eqn:E2;
    [|discriminate].
  destruct (eig_select nchans [(-1)%Z] (col_of itcC fi)) as [[i iv]|] eqn:E3;
    [|discriminate].
  cbn [bind] in H.
  apply eig_select_cpca in E1, E2, E3. cbn [fst] in E1, E2, E3.
  destruct (returnEigenvectors p) as [[|]|]; [| |discriminate].
  - destruct (eigenvector_rows sv [(-1)%Z]); [|discriminate].
    destruct (eigenvector_rows qv [(-1)%Z]); [|discriminate].
    destruct (eigenvector_rows iv [(-1)%Z]); [|discriminate].
    cbn [bind] in H. injection H as <-. cbn. auto.
  - injection H as <-. cbn. auto.
Qed.

Lemma Forall2_seq_nth {B} (P : nat -> B -> Prop) (s n : nat) (l : list B) :
  Forall2 P (seq s n) l ->
  forall j, (j < n)%nat ->
    exists b, nth_error l j = Some b /\ P (s + j)%nat b.
Proof.
  revert s l. induction n as [|n IH]; intros s l HF j Hj; [lia|].
  cbn [seq] in HF. inversion HF as [|? b ? rest Hb Hrest]; subst.
  destruct j as [|j].
  - exists b. split; [reflexivity|]. now rewrite Nat.add_0_r.
  - destruct (IH (S s) rest Hrest j ltac:(lia)) as [b' [Hb' HP]].
    exists b'. split; [exact Hb'|].
    now replace (s + S j)%nat with (S s + j)%nat by lia.
Qed.

(** What a taper of [mtcpca_all] holds when it goes through: for every bin
    of the passband, the values [cpca_bin] gives on the three statistics. *)
Lemma mtcpca_all_taper_values (p : params) nchans (xw : tensor3 complex)
  (tapres : list bin_out) (j : nat) :
  mtcpca_all_taper p nchans [(-1)%Z] xw = Ok tapres ->
  (j < nbin xw)%nat ->
  nbin xw <> 1%nat /\
  exists b, nth_error tapres j = Some b /\
    cpca_bin nchans (col_of (mean_trials xw) j)
    = Ok (nth 0 (bin_cspec b) 0) /\
    cpca_bin nchans (col_of (mean_trials_nan (t3map Cunit xw)) j)
    = Ok (nth 0 (bin_plv b) 0) /\
    cpca_bin nchans
      (col_of (t2zip ocdiv (mean_trials xw) (mean_trials_R (t3map Cabs xw)))
              j)
    = Ok (nth 0 (bin_itc b) 0).
Proof.
  unfold mtcpca_all_taper. intros H Hj.
  destruct (Nat.eqb_spec (nbin xw) 1) as [E|E]; [discriminate|].
  split; [exact E|].
  apply mapM_Ok in H.
  destruct (Forall2_seq_nth _ H Hj) as [b [Hb HP]].
  exists b. split; [exact Hb|]. cbn in HP.
  now apply mtcpca_all_bin_values with (p := p).
Qed.

Lemma cpca_taper_cell nchans (Cm : tensor2 nanC) (row : list R) (k : nat) :
  cpca_taper nchans Cm = Ok row -> (k < cols Cm)%nat ->
  cpca_bin nchans (col_of Cm k) = Ok (nth k row 0).
Proof.
  intros H Hk. apply cpca_taper_Ok in H. destruct H as (_ & _ & H).
  apply mapM_Ok in H.
  destruct (Forall2_seq_nth _ H Hk) as [b [Hb HP]]. cbn in HP.
  rewrite HP. f_equal. symmetry. now apply nth_error_nth.
Qed.

Lemma mapM_agree {A B D} (F : A -> outcome B) (G : A -> outcome D)
  (phi : B -> R) (psi : D -> R) (w : list A) (acc : list B) (cs : list D) :
  mapM F w = Ok acc -> mapM G w = Ok cs ->
  (forall tap a c, F tap = Ok a -> G tap = Ok c -> phi a = psi c) ->
  map phi acc = map psi cs.
Proof.
  intros HF HG Hag. apply mapM_Ok in HF, HG.
  revert cs HG. induction HF as [|tap a w acc Ha _ IH]; intros cs HG;
    inversion HG as [|? c ? cs' Hc Hcs]; subst; [reflexivity|].
  cbn [map]. f_equal; [now apply (Hag tap)|now apply IH].
Qed.

Lemma map_kept {B} (g : nat -> B) (fInd : list bool) :
  map g (kept fInd)
  = map (fun j => g (nth j (kept fInd) O)) (seq 0 (length (kept fInd))).
Proof.
  rewrite <- (map_map (fun j => nth j (kept fInd) O) g).
  now rewrite map_nth_seq.
Qed.

Lemma with_itc_grid {A} (b : bool) (x : ndarray A) (p : params) (d : nat) :
  FrequencyGrid._get_freq_vector x (with_itc b p) d
  = FrequencyGrid._get_freq_vector x p d.
Proof. reflexivity. Qed.

Section Agreement.

Variable dpss : nat -> Q -> nat -> list (list R).
Variable x : ndarray R.
Variable p : params.
Variable lay : layout.
Variable n : nat.
Variable f : list Q.
Variable fInd : list bool.
Hypothesis Hg :
  FrequencyGrid._get_freq_vector (squeeze x) p (timedim lay) = Ok (n, f, fInd).
Hypothesis Htap : windows dpss (squeeze x) lay p <> [].

(** One of the three statistics of [mtcpca_all], as [mtcspec] or [mtcpca]
    compute it on the unmasked transform, and the values kept of it. *)
Variable stat : tensor3 complex -> tensor2 nanC.
Variable sel : bin_out -> list R.
Hypothesis stat_cols : forall xw, cols (stat xw) = nbin xw.
Hypothesis stat_values :
  forall xw tapres j,
    mtcpca_all_taper p (nchans lay) [(-1)%Z] (mask3 fInd xw) = Ok tapres ->
    (j < length (kept fInd))%nat ->
    exists b, nth_error tapres j = Some b /\
      cpca_bin (nchans lay) (col_of (stat xw) (nth j (kept fInd) O))
      = Ok (nth 0 (sel b) 0).

Lemma statistic_agrees (acc : list (list bin_out)) (cs : list (list R)) :
  mapM (fun tap =>
          mtcpca_all_taper p (nchans lay) [(-1)%Z]
            (mtcpca_all_xw fInd tap (squeeze x) lay n))
       (windows dpss (squeeze x) lay p) = Ok acc ->
  mapM (fun tap =>
          cpca_taper (nchans lay) (stat (rfft tap (squeeze x) lay n)))
       (windows dpss (squeeze x) lay p) = Ok cs ->
  mean_components 1 (length f) sel acc
  = of_list (mask fInd (mean_rows (length fInd) cs)).
Proof.
  intros Hacc Hcs.
  destruct (kept_length_axis _ _ _ Hg) as [Hk Hlen].
  assert (Hne : length f <> 1%nat).
  { destruct (windows dpss (squeeze x) lay p) as [|tap w];
      [contradiction|].
    cbn [mapM] in Hacc.
    destruct (mtcpca_all_taper p (nchans lay) [(-1)%Z]
                (mtcpca_all_xw fInd tap (squeeze x) lay n)) eqn:E;
      [|discriminate].
    unfold mtcpca_all_taper, mtcpca_all_xw in E.
    change (nbin (mask3 fInd (rfft tap (squeeze x) lay n)))
      with (length (kept fInd)) in E.
    rewrite Hk in E.
    destruct (Nat.eqb_spec (length f) 1); [discriminate|assumption]. }
  unfold mean_components, of_list, mean_rows, squeeze, to_ndarray.
  cbn [shape data rows cols at2 seq flat_map filter Nat.eqb negb].
  rewrite app_nil_r, mask_map_seq, length_map, map_kept.
  rewrite Hk.
  destruct (Nat.eqb_spec (length f) 1); [contradiction|]. cbn [negb].
  f_equal. apply map_ext_in. intros j Hj. apply in_seq in Hj.
  f_equal.
  eapply mapM_agree; [exact Hacc|exact Hcs|].
  intros tap a c Ha Hc. cbn beta in Ha, Hc.
  destruct (@stat_values (rfft tap (squeeze x) lay n) a j Ha)
    as [b [Hb Hv]]; [lia|].
  rewrite Hb.
  assert (Hbound : (nth j (kept fInd) O < cols (stat (rfft tap (squeeze x) lay n)))%nat).
  { rewrite stat_cols. change (nbin (rfft tap (squeeze x) lay n))
      with (n / 2 + 1)%nat. rewrite <- Hlen. apply kept_bound.
    apply nth_In. lia. }
  pose proof (@cpca_taper_cell _ _ _ _ Hc Hbound) as Hcell.
  rewrite Hv in Hcell. now injection Hcell.
Qed.

End Agreement.

Lemma masked_statistics (p : params) nchans (fInd : list bool)
  (xw : tensor3 complex) (tapres : list bin_out) (j : nat) :
  mtcpca_all_taper p nchans [(-1)%Z] (mask3 fInd xw) = Ok tapres ->
  (j < length (kept fInd))%nat ->
  exists b, nth_error tapres j = Some b /\
    cpca_bin nchans (col_of (mean_trials xw) (nth j (kept fInd) O))
    = Ok (nth 0 (bin_cspec b) 0) /\
    cpca_bin nchans
      (col_of (mean_trials_nan (t3map Cunit xw)) (nth j (kept fInd) O))
    = Ok (nth 0 (bin_plv b) 0) /\
    cpca_bin nchans
      (col_of (t2zip ocdiv (mean_trials xw) (mean_trials_R (t3map Cabs xw)))
              (nth j (kept fInd) O))
    = Ok (nth 0 (bin_itc b) 0).
Proof.
  intros H Hj.
  destruct (@mtcpca_all_taper_values p nchans (mask3 fInd xw) tapres j H Hj)
    as [_ [b [Hb HP]]].
  exists b. split; [exact Hb|exact HP].
Qed.

(** X26: with the default single component and at least one taper, the
    [spectrum] entry of what [mtcpca_all] returns is the array [mtcspec]
    returns for the same call, whenever both return. *)
Theorem mtcpca_all_matches_mtcspec dpss (x : ndarray R) (p : params)
  (out r : pyval) :
  component_index p = [(-1)%Z] ->
  (forall N tw, dpss N tw (snd (tapers p)) <> []) ->
  mtcpca_all dpss x p = Ok out ->
  mtcspec dpss x p = Ok r ->
  exists a, statistic_of r = Some a /\
            entry "spectrum" out = Some (Arr a).
Proof.
  intros Hpc Htap Hall Hspec. unfold mtcpca_all, mtcspec in *.
  destruct (dispatch3 (squeeze x)) as [lay|] eqn:Hd; [|discriminate].
  cbn [bind] in *.
  destruct (FrequencyGrid._get_freq_vector (squeeze x) p (timedim lay))
    as [[[n f] fInd]|] eqn:Hg; [|discriminate].
  cbn [bind] in *. rewrite Hpc in Hall.
  destruct (mapM _ (windows dpss (squeeze x) lay p)) as [acc|] eqn:Hacc
    in Hall; [|discriminate].
  destruct (mapM _ (windows dpss (squeeze x) lay p)) as [cs|] eqn:Hcs
    in Hspec; [|discriminate].
  cbn [bind length] in *.
  assert (E : mean_components 1 (length f) bin_cspec acc
              = of_list (mask fInd (mean_rows (length fInd) cs))).
  { apply (@statistic_agrees dpss x p lay n f fInd Hg (Htap _ _)
             mean_trials bin_cspec); [reflexivity| |exact Hacc|exact Hcs].
    intros xw tapres j Ht Hj.
    destruct (masked_statistics _ _ _ _ Ht Hj) as [b [Hb [H1 _]]].
    exists b. split; assumption. }
  exists (of_list (mask fInd (mean_rows (length fInd) cs))).
  rewrite <- E.
  destruct (bootstrap p); injection Hall as <-; injection Hspec as <-;
    split; try reflexivity; cbn; now rewrite E.
Qed.

(** X27: with the default single component and at least one taper, the
    [plv] entry of what [mtcpca_all] returns is the array [mtcpca] returns
    when called with [itc] off, and the [itc] entry the array it returns
    with [itc] on, whenever both return. *)
Theorem mtcpca_all_matches_mtcpca dpss (x : ndarray R) (p : params)
  (b : bool) (out r : pyval) :
  component_index p = [(-1)%Z] ->
  (forall N tw, dpss N tw (snd (tapers p)) <> []) ->
  mtcpca_all dpss x p = Ok out ->
  mtcpca dpss x (with_itc b p) = Ok r ->
  exists a, statistic_of r = Some a /\
            entry (if b then "itc" else "plv") out = Some (Arr a).
Proof.
  intros Hpc Htap Hall Hplv. unfold mtcpca_all, mtcpca in *.
  destruct (dispatch3 (squeeze x)) as [lay|] eqn:Hd; [|discriminate].
  cbn [bind] in *. rewrite with_itc_grid in Hplv.
  destruct (FrequencyGrid._get_freq_vector (squeeze x) p (timedim lay))
    as [[[n f] fInd]|] eqn:Hg; [|discriminate].
  cbn [bind] in *. rewrite Hpc in Hall.
  change (windows dpss (squeeze x) lay (with_itc b p))
    with (windows dpss (squeeze x) lay p) in Hplv.
  change (bootstrap (with_itc b p)) with (bootstrap p) in Hplv.
  destruct (mapM _ (windows dpss (squeeze x) lay p)) as [acc|] eqn:Hacc
    in Hall; [|discriminate].
  destruct (mapM _ (windows dpss (squeeze x) lay p)) as [cs|] eqn:Hcs
    in Hplv; [|discriminate].
  cbn [bind length] in *.
  assert (E : mean_components 1 (length f)
                (if b then bin_itc else bin_plv) acc
              = of_list (mask fInd (mean_rows (length fInd) cs))).
  { apply (@statistic_agrees dpss x p lay n f fInd Hg (Htap _ _)
             (mtcpca_C (with_itc b p)) (if b then bin_itc else bin_plv));
      [destruct b; reflexivity| |exact Hacc|exact Hcs].
    intros xw tapres j Ht Hj.
    destruct (masked_statistics _ _ _ _ Ht Hj) as [c [Hc [_ [H2 H3]]]].
    exists c. split; [exact Hc|]. destruct b; assumption. }
  exists (of_list (mask fInd (mean_rows (length fInd) cs))).
  rewrite <- E.
  destruct (bootstrap p); injection Hall as <-; injection Hplv as <-;
    split; try reflexivity; destruct b; cbn; now rewrite E.
Qed.

Lemma column_finite (g : nat -> nanC) (s n : nat) :
  (forall c, (s <= c < s + n)%nat -> exists z, g c = Some z) ->
  exists v, map g (seq s n) = map Some v /\ length v = n.
Proof.
  revert s. induction n as [|n IH]; intros s Hg.
  - exists []. split; reflexivity.
  - destruct (Hg s ltac:(lia)) as [z Hz].
    destruct (IH (S s)) as [v [Hv Hl]].
    { intros c Hc. apply Hg. lia. }
    exists (z :: v). cbn [seq map length]. rewrite Hz, Hv, Hl.
    split; reflexivity.
Qed.

Lemma column_at_last (V : cmat) :
  (1 <= length V)%nat -> exists c, column_at V (-1) = Ok c.
Proof.
  intros HV. unfold column_at.
  destruct (length V) as [|m]; [lia|].
  rewrite seq_S, py_index_last. cbn [bind]. eexists. reflexivity.
Qed.

Lemma eigenvector_rows_return (v : list complex) :
  (1 <= length v)%nat ->
  exists vs,
    eigenvector_rows (snd (eigh (outer v (map Cconj v)))) [(-1)%Z] = Ok vs.
Proof.
  intros Hn. destruct (@eigh_outer v Hn) as (_ & Hl & _).
  rewrite outer_length in Hl.
  destruct (@column_at_last (snd (eigh (outer v (map Cconj v)))))
    as [c Hc]; [lia|].
  unfold eigenvector_rows. cbn [mapM]. rewrite Hc. cbn [bind].
  eexists. reflexivity.
Qed.

Lemma mtcpca_all_bin_returns (p : params) nchans (Cm plvC itcC : tensor2 nanC)
  (fi : nat) :
  returnEigenvectors p <> None ->
  (exists v, col_of Cm fi = map Some v /\ (1 <= length v)%nat) ->
  (exists v, col_of plvC fi = map Some v /\ (1 <= length v)%nat) ->
  (exists v, col_of itcC fi = map Some v /\ (1 <= length v)%nat) ->
  exists b, mtcpca_all_bin p nchans [(-1)%Z] Cm plvC itcC fi = Ok b.
Proof.
  intros Hr (v1 & E1 & L1) (v2 & E2 & L2) (v3 & E3 & L3).
  unfold mtcpca_all_bin. rewrite E1, E2, E3.
  rewrite !eig_select_finite by assumption. cbn [bind].
  destruct (returnEigenvectors p) as [[|]|]; [| |contradiction].
  - destruct (eigenvector_rows_return v1 L1) as [r1 ->].
    destruct (eigenvector_rows_return v2 L2) as [r2 ->].
    destruct (eigenvector_rows_return v3 L3) as [r3 ->].
    cbn [bind]. eexists. reflexivity.
  - eexists. reflexivity.
Qed.

Lemma mapM_total {A B} (F : A -> outcome B) (l : list A) :
  (forall a, In a l -> exists b, F a = Ok b) ->
  exists bs, mapM F l = Ok bs.
Proof.
  induction l as [|a l IH]; intros H.
  - exists []. reflexivity.
  - destruct (H a (or_introl eq_refl)) as [b Hb].
    destruct IH as [bs Hbs]; [intros; apply H; now right|].
    cbn [mapM]. rewrite Hb, Hbs. cbn [bind]. eexists. reflexivity.
Qed.

Lemma mtcpca_all_impulses_returns :
  exists out, mtcpca_all flat_windows impulses unit_params = Ok out.
Proof.
  unfold mtcpca_all. cbv zeta.
  change (squeeze impulses) with impulses.
  change (dispatch3 impulses) with (Ok (mklayout 2 1 2 2 2)).
  cbn [bind timedim].
  change (FrequencyGrid._get_freq_vector impulses unit_params 2)
    with (Ok (2%nat, FrequencyGrid.full_axis 2 2, [true; true])).
  cbn [bind nchans].
  change (windows flat_windows impulses (mklayout 2 1 2 2 2) unit_params)
    with [[1; 1]].
  change (component_index unit_params) with [(-1)%Z].
  cbn [mapM].
  set (xw := rfft [1; 1] impulses (mklayout 2 1 2 2 2) 2).
  assert (Hcell : forall c k, (c < 2)%nat ->
            trials_of (mtcpca_all_xw [true; true] [1; 1] impulses
                         (mklayout 2 1 2 2 2) 2) c k
            = [(1, 0); (1, 0)]).
  { intros c k Hc. unfold mtcpca_all_xw, trials_of. cbn [ntr mask3 at3].
    exact (@impulses_trials [1; 1] c (nth k (kept [true; true]) O) Hc). }
  destruct (@mapM_total _ _
              (mtcpca_all_bin unit_params 2 [(-1)%Z]
                 (mean_trials (mtcpca_all_xw [true; true] [1; 1] impulses
                                 (mklayout 2 1 2 2 2) 2))
                 (mean_trials_nan
                    (t3map Cunit
                       (mtcpca_all_xw [true; true] [1; 1] impulses
                          (mklayout 2 1 2 2 2) 2)))
                 (t2zip ocdiv
                    (mean_trials (mtcpca_all_xw [true; true] [1; 1] impulses
                                    (mklayout 2 1 2 2 2) 2))
                    (mean_trials_R
                       (t3map Cabs
                          (mtcpca_all_xw [true; true] [1; 1] impulses
                             (mklayout 2 1 2 2 2) 2)))))
              (seq 0 2)) as [bs Hbs].
  { intros fi _. apply mtcpca_all_bin_returns.
    - discriminate.
    - unfold col_of. cbn [rows mean_trials at2].
      destruct (@column_finite
                  (fun c => Cmean (trials_of (mtcpca_all_xw [true; true]
                     [1; 1] impulses (mklayout 2 1 2 2 2) 2) c fi)) 0 2)
        as [v [Hv Hl]].
      + intros c Hc. rewrite Hcell by lia. unfold Cmean.
        rewrite Cdiv_nan_nonzero by (cbn; lra). eexists. reflexivity.
      + exists v. split; [exact Hv|lia].
    - unfold col_of. cbn [rows mean_trials_nan at2 t3map nch].
      destruct (@column_finite
                  (fun c => Cmean_nan (trials_of (t3map Cunit
                     (mtcpca_all_xw [true; true]
                     [1; 1] impulses (mklayout 2 1 2 2 2) 2)) c fi)) 0 2)
        as [v [Hv Hl]].
      + intros c Hc. rewrite trials_of_t3map, Hcell by lia.
        cbn [map]. rewrite Cunit_one. unfold Cmean_nan.
        cbn [all_finite lift2]. unfold Cmean.
        rewrite Cdiv_nan_nonzero by (cbn; lra). eexists. reflexivity.
      + exists v. split; [exact Hv|lia].
    - unfold col_of. cbn [rows t2zip mean_trials mean_trials_R at2 t3map nch].
      destruct (@column_finite
                  (fun c => ocdiv
                     (Cmean (trials_of (mtcpca_all_xw [true; true]
                        [1; 1] impulses (mklayout 2 1 2 2 2) 2) c fi))
                     (Rmean (trials_of (t3map Cabs
                        (mtcpca_all_xw [true; true]
                        [1; 1] impulses (mklayout 2 1 2 2 2) 2)) c fi))) 0 2)
        as [v [Hv Hl]].
      + intros c Hc. rewrite trials_of_t3map, Hcell by lia.
        cbn [map]. rewrite Cabs_real, Rabs_R1. unfold Cmean, Rmean.
        rewrite Cdiv_nan_nonzero by (cbn; lra).
        unfold Rdiv_nan.
        destruct (Req_EM_T (INR (length [1; 1])) 0) as [E|E];
          [cbn in E; lra|].
        cbn [ocdiv]. rewrite Cdiv_nan_nonzero; [eexists; reflexivity|].
        cbn. lra.
      + exists v. split; [exact Hv|lia]. }
  unfold mtcpca_all_taper.
  change (nbin (mtcpca_all_xw [true; true] [1; 1] impulses
                  (mklayout 2 1 2 2 2) 2)) with 2%nat.
  cbn [Nat.eqb]. rewrite Hbs. cbn [bind].
  eexists. reflexivity.
Qed.

Lemma mtcspec_impulses_returns :
  exists r, mtcspec flat_windows impulses unit_params = Ok r.
Proof.
  unfold mtcspec. cbv zeta.
  change (squeeze impulses) with impulses.
  change (dispatch3 impulses) with (Ok (mklayout 2 1 2 2 2)).
  cbn [bind timedim].
  change (FrequencyGrid._get_freq_vector impulses unit_params 2)
    with (Ok (2%nat, FrequencyGrid.full_axis 2 2, [true; true])).
  cbn [bind nchans].
  change (windows flat_windows impulses (mklayout 2 1 2 2 2) unit_params)
    with [[1; 1]].
  cbn [mapM].
  set (xw := rfft [1; 1] impulses (mklayout 2 1 2 2 2) 2).
  rewrite (@cpca_taper_finite 2 (mean_trials xw)
             (fun _ _ => Cscal (/ INR 2) (Csum [(1, 0); (1, 0)]))).
  - cbn [bind]. eexists. reflexivity.
  - cbn. lia.
  - cbn. lia.
  - intros c k Hc _. change (rows (mean_trials xw)) with 2%nat in Hc.
    cbn [mean_trials at2]. unfold xw.
    rewrite impulses_trials by exact Hc.
    cbn [map nth]. unfold Cmean.
    rewrite Cdiv_nan_nonzero by (cbn; lra). reflexivity.
Qed.

Lemma mtcpca_all_matches_mtcspec_witness :
  exists out r a,
    mtcpca_all flat_windows impulses unit_params = Ok out /\
    mtcspec flat_windows impulses unit_params = Ok r /\
    statistic_of r = Some a /\ entry "spectrum" out = Some (Arr a).
Proof.
  destruct mtcpca_all_impulses_returns as [out Hout].
  destruct mtcspec_impulses_returns as [r Hr].
  destruct (@mtcpca_all_matches_mtcspec flat_windows impulses unit_params
              out r eq_refl ltac:(intros N tw; discriminate) Hout Hr)
    as [a [Ha Hs]].
  exists out, r, a.
  split; [exact Hout|]. split; [exact Hr|]. split; [exact Ha|exact Hs].
Defined.

Lemma mtcpca_all_matches_mtcpca_witness :
  exists out r a,
    mtcpca_all flat_windows impulses unit_params = Ok out /\
    mtcpca flat_windows impulses (with_itc false unit_params) = Ok r /\
    statistic_of r = Some a /\ entry "plv" out = Some (Arr a).
Proof.
  destruct mtcpca_all_impulses_returns as [out Hout].
  destruct mtcpca_impulses_returns as [r Hr].
  destruct (@mtcpca_all_matches_mtcpca flat_windows impulses unit_params
              false out r eq_refl ltac:(intros N tw; discriminate) Hout Hr)
    as [a [Ha Hs]].
  exists out, r, a.
  split; [exact Hout|]. split; [exact Hr|]. split; [exact Ha|exact Hs].
Defined.

(** ** The eigenvectors [mtcpca_all] stores *)

Lemma py_index_last_nth (l : list R) (x : R) :
  py_index l (-1) = Ok x -> nth (length l - 1) l 0 = x.
Proof.
  destruct l as [|a l0]; [rewrite py_index_nil; discriminate|].
  destruct (@exists_last _ (a :: l0)) as [l' [y E]]; [discriminate|].
  rewrite E, py_index_last. intros H. injection H as <-.
  rewrite length_app. cbn [length].
  replace (length l' + 1 - 1)%nat with (length l') by lia.
  rewrite app_nth2 by lia. now rewrite Nat.sub_diag.
Qed.

Lemma norm2_scale (z : complex) (v : list complex) :
  norm2 (map (Cmul z) v) = Cabs2 z * norm2 v.
Proof.
  induction v as [|a v IH]; cbn [map].
  - unfold norm2. cbn. ring.
  - rewrite !norm2_cons, IH. unfold Cabs2. rewrite Cabs_mul. ring.
Qed.

(** The last column of any decomposition of [v v^H] the contract allows is
    a unit multiple of [v]. *)
Lemma top_eigenvector (v : list complex) (r : list R * cmat) :
  eigh_contract (outer v (map Cconj v)) r ->
  (1 <= length v)%nat -> norm2 v <> 0 ->
  exists z, column (length v - 1) (snd r) = map (Cmul z) v /\
            Cabs2 z * norm2 v = 1.
Proof.
  intros (Hvals & Hl & Hrows & Hpairs & Horth) Hn HN.
  rewrite outer_length in *.
  set (u := column (length v - 1) (snd r)).
  assert (Htop : nth (length v - 1) (fst r) 0 = norm2 v).
  { pose proof (proj1 Hvals) as Hlen. rewrite outer_length in Hlen.
    rewrite <- Hlen. apply py_index_last_nth.
    apply contract_dominant with (M := outer v (map Cconj v)).
    - exact Hvals.
    - apply outer_top_eigenvalue. exact Hn.
    - intros lam He. apply outer_eigenvalue_bound in He. simpl in He. lra. }
  destruct (Hpairs (length v - 1)%nat ltac:(lia)) as (Hlu & _ & Hmv).
  fold u in Hlu, Hmv. rewrite Htop, mat_vec_outer in Hmv.
  set (s := cdot (map Cconj v) u) in Hmv.
  exists (Cmul (RtoC (/ norm2 v)) s).
  assert (Hu : u = map (Cmul (Cmul (RtoC (/ norm2 v)) s)) v).
  { apply (f_equal (map (Cmul (RtoC (/ norm2 v))))) in Hmv.
    rewrite !map_map in Hmv.
    rewrite (map_ext (fun x => Cmul (RtoC (/ norm2 v))
                                    (Cmul (RtoC (norm2 v)) x))
                     (fun x => x)) in Hmv.
    - rewrite map_id in Hmv. rewrite <- Hmv. apply map_ext.
      intros x. generalize (/ norm2 v). cring.
    - intros [a b]. unfold Cmul, RtoC. cbn [fst snd].
      f_equal; field; exact HN. }
  split; [exact Hu|].
  rewrite <- norm2_scale, <- Hu.
  pose proof (Horth (length v - 1)%nat (length v - 1)%nat
                ltac:(lia) ltac:(lia)) as H1.
  rewrite Nat.eqb_refl in H1. fold u in H1. rewrite inner_self in H1.
  unfold RtoC, C1 in H1. now injection H1.
Qed.

Lemma nth_scaled (z : complex) (v : list complex) (c : nat) :
  nth c (map (Cmul z) v) C0 = Cmul z (nth c v C0).
Proof.
  replace C0 with (Cmul z C0) at 1 by cring. apply map_nth.
Qed.

Lemma eigenvector_rows_top (V : cmat) (vs : list (list complex)) :
  eigenvector_rows V [(-1)%Z] = Ok vs ->
  vs = [column (length V - 1) V].
Proof.
  unfold eigenvector_rows, column_at. cbn [mapM].
  destruct (length V) as [|m] eqn:E.
  - cbn [seq]. rewrite py_index_nil. discriminate.
  - rewrite seq_S, py_index_last. cbn [bind plus].
    intros H. injection H as <-.
    now replace (S m - 1)%nat with m by lia.
Qed.

Lemma stored_eigenvector nchans (col : list nanC) (r : list R * cmat)
  (vs : list (list complex)) :
  eig_select nchans [(-1)%Z] col = Ok r ->
  eigenvector_rows (snd r) [(-1)%Z] = Ok vs ->
  channel_shares col vs.
Proof.
  intros Hsel Hrows.
  destruct (eig_select_top_inv _ _ Hsel) as (v & -> & Hn & ->).
  cbn [snd] in Hrows. apply eigenvector_rows_top in Hrows.
  pose proof (@eigh_outer v Hn) as Hc.
  assert (Hl : length (snd (eigh (outer v (map Cconj v)))) = length v).
  { destruct Hc as (_ & Hl & _). now rewrite outer_length in Hl. }
  rewrite Hl in Hrows.
  assert (Hlu : length (column (length v - 1)
                          (snd (eigh (outer v (map Cconj v)))))
                = length v).
  { unfold column. now rewrite length_map. }
  exists v, (column (length v - 1) (snd (eigh (outer v (map Cconj v))))).
  split; [reflexivity|]. split; [exact Hrows|]. split; [exact Hlu|].
  intros HN. destruct (@top_eigenvector v _ Hc Hn HN) as [z [Hu Hz]].
  rewrite Hu. split.
  - now rewrite norm2_scale.
  - intros c. rewrite nth_scaled. unfold Cabs2 in *. rewrite Cabs_mul.
    replace ((Cabs z * Cabs (nth c v C0)) ^ 2)
      with ((Cabs z ^ 2 * norm2 v) * (Cabs (nth c v C0) ^ 2 / norm2 v))
      by (field; exact HN).
    rewrite Hz. ring.
Qed.

(** X28: when the eigenvectors are requested, what one bin of [mtcpca_all]
    stores for each of its three statistics is one vector with an entry
    per channel; unless the channel statistics are all zero it has unit
    norm, and the squared magnitude of each entry is that channel's share
    of the summed squared magnitudes of the statistics. *)
Theorem eigenvectors_are_channel_shares (p : params) nchans
  (Cm plvC itcC : tensor2 nanC) (fi : nat) (b : bin_out) :
  returnEigenvectors p = Some true ->
  mtcpca_all_bin p nchans [(-1)%Z] Cm plvC itcC fi = Ok b ->
  channel_shares (col_of Cm fi) (bin_cspecV b) /\
  channel_shares (col_of plvC fi) (bin_plvV b) /\
  channel_shares (col_of itcC fi) (bin_itcV b).
Proof.
  intros Hr H. unfold mtcpca_all_bin in H. rewrite Hr in H.
  destruct (eig_select nchans [(-1)%Z] (col_of Cm fi)) as [[s sv]|] eqn:E1;
    [|discriminate].
  destruct (eig_select nchans [(-1)%Z] (col_of plvC fi)) as [[q qv]|] eqn:E2;
    [|discriminate].
  destruct (eig_select nchans [(-1)%Z] (col_of itcC fi)) as [[i iv]|] eqn:E3;
    [|discriminate].
  cbn [bind] in H.
  destruct (eigenvector_rows sv [(-1)%Z]) as [r1|] eqn:R1; [|discriminate].
  destruct (eigenvector_rows qv [(-1)%Z]) as [r2|] eqn:R2; [|discriminate].
  destruct (eigenvector_rows iv [(-1)%Z]) as [r3|] eqn:R3; [|discriminate].
  cbn [bind] in H. injection H as <-.
  cbn [bin_cspecV bin_plvV bin_itcV].
  split; [|split]; eapply stored_eigenvector; eauto.
Qed.

Lemma eigenvectors_are_channel_shares_witness :
  exists b,
    mtcpca_all_bin unit_params 2 [(-1)%Z] all_ones all_ones all_ones 0
    = Ok b /\
    channel_shares (col_of all_ones 0) (bin_cspecV b) /\
    channel_shares (col_of all_ones 0) (bin_plvV b) /\
    channel_shares (col_of all_ones 0) (bin_itcV b).
Proof.
  destruct (@mtcpca_all_bin_returns unit_params 2 all_ones all_ones all_ones
              0 ltac:(discriminate)
              (ex_intro _ [C1; C1] (conj eq_refl (le_S _ _ (le_n 1))))
              (ex_intro _ [C1; C1] (conj eq_refl (le_S _ _ (le_n 1))))
              (ex_intro _ [C1; C1] (conj eq_refl (le_S _ _ (le_n 1)))))
    as [b Hb].
  exists b. split; [exact Hb|].
  exact (@eigenvectors_are_channel_shares unit_params 2 all_ones all_ones
           all_ones 0 b eq_refl Hb).
Defined.

(** ** The lower components of a rank-one matrix *)

(** A column of a decomposition of [v v^H] whose value is [|v|^2] is a
    unit multiple of [v]. *)
Lemma eigenvector_parallel (v : list complex) (r : list R * cmat) (j : nat) :
  eigh_contract (outer v (map Cconj v)) r ->
  (j < length v)%nat -> norm2 v <> 0 ->
  nth j (fst r) 0 = norm2 v ->
  exists z, column j (snd r) = map (Cmul z) v /\ Cabs2 z * norm2 v = 1.
Proof.
  intros (Hvals & Hl & Hrows & Hpairs & Horth) Hj HN Htop.
  rewrite outer_length in *.
  set (u := column j (snd r)).
  destruct (Hpairs j Hj) as (Hlu & _ & Hmv).
  fold u in Hlu, Hmv. rewrite Htop, mat_vec_outer in Hmv.
  set (s := cdot (map Cconj v) u) in Hmv.
  exists (Cmul (RtoC (/ norm2 v)) s).
  assert (Hu : u = map (Cmul (Cmul (RtoC (/ norm2 v)) s)) v).
  { apply (f_equal (map (Cmul (RtoC (/ norm2 v))))) in Hmv.
    rewrite !map_map in Hmv.
    rewrite (map_ext (fun x => Cmul (RtoC (/ norm2 v))
                                    (Cmul (RtoC (norm2 v)) x))
                     (fun x => x)) in Hmv.
    - rewrite map_id in Hmv. rewrite <- Hmv. apply map_ext.
      intros x. generalize (/ norm2 v). cring.
    - intros [a b]. unfold Cmul, RtoC. cbn [fst snd].
      f_equal; field; exact HN. }
  split; [exact Hu|].
  rewrite <- norm2_scale, <- Hu.
  pose proof (Horth j j Hj Hj) as H1.
  rewrite Nat.eqb_refl in H1. fold u in H1. rewrite inner_self in H1.
  unfold RtoC, C1 in H1. now injection H1.
Qed.

(** The values of any decomposition of [v v^H] the contract allows. *)
Lemma contract_values (v : list complex) (r : list R * cmat) :
  eigh_contract (outer v (map Cconj v)) r ->
  (1 <= length v)%nat ->
  fst r = repeat 0 (length v - 1) ++ [norm2 v].
Proof.
  intros Hc Hn. pose proof Hc as (Hvals & Hl & Hrows & Hpairs & Horth).
  pose proof Hvals as (Hlen & Hs & Hiff).
  rewrite outer_length in *.
  assert (Htop : nth (length v - 1) (fst r) 0 = norm2 v).
  { rewrite <- Hlen. apply py_index_last_nth.
    apply contract_dominant with (M := outer v (map Cconj v)).
    - exact Hvals.
    - apply outer_top_eigenvalue. exact Hn.
    - intros lam He. apply outer_eigenvalue_bound in He. simpl in He. lra. }
  apply nth_ext with (d := 0) (d' := 0).
  { rewrite length_app, repeat_length. cbn [length]. lia. }
  intros j Hj. rewrite Hlen in Hj.
  destruct (Nat.eq_dec j (length v - 1)) as [->|Hne].
  { rewrite Htop. now rewrite last_value. }
  rewrite lower_value by lia.
  assert (Hin : In (nth j (fst r) 0) (fst r)) by (apply nth_In; lia).
  apply Hiff in Hin. apply outer_eigenvalue_cases in Hin.
  destruct Hin as [E|E].
  2:{ unfold RtoC, C0 in E. now injection E. }
  unfold RtoC in E. injection E as E.
  destruct (Req_EM_T (norm2 v) 0) as [E0|E0]; [congruence|].
  exfalso.
  destruct (@eigenvector_parallel v r j Hc ltac:(lia) E0 E) as [zj [Huj Hzj]].
  destruct (@eigenvector_parallel v r (length v - 1)%nat Hc ltac:(lia) E0
              Htop) as [z [Hu Hz]].
  pose proof (Horth j (length v - 1)%nat ltac:(lia) ltac:(lia)) as Ho.
  destruct (Nat.eqb_spec j (length v - 1)); [contradiction|].
  rewrite Huj, Hu, inner_scale_l in Ho.
  unfold inner in Ho. rewrite cdot_scale_r in Ho.
  fold (inner v v) in Ho. rewrite inner_self in Ho.
  apply (f_equal Cabs) in Ho.
  rewrite !Cabs_mul, Cabs_conj in Ho.
  replace (Cabs C0) with 0 in Ho
    by (symmetry; apply Cabs_0_iff; reflexivity).
  unfold RtoC in Ho. rewrite Cabs_real in Ho.
  unfold Cabs2 in Hzj, Hz.
  pose proof (Cabs_nonneg zj). pose proof (Cabs_nonneg z).
  pose proof (norm2_nonneg v).
  rewrite Rabs_right in Ho by lra.
  assert (Hp : (Cabs zj * (Cabs z * norm2 v)) ^ 2 = 1).
  { replace ((Cabs zj * (Cabs z * norm2 v)) ^ 2)
      with ((Cabs zj ^ 2 * norm2 v) * (Cabs z ^ 2 * norm2 v)) by ring.
    rewrite Hzj, Hz. ring. }
  rewrite Ho in Hp. lra.
Qed.

Lemma eigh_values (v : list complex) :
  (1 <= length v)%nat ->
  fst (eigh (outer v (map Cconj v))) = repeat 0 (length v - 1) ++ [norm2 v].
Proof.
  intros Hn. apply contract_values; [|exact Hn]. now apply eigh_outer.
Qed.

Lemma py_index_rank_one (n : nat) (N : R) (i : Z) (e : R) :
  py_index (repeat 0 n ++ [N]) i = Ok e ->
  e = if ((i =? -1) || (i =? Z.of_nat (n + 1) - 1))%Z then N else 0.
Proof.
  unfold py_index. rewrite length_app, repeat_length. cbn [length].
  set (m := Z.of_nat (n + 1)).
  set (j := if (i <? 0)%Z then (m + i)%Z else i).
  destruct ((0 <=? j) && (j <? m))%Z eqn:Hb; [|discriminate].
  apply andb_prop in Hb. destruct Hb as [H0 H1].
  apply Z.leb_le in H0. apply Z.ltb_lt in H1.
  destruct (nth_error (repeat 0 n ++ [N]) (Z.to_nat j)) as [a|] eqn:Ea;
    [|discriminate].
  intros H. injection H as <-.
  apply nth_error_nth with (d := 0) in Ea.
  assert (Hj : (Z.to_nat j < n \/ Z.to_nat j = n)%nat) by (unfold m in *; lia).
  destruct Hj as [Hj|Hj].
  - rewrite lower_value in Ea by exact Hj. subst a.
    destruct (Z.eqb_spec i (-1)) as [->|Hi1].
    { exfalso. unfold j in *. cbn in *. unfold m in *. lia. }
    destruct (Z.eqb_spec i (m - 1)) as [->|Hi2].
    { exfalso. unfold j in *.
      destruct (Z.ltb_spec (m - 1) 0); unfold m in *; lia. }
    reflexivity.
  - rewrite Hj, last_value in Ea. subst a.
    destruct (Z.eqb_spec i (-1)) as [->|Hi1]; [reflexivity|].
    destruct (Z.eqb_spec i (m - 1)) as [->|Hi2]; [reflexivity|].
    exfalso. unfold j in *.
    destruct (Z.ltb_spec i 0); unfold m in *; lia.
Qed.

Lemma mapM_nil_source {A B} (F : A -> outcome B) (l : list A) (bs : list B) :
  (forall a, F a = Raise IndexError) -> mapM F l = Ok bs -> l = [] /\ bs = [].
Proof.
  intros HF. destruct l as [|a l]; cbn [mapM].
  - intros H. injection H as <-. split; reflexivity.
  - rewrite HF. discriminate.
Qed.

Lemma mapM_map {A B} (F : A -> outcome B) (g : A -> B) (l : list A)
  (bs : list B) :
  (forall a b, F a = Ok b -> b = g a) -> mapM F l = Ok bs -> bs = map g l.
Proof.
  intros HF H. apply mapM_Ok in H.
  induction H as [|a b l bs Hab _ IH]; [reflexivity|].
  cbn [map]. f_equal; [now apply HF|exact IH].
Qed.

(** One decomposition, any component indices: the values selected. *)
Lemma eig_select_values nchans (pc : list Z) (col : list nanC)
  (r : list R * cmat) :
  eig_select nchans pc col = Ok r ->
  rank_one_values nchans col pc (fst r).
Proof.
  intros H.
  destruct (all_finite col) as [v|] eqn:E.
  2:{ apply all_finite_None in E. unfold eig_select, linalg_eigh in H.
      rewrite (outer_nan_not_finite col E) in H. discriminate. }
  apply all_finite_map_Some in E. subst col.
  exists v. split; [reflexivity|].
  unfold eig_select, linalg_eigh in H. rewrite map_map in H. simpl in H.
  rewrite <- (map_map Cconj Some) in H.
  rewrite outer_nan_finite in H. cbn [bind] in H.
  destruct (eigh (outer v (map Cconj v))) as [vals vecs] eqn:Ee.
  destruct (mapM (py_index vals) pc) as [sel|] eqn:Es; [|discriminate].
  cbn [bind] in H. injection H as <-. cbn [fst].
  destruct v as [|a v].
  - pose proof eigh_nil as Hn. cbn [outer map] in Ee. rewrite Ee in Hn.
    cbn [fst] in Hn. subst vals.
    destruct (@mapM_nil_source _ _ (py_index []) pc sel
                (fun i => py_index_nil i) Es) as [-> ->].
    reflexivity.
  - pose proof (@eigh_values (a :: v) ltac:(cbn; lia)) as Hv.
    rewrite Ee in Hv. cbn [fst] in Hv. subst vals.
    assert (Hsel : sel
              = map (fun i => if ((i =? -1)
                                  || (i =? Z.of_nat (length (a :: v)) - 1))%Z
                              then norm2 (a :: v) else 0) pc).
    { eapply mapM_map; [|exact Es].
      intros i e He. apply py_index_rank_one in He.
      replace (length (a :: v) - 1 + 1)%nat with (length (a :: v)) in He
        by (cbn; lia).
      exact He. }
    rewrite Hsel, map_map. apply map_ext. intros i. unfold component_value.
    destruct ((i =? -1) || (i =? Z.of_nat (length (a :: v)) - 1))%Z;
      [reflexivity|]. unfold Rdiv. ring.
Qed.

(** X29: whichever components are requested, what one bin of [mtcpca_all]
    holds for each of its three statistics is the summed squared magnitude
    of the channel statistics over the channel count for the top
    component, and exactly zero for every other component. *)
Theorem lower_components_vanish (p : params) nchans (pc : list Z)
  (Cm plvC itcC : tensor2 nanC) (fi : nat) (b : bin_out) :
  mtcpca_all_bin p nchans pc Cm plvC itcC fi = Ok b ->
  rank_one_values nchans (col_of Cm fi) pc (bin_cspec b) /\
  rank_one_values nchans (col_of plvC fi) pc (bin_plv b) /\
  rank_one_values nchans (col_of itcC fi) pc (bin_itc b).
Proof.
  intros H. unfold mtcpca_all_bin in H.
  destruct (eig_select nchans pc (col_of Cm fi)) as [[s sv]|] eqn:E1;
    [|discriminate].
  destruct (eig_select nchans pc (col_of plvC fi)) as [[q qv]|] eqn:E2;
    [|discriminate].
  destruct (eig_select nchans pc (col_of itcC fi)) as [[i iv]|] eqn:E3;
    [|discriminate].
  cbn [bind] in H.
  apply eig_select_values in E1, E2, E3. cbn [fst] in E1, E2, E3.
  destruct (returnEigenvectors p) as [[|]|]; [| |discriminate].
  - destruct (eigenvector_rows sv pc); [|discriminate].
    destruct (eigenvector_rows qv pc); [|discriminate].
    destruct (eigenvector_rows iv pc); [|discriminate].
    cbn [bind] in H. injection H as <-. cbn. auto.
  - injection H as <-. cbn. auto.
Qed.

Lemma eig_select_two nchans (v : list complex) :
  length v = 2%nat ->
  exists sel,
    eig_select nchans [(-1)%Z; (-2)%Z] (map Some v)
    = Ok (sel, snd (eigh (outer v (map Cconj v)))).
Proof.
  intros Hl. unfold eig_select, linalg_eigh.
  rewrite map_map. simpl.
  rewrite <- (map_map Cconj Some).
  rewrite outer_nan_finite. cbn [bind].
  pose proof (@eigh_values v ltac:(lia)) as Hv.
  destruct (eigh (outer v (map Cconj v))) as [vals vecs].
  cbn [fst snd] in *. subst vals. rewrite Hl.
  set (N := norm2 v). cbn [Nat.sub repeat app mapM].
  unfold py_index. cbn [length Z.of_nat Pos.of_succ_nat Pos.succ Z.ltb
    Z.compare Z.add Z.pos_sub Pos.pred_double Z.leb andb Z.to_nat
    Pos.to_nat Pos.iter_op Pos.compare Pos.compare_cont nth_error bind
    Nat.add Z.succ_double Z.pred_double Z.double Z.opp].
  eexists. reflexivity.
Qed.

Lemma eigenvector_rows_pair (V : cmat) :
  length V = 2%nat ->
  exists vs, eigenvector_rows V [(-1)%Z; (-2)%Z] = Ok vs.
Proof.
  intros Hl. unfold eigenvector_rows, column_at. cbn [mapM].
  rewrite Hl. cbn. eexists. reflexivity.
Qed.

Lemma all_ones_bin_returns :
  exists b,
    mtcpca_all_bin unit_params 2 [(-1)%Z; (-2)%Z] all_ones all_ones all_ones 0
    = Ok b.
Proof.
  unfold mtcpca_all_bin.
  change (col_of all_ones 0) with (map Some [C1; C1]).
  destruct (@eig_select_two 2 [C1; C1] eq_refl) as [sel ->].
  cbn [bind]. change (returnEigenvectors unit_params) with (Some true).
  cbv iota.
  destruct (@eigenvector_rows_pair (snd (eigh (outer [C1; C1]
              (map Cconj [C1; C1]))))) as [vs ->].
  { destruct (@eigh_outer [C1; C1] ltac:(cbn; lia)) as (_ & Hl & _).
    exact Hl. }
  cbn [bind]. eexists. reflexivity.
Qed.

Lemma lower_components_vanish_witness :
  exists b,
    mtcpca_all_bin unit_params 2 [(-1)%Z; (-2)%Z] all_ones all_ones all_ones 0
    = Ok b /\
    rank_one_values 2 (col_of all_ones 0) [(-1)%Z; (-2)%Z] (bin_cspec b) /\
    rank_one_values 2 (col_of all_ones 0) [(-1)%Z; (-2)%Z] (bin_plv b) /\
    rank_one_values 2 (col_of all_ones 0) [(-1)%Z; (-2)%Z] (bin_itc b).
Proof.
  destruct all_ones_bin_returns as [b Hb].
  exists b. split; [exact Hb|].
  exact (@lower_components_vanish unit_params 2 [(-1)%Z; (-2)%Z] all_ones
           all_ones all_ones 0 b Hb).
Defined.

(** ** The passband mask and what a call lets one observe of it *)










(** *** One cell of each per-taper statistic

    Each is a function of the trials of its own (channel, bin) cell. *)

Section Cell.

Variables (X Y : tensor3 complex) (c k : nat).
Hypothesis Hntr : ntr Y = ntr X.
Hypothesis Hcell : forall t, (t < ntr X)%nat -> at3 Y c t k = at3 X c t k.










End Cell.




(** *** The estimators whose result is made of the kept bins alone *)

Section Locality.

Variable dpss : nat -> Q -> nat -> list (list R).
Variables (x y : ndarray R) (p : params) (lay : layout).
Variables (n : nat) (f : list Q) (fInd : list bool).

Hypothesis Hshape : shape (squeeze y) = shape (squeeze x).
Hypothesis Hd : dispatch (squeeze x) = Ok lay.
Hypothesis Hg :
  FrequencyGrid._get_freq_vector (squeeze x) p (timedim lay) = Ok (n, f, fInd).
Hypothesis Hloc :
  forall tap c t k,
    In tap (windows dpss (squeeze x) lay p) ->
    (c < nchans lay)%nat -> (t < ntrials lay)%nat -> In k (kept fInd) ->
    at3 (rfft tap (squeeze y) lay n) c t k
    = at3 (rfft tap (squeeze x) lay n) c t k.


Ltac cell Htap Hc Hk :=
  first [ reflexivity
        | intros t Ht; cbn [ntr rfft] in Ht;
          apply Hloc; [exact Htap | exact Hc | exact Ht | exact Hk] ].





(** The pairs [randint(0, ntrials, ...)] draws name trials that exist. *)
Variable ri : pair_source.
Hypothesis Hri :
  (0 < ntrials lay)%nat ->
  forall k i, (fst (ri k i) < ntrials lay)%nat /\
              (snd (ri k i) < ntrials lay)%nat.






End Locality.


(** *** When [mtcpca_all] returns *)





(** *** A four-point transform by hand *)













